(** * WebSocketFileSystemProvider: wire codec, command/response schemas,
      in-memory file system, example server and RPC client.

    A shallow embedding of the TypeScript sources in Rocq, followed by the
    theorems that settle the properties stated for them.

    Conventions of the embedding.
    - A JavaScript number that the code uses as a length, an offset, a tag or
      a time stamp is a [Z]; the 32-bit and 8-bit stores of [DataView] wrap.
    - A [Uint8Array] / [ArrayBuffer] is a [list byte].
    - A JSON value is [JSONValue]; an object is a finite map from keys to
      values, so two objects are equal when they have the same fields.
      Numbers that are not integers are outside the embedding.
    - A thrown exception is the [Throw] case of [Result].
    - The objects of the in-memory file system live in a store addressed by
      locations, since the code mutates them in place and shares them.
    - What the platform provides ([JSON.stringify], [JSON.parse],
      [TextEncoder], [TextDecoder], [Date.now]) is the class [Runtime]. *)

From stdpp Require Import gmap strings list fin_maps pretty.
From Stdlib Require Import ZArith Strings.Byte Strings.Ascii.

#[local] Set Warnings "-register-all".
#[local] Open Scope Z_scope.

(* ===================================================================== *)
(** ** JavaScript values, errors and results                              *)
(* ===================================================================== *)

Module JS.

(** src/util/jsonSchema.ts: [JSONValue = JSONLiteral | JSONObject | JSONValue[]]. *)
Inductive JSONValue :=
| JNull
| JBool (b : bool)
| JNumber (n : Z)
| JString (s : string)
| JArray (items : list JSONValue)
| JObject (fields : gmap string JSONValue).

(** The codes of vscode's [FileSystemError] that the sources mention. *)
Inductive FileSystemErrorCode :=
| FileNotFound
| FileExists
| FileNotADirectory
| FileIsADirectory
| NoPermissions
| Unavailable.

Definition code_string (c : FileSystemErrorCode) : string :=
  match c with
  | FileNotFound => "FileNotFound"
  | FileExists => "FileExists"
  | FileNotADirectory => "FileNotADirectory"
  | FileIsADirectory => "FileIsADirectory"
  | NoPermissions => "NoPermissions"
  | Unavailable => "Unavailable"
  end.

(** What a [throw] can carry in these sources. *)
Inductive JSError :=
| FileSystemError (code : FileSystemErrorCode) (messageOrUri : string)
| ZodError
| RangeError
| Error (message : string).

Inductive Result (A : Type) :=
| Ok (a : A)
| Throw (e : JSError).
Arguments Ok {A} a.
Arguments Throw {A} e.

Definition bind {A B} (r : Result A) (k : A -> Result B) : Result B :=
  match r with
  | Ok a => k a
  | Throw e => Throw e
  end.

(** [schema.parse] throws a [ZodError] where [safeParse] reports a failure. *)
Definition orThrowZod {A} (o : option A) : Result A :=
  match o with
  | Some a => Ok a
  | None => Throw ZodError
  end.

End JS.
Export JS.

#[global] Instance Result_ret : MRet Result := @Ok.
#[global] Instance Result_bind : MBind Result := fun A B k r => JS.bind r k.
#[global] Instance Result_fmap : FMap Result :=
  fun A B f r => match r with Ok a => Ok (f a) | Throw e => Throw e end.

(* ===================================================================== *)
(** ** Typed arrays and [DataView]                                        *)
(* ===================================================================== *)

Module Bytes.

Definition byte_of_Z (z : Z) : byte :=
  match Byte.of_N (Z.to_N (z mod 256)) with
  | Some b => b
  | None => "000"%byte
  end.

Definition Z_of_byte (b : byte) : Z := Z.of_N (Byte.to_N b).

(** [new ArrayBuffer(n)]: [n] zero bytes. *)
Definition ArrayBuffer_new (n : nat) : list byte := replicate n "000"%byte.

(** [view.getUint8(off)]; a [RangeError] outside the buffer. *)
Definition getUint8 (buf : list byte) (off : nat) : Result Z :=
  match buf !! off with
  | Some b => Ok (Z_of_byte b)
  | None => Throw RangeError
  end.

(** [view.getUint32(off)], big-endian; a [RangeError] unless all four bytes
    are inside the buffer. *)
Definition getUint32 (buf : list byte) (off : nat) : Result Z :=
  match buf !! off, buf !! (off + 1)%nat, buf !! (off + 2)%nat, buf !! (off + 3)%nat with
  | Some b0, Some b1, Some b2, Some b3 =>
      Ok (Z.lor (Z.shiftl (Z_of_byte b0) 24)
         (Z.lor (Z.shiftl (Z_of_byte b1) 16)
         (Z.lor (Z.shiftl (Z_of_byte b2) 8) (Z_of_byte b3))))
  | _, _, _, _ => Throw RangeError
  end.

(** [view.setUint8(off, v)]: stores [v] modulo 2^8. The encoder only writes
    inside the buffer it has just allocated (lemma [encode_layout]); outside
    it JavaScript throws, and this function leaves the buffer as it is. *)
Definition setUint8 (buf : list byte) (off : nat) (v : Z) : list byte :=
  <[off := byte_of_Z v]> buf.

(** [view.setUint32(off, v)]: stores [v] modulo 2^32, big-endian. *)
Definition setUint32 (buf : list byte) (off : nat) (v : Z) : list byte :=
  <[(off + 3)%nat := byte_of_Z v]>
    (<[(off + 2)%nat := byte_of_Z (Z.shiftr v 8)]>
      (<[(off + 1)%nat := byte_of_Z (Z.shiftr v 16)]>
        (<[off := byte_of_Z (Z.shiftr v 24)]> buf))).

(** [uint8View.set(src, off)]: copies [src] over the bytes from [off] on. *)
Definition Uint8Array_set (buf src : list byte) (off : nat) : list byte :=
  if decide (off + length src <= length buf)%nat
  then take off buf ++ src ++ drop (off + length src) buf
  else buf.

(** The relative index of [TypedArray.prototype.slice]: a negative index
    counts from the end, and the result is clamped to the array. *)
Definition relative_index (len k : Z) : Z :=
  if k <? 0 then Z.max (len + k) 0 else Z.min k len.

(** [bytes.slice(start, end)]. *)
Definition Uint8Array_slice (bytes : list byte) (start end_ : Z) : list byte :=
  let len := Z.of_nat (length bytes) in
  let first := relative_index len start in
  let final := relative_index len end_ in
  take (Z.to_nat (final - first)) (drop (Z.to_nat first) bytes).

End Bytes.
Export Bytes.

(* ===================================================================== *)
(** ** The part of zod that the schemas use                               *)
(* ===================================================================== *)

Module Zod.

(** What an object schema does with keys that are not in its shape. *)
Inductive UnknownKeys := strip | passthrough | strict.

(** Schemas for JSON payloads. [z_jsonValue] stands for the recursive
    [jsonValueSchema] of src/util/jsonSchema.ts. *)
Inductive Schema :=
| z_string
| z_string_uuid
| z_boolean
| z_number
| z_number_int
| z_literal (v : JSONValue)
| z_enum (values : list string)
| z_jsonValue
| z_array (element : Schema)
| z_tuple (items : list Schema)
| z_object (shape : list (string * Schema)) (unknownKeys : UnknownKeys)
| z_union (options : list Schema)
| z_optional (inner : Schema).

Definition is_hex (c : ascii) : bool :=
  let n := nat_of_ascii c in
  ((48 <=? n) && (n <=? 57) || (65 <=? n) && (n <=? 70) || (97 <=? n) && (n <=? 102))%nat.

(** [count] hexadecimal digits, then the rest of the string. *)
Fixpoint hex_run (count : nat) (s : string) : option string :=
  match count with
  | O => Some s
  | S count' =>
      match s with
      | String c s' => if is_hex c then hex_run count' s' else None
      | EmptyString => None
      end
  end.

Definition dash (s : string) : option string :=
  match s with
  | String "-"%char s' => Some s'
  | _ => None
  end.

(** zod 3.23's [uuidRegex]: groups of 8, 4, 4, 4 and 12 hexadecimal digits
    separated by dashes. *)
Definition is_uuid (s : string) : bool :=
  let group (n : nat) (o : option string) : option string := o ≫= hex_run n in
  let sep (o : option string) : option string := o ≫= dash in
  match group 12%nat (sep (group 4%nat (sep (group 4%nat (sep (group 4%nat
          (sep (group 8%nat (Some s))))))))) with
  | Some EmptyString => true
  | _ => false
  end.

(** [===] between a value and the literal of [z.literal]. *)
Definition literal_eqb (lit v : JSONValue) : bool :=
  match lit, v with
  | JNull, JNull => true
  | JBool a, JBool b => bool_decide (a = b)
  | JNumber a, JNumber b => bool_decide (a = b)
  | JString a, JString b => bool_decide (a = b)
  | _, _ => false
  end.

(** A field whose value is [undefined] (the key is absent) passes only an
    optional schema. *)
Definition accepts_undefined (s : Schema) : bool :=
  match s with
  | z_optional _ => true
  | _ => false
  end.

(** [schema.safeParse(v)]: the parsed value, or [None] for a failure.
    An object schema parses every field of its shape, then strips, keeps or
    rejects the keys outside its shape; a union returns what its first
    succeeding option returns. *)
Fixpoint parse (s : Schema) (v : JSONValue) {struct s} : option JSONValue :=
  match s with
  | z_string => match v with JString _ => Some v | _ => None end
  | z_string_uuid => match v with JString x => if is_uuid x then Some v else None | _ => None end
  | z_boolean => match v with JBool _ => Some v | _ => None end
  | z_number => match v with JNumber _ => Some v | _ => None end
  | z_number_int => match v with JNumber _ => Some v | _ => None end
  | z_literal lit => if literal_eqb lit v then Some v else None
  | z_enum values =>
      match v with
      | JString x => if bool_decide (x ∈ values) then Some v else None
      | _ => None
      end
  | z_jsonValue => Some v
  | z_array element =>
      match v with
      | JArray items => JArray <$> mapM (parse element) items
      | _ => None
      end
  | z_tuple schemas =>
      match v with
      | JArray items =>
          let fix each (ss : list Schema) (vs : list JSONValue) : option (list JSONValue) :=
            match ss, vs with
            | [], [] => Some []
            | s' :: ss', v' :: vs' =>
                r ← parse s' v'; rs ← each ss' vs'; Some (r :: rs)
            | _, _ => None
            end in
          JArray <$> each schemas items
      | _ => None
      end
  | z_object shape unknownKeys =>
      match v with
      | JObject o =>
          let fix fields (sh : list (string * Schema)) : option (gmap string JSONValue) :=
            match sh with
            | [] => Some ∅
            | (k, s') :: sh' =>
                match o !! k with
                | Some x => r ← parse s' x; acc ← fields sh'; Some (<[k := r]> acc)
                | None => if accepts_undefined s' then fields sh' else None
                end
            end in
          out ← fields shape;
          match unknownKeys with
          | strip => Some (JObject out)
          | passthrough => Some (JObject (out ∪ o))
          | strict =>
              if bool_decide (dom o ⊆ list_to_set shape.*1)
              then Some (JObject out) else None
          end
      | _ => None
      end
  | z_union options =>
      let fix first (ss : list Schema) : option JSONValue :=
        match ss with
        | [] => None
        | s' :: ss' =>
            match parse s' v with
            | Some r => Some r
            | None => first ss'
            end
        end in
      first options
  | z_optional inner => parse inner v
  end.

(** The fields of a shape parsed against the fields of an object: the loop
    inside [parse] for [z_object], as a function of its own. *)
Definition parse_fields (o : gmap string JSONValue)
    : list (string * Schema) -> option (gmap string JSONValue) :=
  fix fields (sh : list (string * Schema)) : option (gmap string JSONValue) :=
    match sh with
    | [] => Some ∅
    | (k, s') :: sh' =>
        match o !! k with
        | Some x => r ← parse s' x; acc ← fields sh'; Some (<[k := r]> acc)
        | None => if accepts_undefined s' then fields sh' else None
        end
    end.

(** [a.extend(b)]: the keys of [b] replace those of [a], new keys are
    appended; the treatment of unknown keys stays that of [a]. *)
Fixpoint shape_set (shape : list (string * Schema)) (k : string) (s : Schema) : list (string * Schema) :=
  match shape with
  | [] => [(k, s)]
  | (k', s') :: shape' =>
      if bool_decide (k' = k) then (k, s) :: shape' else (k', s') :: shape_set shape' k s
  end.

Definition extend (a : Schema) (b : list (string * Schema)) : Schema :=
  match a with
  | z_object shape unknownKeys =>
      z_object (fold_left (fun sh ks => shape_set sh ks.1 ks.2) b shape) unknownKeys
  | _ => a
  end.

(** [a.strict()]. *)
Definition strict_ (a : Schema) : Schema :=
  match a with
  | z_object shape _ => z_object shape strict
  | _ => a
  end.

(** The schemas of a message as a whole. Every one in the sources is an
    object with the keys [messageType] (a literal), [messageJson] and,
    unless omitted, [messageBinary]. *)
Inductive BinarySchema :=
| bin_instanceof_optional   (* z.instanceof(Uint8Array).optional() *)
| bin_never_optional        (* z.never().optional() *)
| bin_default_empty         (* z.instanceof(Uint8Array).optional().default(() => new Uint8Array()) *)
| bin_omitted.              (* .omit({ messageBinary: true }) *)

Record MessageSchema := {
  shape_messageType : Z;
  shape_messageJson : Schema;
  shape_messageBinary : BinarySchema;
  message_unknownKeys : UnknownKeys;
}.

End Zod.
Export Zod.

(* ===================================================================== *)
(** ** What the platform provides                                         *)
(* ===================================================================== *)

(** [JSON_parse] is [None] where [JSON.parse] throws a [SyntaxError].
    [Date_now n] is what the [n]-th call of [Date.now()] returns. *)
Class Runtime := {
  JSON_stringify : JSONValue -> string;
  JSON_parse : string -> option JSONValue;
  TextEncoder_encode : string -> list byte;
  TextDecoder_decode : list byte -> string;
  Date_now : nat -> Z;
}.

(* ===================================================================== *)
(** ** src/wireProtocol.ts                                                *)
(* ===================================================================== *)

Module WireProtocol.

Definition PAYLOAD_LENGTH_OFFSET : nat := 0.
Definition JSON_LENGTH_OFFSET : nat := 4.
Definition MESSAGE_TYPE_OFFSET : nat := 8.
Definition HEADER_LENGTH : nat := 9.

Module MessageType.
Definition Command : Z := 0.
Definition Response : Z := 1.
Definition Event : Z := 2.
End MessageType.

(** [{ messageType, messageJson, messageBinary? }]. *)
Record Message := {
  messageType : Z;
  messageJson : JSONValue;
  messageBinary : option (list byte);
}.

(** The [messageBinary] field of a message schema, applied to the field of
    the input. [None] as a result is a validation failure. *)
Definition parse_binary (b : BinarySchema) (unknownKeys : UnknownKeys)
    (data : option (list byte)) : option (option (list byte)) :=
  match b, data with
  | bin_instanceof_optional, _ => Some data
  | bin_never_optional, None => Some None
  | bin_never_optional, Some _ => None
  | bin_default_empty, None => Some (Some [])
  | bin_default_empty, Some _ => Some data
  | bin_omitted, None => Some None
  | bin_omitted, Some _ =>
      match unknownKeys with
      | strip => Some None
      | passthrough => Some data
      | strict => None
      end
  end.

(** [schema.safeParse(message)] for a message schema. *)
Definition parse_message (sch : MessageSchema) (m : Message) : option Message :=
  if bool_decide (messageType m = shape_messageType sch) then
    json ← parse (shape_messageJson sch) (messageJson m);
    binary ← parse_binary (shape_messageBinary sch) (message_unknownKeys sch) (messageBinary m);
    Some {| messageType := messageType m; messageJson := json; messageBinary := binary |}
  else None.

(** [z.union([...])] of message schemas. *)
Fixpoint parse_union (options : list MessageSchema) (m : Message) : option Message :=
  match options with
  | [] => None
  | sch :: options' =>
      match parse_message sch m with
      | Some r => Some r
      | None => parse_union options' m
      end
  end.

(** [z.discriminatedUnion("messageType", [...])]: the option whose literal
    is the message's [messageType] parses it. *)
Definition parse_discriminatedUnion (options : list MessageSchema) (m : Message) : option Message :=
  match List.find (fun sch => bool_decide (messageType m = shape_messageType sch)) options with
  | Some sch => parse_message sch m
  | None => None
  end.

(** [a.extend({ messageJson, messageBinary })], [a.extend({ messageJson })],
    [a.omit({ messageBinary: true })] and [a.strict()] on message schemas. *)
Definition extend_message (a : MessageSchema) (json : Schema) (binary : BinarySchema) : MessageSchema :=
  {| shape_messageType := shape_messageType a;
     shape_messageJson := json;
     shape_messageBinary := binary;
     message_unknownKeys := message_unknownKeys a |}.

Definition extend_messageJson (a : MessageSchema) (json : Schema) : MessageSchema :=
  extend_message a json (shape_messageBinary a).

Definition omit_messageBinary (a : MessageSchema) : MessageSchema :=
  extend_message a (shape_messageJson a) bin_omitted.

Definition strict_message (a : MessageSchema) : MessageSchema :=
  {| shape_messageType := shape_messageType a;
     shape_messageJson := shape_messageJson a;
     shape_messageBinary := shape_messageBinary a;
     message_unknownKeys := strict |}.

Definition commandMessageSchema : MessageSchema :=
  {| shape_messageType := MessageType.Command;
     shape_messageJson :=
       z_object [("command", z_string); ("commandId", z_string_uuid)] passthrough;
     shape_messageBinary := bin_instanceof_optional;
     message_unknownKeys := strip |}.

Definition responseMessageSchema : MessageSchema :=
  {| shape_messageType := MessageType.Response;
     shape_messageJson :=
       z_object [("commandId", z_string_uuid); ("success", z_boolean)] passthrough;
     shape_messageBinary := bin_instanceof_optional;
     message_unknownKeys := strip |}.

Definition eventMessageSchema : MessageSchema :=
  {| shape_messageType := MessageType.Event;
     shape_messageJson := z_jsonValue;
     shape_messageBinary := bin_instanceof_optional;
     message_unknownKeys := strip |}.

Definition messageSchema : list MessageSchema :=
  [commandMessageSchema; responseMessageSchema; eventMessageSchema].

(** [{ success: true; message } | { success: false; error }]. *)
Inductive MessageParseResult :=
| success_true (message : Message)
| success_false (error : JSError).

Section Codec.
Context `{Runtime}.

(** [stringToJSONSchema.parse(str)] of src/util/jsonSchema.ts. *)
Definition stringToJSONSchema_parse (str : string) : Result JSONValue :=
  orThrowZod (JSON_parse str).

Definition messageFromBytes (bytes : list byte) : MessageParseResult :=
  let attempt : Result Message :=
    totalLength ← getUint32 bytes PAYLOAD_LENGTH_OFFSET;
    jsonLength ← getUint32 bytes JSON_LENGTH_OFFSET;
    let binaryLength := totalLength - jsonLength in
    messageType ← getUint8 bytes MESSAGE_TYPE_OFFSET;
    messageJson ← stringToJSONSchema_parse
      (TextDecoder_decode
         (Uint8Array_slice bytes (Z.of_nat HEADER_LENGTH) (Z.of_nat HEADER_LENGTH + jsonLength)));
    let messageBinary :=
      if bool_decide (binaryLength = 0) then None
      else Some (Uint8Array_slice bytes (Z.of_nat HEADER_LENGTH + jsonLength)
                   (Z.of_nat HEADER_LENGTH + jsonLength + binaryLength)) in
    let provisionalMessage :=
      {| messageType := messageType; messageJson := messageJson; messageBinary := messageBinary |} in
    orThrowZod (parse_discriminatedUnion messageSchema provisionalMessage) in
  match attempt with
  | Ok message => success_true message
  | Throw _ => success_false (Error "Error reading message from Uint8Array")
  end.

Definition arrayBufferFromMessage (m : Message) : list byte :=
  let jsonBytes := TextEncoder_encode (JSON_stringify (messageJson m)) in
  let jsonLength := length jsonBytes in
  let binaryLength := match messageBinary m with Some binary => length binary | None => 0%nat end in
  let buffer := ArrayBuffer_new (HEADER_LENGTH + jsonLength + binaryLength) in
  let buffer := setUint32 buffer PAYLOAD_LENGTH_OFFSET (Z.of_nat (jsonLength + binaryLength)) in
  let buffer := setUint32 buffer JSON_LENGTH_OFFSET (Z.of_nat jsonLength) in
  let buffer := setUint8 buffer MESSAGE_TYPE_OFFSET (messageType m) in
  let buffer := Uint8Array_set buffer jsonBytes HEADER_LENGTH in
  match messageBinary m with
  | Some binary => Uint8Array_set buffer binary (HEADER_LENGTH + jsonLength)
  | None => buffer
  end.

End Codec.

End WireProtocol.
Export WireProtocol.

(* ===================================================================== *)
(** ** src/fileSystemProtocol/commands.ts                                 *)
(* ===================================================================== *)

Module Commands.

(** The result of the [...NarrowableSchema] transforms:
    [{ command: full.messageJson.command, message: full }]. *)
Record Narrowed := {
  command : string;
  message : Message;
}.

Definition json_command (json : JSONValue) : string :=
  match json with
  | JObject o => match o !! "command" with Some (JString c) => c | _ => "" end
  | _ => ""
  end.

Definition narrow (full : Message) : Narrowed :=
  {| command := json_command (messageJson full); message := full |}.

(** [schema.transform(f)], and [z.union] of transformed schemas. *)
Definition transform {A} (sch : MessageSchema) (f : Message -> A) (m : Message) : option A :=
  f <$> parse_message sch m.

Fixpoint union_of {A} (options : list (Message -> option A)) (m : Message) : option A :=
  match options with
  | [] => None
  | p :: options' =>
      match p m with
      | Some r => Some r
      | None => union_of options' m
      end
  end.

(** Path only commands (status, readDirectory, createDirectory, readFile, delete) *)
Definition pathOnlyCommandSchema : MessageSchema :=
  extend_message commandMessageSchema
    (strict_ (extend (shape_messageJson commandMessageSchema)
       [("command", z_enum ["status"; "readDirectory"; "createDirectory"; "readFile"; "delete"]);
        ("path", z_string)]))
    bin_never_optional.
Definition pathOnlyCommandNarrowableSchema := transform pathOnlyCommandSchema narrow.

Definition watchCommandSchema : MessageSchema :=
  extend_message commandMessageSchema
    (strict_ (extend (shape_messageJson commandMessageSchema)
       [("command", z_literal (JString "watch"));
        ("path", z_string);
        ("recursive", z_boolean);
        ("excludes", z_array z_string)]))
    bin_never_optional.
Definition watchCommandNarrowableSchema := transform watchCommandSchema narrow.

Definition renameCommandSchema : MessageSchema :=
  extend_message commandMessageSchema
    (strict_ (extend (shape_messageJson commandMessageSchema)
       [("command", z_literal (JString "rename"));
        ("oldPath", z_string);
        ("newPath", z_string);
        ("overwrite", z_boolean)]))
    bin_never_optional.
Definition renameCommandNarrowableSchema := transform renameCommandSchema narrow.

Definition copyCommandSchema : MessageSchema :=
  extend_message commandMessageSchema
    (strict_ (extend (shape_messageJson commandMessageSchema)
       [("command", z_literal (JString "copy"));
        ("sourcePath", z_string);
        ("destinationPath", z_string);
        ("overwrite", z_boolean)]))
    bin_never_optional.
Definition copyCommandNarrowableSchema := transform copyCommandSchema narrow.

Definition writeFileCommandSchema : MessageSchema :=
  extend_message commandMessageSchema
    (strict_ (extend (shape_messageJson commandMessageSchema)
       [("command", z_literal (JString "writeFile"));
        ("path", z_string);
        ("create", z_boolean);
        ("overwrite", z_boolean)]))
    bin_instanceof_optional.
Definition writeFileCommandNarrowableSchema := transform writeFileCommandSchema narrow.

Definition allCommandsNarrowableSchema : Message -> option Narrowed :=
  union_of
    [pathOnlyCommandNarrowableSchema;
     watchCommandNarrowableSchema;
     writeFileCommandNarrowableSchema;
     renameCommandNarrowableSchema;
     copyCommandNarrowableSchema].

(** The nine operations of the command surface, and the fields that the
    schema of each declares for its [messageJson]. *)
Definition operations : list string :=
  ["status"; "readDirectory"; "createDirectory"; "readFile"; "delete";
   "watch"; "writeFile"; "rename"; "copy"].

Definition declared_fields (operation : string) : list string :=
  if bool_decide (operation ∈ ["status"; "readDirectory"; "createDirectory"; "readFile"; "delete"])
  then ["command"; "commandId"; "path"]
  else if bool_decide (operation = "watch")
  then ["command"; "commandId"; "path"; "recursive"; "excludes"]
  else if bool_decide (operation = "writeFile")
  then ["command"; "commandId"; "path"; "create"; "overwrite"]
  else if bool_decide (operation = "rename")
  then ["command"; "commandId"; "oldPath"; "newPath"; "overwrite"]
  else if bool_decide (operation = "copy")
  then ["command"; "commandId"; "sourcePath"; "destinationPath"; "overwrite"]
  else [].

End Commands.
Export Commands.

(* ===================================================================== *)
(** ** src/fileSystemProtocol/responses.ts                                *)
(* ===================================================================== *)

Module Responses.

Module FileType.
Definition Unknown : Z := 0.
Definition File : Z := 1.
Definition Directory : Z := 2.
Definition SymbolicLink : Z := 64.
End FileType.

Definition fileStatusSchema : Schema :=
  z_object
    [("type", z_number_int);
     ("ctime", z_number);
     ("mtime", z_number);
     ("size", z_number);
     ("permissions", z_optional z_number_int)]
    strip.

Definition fileTypeSchema : Schema :=
  z_union
    [z_literal (JNumber FileType.Unknown);
     z_literal (JNumber FileType.File);
     z_literal (JNumber FileType.Directory);
     z_literal (JNumber FileType.SymbolicLink)].

Definition voidSuccessResponseSchema : MessageSchema :=
  strict_message (omit_messageBinary
    (extend_messageJson responseMessageSchema
       (strict_ (extend (shape_messageJson responseMessageSchema)
          [("success", z_literal (JBool true))])))).

Definition errorResponse (errorSchema : Schema) : MessageSchema :=
  strict_message
    (extend_message responseMessageSchema
       (strict_ (extend (shape_messageJson responseMessageSchema)
          [("success", z_literal (JBool false));
           ("error", errorSchema)]))
       bin_never_optional).

Definition fileNotFoundResponseSchema := errorResponse (z_literal (JString "FileNotFound")).
Definition fileExistsResponseSchema := errorResponse (z_literal (JString "FileExists")).
Definition fileIsADirectoryResponseSchema := errorResponse (z_literal (JString "FileIsADirectory")).
Definition noPermissionsResponseSchema := errorResponse (z_literal (JString "NoPermissions")).

(* watch *)
Definition watchResponseSchema := [voidSuccessResponseSchema].

(* status *)
Definition statusSuccessResponseSchema : MessageSchema :=
  strict_message (omit_messageBinary
    (extend_messageJson responseMessageSchema
       (strict_ (extend (shape_messageJson responseMessageSchema)
          [("success", z_literal (JBool true));
           ("result", fileStatusSchema)])))).
Definition statusResponseSchema := [statusSuccessResponseSchema; fileNotFoundResponseSchema].

(* readDirectory *)
Definition readDirectorySuccessResponseSchema : MessageSchema :=
  strict_message (omit_messageBinary
    (extend_messageJson responseMessageSchema
       (strict_ (extend (shape_messageJson responseMessageSchema)
          [("success", z_literal (JBool true));
           ("result", z_array (z_tuple [z_string; fileTypeSchema]))])))).
Definition readDirectoryResponseSchema :=
  [readDirectorySuccessResponseSchema; fileNotFoundResponseSchema].

(* createDirectory *)
Definition createDirectorySuccessResponseSchema := voidSuccessResponseSchema.
Definition createDirectoryResponseSchema :=
  [createDirectorySuccessResponseSchema;
   fileNotFoundResponseSchema;
   fileExistsResponseSchema;
   noPermissionsResponseSchema].

(* readFile *)
Definition readFileSuccessResponseSchema : MessageSchema :=
  extend_message responseMessageSchema
    (strict_ (extend (shape_messageJson responseMessageSchema)
       [("success", z_literal (JBool true))]))
    (* Although the vscode is happy to send undefined the contents of an
       empty file, it's not happy to receive it. *)
    bin_default_empty.
Definition readFileResponseSchema := [readFileSuccessResponseSchema; fileNotFoundResponseSchema].

(* writeFile *)
Definition writeFileSuccessResponseSchema : MessageSchema :=
  omit_messageBinary
    (extend_messageJson responseMessageSchema
       (strict_ (extend (shape_messageJson responseMessageSchema)
          [("success", z_literal (JBool true));
           ("created", z_boolean)]))).
Definition writeFileResponseSchema :=
  [writeFileSuccessResponseSchema;
   fileNotFoundResponseSchema;
   fileExistsResponseSchema;
   noPermissionsResponseSchema].

(* delete *)
Definition deleteResponseSchema :=
  [voidSuccessResponseSchema; fileNotFoundResponseSchema; noPermissionsResponseSchema].

(* rename *)
Definition renameResponseSchema :=
  [voidSuccessResponseSchema;
   fileNotFoundResponseSchema;
   fileExistsResponseSchema;
   noPermissionsResponseSchema].

(* copy *)
Definition copyResponseSchema :=
  [voidSuccessResponseSchema;
   fileNotFoundResponseSchema;
   fileExistsResponseSchema;
   noPermissionsResponseSchema].

End Responses.
Export Responses.

(* ===================================================================== *)
(** ** [String.prototype.split] and Node's [path.posix]                   *)
(* ===================================================================== *)

Module Path.

Definition is_slash (c : ascii) : bool := bool_decide (c = "/"%char).

(** [urlPath.split("/")]. *)
Fixpoint split (s : string) : list string :=
  match s with
  | EmptyString => [EmptyString]
  | String c s' =>
      if is_slash c then EmptyString :: split s'
      else
        match split s' with
        | part :: parts => String c part :: parts
        | [] => [String c EmptyString]
        end
  end.

Fixpoint drop_while (p : ascii -> bool) (l : list ascii) : list ascii :=
  match l with
  | c :: l' => if p c then drop_while p l' else l
  | [] => []
  end.

Fixpoint take_while (p : ascii -> bool) (l : list ascii) : list ascii :=
  match l with
  | c :: l' => if p c then c :: take_while p l' else []
  | [] => []
  end.

(** [path.posix.basename(path)]: scanning from the end, the trailing
    slashes are skipped and the characters up to the next slash are the
    result. *)
Definition basename (path : string) : string :=
  let backwards := rev (String.list_ascii_of_string path) in
  let name := take_while (fun c => negb (is_slash c)) (drop_while is_slash backwards) in
  String.string_of_list_ascii (rev name).

(** [path.posix.dirname(path)]: scanning from the end down to index 1, the
    trailing slashes and the last component are skipped; [end] is the index
    of the slash found then, and the result is [path.slice(0, end)], but
    ["//"] when [end] is 1 under a root, and ["/"] or ["."] when no slash is
    found. *)
Definition dirname (path : string) : string :=
  match String.list_ascii_of_string path with
  | [] => "."
  | (first :: _) as chars =>
      let hasRoot := is_slash first in
      let found := drop_while (fun c => negb (is_slash c)) (drop_while is_slash (rev chars)) in
      match found with
      | [] | [_] => if hasRoot then "/" else "."
      | _ :: before =>
          if hasRoot && bool_decide (length before = 1%nat) then "//"
          else String.string_of_list_ascii (rev before)
      end
  end.

(** [path.posix.isAbsolute(path)]. *)
Definition isAbsolute (path : string) : bool :=
  match path with
  | String c _ => is_slash c
  | EmptyString => false
  end.

(** The parts of a path that [_lookup] does not skip. *)
Definition parts (path : string) : list string :=
  filter (fun part => part <> EmptyString) (split path).

End Path.

(* ===================================================================== *)
(** ** src/util/inMemoryFileSystem.ts                                     *)
(* ===================================================================== *)

Module InMemoryFileSystem.

(** The identity of an object of class [InMemoryFile] or
    [InMemoryDirectory]. *)
Definition loc := nat.

Record InMemoryFile := {
  file_type : Z;
  file_ctime : Z;
  file_mtime : Z;
  file_size : Z;
  file_name : string;
  file_data : list byte;
}.

Record InMemoryDirectory := {
  dir_type : Z;
  dir_ctime : Z;
  dir_mtime : Z;
  dir_size : Z;
  dir_name : string;
  dir_entries : gmap string loc;
}.

Inductive Entry :=
| File (f : InMemoryFile)
| Directory (d : InMemoryDirectory).

(** The objects allocated so far, the next fresh identity, and the number
    of calls of [Date.now()] made so far. *)
Record State := {
  store : gmap loc Entry;
  next : loc;
  clock : nat;
}.

(** A computation over the store that returns or throws. *)
Definition M (A : Type) : Type := State -> Result A * State.

Definition ret {A} (a : A) : M A := fun σ => (Ok a, σ).
Definition throw {A} (e : JSError) : M A := fun σ => (Throw e, σ).
Definition bind {A B} (c : M A) (k : A -> M B) : M B :=
  fun σ =>
    match c σ with
    | (Ok a, σ') => k a σ'
    | (Throw e, σ') => (Throw e, σ')
    end.

#[global] Instance M_ret : MRet M := @ret.
#[global] Instance M_bind : MBind M := fun A B k c => bind c k.

(** Field accessors and updates that apply to both classes. *)
Definition entry_type (e : Entry) : Z :=
  match e with File f => file_type f | Directory d => dir_type d end.
Definition entry_ctime (e : Entry) : Z :=
  match e with File f => file_ctime f | Directory d => dir_ctime d end.
Definition entry_mtime (e : Entry) : Z :=
  match e with File f => file_mtime f | Directory d => dir_mtime d end.
Definition entry_size (e : Entry) : Z :=
  match e with File f => file_size f | Directory d => dir_size d end.
Definition entry_name (e : Entry) : string :=
  match e with File f => file_name f | Directory d => dir_name d end.

Definition set_name (name : string) (e : Entry) : Entry :=
  match e with
  | File f =>
      File {| file_type := file_type f; file_ctime := file_ctime f; file_mtime := file_mtime f;
              file_size := file_size f; file_name := name; file_data := file_data f |}
  | Directory d =>
      Directory {| dir_type := dir_type d; dir_ctime := dir_ctime d; dir_mtime := dir_mtime d;
                   dir_size := dir_size d; dir_name := name; dir_entries := dir_entries d |}
  end.

Definition set_mtime (mtime : Z) (e : Entry) : Entry :=
  match e with
  | File f =>
      File {| file_type := file_type f; file_ctime := file_ctime f; file_mtime := mtime;
              file_size := file_size f; file_name := file_name f; file_data := file_data f |}
  | Directory d =>
      Directory {| dir_type := dir_type d; dir_ctime := dir_ctime d; dir_mtime := mtime;
                   dir_size := dir_size d; dir_name := dir_name d; dir_entries := dir_entries d |}
  end.

Definition set_size (size : Z) (e : Entry) : Entry :=
  match e with
  | File f =>
      File {| file_type := file_type f; file_ctime := file_ctime f; file_mtime := file_mtime f;
              file_size := size; file_name := file_name f; file_data := file_data f |}
  | Directory d =>
      Directory {| dir_type := dir_type d; dir_ctime := dir_ctime d; dir_mtime := dir_mtime d;
                   dir_size := size; dir_name := dir_name d; dir_entries := dir_entries d |}
  end.

(** [entry.data = content], on a file. *)
Definition set_data (data : list byte) (e : Entry) : Entry :=
  match e with
  | File f =>
      File {| file_type := file_type f; file_ctime := file_ctime f; file_mtime := file_mtime f;
              file_size := file_size f; file_name := file_name f; file_data := data |}
  | Directory _ => e
  end.

(** An update of the [entries] map of a directory. *)
Definition with_entries (g : gmap string loc -> gmap string loc) (e : Entry) : Entry :=
  match e with
  | File _ => e
  | Directory d =>
      Directory {| dir_type := dir_type d; dir_ctime := dir_ctime d; dir_mtime := dir_mtime d;
                   dir_size := dir_size d; dir_name := dir_name d; dir_entries := g (dir_entries d) |}
  end.

(** [entry instanceof InMemoryDirectory ? entry.entries : undefined]. *)
Definition entries_of (σ : State) (l : loc) : option (gmap string loc) :=
  match store σ !! l with
  | Some (Directory d) => Some (dir_entries d)
  | _ => None
  end.

Definition is_directory (σ : State) (l : loc) : bool :=
  match store σ !! l with Some (Directory _) => true | _ => false end.

Definition is_file (σ : State) (l : loc) : bool :=
  match store σ !! l with Some (File _) => true | _ => false end.

Section FileSystem.
Context `{Runtime}.

(** [Date.now()]. *)
Definition now : M Z :=
  fun σ => (Ok (Date_now (clock σ)),
            {| store := store σ; next := next σ; clock := S (clock σ) |}).

(** Allocation of a new object. *)
Definition alloc (e : Entry) : M loc :=
  fun σ => (Ok (next σ),
            {| store := <[next σ := e]> (store σ); next := S (next σ); clock := clock σ |}).

(** An assignment to fields of the object at [l]. *)
Definition modify (l : loc) (g : Entry -> Entry) : M unit :=
  fun σ => (Ok tt, {| store := alter g l (store σ); next := next σ; clock := clock σ |}).

Definition get_state : M State := fun σ => (Ok σ, σ).

(** [new InMemoryFile(name)]. *)
Definition new_InMemoryFile (name : string) : M loc :=
  ctime ← now;
  mtime ← now;
  alloc (File {| file_type := FileType.File; file_ctime := ctime; file_mtime := mtime;
                 file_size := 0; file_name := name; file_data := [] |}).

(** [new InMemoryDirectory(name)]. *)
Definition new_InMemoryDirectory (name : string) : M loc :=
  ctime ← now;
  mtime ← now;
  alloc (Directory {| dir_type := FileType.Directory; dir_ctime := ctime; dir_mtime := mtime;
                      dir_size := 0; dir_name := name; dir_entries := ∅ |}).

(** [const root = new InMemoryDirectory("")] is the first object. *)
Definition root : loc := 0%nat.

Definition createInMemoryFileSystem : State :=
  (new_InMemoryDirectory "" {| store := ∅; next := 0%nat; clock := 0%nat |}).2.

(** The loop of [_lookup]: empty parts are skipped; a part that is not a
    child of the current entry, or whose current entry is not a directory,
    ends the walk. *)
Fixpoint walk (σ : State) (parts : list string) (entry : loc) : option loc :=
  match parts with
  | [] => Some entry
  | part :: parts' =>
      if bool_decide (part = "") then walk σ parts' entry
      else
        match entries_of σ entry ≫= (.!! part) with
        | Some child => walk σ parts' child
        | None => None
        end
  end.

Definition _lookup (urlPath : string) (silent : bool) : M (option loc) :=
  σ ← get_state;
  match walk σ (Path.split urlPath) root with
  | Some entry => mret (Some entry)
  | None =>
      if silent then mret None
      else throw (FileSystemError FileNotFound urlPath)
  end.

Definition lookupDirectory (urlPath : string) (silent : bool) : M loc :=
  entry ← _lookup urlPath silent;
  σ ← get_state;
  match entry with
  | Some l => if is_directory σ l then mret l
              else throw (FileSystemError FileNotADirectory urlPath)
  | None => throw (FileSystemError FileNotADirectory urlPath)
  end.

Definition lookupFile (urlPath : string) : M loc :=
  entry ← _lookup urlPath false;
  σ ← get_state;
  match entry with
  | Some l => if is_file σ l then mret l
              else throw (FileSystemError FileIsADirectory urlPath)
  | None => throw (FileSystemError FileIsADirectory urlPath)
  end.

Definition lookupParentDirectory (urlPath : string) : M loc :=
  lookupDirectory (Path.dirname urlPath) false.

Definition rename (oldPath newPath : string) (overwrite : bool) : M unit :=
  existing ← (if negb overwrite then _lookup newPath true else mret None);
  if negb overwrite && bool_decide (is_Some existing)
  then throw (FileSystemError FileExists newPath)
  else
    found ← _lookup oldPath false;
    match found with
    | None => throw (Error "TypeError")
    | Some entry =>
        oldParent ← lookupParentDirectory oldPath;
        newParent ← lookupParentDirectory newPath;
        let newName := Path.basename newPath in
        σ ← get_state;
        let name := from_option entry_name "" (store σ !! entry) in
        modify oldParent (with_entries (delete name));;
        modify entry (set_name newName);;
        modify newParent (with_entries <[newName := entry]>)
    end.

Definition writeFile (urlPath : string) (content : list byte) (create overwrite : bool) : M bool :=
  let basename := Path.basename urlPath in
  parent ← lookupParentDirectory urlPath;
  σ ← get_state;
  let entry := entries_of σ parent ≫= (.!! basename) in
  if from_option (is_directory σ) false entry
  then throw (FileSystemError FileIsADirectory urlPath)
  else if bool_decide (entry = None) && negb create
  then throw (FileSystemError FileNotFound urlPath)
  else if bool_decide (is_Some entry) && create && negb overwrite
  then throw (FileSystemError FileExists urlPath)
  else
    '(created, entry) ←
      match entry with
      | Some entry => mret (false, entry)
      | None =>
          entry ← new_InMemoryFile basename;
          modify parent (with_entries <[basename := entry]>);;
          mret (true, entry)
      end;
    mtime ← now;
    modify entry (set_mtime mtime);;
    modify entry (set_size (Z.of_nat (length content)));;
    modify entry (set_data content);;
    mret created.

Definition deleteFile (urlPath : string) : M unit :=
  let dirname := Path.dirname urlPath in
  let basename := Path.basename urlPath in
  parent ← lookupDirectory dirname false;
  σ ← get_state;
  if bool_decide ((entries_of σ parent ≫= (.!! basename)) = None)
  then throw (FileSystemError FileNotFound urlPath)
  else
    modify parent (with_entries (delete basename));;
    mtime ← now;
    modify parent (set_mtime mtime);;
    modify parent (fun e => set_size (entry_size e - 1) e).

Definition createDirectory (urlPath : string) : M unit :=
  let dirname := Path.dirname urlPath in
  let basename := Path.basename urlPath in
  parent ← lookupDirectory dirname false;
  child ← new_InMemoryDirectory basename;
  modify parent (with_entries <[basename := child]>);;
  mtime ← now;
  modify parent (set_mtime mtime);;
  modify parent (fun e => set_size (entry_size e + 1) e).

(** [lookup: (urlPath) => _lookup(urlPath, true)]. *)
Definition lookup (urlPath : string) : M (option loc) := _lookup urlPath true.

End FileSystem.

End InMemoryFileSystem.

(* ===================================================================== *)
(** ** src/messageHelpers.ts                                              *)
(* ===================================================================== *)

Module MessageHelpers.

(** What a WebSocket hands to a message listener. *)
Inductive Data :=
| BinaryData (bytes : list byte)
| TextData (text : string).

Definition uint8ArrayFromRawData (data : Data) : Result (list byte) :=
  match data with
  | BinaryData bytes => Ok bytes
  | TextData _ => Throw (Error "'string' websocket messages are unsupported")
  end.

Definition messageFromWebSocketMessage `{Runtime} (data : Data) : Result MessageParseResult :=
  bytes ← uint8ArrayFromRawData data;
  Ok (messageFromBytes bytes).

End MessageHelpers.
Export MessageHelpers.

(* ===================================================================== *)
(** ** src/exampleServer.ts                                               *)
(* ===================================================================== *)

Module ExampleServer.
Import InMemoryFileSystem.

(** Typed reads of the fields of a validated [messageJson]. *)
Definition field (json : JSONValue) (k : string) : option JSONValue :=
  match json with
  | JObject o => o !! k
  | _ => None
  end.

Definition string_field (json : JSONValue) (k : string) : string :=
  match field json k with Some (JString s) => s | _ => "" end.

Definition bool_field (json : JSONValue) (k : string) : bool :=
  match field json k with Some (JBool b) => b | _ => false end.

Definition object (fields : list (string * JSONValue)) : JSONValue :=
  JObject (list_to_map fields).

(** [try { c } catch (e) { h(e) }]. *)
Definition try_catch {A} (c : M A) (h : JSError -> M A) : M A :=
  fun σ =>
    match c σ with
    | (Ok a, σ') => (Ok a, σ')
    | (Throw e, σ') => h e σ'
    end.

Definition lift {A} (r : Result A) : M A := fun σ => (r, σ).

Definition errorResponse (code : string) (commandId : string) : Message :=
  {| messageType := MessageType.Response;
     messageJson := object [("success", JBool false); ("error", JString code);
                            ("commandId", JString commandId)];
     messageBinary := None |}.

Definition errorResponseFromError (error : JSError) (commandId : string) : Result Message :=
  match error with
  | FileSystemError code _ =>
      match code with
      | FileNotFound | FileExists | FileIsADirectory | NoPermissions =>
          Ok (errorResponse (code_string code) commandId)
      | _ => Throw error
      end
  | _ => Throw error
  end.

(** [schema.parse(errorResponseFromError(e, commandId))] in a handler's
    [catch]. *)
Definition parsedErrorResponse (schema : list MessageSchema) (e : JSError) (commandId : string)
    : M Message :=
  lift (response ← errorResponseFromError e commandId;
        orThrowZod (parse_union schema response)).

Definition entryToFileState (e : Entry) : JSONValue :=
  object [("type", JNumber (entry_type e)); ("ctime", JNumber (entry_ctime e));
          ("mtime", JNumber (entry_mtime e)); ("size", JNumber (entry_size e))].

Definition voidSuccess (commandId : string) : Message :=
  {| messageType := MessageType.Response;
     messageJson := object [("success", JBool true); ("commandId", JString commandId)];
     messageBinary := None |}.

Section Handlers.
Context `{Runtime}.

Definition watch (json : JSONValue) : M Message :=
  mret (voidSuccess (string_field json "commandId")).

Definition status (json : JSONValue) : M Message :=
  let commandId := string_field json "commandId" in
  entry ← lookup (string_field json "path");
  σ ← get_state;
  match entry ≫= (store σ !!.) with
  | Some e =>
      mret {| messageType := MessageType.Response;
              messageJson := object [("success", JBool true); ("commandId", JString commandId);
                                     ("result", entryToFileState e)];
              messageBinary := None |}
  | None =>
      lift (orThrowZod (parse_union statusResponseSchema (errorResponse "FileNotFound" commandId)))
  end.

(** The listing is that of the [entries] map. A JavaScript [Map] lists its
    entries in the order of insertion; the finite map here lists them in
    the order of its keys, so that a listing of more than one entry may be
    in another order than the code's. *)
Definition readDirectory (json : JSONValue) : M Message :=
  let commandId := string_field json "commandId" in
  try_catch
    (directory ← lookupDirectory (string_field json "path") false;
     σ ← get_state;
     let entries := default ∅ (entries_of σ directory) in
     mret {| messageType := MessageType.Response;
             messageJson := object
               [("success", JBool true); ("commandId", JString commandId);
                ("result", JArray ((fun '(name, child) =>
                    JArray [JString name;
                            JNumber (from_option entry_type 0 (store σ !! child))])
                  <$> map_to_list entries))];
             messageBinary := None |})
    (fun e => parsedErrorResponse readDirectoryResponseSchema e commandId).

Definition writeFile (json : JSONValue) (contents : option (list byte)) : M Message :=
  let commandId := string_field json "commandId" in
  try_catch
    (created ← InMemoryFileSystem.writeFile (string_field json "path") (default [] contents)
                 (bool_field json "create") (bool_field json "overwrite");
     mret {| messageType := MessageType.Response;
             messageJson := object [("success", JBool true); ("commandId", JString commandId);
                                    ("created", JBool created)];
             messageBinary := None |})
    (fun e => parsedErrorResponse writeFileResponseSchema e commandId).

Definition createDirectory (json : JSONValue) : M Message :=
  let commandId := string_field json "commandId" in
  try_catch
    (InMemoryFileSystem.createDirectory (string_field json "path");;
     mret (voidSuccess commandId))
    (fun e => parsedErrorResponse createDirectoryResponseSchema e commandId).

Definition readFile (json : JSONValue) : M Message :=
  let commandId := string_field json "commandId" in
  try_catch
    (file ← lookupFile (string_field json "path");
     σ ← get_state;
     let data := match store σ !! file with Some (File f) => file_data f | _ => [] end in
     mret {| messageType := MessageType.Response;
             messageJson := object [("success", JBool true); ("commandId", JString commandId)];
             messageBinary := Some data |})
    (fun e => parsedErrorResponse readFileResponseSchema e commandId).

Definition rename (json : JSONValue) : M Message :=
  let commandId := string_field json "commandId" in
  try_catch
    (InMemoryFileSystem.rename (string_field json "oldPath") (string_field json "newPath")
       (bool_field json "overwrite");;
     mret (voidSuccess commandId))
    (fun e => parsedErrorResponse renameResponseSchema e commandId).

Definition deleteFile (json : JSONValue) : M Message :=
  let commandId := string_field json "commandId" in
  try_catch
    (InMemoryFileSystem.deleteFile (string_field json "path");;
     mret (voidSuccess commandId))
    (fun e => parsedErrorResponse deleteResponseSchema e commandId).

(** [handleCommand]: the message that [sendMessage] is called with. *)
Definition handleCommand (commandMessage : Message) : M Message :=
  parsed ← lift (orThrowZod (allCommandsNarrowableSchema commandMessage));
  let fullyParsedMessage := message parsed in
  let json := messageJson fullyParsedMessage in
  let command := command parsed in
  if bool_decide (command = "watch") then watch json
  else if bool_decide (command = "status") then status json
  else if bool_decide (command = "readDirectory") then readDirectory json
  else if bool_decide (command = "writeFile") then writeFile json (messageBinary fullyParsedMessage)
  else if bool_decide (command = "createDirectory") then createDirectory json
  else if bool_decide (command = "readFile") then readFile json
  else if bool_decide (command = "rename") then rename json
  else if bool_decide (command = "delete") then deleteFile json
  else mret (errorResponse "UnknownCommand" command).

(** The listener of ["message"]: the frame sent in reply, if any. A frame
    that does not decode is logged and dropped; so is whatever the handling
    of a decoded message throws. *)
Definition onMessage (wsMessage : Data) : M (option (list byte)) :=
  messageParseResult ← lift (messageFromWebSocketMessage wsMessage);
  match messageParseResult with
  | success_false _ => mret None
  | success_true message =>
      try_catch
        (if bool_decide (messageType message = MessageType.Command)
         then response ← handleCommand message; mret (Some (arrayBufferFromMessage response))
         else throw (Error "Unexpected message type"))
        (fun _ => mret None)
  end.

End Handlers.

End ExampleServer.

(* ===================================================================== *)
(** ** src/webSocketClient.ts                                             *)
(* ===================================================================== *)

Module WebSocketClient.
Import ExampleServer.

(** A [Deferred<ResponseMessage>] is known by its identity; [settled] holds
    the value that each resolved one was resolved with. *)
Definition Deferred := nat.

Record Client := {
  pendingCommands : gmap string Deferred;
  settled : gmap Deferred Message;
  nextDeferred : Deferred;
  outbox : list (list byte);
}.

Definition createWebSocketClient : Client :=
  {| pendingCommands := ∅; settled := ∅; nextDeferred := 0%nat; outbox := [] |}.

(** [deferred.resolve(value)]: a promise is resolved once. *)
Definition resolve (d : Deferred) (value : Message) (settled : gmap Deferred Message)
    : gmap Deferred Message :=
  match settled !! d with
  | Some _ => settled
  | None => <[d := value]> settled
  end.

Section Client.
Context `{Runtime}.

(** The listener of ["message"]. *)
Definition onMessage (data : Data) (c : Client) : Result unit * Client :=
  match (match data with
         | TextData _ => Throw (Error "Expected ArrayBuffer")
         | BinaryData _ => messageFromWebSocketMessage data
         end) with
  | Throw e => (Throw e, c)
  | Ok (success_false _) => (Ok tt, c)
  | Ok (success_true message) =>
      if bool_decide (messageType message = MessageType.Response) then
        match parse_message responseMessageSchema message with
        | None => (Throw ZodError, c)
        | Some responseMessage =>
            let commandId := string_field (messageJson responseMessage) "commandId" in
            match pendingCommands c !! commandId with
            | None => (Throw (Error ("No pending command for " +:+ commandId)), c)
            | Some pendingCommand =>
                (Ok tt,
                 {| pendingCommands := delete commandId (pendingCommands c);
                    settled := resolve pendingCommand responseMessage (settled c);
                    nextDeferred := nextDeferred c;
                    outbox := outbox c |})
            end
        end
      else if bool_decide (messageType message = MessageType.Event) then
        (Throw (Error "Not implemented"), c)
      else (Throw (Error "Unexpected message type"), c)
  end.

(** [sendCommand], from the point where the socket is open: the command is
    sent, a new deferred is created and registered under the command's id.
    The deferred is returned. *)
Definition sendCommand (commandMessage : Message) (c : Client) : Deferred * Client :=
  let deferred := nextDeferred c in
  (deferred,
   {| pendingCommands :=
        <[string_field (messageJson commandMessage) "commandId" := deferred]> (pendingCommands c);
      settled := settled c;
      nextDeferred := S deferred;
      outbox := outbox c ++ [arrayBufferFromMessage commandMessage] |}).

(** What the caller of [sendCommand] gets once its deferred is resolved:
    [schema.safeParse] of the response, or an [Error] where that fails. *)
Definition result (schema : list MessageSchema) (deferred : Deferred) (c : Client)
    : option (Result Message) :=
  response ← settled c !! deferred;
  Some (match parse_union schema response with
        | Some data => Ok data
        | None => Throw (Error "Failed to parse response")
        end).

(** The listener applied to the frames of a list in turn, up to the first
    one at which it throws. *)
Fixpoint deliver (frames : list Data) (c : Client) : Result unit * Client :=
  match frames with
  | [] => (Ok tt, c)
  | data :: frames' =>
      match onMessage data c with
      | (Ok _, c') => deliver frames' c'
      | (Throw e, c') => (Throw e, c')
      end
  end.

End Client.

End WebSocketClient.

(* ===================================================================== *)
(** ** A reference runtime                                                *)
(* ===================================================================== *)

(** A concrete [Runtime], used to run the code on examples: compact JSON
    texts over integers, strings as their UTF-8 bytes, and a clock that
    advances by one millisecond with every reading. Escapes above U+007F
    are not decoded by this instance. *)
Module ReferenceRuntime.

Definition quote : ascii := "034"%char.
Definition backslash : ascii := "092"%char.

Definition hex_digit (n : nat) : ascii :=
  if (n <? 10)%nat then ascii_of_nat (48 + n) else ascii_of_nat (87 + n).

Fixpoint escape (s : list ascii) : list ascii :=
  match s with
  | [] => []
  | c :: s' =>
      (if bool_decide (c = quote) then [backslash; quote]
       else if bool_decide (c = backslash) then [backslash; backslash]
       else if (nat_of_ascii c <? 32)%nat
       then [backslash; "u"; "0"; "0"; hex_digit (nat_of_ascii c / 16); hex_digit (nat_of_ascii c mod 16)]%char
       else [c]) ++ escape s'
  end.

Definition quoted (s : string) : list ascii :=
  quote :: escape (String.list_ascii_of_string s) ++ [quote].

Fixpoint join (sep : list ascii) (parts : list (list ascii)) : list ascii :=
  match parts with
  | [] => []
  | [part] => part
  | part :: parts' => part ++ sep ++ join sep parts'
  end.

Fixpoint stringify (v : JSONValue) : list ascii :=
  match v with
  | JNull => String.list_ascii_of_string "null"
  | JBool true => String.list_ascii_of_string "true"
  | JBool false => String.list_ascii_of_string "false"
  | JNumber n => String.list_ascii_of_string (pretty n)
  | JString s => quoted s
  | JArray items => ("[" :: join [","] (map stringify items) ++ ["]"])%char
  | JObject o =>
      ("{" :: join [","]
         (map_fold (fun k x members => (quoted k ++ [":"] ++ stringify x) :: members) [] o)
       ++ ["}"])%char
  end.

Definition is_ws (c : ascii) : bool :=
  bool_decide (c ∈ [" "; "009"; "010"; "013"]%char).

Fixpoint skip_ws (s : list ascii) : list ascii :=
  match s with
  | c :: s' => if is_ws c then skip_ws s' else s
  | [] => []
  end.

Definition digit_value (c : ascii) : option Z :=
  let n := nat_of_ascii c in
  if ((48 <=? n) && (n <=? 57))%nat then Some (Z.of_nat n - 48) else None.

Fixpoint digits (acc : Z) (s : list ascii) : Z * list ascii :=
  match s with
  | c :: s' =>
      match digit_value c with
      | Some d => digits (10 * acc + d) s'
      | None => (acc, s)
      end
  | [] => (acc, [])
  end.

Definition hex_value (c : ascii) : option nat :=
  let n := nat_of_ascii c in
  if ((48 <=? n) && (n <=? 57))%nat then Some (n - 48)%nat
  else if ((65 <=? n) && (n <=? 70))%nat then Some (n - 55)%nat
  else if ((97 <=? n) && (n <=? 102))%nat then Some (n - 87)%nat
  else None.

(** The characters of a string literal after its opening quote. *)
Fixpoint string_body (acc : list ascii) (s : list ascii) : option (string * list ascii) :=
  match s with
  | [] => None
  | c :: s' =>
      if bool_decide (c = quote) then Some (String.string_of_list_ascii (rev acc), s')
      else if bool_decide (c = backslash) then
        match s' with
        | "u"%char :: a :: b :: c1 :: c2 :: s'' =>
            match hex_value a, hex_value b, hex_value c1, hex_value c2 with
            | Some 0%nat, Some 0%nat, Some h, Some l =>
                if (h <? 8)%nat then string_body (ascii_of_nat (16 * h + l) :: acc) s'' else None
            | _, _, _, _ => None
            end
        | e :: s'' =>
            if bool_decide (e = quote) then string_body (quote :: acc) s''
            else if bool_decide (e = backslash) then string_body (backslash :: acc) s''
            else if bool_decide (e = "/"%char) then string_body ("/"%char :: acc) s''
            else if bool_decide (e = "b"%char) then string_body ("008"%char :: acc) s''
            else if bool_decide (e = "f"%char) then string_body ("012"%char :: acc) s''
            else if bool_decide (e = "n"%char) then string_body ("010"%char :: acc) s''
            else if bool_decide (e = "r"%char) then string_body ("013"%char :: acc) s''
            else if bool_decide (e = "t"%char) then string_body ("009"%char :: acc) s''
            else None
        | [] => None
        end
      else if (nat_of_ascii c <? 32)%nat then None
      else string_body (c :: acc) s'
  end.

Section Loops.
Variable value : list ascii -> option (JSONValue * list ascii).

(** The elements of an array after the first, up to the closing bracket. *)
Fixpoint elements (fuel : nat) (s : list ascii) : option (list JSONValue * list ascii) :=
  match fuel with
  | O => None
  | S fuel' =>
      '(v, r) ← value s;
      match skip_ws r with
      | ","%char :: r' => '(vs, r'') ← elements fuel' r'; Some (v :: vs, r'')
      | "]"%char :: r' => Some ([v], r')
      | _ => None
      end
  end.

(** The members of an object, up to the closing brace; a later member
    replaces an earlier one with the same key. *)
Fixpoint members (fuel : nat) (o : gmap string JSONValue) (s : list ascii)
    : option (gmap string JSONValue * list ascii) :=
  match fuel with
  | O => None
  | S fuel' =>
      match skip_ws s with
      | q :: r =>
          if bool_decide (q = quote) then
            '(k, r1) ← string_body [] r;
            match skip_ws r1 with
            | ":"%char :: r2 =>
                '(v, r3) ← value r2;
                match skip_ws r3 with
                | ","%char :: r4 => members fuel' (<[k := v]> o) r4
                | "}"%char :: r4 => Some (<[k := v]> o, r4)
                | _ => None
                end
            | _ => None
            end
          else None
      | [] => None
      end
  end.

End Loops.

Fixpoint value (fuel : nat) (s : list ascii) : option (JSONValue * list ascii) :=
  match fuel with
  | O => None
  | S fuel' =>
      match skip_ws s with
      | "n" :: "u" :: "l" :: "l" :: r => Some (JNull, r)
      | "t" :: "r" :: "u" :: "e" :: r => Some (JBool true, r)
      | "f" :: "a" :: "l" :: "s" :: "e" :: r => Some (JBool false, r)
      | "[" :: r =>
          match skip_ws r with
          | "]" :: r' => Some (JArray [], r')
          | _ => '(vs, r') ← elements (value fuel') fuel' r; Some (JArray vs, r')
          end
      | "{" :: r =>
          match skip_ws r with
          | "}" :: r' => Some (JObject ∅, r')
          | _ => '(o, r') ← members (value fuel') fuel' ∅ r; Some (JObject o, r')
          end
      | "-" :: c :: r =>
          match digit_value c with
          | Some _ => let '(n, r') := digits 0 (c :: r) in Some (JNumber (- n), r')
          | None => None
          end
      | c :: r =>
          if bool_decide (c = quote) then
            '(str, r') ← string_body [] r; Some (JString str, r')
          else
            match digit_value c with
            | Some _ => let '(n, r') := digits 0 (c :: r) in Some (JNumber n, r')
            | None => None
            end
      | [] => None
      end%char
  end.

Definition parse_text (text : string) : option JSONValue :=
  let s := String.list_ascii_of_string text in
  '(v, r) ← value (S (length s)) s;
  match skip_ws r with
  | [] => Some v
  | _ => None
  end.

Definition runtime : Runtime :=
  {| JSON_stringify := fun v => String.string_of_list_ascii (stringify v);
     JSON_parse := parse_text;
     TextEncoder_encode := fun s => byte_of_ascii <$> String.list_ascii_of_string s;
     TextDecoder_decode := fun b => String.string_of_list_ascii (ascii_of_byte <$> b);
     Date_now := fun n => 1700000000000 + Z.of_nat n |}.

End ReferenceRuntime.

(* ===================================================================== *)
(** ** Vocabulary of the statements                                       *)
(* ===================================================================== *)

Module Spec.
Import InMemoryFileSystem.

(** The four bytes of a 32-bit big-endian field. *)
Definition uint32_bytes (v : Z) : list byte :=
  [byte_of_Z (Z.shiftr v 24); byte_of_Z (Z.shiftr v 16); byte_of_Z (Z.shiftr v 8); byte_of_Z v].

(** The layout of a frame: 9 bytes of header, the JSON text, the binary
    payload. *)
Definition frame (total jsonLength type : Z) (json binary : list byte) : list byte :=
  uint32_bytes total ++ uint32_bytes jsonLength ++ [byte_of_Z type] ++ json ++ binary.

(** A schema that returns the value it accepts. *)
Definition returns_input (s : Schema) : Prop :=
  forall v r, parse s v = Some r -> r = v.

(** A valid message: [messageSchema.parse(m)] succeeds and returns [m]. *)
Definition valid_message (m : Message) : Prop :=
  parse_discriminatedUnion messageSchema m = Some m.

(** The length of the binary payload of a message, 0 when it has none. *)
Definition binaryLength (m : Message) : nat :=
  length (default [] (messageBinary m)).

(** The [commandId] that a response carries. *)
Definition commandId_of (m : Message) : string :=
  ExampleServer.string_field (messageJson m) "commandId".

(** The same message without its binary payload. *)
Definition without_binary (m : Message) : Message :=
  {| messageType := messageType m; messageJson := messageJson m; messageBinary := None |}.

End Spec.
Export Spec.

(** The vocabulary of the statements about the file system tree. *)
Module TreeSpec.
Import InMemoryFileSystem.

(** [parent.entries.get(name)], for the object at [parent]. *)
Definition child (σ : State) (parent : loc) (name : string) : option loc :=
  entries_of σ parent ≫= (.!! name).

(** The lookup and mutation operations of the tree. *)
Inductive Operation :=
| op_lookup (urlPath : string)
| op_lookupFile (urlPath : string)
| op_lookupDirectory (urlPath : string) (silent : bool)
| op_lookupParentDirectory (urlPath : string)
| op_rename (oldPath newPath : string) (overwrite : bool)
| op_writeFile (urlPath : string) (content : list byte) (create overwrite : bool)
| op_deleteFile (urlPath : string)
| op_createDirectory (urlPath : string).

Definition run `{Runtime} (op : Operation) : M unit :=
  match op with
  | op_lookup urlPath => lookup urlPath ;; mret tt
  | op_lookupFile urlPath => lookupFile urlPath ;; mret tt
  | op_lookupDirectory urlPath silent => lookupDirectory urlPath silent ;; mret tt
  | op_lookupParentDirectory urlPath => lookupParentDirectory urlPath ;; mret tt
  | op_rename oldPath newPath overwrite => rename oldPath newPath overwrite
  | op_writeFile urlPath content create overwrite =>
      writeFile urlPath content create overwrite ;; mret tt
  | op_deleteFile urlPath => deleteFile urlPath
  | op_createDirectory urlPath => createDirectory urlPath
  end.

(** The states that sequences of operations produce from the empty tree. *)
Inductive reachable `{Runtime} : State -> Prop :=
| reachable_empty : reachable createInMemoryFileSystem
| reachable_step σ op : reachable σ -> reachable (run op σ).2.

(** The codes that [errorResponseFromError] converts. *)
Definition converted : list FileSystemErrorCode :=
  [FileNotFound; FileExists; FileIsADirectory; NoPermissions].

(** The codes that the operations of the tree throw. *)
Definition thrown_by_tree : list FileSystemErrorCode :=
  [FileNotFound; FileExists; FileIsADirectory; FileNotADirectory].

(** An error of the tree's taxonomy. *)
Definition tree_error (e : JSError) : Prop :=
  exists code arg, e = FileSystemError code arg /\ code ∈ thrown_by_tree.

(** The size of a file is the length of its content. *)
Definition sized (e : Entry) : Prop :=
  match e with
  | File f => file_size f = Z.of_nat (length (file_data f))
  | Directory _ => True
  end.

Definition file_sizes_hold (σ : State) : Prop :=
  forall l e, store σ !! l = Some e -> sized e.

(** No object is allocated at or beyond [next]. *)
Definition next_is_fresh (σ : State) : Prop :=
  forall l, (next σ <= l)%nat -> store σ !! l = None.

(** [lookupFile(urlPath).data]. *)
Definition file_content `{Runtime} (urlPath : string) (σ : State) : Result (list byte) :=
  match lookupFile urlPath σ with
  | (Ok l, _) =>
      match store σ !! l with
      | Some (File f) => Ok (file_data f)
      | _ => Throw (Error "not a file")
      end
  | (Throw e, _) => Throw e
  end.

(** The [entries] of the object at [l] in a store, when it is a directory. *)
Definition entries_in (s : gmap loc Entry) (l : loc) : option (gmap string loc) :=
  match s !! l with
  | Some (Directory d) => Some (dir_entries d)
  | _ => None
  end.

(** A property of states that every run of a computation keeps. *)
Definition preserves (P : State -> Prop) {A} (c : M A) : Prop :=
  forall σ, P σ -> P (c σ).2.

(** A property of everything that a computation throws from a state. *)
Definition throws_in (Q : JSError -> Prop) {A} (c : M A) (σ : State) : Prop :=
  forall e σ', c σ = (Throw e, σ') -> Q e.

End TreeSpec.
Export TreeSpec.

(* ===================================================================== *)
(** ** Concrete inputs                                                    *)
(* ===================================================================== *)

Module Examples.
Import InMemoryFileSystem ExampleServer.

Definition sample_id : string := "123e4567-e89b-12d3-a456-426614174000".

Definition hi : list byte := ["h"; "i"]%byte.

(** A [writeFile] command for [/a.txt] with the given binary payload. *)
Definition writeFile_command (binary : option (list byte)) : Message :=
  {| messageType := MessageType.Command;
     messageJson := object [("command", JString "writeFile"); ("commandId", JString sample_id);
                            ("path", JString "/a.txt"); ("create", JBool true);
                            ("overwrite", JBool false)];
     messageBinary := binary |}.

(** A [status] command, and the same command with a field that the schema
    does not declare. *)
Definition status_fields : list (string * JSONValue) :=
  [("command", JString "status"); ("commandId", JString sample_id); ("path", JString "/a.txt")].

Definition status_command : Message :=
  {| messageType := MessageType.Command;
     messageJson := object status_fields;
     messageBinary := None |}.

Definition status_command_with_extra : Message :=
  {| messageType := MessageType.Command;
     messageJson := object (status_fields ++ [("recursive", JBool true)]);
     messageBinary := None |}.

(** Two commands in flight and the frames of their responses. *)
Definition other_id : string := "00000000-0000-4000-8000-000000000002".

Definition readFile_command (id path : string) : Message :=
  {| messageType := MessageType.Command;
     messageJson := object [("command", JString "readFile"); ("commandId", JString id);
                            ("path", JString path)];
     messageBinary := None |}.

Definition two_pending : WebSocketClient.Client :=
  (@WebSocketClient.sendCommand ReferenceRuntime.runtime (readFile_command other_id "/b.txt")
     (@WebSocketClient.sendCommand ReferenceRuntime.runtime (readFile_command sample_id "/a.txt")
        WebSocketClient.createWebSocketClient).2).2.

Definition response_to (id : string) (binary : list byte) : Message :=
  {| messageType := MessageType.Response;
     messageJson := object [("success", JBool true); ("commandId", JString id)];
     messageBinary := Some binary |}.

Definition response_frame (id : string) (binary : list byte) : list byte :=
  @arrayBufferFromMessage ReferenceRuntime.runtime (response_to id binary).

(** An event frame that declares 100 bytes of payload, 1 of them JSON, and
    holds 4: the JSON text [1] and three more bytes. *)
Definition short_frame : list byte :=
  ["000"; "000"; "000"; "100"; "000"; "000"; "000"; "001"; "002"; "1"; "007"; "007"; "007"]%byte.

(** The empty tree, the tree after [writeFile("/a.txt", "hi", ...)], and
    that tree after [createDirectory("/dir")], under the reference runtime. *)
Definition empty_tree : State := @createInMemoryFileSystem ReferenceRuntime.runtime.

Definition tree_a : State :=
  (@InMemoryFileSystem.writeFile ReferenceRuntime.runtime "/a.txt" hi true false empty_tree).2.

Definition tree_a_dir : State :=
  (@InMemoryFileSystem.createDirectory ReferenceRuntime.runtime "/dir" tree_a).2.

Definition short_frame_message : Message :=
  {| messageType := MessageType.Event;
     messageJson := JNumber 1;
     messageBinary := Some ["007"; "007"; "007"]%byte |}.

End Examples.

(* ===================================================================== *)
(** ** Equality of error codes                                            *)
(* ===================================================================== *)

#[global] Instance FileSystemErrorCode_eq_dec : EqDecision FileSystemErrorCode.
Proof. solve_decision. Defined.

(* ===================================================================== *)
(** ** More vocabulary for the tree                                       *)
(* ===================================================================== *)

Module TreeInvariants.
Import InMemoryFileSystem.

(** A computation that leaves the state as it is. *)
Definition read_only {A} (c : M A) : Prop := forall σ, (c σ).2 = σ.

(** A computation that returns from every state. *)
Definition never_throws {A} (c : M A) : Prop := forall σ, exists a σ', c σ = (Ok a, σ').

(** A computation that has changed nothing when it throws. *)
Definition atomic {A} (c : M A) : Prop := forall σ e σ', c σ = (Throw e, σ') -> σ' = σ.

(** The [type] of an object is that of its class. *)
Definition typed (e : Entry) : Prop :=
  match e with
  | File f => file_type f = FileType.File
  | Directory d => dir_type d = FileType.Directory
  end.

(** The children of an object are among the objects [D]. *)
Definition linked (D : gset loc) (e : Entry) : Prop :=
  match e with
  | File _ => True
  | Directory d => forall name c, dir_entries d !! name = Some c -> c ∈ D
  end.

(** Every object of a store is typed, and linked to objects of [D]. *)
Definition sound (D : gset loc) (s : gmap loc Entry) : Prop :=
  forall l e, s !! l = Some e -> typed e /\ linked D e.

(** The root is a directory, and every object is typed and linked to
    objects of the store. *)
Definition well_formed (σ : State) : Prop :=
  (exists d, store σ !! root = Some (Directory d)) /\
  sound (dom (store σ)) (store σ).

(** An assignment that leaves an object in its class. *)
Definition keeps_class (g : Entry -> Entry) : Prop :=
  (forall f, exists f', g (File f) = File f') /\
  (forall d, exists d', g (Directory d) = Directory d').

(** The child relation of [σ] is part of that of [σ']. *)
Definition children_kept (σ σ' : State) : Prop :=
  forall l name c, child σ l name = Some c -> child σ' l name = Some c.

(** An assignment that changes neither the name nor the children of an
    object, nor its class. *)
Definition keeps_links (g : Entry -> Entry) : Prop :=
  forall e, entry_name (g e) = entry_name e /\
            match g e, e with
            | Directory d', Directory d => dir_entries d' = dir_entries d
            | File _, File _ => True
            | _, _ => False
            end.

(** [entry.name], for the object at [l]. *)
Definition name_of (σ : State) (l : loc) : option string := entry_name <$> store σ !! l.

(** The shape of a tree: a directory holds each child under the child's
    own name, no object is a child of two directories, and no directory
    holds the root. *)
Definition tree_shaped (σ : State) : Prop :=
  (forall d k l, child σ d k = Some l -> name_of σ l = Some k) /\
  (forall d d' k k' l, child σ d k = Some l -> child σ d' k' = Some l -> d = d') /\
  (forall d k, child σ d k <> Some root).

(** An absolute path with a last component. *)
Definition proper (path : string) : Prop :=
  Path.isAbsolute path = true /\ Path.basename path <> EmptyString.

(** An operation whose paths are absolute, with a last component where the
    operation changes the tree. *)
Definition proper_op (op : Operation) : Prop :=
  match op with
  | op_rename oldPath newPath _ => proper oldPath /\ proper newPath
  | op_writeFile urlPath _ _ _ => proper urlPath
  | op_deleteFile urlPath => proper urlPath
  | op_createDirectory urlPath => proper urlPath
  | _ => True
  end.

(** The states that sequences of such operations produce from the empty
    tree. *)
Inductive reachable_proper `{Runtime} : State -> Prop :=
| reachable_proper_empty : reachable_proper createInMemoryFileSystem
| reachable_proper_step σ op :
    reachable_proper σ -> proper_op op -> reachable_proper (run op σ).2.

End TreeInvariants.
Export TreeInvariants.

(* ===================================================================== *)
(** ** src/fileSystemProtocol/commands.ts: command creation               *)
(* ===================================================================== *)

Module CommandCreation.

(** [CommandCreationOptions]: the fields of the command but its
    [commandId], and the [binary] of a [writeFile]. *)
Record CommandCreationOptions := {
  fields : gmap string JSONValue;
  binary : option (list byte);
}.

(** [createCommandMessage(options)], for the [commandId] that [uuidV4()]
    returns. A field [commandId] of the options would replace it, as the
    spread comes second. A [Uint8Array] is truthy, also when it is empty. *)
Definition createCommandMessage (commandId : string) (options : CommandCreationOptions)
    : Message :=
  match binary options with
  | Some binary =>
      {| messageType := MessageType.Command;
         messageJson := JObject (fields options ∪ {["commandId" := JString commandId]});
         messageBinary := Some binary |}
  | None =>
      {| messageType := MessageType.Command;
         messageJson := JObject (fields options ∪ {["commandId" := JString commandId]});
         messageBinary := None |}
  end.

End CommandCreation.
Export CommandCreation.

(* ===================================================================== *)
(** ** src/webSocketClient.ts: the methods of the client                  *)
(* ===================================================================== *)

Module ClientMethods.
Import ExampleServer WebSocketClient.

(** The two arguments of [sendCommand]. *)
Record Call := {
  options : CommandCreationOptions;
  schema : list MessageSchema;
}.

Definition strings (values : list string) : JSONValue := JArray (JString <$> values).

Definition watch (path : string) (recursive : bool) (excludes : list string) : Call :=
  {| options :=
       {| fields := list_to_map [("command", JString "watch"); ("path", JString path);
                                 ("recursive", JBool recursive); ("excludes", strings excludes)];
          binary := None |};
     schema := watchResponseSchema |}.

Definition pathOnly (command path : string) (schema : list MessageSchema) : Call :=
  {| options :=
       {| fields := list_to_map [("command", JString command); ("path", JString path)];
          binary := None |};
     schema := schema |}.

Definition status (path : string) : Call := pathOnly "status" path statusResponseSchema.

Definition readDirectory (path : string) : Call :=
  pathOnly "readDirectory" path readDirectoryResponseSchema.

Definition createDirectory (path : string) : Call :=
  pathOnly "createDirectory" path createDirectoryResponseSchema.

Definition readFile (path : string) : Call := pathOnly "readFile" path readFileResponseSchema.

Definition writeFile (path : string) (create overwrite : bool) (content : list byte) : Call :=
  {| options :=
       {| fields := list_to_map [("command", JString "writeFile"); ("path", JString path);
                                 ("create", JBool create); ("overwrite", JBool overwrite)];
          binary := Some content |};
     schema := writeFileResponseSchema |}.

Definition delete (path : string) : Call := pathOnly "delete" path deleteResponseSchema.

Definition rename (oldPath newPath : string) (overwrite : bool) : Call :=
  {| options :=
       {| fields := list_to_map [("command", JString "rename"); ("oldPath", JString oldPath);
                                 ("newPath", JString newPath); ("overwrite", JBool overwrite)];
          binary := None |};
     schema := renameResponseSchema |}.

Definition copy (sourcePath destinationPath : string) (overwrite : bool) : Call :=
  {| options :=
       {| fields := list_to_map [("command", JString "copy");
                                 ("sourcePath", JString sourcePath);
                                 ("destinationPath", JString destinationPath);
                                 ("overwrite", JBool overwrite)];
          binary := None |};
     schema := copyResponseSchema |}.

(** The calls that the methods of the client make. *)
Inductive method : Call -> Prop :=
| method_watch path recursive excludes : method (watch path recursive excludes)
| method_status path : method (status path)
| method_readDirectory path : method (readDirectory path)
| method_createDirectory path : method (createDirectory path)
| method_readFile path : method (readFile path)
| method_writeFile path create overwrite content :
    method (writeFile path create overwrite content)
| method_delete path : method (delete path)
| method_rename oldPath newPath overwrite : method (rename oldPath newPath overwrite)
| method_copy sourcePath destinationPath overwrite :
    method (copy sourcePath destinationPath overwrite).

(** The [command] of the options of a call. *)
Definition command_of (call : Call) : string :=
  match fields (options call) !! "command" with
  | Some (JString command) => command
  | _ => ""
  end.

(** The command of a call with the binary payload [binary]. *)
Definition command_message (call : Call) (id : string) (binary : option (list byte))
    : Message :=
  {| messageType := MessageType.Command;
     messageJson := JObject (fields (options call) ∪ {["commandId" := JString id]});
     messageBinary := binary |}.

End ClientMethods.

(* ===================================================================== *)
(** ** The protocol, operation by operation                               *)
(* ===================================================================== *)

Module Protocol.
Import InMemoryFileSystem ExampleServer.

(** The response schema that the client passes to [sendCommand] for each
    operation. *)
Definition response_schema (operation : string) : list MessageSchema :=
  if bool_decide (operation = "watch") then watchResponseSchema
  else if bool_decide (operation = "status") then statusResponseSchema
  else if bool_decide (operation = "readDirectory") then readDirectoryResponseSchema
  else if bool_decide (operation = "createDirectory") then createDirectoryResponseSchema
  else if bool_decide (operation = "readFile") then readFileResponseSchema
  else if bool_decide (operation = "writeFile") then writeFileResponseSchema
  else if bool_decide (operation = "delete") then deleteResponseSchema
  else if bool_decide (operation = "rename") then renameResponseSchema
  else if bool_decide (operation = "copy") then copyResponseSchema
  else [].

(** The error codes that the response schema of each operation lists. *)
Definition error_codes (operation : string) : list string :=
  if bool_decide (operation ∈ ["status"; "readDirectory"; "readFile"]) then ["FileNotFound"]
  else if bool_decide (operation ∈ ["createDirectory"; "writeFile"; "rename"; "copy"])
  then ["FileNotFound"; "FileExists"; "NoPermissions"]
  else if bool_decide (operation = "delete") then ["FileNotFound"; "NoPermissions"]
  else [].

(** The call of the tree that the handler of a command makes inside its
    [try]; the handlers of [watch] and [status] make none that throws. *)
Definition tree_call (n : Narrowed) : option Operation :=
  let json := messageJson (message n) in
  let path := string_field json "path" in
  let command := command n in
  if bool_decide (command = "readDirectory") then Some (op_lookupDirectory path false)
  else if bool_decide (command = "writeFile")
  then Some (op_writeFile path (default [] (messageBinary (message n)))
               (bool_field json "create") (bool_field json "overwrite"))
  else if bool_decide (command = "createDirectory") then Some (op_createDirectory path)
  else if bool_decide (command = "readFile") then Some (op_lookupFile path)
  else if bool_decide (command = "rename")
  then Some (op_rename (string_field json "oldPath") (string_field json "newPath")
               (bool_field json "overwrite"))
  else if bool_decide (command = "delete") then Some (op_deleteFile path)
  else None.

(** What the decoder makes of the frame of a message: a binary payload of
    no bytes is absent from the decoded message. *)
Definition received (m : Message) : Message :=
  {| messageType := messageType m;
     messageJson := messageJson m;
     messageBinary :=
       match messageBinary m with
       | Some [] | None => None
       | Some binary => Some binary
       end |}.

(** The platform returns the JSON of a message from its encoded text, and
    the frame of the message fits the 32-bit length fields. *)
Definition transferable `{Runtime} (m : Message) : Prop :=
  JSON_parse (TextDecoder_decode (TextEncoder_encode (JSON_stringify (messageJson m))))
    = Some (messageJson m) /\
  Z.of_nat (length (TextEncoder_encode (JSON_stringify (messageJson m)))
            + length (default [] (messageBinary m))) < 2 ^ 32.

End Protocol.
Export Protocol.

(* ===================================================================== *)
(** ** src/fileSystemProvider.ts                                          *)
(* ===================================================================== *)

Module WebSocketFS.
Import ExampleServer.

(** [vscode.FileChangeType] and [vscode.FileChangeEvent]; a [Uri] is known
    by its path. *)
Inductive FileChangeType := Changed | Created | Deleted.

Record FileChangeEvent := {
  type : FileChangeType;
  uri : string;
}.

(** The events of the provider: the buffered events, the handle of the
    timer set last, the timers that are set and have neither been cleared
    nor gone off, and the arrays that the emitter has fired, oldest first.
    [fired] holds the events that the listeners were called with; the array
    is the buffer itself, which is emptied after the call. *)
Record Events := {
  _bufferedEvents : list FileChangeEvent;
  _fireSoonHandle : option nat;
  timers : gset nat;
  nextTimer : nat;
  fired : list (list FileChangeEvent);
}.

Definition noEvents : Events :=
  {| _bufferedEvents := []; _fireSoonHandle := None; timers := ∅; nextTimer := 0%nat;
     fired := [] |}.

(** [_fireSoon(...events)]. *)
Definition _fireSoon (events : list FileChangeEvent) (s : Events) : Events :=
  {| _bufferedEvents := _bufferedEvents s ++ events;
     _fireSoonHandle := Some (nextTimer s);
     timers :=
       {[nextTimer s]} ∪
       match _fireSoonHandle s with
       | Some handle => timers s ∖ {[handle]}
       | None => timers s
       end;
     nextTimer := S (nextTimer s);
     fired := fired s |}.

(** The callback of the timer [handle], 5 ms after it was set, unless it
    has been cleared. *)
Definition timeout (handle : nat) (s : Events) : Events :=
  if bool_decide (handle ∈ timers s) then
    {| _bufferedEvents := [];
       _fireSoonHandle := _fireSoonHandle s;
       timers := timers s ∖ {[handle]};
       nextTimer := nextTimer s;
       fired := fired s ++ [_bufferedEvents s] |}
  else s.

(** What happens to the events: a call of [_fireSoon], or a timer going
    off. *)
Inductive Step :=
| fireSoon (events : list FileChangeEvent)
| goesOff (handle : nat).

Definition step (s : Events) (x : Step) : Events :=
  match x with
  | fireSoon events => _fireSoon events s
  | goesOff handle => timeout handle s
  end.

(** The events passed to [_fireSoon] in a list of steps, in order. *)
Definition passed (steps : list Step) : list FileChangeEvent :=
  concat ((fun x => match x with fireSoon events => events | goesOff _ => [] end) <$> steps).

(** [throwFor(code, uri)]; [code] is [None] for [undefined]. *)
Definition throwFor {A} (code : option JSONValue) (uri : string) : Result A :=
  match code with
  | Some (JString "FileNotFound") => Throw (FileSystemError FileNotFound uri)
  | Some (JString "FileExists") => Throw (FileSystemError FileExists uri)
  | Some (JString "NoPermissions") | Some (JString "Unauthorized") | Some (JNumber 401) =>
      Throw (FileSystemError NoPermissions uri)
  | _ => Throw (FileSystemError Unavailable uri)
  end.

(** Each method from the point where the client has returned the
    response. *)
Definition stat (uri : string) (response : Message) : Result (option JSONValue) :=
  let messageJson := messageJson response in
  if bool_field messageJson "success" then Ok (field messageJson "result")
  else throwFor (field messageJson "error") uri.

Definition readDirectory (uri : string) (response : Message) : Result (option JSONValue) :=
  let messageJson := messageJson response in
  if bool_field messageJson "success" then Ok (field messageJson "result")
  else throwFor (field messageJson "error") uri.

Definition readFile (uri : string) (response : Message) : Result (list byte) :=
  match messageBinary response with
  | Some messageBinary => Ok messageBinary
  | None => throwFor (field (messageJson response) "error") uri
  end.

Definition writeFile (uri : string) (response : Message) (s : Events) : Result unit * Events :=
  let messageJson := messageJson response in
  if negb (bool_field messageJson "success")
  then (throwFor (field messageJson "error") uri, s)
  else
    let s := if bool_field messageJson "created"
             then _fireSoon [{| type := Created; uri := uri |}] s else s in
    (Ok tt, _fireSoon [{| type := Changed; uri := uri |}] s).

Definition rename (oldUri newUri : string) (response : Message) (s : Events)
    : Result unit * Events :=
  let messageJson := messageJson response in
  if negb (bool_field messageJson "success")
  then (throwFor (field messageJson "error") oldUri, s)
  else (Ok tt, _fireSoon [{| type := Deleted; uri := oldUri |};
                          {| type := Created; uri := newUri |}] s).

Definition delete (uri : string) (response : Message) : Result unit :=
  let messageJson := messageJson response in
  if negb (bool_field messageJson "success")
  then throwFor (field messageJson "error") uri
  else Ok tt.

Definition createDirectory (uri : string) (response : Message) (s : Events)
    : Result unit * Events :=
  let messageJson := messageJson response in
  if negb (bool_field messageJson "success")
  then (throwFor (field messageJson "error") uri, s)
  else
    let parent := Path.dirname uri in
    (Ok tt, _fireSoon [{| type := Changed; uri := parent |};
                       {| type := Created; uri := uri |}] s).

End WebSocketFS.

(* ===================================================================== *)
(** ** Facts about bytes and frames                                       *)
(* ===================================================================== *)

Section BytesFacts.

Lemma Z_of_byte_bounds b : 0 <= Z_of_byte b < 256.
Proof.
  unfold Z_of_byte. pose proof (Byte.to_N_bounded b). lia.
Qed.

Lemma Z_of_byte_of_Z z : Z_of_byte (byte_of_Z z) = z mod 256.
Proof.
  unfold Z_of_byte, byte_of_Z.
  pose proof (Z.mod_pos_bound z 256 ltac:(lia)) as Hb.
  destruct (Byte.of_N (Z.to_N (z mod 256))) as [b|] eqn:E.
  - apply Byte.to_of_N in E. rewrite E. lia.
  - apply Byte.of_N_None_iff in E. lia.
Qed.

Lemma byte_of_Z_of_byte b : byte_of_Z (Z_of_byte b) = b.
Proof.
  unfold Z_of_byte, byte_of_Z.
  pose proof (Byte.to_N_bounded b).
  rewrite Z.mod_small by lia. rewrite N2Z.id, Byte.of_to_N. reflexivity.
Qed.

Lemma Z_of_byte_nonneg b : 0 <= Z_of_byte b.
Proof. apply Z_of_byte_bounds. Qed.

Lemma getUint32_nonneg (bytes : list byte) off v :
  getUint32 bytes off = Ok v -> 0 <= v.
Proof.
  unfold getUint32.
  destruct (bytes !! off), (bytes !! (off + 1)%nat), (bytes !! (off + 2)%nat),
    (bytes !! (off + 3)%nat); try discriminate.
  intros [= <-].
  repeat (apply Z.lor_nonneg; split); try apply Z.shiftl_nonneg; apply Z_of_byte_nonneg.
Qed.

Lemma uint32_recompose v :
  Z.lor (Z.shiftl (Z.shiftr v 24 mod 256) 24)
    (Z.lor (Z.shiftl (Z.shiftr v 16 mod 256) 16)
       (Z.lor (Z.shiftl (Z.shiftr v 8 mod 256) 8) (v mod 256))) = v mod 2 ^ 32.
Proof.
  apply Z.bits_inj'. intros n Hn.
  change 256 with (2 ^ 8).
  rewrite !Z.lor_spec, !Z.shiftl_spec, !Z.testbit_mod_pow2 by lia.
  assert (Hcases : n < 8 \/ 8 <= n < 16 \/ 16 <= n < 24 \/ 24 <= n < 32 \/ 32 <= n) by lia.
  destruct Hcases as [?|[?|[?|[?|?]]]];
    rewrite ?(Z.testbit_neg_r _ (n - 8)), ?(Z.testbit_neg_r _ (n - 16)),
      ?(Z.testbit_neg_r _ (n - 24)) by lia;
    rewrite ?Z.shiftr_spec by lia;
    replace (n - 8 + 8) with n by lia;
    replace (n - 16 + 16) with n by lia;
    replace (n - 24 + 24) with n by lia;
    repeat match goal with
           | |- context [?a <? ?b] => destruct (Z.ltb_spec a b); try lia
           end;
    simpl; rewrite ?andb_false_r, ?orb_false_r; reflexivity.
Qed.


Lemma Uint8Array_set_app (before old after src : list byte) :
  length old = length src ->
  Uint8Array_set (before ++ old ++ after) src (length before) = before ++ src ++ after.
Proof.
  intros Hlen. unfold Uint8Array_set.
  rewrite decide_True by (rewrite !length_app; lia).
  rewrite take_app_length.
  rewrite drop_app_ge by lia.
  replace (length before + length src - length before)%nat with (length old) by lia.
  rewrite drop_app_length. reflexivity.
Qed.

Context `{Runtime}.

Lemma encode_layout (m : Message) :
  let json := TextEncoder_encode (JSON_stringify (messageJson m)) in
  let binary := default [] (messageBinary m) in
  arrayBufferFromMessage m =
    frame (Z.of_nat (length json + length binary)) (Z.of_nat (length json))
      (messageType m) json binary.
Proof.
  intros json binary. unfold arrayBufferFromMessage, frame, uint32_bytes.
  fold json.
  replace (match messageBinary m with Some b => length b | None => 0%nat end)
    with (length binary) by (unfold binary; destruct (messageBinary m); reflexivity).
  set (total := Z.of_nat (length json + length binary)).
  set (jl := Z.of_nat (length json)).
  unfold ArrayBuffer_new, HEADER_LENGTH, PAYLOAD_LENGTH_OFFSET, JSON_LENGTH_OFFSET,
    MESSAGE_TYPE_OFFSET, setUint32, setUint8.
  replace (9 + length json + length binary)%nat
    with (9 + (length json + length binary))%nat by lia.
  cbn [Nat.add replicate list_insert insert].
  rewrite replicate_add.
  set (hdr := [byte_of_Z (Z.shiftr total 24); byte_of_Z (Z.shiftr total 16);
               byte_of_Z (Z.shiftr total 8); byte_of_Z total;
               byte_of_Z (Z.shiftr jl 24); byte_of_Z (Z.shiftr jl 16);
               byte_of_Z (Z.shiftr jl 8); byte_of_Z jl; byte_of_Z (messageType m)]).
  change (Uint8Array_set ?x json 9)
    with (Uint8Array_set (hdr ++ replicate (length json) "000"%byte
                            ++ replicate (length binary) "000"%byte) json (length hdr)).
  rewrite Uint8Array_set_app by apply length_replicate.
  change ([?a; ?b; ?c; ?d] ++ [?e; ?f; ?g; ?h] ++ [?i] ++ ?rest) with (hdr ++ rest).
  destruct (messageBinary m) as [binary0|] eqn:Hbin; unfold binary; simpl default.
  - change (S (S (S (S (S (S (S (S (S (length json))))))))))
      with (length hdr + length json)%nat.
    rewrite <- length_app.
    rewrite (app_assoc hdr json).
    rewrite <- (app_nil_r (replicate (length binary0) _)).
    rewrite Uint8Array_set_app by apply length_replicate.
    rewrite app_nil_r, <- app_assoc. reflexivity.
  - simpl. reflexivity.
Qed.


Lemma getUint32_frame total jl ty json binary :
  getUint32 (frame total jl ty json binary) 0 = Ok (total mod 2 ^ 32) /\
  getUint32 (frame total jl ty json binary) 4 = Ok (jl mod 2 ^ 32) /\
  getUint8 (frame total jl ty json binary) 8 = Ok (ty mod 256).
Proof.
  unfold frame, uint32_bytes, getUint32, getUint8. cbn [app lookup list_lookup Nat.add].
  rewrite !Z_of_byte_of_Z, !uint32_recompose. auto.
Qed.

Lemma Uint8Array_slice_app (a b c : list byte) :
  Uint8Array_slice (a ++ b ++ c) (Z.of_nat (length a)) (Z.of_nat (length a) + Z.of_nat (length b)) = b.
Proof.
  unfold Uint8Array_slice, relative_index. rewrite !length_app.
  destruct (Z.ltb_spec (Z.of_nat (length a)) 0); [lia|].
  destruct (Z.ltb_spec (Z.of_nat (length a) + Z.of_nat (length b)) 0); [lia|].
  rewrite !Z.min_l by lia.
  rewrite Nat2Z.id.
  replace (Z.to_nat (Z.of_nat (length a) + Z.of_nat (length b) - Z.of_nat (length a)))
    with (length b) by lia.
  rewrite drop_app_length, take_app_length. reflexivity.
Qed.

Lemma length_Uint8Array_slice (bytes : list byte) (a b : Z) :
  0 <= a <= b -> b <= Z.of_nat (length bytes) ->
  Z.of_nat (length (Uint8Array_slice bytes a b)) = b - a.
Proof.
  intros Hab Hb. unfold Uint8Array_slice, relative_index.
  destruct (Z.ltb_spec a 0); [lia|]. destruct (Z.ltb_spec b 0); [lia|].
  rewrite !Z.min_l by lia.
  rewrite length_take, length_drop. lia.
Qed.

End BytesFacts.

(* ===================================================================== *)
(** ** Facts about the schemas                                            *)
(* ===================================================================== *)

Section ZodFacts.

Lemma parse_object (shape : list (string * Schema)) (mode : UnknownKeys) (o : gmap string JSONValue) :
  parse (z_object shape mode) (JObject o) =
    out ← parse_fields o shape;
    match mode with
    | strip => Some (JObject out)
    | passthrough => Some (JObject (out ∪ o))
    | strict =>
        if bool_decide (dom o ⊆ list_to_set shape.*1) then Some (JObject out) else None
    end.
Proof. reflexivity. Qed.

Lemma parse_object_inv shape mode v r :
  parse (z_object shape mode) v = Some r -> exists o, v = JObject o.
Proof. destruct v; try discriminate. eauto. Qed.

Lemma returns_input_string : returns_input z_string.
Proof. intros [] r; simpl; congruence. Qed.
Lemma returns_input_uuid : returns_input z_string_uuid.
Proof. intros [] r; simpl; try congruence. destruct (is_uuid s); congruence. Qed.
Lemma returns_input_boolean : returns_input z_boolean.
Proof. intros [] r; simpl; congruence. Qed.

Lemma parse_fields_subseteq o sh out :
  Forall (fun ks => returns_input ks.2) sh ->
  parse_fields o sh = Some out -> out ⊆ o.
Proof.
  intros Hsh. revert out. induction Hsh as [|[k s] sh Hs _ IH]; intros out; simpl.
  - intros [= <-]. apply map_empty_subseteq.
  - destruct (o !! k) as [x|] eqn:Hk.
    + destruct (parse s x) as [r|] eqn:Hr; simpl; [|discriminate].
      destruct (parse_fields o sh) as [acc|]; simpl; [|discriminate].
      intros [= <-]. apply Hs in Hr. subst r.
      apply insert_subseteq_l; auto.
    + destruct (accepts_undefined s); [|discriminate]. auto.
Qed.

Lemma parse_passthrough_object sh v r :
  Forall (fun ks => returns_input ks.2) sh ->
  parse (z_object sh passthrough) v = Some r -> r = v.
Proof.
  intros Hsh Hp. destruct (parse_object_inv _ _ _ _ Hp) as [o ->].
  rewrite parse_object in Hp.
  destruct (parse_fields o sh) as [out|] eqn:Hout; simpl in Hp; [|discriminate].
  injection Hp as <-. f_equal.
  apply map_subseteq_union. eapply parse_fields_subseteq; eauto.
Qed.

Lemma messageSchema_returns_input m m' :
  parse_discriminatedUnion messageSchema m = Some m' -> m' = m.
Proof.
  unfold parse_discriminatedUnion, messageSchema. cbn [List.find].
  cbn [shape_messageType commandMessageSchema responseMessageSchema eventMessageSchema].
  destruct m as [ty json bin]. cbn [messageType].
  repeat case_bool_decide; try discriminate;
    unfold parse_message; cbn [messageType messageJson messageBinary shape_messageType
      shape_messageJson shape_messageBinary message_unknownKeys commandMessageSchema
      responseMessageSchema eventMessageSchema parse_binary];
    rewrite bool_decide_true by done;
    (destruct (parse _ json) as [json'|] eqn:Hj; simpl; [|discriminate]);
    intros [= <-]; f_equal.
  - eapply parse_passthrough_object; [|exact Hj].
    repeat constructor; [apply returns_input_string | apply returns_input_uuid].
  - eapply parse_passthrough_object; [|exact Hj].
    repeat constructor; [apply returns_input_uuid | apply returns_input_boolean].
  - simpl in Hj. congruence.
Qed.

Lemma messageSchema_binary m m' binary :
  parse_discriminatedUnion messageSchema m = Some m' ->
  parse_discriminatedUnion messageSchema
    {| messageType := messageType m; messageJson := messageJson m; messageBinary := binary |}
  = Some {| messageType := messageType m; messageJson := messageJson m; messageBinary := binary |}.
Proof.
  intros Hm. pose proof (messageSchema_returns_input _ _ Hm) as ->. revert Hm.
  unfold parse_discriminatedUnion, messageSchema. cbn [List.find].
  cbn [shape_messageType commandMessageSchema responseMessageSchema eventMessageSchema].
  destruct m as [ty json bin]. cbn [messageType messageJson].
  repeat case_bool_decide; try discriminate;
    unfold parse_message; cbn [messageType messageJson messageBinary shape_messageType
      shape_messageJson shape_messageBinary message_unknownKeys commandMessageSchema
      responseMessageSchema eventMessageSchema parse_binary];
    rewrite bool_decide_true by done;
    (destruct (parse _ json) as [json'|] eqn:Hj; simpl; [|discriminate]);
    intros [= <-]; reflexivity.
Qed.

Lemma messageSchema_messageType m m' :
  parse_discriminatedUnion messageSchema m = Some m' ->
  messageType m = 0 \/ messageType m = 1 \/ messageType m = 2.
Proof.
  unfold parse_discriminatedUnion, messageSchema. cbn [List.find].
  cbn [shape_messageType commandMessageSchema responseMessageSchema eventMessageSchema].
  unfold MessageType.Command, MessageType.Response, MessageType.Event.
  repeat case_bool_decide; try discriminate; auto.
Qed.

End ZodFacts.

(* ===================================================================== *)
(** ** The wire codec                                                     *)
(* ===================================================================== *)

Section CodecFacts.
Context `{Runtime}.

(** What [messageFromBytes] does, step by step, on a buffer it accepts. *)
Lemma messageFromBytes_success bytes m :
  messageFromBytes bytes = success_true m ->
  exists totalLength jsonLength type json,
    getUint32 bytes 0 = Ok totalLength /\
    getUint32 bytes 4 = Ok jsonLength /\
    getUint8 bytes 8 = Ok type /\
    JSON_parse (TextDecoder_decode (Uint8Array_slice bytes 9 (9 + jsonLength))) = Some json /\
    parse_discriminatedUnion messageSchema
      {| messageType := type; messageJson := json;
         messageBinary :=
           if bool_decide (totalLength - jsonLength = 0) then None
           else Some (Uint8Array_slice bytes (9 + jsonLength)
                        (9 + jsonLength + (totalLength - jsonLength))) |} = Some m.
Proof.
  unfold messageFromBytes, PAYLOAD_LENGTH_OFFSET, JSON_LENGTH_OFFSET, MESSAGE_TYPE_OFFSET,
    HEADER_LENGTH, stringToJSONSchema_parse.
  change (Z.of_nat 9) with 9.
  destruct (getUint32 bytes 0) as [totalLength|]; simpl; [|discriminate].
  destruct (getUint32 bytes 4) as [jsonLength|]; simpl; [|discriminate].
  destruct (getUint8 bytes 8) as [type|]; simpl; [|discriminate].
  destruct (JSON_parse _) as [json|] eqn:Hjson; simpl; [|discriminate].
  destruct (parse_discriminatedUnion _ _) as [m'|] eqn:Hm; simpl; [|discriminate].
  intros [= <-]. exists totalLength, jsonLength, type, json. auto.
Qed.

Lemma getUint8_Some_length (bytes : list byte) off v :
  getUint8 bytes off = Ok v -> (off < length bytes)%nat.
Proof.
  unfold getUint8. destruct (bytes !! off) eqn:E; [|discriminate].
  intros _. eapply lookup_lt_Some; eauto.
Qed.

Lemma frame_slices total jl ty (json binary : list byte) :
  Uint8Array_slice (frame total jl ty json binary) 9 (9 + Z.of_nat (length json)) = json /\
  Uint8Array_slice (frame total jl ty json binary) (9 + Z.of_nat (length json))
    (9 + Z.of_nat (length json) + Z.of_nat (length binary)) = binary.
Proof.
  unfold frame, uint32_bytes. cbn [app].
  set (hdr := [byte_of_Z (Z.shiftr total 24); byte_of_Z (Z.shiftr total 16);
               byte_of_Z (Z.shiftr total 8); byte_of_Z total;
               byte_of_Z (Z.shiftr jl 24); byte_of_Z (Z.shiftr jl 16);
               byte_of_Z (Z.shiftr jl 8); byte_of_Z jl; byte_of_Z ty]).
  change (_ :: _ :: _ :: _ :: _ :: _ :: _ :: _ :: _ :: json ++ binary)
    with (hdr ++ json ++ binary).
  split.
  - exact (Uint8Array_slice_app hdr json binary).
  - pose proof (Uint8Array_slice_app (hdr ++ json) binary []) as Hs.
    rewrite length_app, Nat2Z.inj_add, app_nil_r, <- app_assoc in Hs.
    exact Hs.
Qed.

Lemma messageFromBytes_frame (m : Message) (json binary : list byte) :
  JSON_parse (TextDecoder_decode json) = Some (messageJson m) ->
  valid_message m ->
  Z.of_nat (length json + length binary) < 2 ^ 32 ->
  messageFromBytes
    (frame (Z.of_nat (length json + length binary)) (Z.of_nat (length json))
       (messageType m) json binary)
  = success_true
      {| messageType := messageType m; messageJson := messageJson m;
         messageBinary := if bool_decide (binary = []) then None else Some binary |}.
Proof.
  intros Hjson Hvalid Hfit.
  pose proof (messageSchema_messageType _ _ Hvalid) as Hty.
  unfold messageFromBytes, PAYLOAD_LENGTH_OFFSET, JSON_LENGTH_OFFSET, MESSAGE_TYPE_OFFSET,
    HEADER_LENGTH, stringToJSONSchema_parse.
  destruct (getUint32_frame (Z.of_nat (length json + length binary)) (Z.of_nat (length json))
              (messageType m) json binary) as (-> & -> & ->).
  rewrite !Z.mod_small by lia. cbn [mbind Result_bind JS.bind].
  change (Z.of_nat 9) with 9.
  replace (Z.of_nat (length json + length binary) - Z.of_nat (length json))
    with (Z.of_nat (length binary)) by lia.
  destruct (frame_slices (Z.of_nat (length json + length binary)) (Z.of_nat (length json))
              (messageType m) json binary) as [-> ->].
  rewrite Hjson. cbn [orThrowZod mbind Result_bind JS.bind].
  replace (bool_decide (Z.of_nat (length binary) = 0)) with (bool_decide (binary = [])).
  2:{ apply bool_decide_ext. destruct binary; simpl; split; intros; try done; lia. }
  rewrite (messageSchema_binary m m _ Hvalid). reflexivity.
Qed.

End CodecFacts.

Section CodecClaims.
Context `{Runtime}.

(** C1 (as amended). For every valid message [m] whose JSON the platform's
    text codec reads back and whose frame fits the 32-bit length fields, the
    frame produced by the encoder carries [jsonLength + binaryLength] and
    [jsonLength] in its header, and decoding it yields [m] again when the
    binary payload of [m] is absent or non-empty; when the binary payload is
    present with length zero, decoding yields [m] without a binary
    payload. *)
Theorem codec_round_trip (m : Message) :
  valid_message m ->
  JSON_parse (TextDecoder_decode (TextEncoder_encode (JSON_stringify (messageJson m))))
    = Some (messageJson m) ->
  Z.of_nat (length (TextEncoder_encode (JSON_stringify (messageJson m))) + binaryLength m)
    < 2 ^ 32 ->
  let jsonLength := length (TextEncoder_encode (JSON_stringify (messageJson m))) in
  let bytes := arrayBufferFromMessage m in
  getUint32 bytes PAYLOAD_LENGTH_OFFSET = Ok (Z.of_nat (jsonLength + binaryLength m)) /\
  getUint32 bytes JSON_LENGTH_OFFSET = Ok (Z.of_nat jsonLength) /\
  (messageBinary m <> Some [] -> messageFromBytes bytes = success_true m) /\
  (messageBinary m = Some [] -> messageFromBytes bytes = success_true (without_binary m)).
Proof.
  intros Hvalid Hjson Hfit jsonLength bytes. subst bytes jsonLength.
  rewrite encode_layout. unfold binaryLength in *.
  set (json := TextEncoder_encode (JSON_stringify (messageJson m))) in *.
  set (binary := default [] (messageBinary m)) in *.
  unfold PAYLOAD_LENGTH_OFFSET, JSON_LENGTH_OFFSET.
  destruct (getUint32_frame (Z.of_nat (length json + length binary)) (Z.of_nat (length json))
              (messageType m) json binary) as (-> & -> & _).
  rewrite !Z.mod_small by lia.
  rewrite (messageFromBytes_frame m json binary Hjson Hvalid Hfit).
  repeat split.
  - intros Hne. subst binary. destruct m as [ty js [[|b bs]|]]; cbn [default messageBinary messageType messageJson] in *;
      unfold id in *; case_bool_decide; congruence.
  - intros Heq. subst binary. unfold without_binary. rewrite Heq. reflexivity.
Qed.

(** C2 (as amended). A buffer that the decoder accepts holds at least the
    9 bytes of the header; the binary payload of the message is absent when
    the declared total length equals the declared JSON length, and is
    otherwise the part of the buffer between the offsets [9 + jsonLength]
    and [9 + totalLength], cut at the end of the buffer; its length is
    [totalLength - jsonLength] whenever the buffer holds the
    [9 + totalLength] bytes that the header declares. *)
Theorem decode_binary_length (bytes : list byte) (m : Message) :
  messageFromBytes bytes = success_true m ->
  (HEADER_LENGTH <= length bytes)%nat /\
  exists totalLength jsonLength,
    getUint32 bytes PAYLOAD_LENGTH_OFFSET = Ok totalLength /\
    getUint32 bytes JSON_LENGTH_OFFSET = Ok jsonLength /\
    messageBinary m =
      (if bool_decide (totalLength = jsonLength) then None
       else Some (Uint8Array_slice bytes (9 + jsonLength) (9 + totalLength))) /\
    (jsonLength <= totalLength ->
     9 + totalLength <= Z.of_nat (length bytes) ->
     Z.of_nat (binaryLength m) = totalLength - jsonLength).
Proof.
  intros Hdec.
  destruct (messageFromBytes_success _ _ Hdec)
    as (totalLength & jsonLength & type & json & Ht & Hj & Hty & _ & Hm).
  split.
  { apply getUint8_Some_length in Hty. unfold HEADER_LENGTH. lia. }
  exists totalLength, jsonLength. unfold PAYLOAD_LENGTH_OFFSET, JSON_LENGTH_OFFSET.
  pose proof (getUint32_nonneg _ _ _ Hj) as Hj0.
  apply messageSchema_returns_input in Hm. subst m. cbn [messageBinary binaryLength].
  replace (9 + jsonLength + (totalLength - jsonLength)) with (9 + totalLength) by lia.
  replace (bool_decide (totalLength - jsonLength = 0)) with (bool_decide (totalLength = jsonLength))
    by (apply bool_decide_ext; lia).
  repeat split; auto.
  intros Hle Hlen. unfold binaryLength. cbn [messageBinary].
  clear Hdec. case_bool_decide; simpl.
  - lia.
  - rewrite length_Uint8Array_slice by lia. lia.
Qed.

End CodecClaims.

(** The premises of [codec_round_trip] hold of the [writeFile] command of
    the examples under the reference runtime. *)
Lemma codec_round_trip_witness :
  @messageFromBytes ReferenceRuntime.runtime
    (@arrayBufferFromMessage ReferenceRuntime.runtime (Examples.writeFile_command (Some Examples.hi)))
  = success_true (Examples.writeFile_command (Some Examples.hi)).
Proof.
  refine (proj1 (proj2 (proj2
    (@codec_round_trip ReferenceRuntime.runtime (Examples.writeFile_command (Some Examples.hi))
       _ _ _))) _).
  - vm_compute. reflexivity.
  - vm_compute. reflexivity.
  - vm_compute. reflexivity.
  - discriminate.
Defined.

(** C1 as stated fails for a present, zero-length binary payload: the
    message is valid, and decoding its frame yields a different message,
    one without a binary payload. *)
Lemma codec_round_trip_zero_length_counterexample :
  valid_message (Examples.writeFile_command (Some [])) /\
  @messageFromBytes ReferenceRuntime.runtime
    (@arrayBufferFromMessage ReferenceRuntime.runtime (Examples.writeFile_command (Some [])))
  = success_true (Examples.writeFile_command None) /\
  success_true (Examples.writeFile_command None)
  <> success_true (Examples.writeFile_command (Some [])).
Proof.
  split; [|split].
  - vm_compute. reflexivity.
  - vm_compute. reflexivity.
  - discriminate.
Qed.

Lemma decode_binary_length_witness :
  (HEADER_LENGTH <= length Examples.short_frame)%nat /\
  exists totalLength jsonLength,
    getUint32 Examples.short_frame PAYLOAD_LENGTH_OFFSET = Ok totalLength /\
    getUint32 Examples.short_frame JSON_LENGTH_OFFSET = Ok jsonLength /\
    messageBinary Examples.short_frame_message =
      (if bool_decide (totalLength = jsonLength) then None
       else Some (Uint8Array_slice Examples.short_frame (9 + jsonLength) (9 + totalLength))) /\
    (jsonLength <= totalLength ->
     9 + totalLength <= Z.of_nat (length Examples.short_frame) ->
     Z.of_nat (binaryLength Examples.short_frame_message) = totalLength - jsonLength).
Proof.
  apply (@decode_binary_length ReferenceRuntime.runtime).
  vm_compute. reflexivity.
Defined.

(** C2 as stated fails on a frame whose header declares more bytes than
    the buffer holds: the header declares a total of 100 and a JSON length
    of 1, the buffer holds 13 bytes and not 109, the decoder accepts it, and
    the binary payload of the result has 3 bytes and not 99. *)
Lemma decode_length_counterexample :
  getUint32 Examples.short_frame PAYLOAD_LENGTH_OFFSET = Ok 100 /\
  getUint32 Examples.short_frame JSON_LENGTH_OFFSET = Ok 1 /\
  length Examples.short_frame = 13%nat /\
  @messageFromBytes ReferenceRuntime.runtime Examples.short_frame
    = success_true Examples.short_frame_message /\
  Z.of_nat (binaryLength Examples.short_frame_message) <> 100 - 1.
Proof.
  repeat split; try (vm_compute; reflexivity). vm_compute. discriminate.
Qed.

(* ===================================================================== *)
(** ** Facts about paths                                                  *)
(* ===================================================================== *)

Module PathFacts.
Import Path.

Abbreviation str := String.string_of_list_ascii.
Abbreviation chars := String.list_ascii_of_string.

Lemma isAbsolute_chars path :
  isAbsolute path = match chars path with c :: _ => is_slash c | [] => false end.
Proof. destruct path; reflexivity. Qed.

Lemma split_nonempty s : split s <> [].
Proof.
  destruct s as [|c s]; simpl; [discriminate|].
  destruct (is_slash c); [discriminate|]. destruct (split s); discriminate.
Qed.

Lemma split_app_slash (a b : list ascii) :
  split (str (a ++ "/"%char :: b)) = split (str a) ++ split (str b).
Proof.
  induction a as [|c a IH]; simpl.
  - reflexivity.
  - rewrite IH. destruct (is_slash c); [reflexivity|].
    pose proof (split_nonempty (str a)) as Hne.
    destruct (split (str a)); [congruence|reflexivity].
Qed.

Lemma split_no_slash (a : list ascii) :
  Forall (fun c => is_slash c = false) a -> split (str a) = [str a].
Proof.
  induction 1 as [|c a Hc _ IH]; simpl; [reflexivity|].
  rewrite Hc, IH. reflexivity.
Qed.

Lemma parts_app_slash (a b : list ascii) :
  parts (str (a ++ "/"%char :: b)) = parts (str a) ++ parts (str b).
Proof. unfold parts. rewrite split_app_slash. apply filter_app. Qed.

Lemma parts_slashes (a : list ascii) :
  Forall (fun c => is_slash c = true) a -> parts (str a) = [].
Proof.
  unfold parts. induction 1 as [|c a Hc _ IH]; simpl.
  - rewrite filter_cons_False by (intros Hne; apply Hne; reflexivity). reflexivity.
  - rewrite Hc. rewrite filter_cons_False by (intros Hne; apply Hne; reflexivity).
    exact IH.
Qed.

Lemma parts_component (a t : list ascii) :
  a <> [] ->
  Forall (fun c => is_slash c = false) a ->
  Forall (fun c => is_slash c = true) t ->
  parts (str (a ++ t)) = [str a].
Proof.
  intros Hne Ha Ht.
  assert (Hone : parts (str a) = [str a]).
  { unfold parts. rewrite split_no_slash by exact Ha.
    rewrite filter_cons_True; [reflexivity|].
    destruct a; [congruence|discriminate]. }
  destruct Ht as [|c t Hc Ht].
  - rewrite app_nil_r. exact Hone.
  - assert (c = "/"%char) as -> by (unfold is_slash in Hc; case_bool_decide; congruence).
    rewrite parts_app_slash, Hone, parts_slashes by exact Ht. reflexivity.
Qed.

Lemma take_drop_while p l : l = take_while p l ++ drop_while p l.
Proof.
  induction l as [|c l IH]; simpl; [reflexivity|].
  destruct (p c); simpl; [f_equal; exact IH | reflexivity].
Qed.

Lemma take_while_Forall p l : Forall (fun c => p c = true) (take_while p l).
Proof.
  induction l as [|c l IH]; simpl; [constructor|].
  destruct (p c) eqn:Hc; constructor; auto.
Qed.

Lemma drop_while_head p l c l' : drop_while p l = c :: l' -> p c = false.
Proof.
  induction l as [|c0 l IH]; simpl; [discriminate|].
  destruct (p c0) eqn:Hc; [exact IH|]. intros [= <- <-]. exact Hc.
Qed.

(** A path as what precedes its last component, that component, and the
    slashes that follow it. *)
Lemma path_decomposition (path : string) :
  exists found name trail,
    drop_while (fun c => negb (is_slash c)) (drop_while is_slash (rev (chars path))) = found /\
    chars path = rev found ++ rev name ++ rev trail /\
    Forall (fun c => is_slash c = true) (rev trail) /\
    Forall (fun c => is_slash c = false) (rev name) /\
    basename path = str (rev name) /\
    (found = [] \/ exists before, found = "/"%char :: before).
Proof.
  set (backwards := rev (chars path)).
  set (trail := take_while is_slash backwards).
  set (name := take_while (fun c => negb (is_slash c)) (drop_while is_slash backwards)).
  set (found := drop_while (fun c => negb (is_slash c)) (drop_while is_slash backwards)).
  exists found, name, trail.
  assert (Hback : backwards = trail ++ name ++ found).
  { unfold trail, name, found. rewrite <- take_drop_while. apply take_drop_while. }
  split; [reflexivity|]. split; [|split; [|split; [|split]]].
  - rewrite <- (rev_involutive (chars path)). fold backwards. rewrite Hback.
    rewrite !rev_app_distr, app_assoc. reflexivity.
  - apply Forall_rev, take_while_Forall.
  - apply Forall_rev. eapply Forall_impl; [apply take_while_Forall|].
    intros c Hc. simpl in Hc. destruct (is_slash c); [discriminate|reflexivity].
  - reflexivity.
  - destruct found as [|c before] eqn:Hfound; [left; reflexivity|right].
    apply drop_while_head in Hfound. exists before. f_equal.
    unfold is_slash in Hfound. case_bool_decide; [congruence|discriminate].
Qed.

(** For an absolute path with a last component, the parts of the path are
    the parts of its directory name and then its base name. *)
Lemma parts_dirname_basename (path : string) :
  isAbsolute path = true ->
  basename path <> EmptyString ->
  parts path = parts (dirname path) ++ [basename path].
Proof.
  intros Habs Hbase.
  destruct (path_decomposition path)
    as (found & name & trail & Hdrop & Hchars & Htrail & Hname & Hbasename & Hfound).
  assert (Hnonempty : rev name <> []).
  { intros Hnil. apply Hbase. rewrite Hbasename, Hnil. reflexivity. }
  destruct Hfound as [Hnil | [before Hbefore]].
  { exfalso. rewrite Hnil in Hchars. simpl in Hchars.
    destruct (rev name) as [|c rest] eqn:Hrev; [congruence|].
    apply Forall_cons in Hname as [Hc _].
    rewrite isAbsolute_chars, Hchars in Habs. simpl in Habs. congruence. }
  rewrite Hbefore in Hdrop, Hchars. clear Hbefore found.
  assert (Hparts : parts path = parts (str (rev before)) ++ [basename path]).
  { rewrite <- (String.string_of_list_ascii_of_string path) at 1.
    rewrite Hchars. simpl rev. rewrite <- !app_assoc. simpl app.
    rewrite parts_app_slash, parts_component by assumption. rewrite Hbasename. reflexivity. }
  rewrite Hparts. f_equal.
  unfold dirname. destruct (chars path) as [|first rest] eqn:Hcs.
  { rewrite isAbsolute_chars, Hcs in Habs. discriminate. }
  assert (Hroot : is_slash first = true) by (rewrite isAbsolute_chars, Hcs in Habs; exact Habs).
  rewrite Hdrop, Hroot.
  destruct before as [|b before'].
  - reflexivity.
  - destruct before' as [|b' before''].
    + cbn [length andb]. rewrite bool_decide_true by reflexivity.
      simpl in Hchars. injection Hchars as Hb _. subst b.
      unfold is_slash in Hroot. case_bool_decide; [subst first|discriminate]. reflexivity.
    + cbn [length andb]. rewrite bool_decide_false by discriminate. reflexivity.
Qed.

End PathFacts.

(* ===================================================================== *)
(** ** The in-memory file system                                          *)
(* ===================================================================== *)

Module FileSystemFacts.
Import InMemoryFileSystem.

(** Lookups in a store after a series of assignments. *)
Ltac store_lookup :=
  repeat first
    [ rewrite lookup_alter_eq
    | rewrite lookup_alter_ne by congruence
    | rewrite lookup_insert_eq
    | rewrite lookup_insert_ne by congruence
    | rewrite lookup_delete_eq
    | rewrite lookup_delete_ne by congruence ].

(** The same with a case distinction where the identities may coincide. *)
Ltac store_lookup_cases := rewrite ?lookup_alter.

Section Facts.
Context `{Runtime}.

Lemma bind_run {A B} (c : M A) (k : A -> M B) (σ : State) :
  (c ≫= k) σ =
    match c σ with
    | (Ok a, σ') => k a σ'
    | (Throw e, σ') => (Throw e, σ')
    end.
Proof. reflexivity. Qed.

(** [_lookup] reads the store and leaves it as it is. *)
Lemma _lookup_run urlPath silent σ :
  _lookup urlPath silent σ =
    match walk σ (Path.split urlPath) root with
    | Some entry => (Ok (Some entry), σ)
    | None => if silent then (Ok None, σ)
              else (Throw (FileSystemError FileNotFound urlPath), σ)
    end.
Proof.
  unfold _lookup. rewrite bind_run. unfold get_state.
  destruct (walk σ (Path.split urlPath) root); [reflexivity|].
  destruct silent; reflexivity.
Qed.

Lemma lookupDirectory_run urlPath silent σ :
  lookupDirectory urlPath silent σ =
    match walk σ (Path.split urlPath) root with
    | Some l => if is_directory σ l then (Ok l, σ)
                else (Throw (FileSystemError FileNotADirectory urlPath), σ)
    | None => if silent then (Throw (FileSystemError FileNotADirectory urlPath), σ)
              else (Throw (FileSystemError FileNotFound urlPath), σ)
    end.
Proof.
  unfold lookupDirectory. rewrite bind_run, _lookup_run.
  destruct (walk σ (Path.split urlPath) root) as [l|].
  - rewrite bind_run. unfold get_state. destruct (is_directory σ l); reflexivity.
  - destruct silent; reflexivity.
Qed.

Lemma lookupFile_run urlPath σ :
  lookupFile urlPath σ =
    match walk σ (Path.split urlPath) root with
    | Some l => if is_file σ l then (Ok l, σ)
                else (Throw (FileSystemError FileIsADirectory urlPath), σ)
    | None => (Throw (FileSystemError FileNotFound urlPath), σ)
    end.
Proof.
  unfold lookupFile. rewrite bind_run, _lookup_run.
  destruct (walk σ (Path.split urlPath) root) as [l|]; [|reflexivity].
  rewrite bind_run. unfold get_state. destruct (is_file σ l); reflexivity.
Qed.

Lemma is_directory_Some σ l :
  is_directory σ l = true -> exists d, store σ !! l = Some (Directory d).
Proof.
  unfold is_directory. destruct (store σ !! l) as [[f|d]|]; try discriminate. eauto.
Qed.

Lemma lookupDirectory_Ok urlPath silent σ l σ' :
  lookupDirectory urlPath silent σ = (Ok l, σ') ->
  σ' = σ /\ exists d, store σ !! l = Some (Directory d).
Proof.
  rewrite lookupDirectory_run.
  destruct (walk σ (Path.split urlPath) root) as [l0|].
  - destruct (is_directory σ l0) eqn:Hd; intros [= <- <-].
    split; [reflexivity | apply is_directory_Some, Hd].
  - destruct silent; discriminate.
Qed.

Lemma lookupDirectory_Throw urlPath silent σ e σ' :
  lookupDirectory urlPath silent σ = (Throw e, σ') ->
  σ' = σ /\ (e = FileSystemError FileNotFound urlPath \/
             e = FileSystemError FileNotADirectory urlPath).
Proof.
  rewrite lookupDirectory_run.
  destruct (walk σ (Path.split urlPath) root) as [l0|].
  - destruct (is_directory σ l0); intros [= <- <-]. auto.
  - destruct silent; intros [= <- <-]; auto.
Qed.

Lemma new_InMemoryDirectory_run name σ :
  new_InMemoryDirectory name σ =
    (Ok (next σ),
     {| store := <[next σ := Directory
                     {| dir_type := FileType.Directory; dir_ctime := Date_now (clock σ);
                        dir_mtime := Date_now (S (clock σ)); dir_size := 0;
                        dir_name := name; dir_entries := ∅ |}]> (store σ);
        next := S (next σ); clock := S (S (clock σ)) |}).
Proof. reflexivity. Qed.

Lemma new_InMemoryFile_run name σ :
  new_InMemoryFile name σ =
    (Ok (next σ),
     {| store := <[next σ := File
                     {| file_type := FileType.File; file_ctime := Date_now (clock σ);
                        file_mtime := Date_now (S (clock σ)); file_size := 0;
                        file_name := name; file_data := [] |}]> (store σ);
        next := S (next σ); clock := S (S (clock σ)) |}).
Proof. reflexivity. Qed.

Lemma createDirectory_run urlPath σ parent :
  lookupDirectory (Path.dirname urlPath) false σ = (Ok parent, σ) ->
  createDirectory urlPath σ =
    (Ok tt,
     {| store :=
          alter (fun e => set_size (entry_size e + 1) e) parent
            (alter (set_mtime (Date_now (S (S (clock σ))))) parent
               (alter (with_entries <[Path.basename urlPath := next σ]>) parent
                  (<[next σ := Directory
                       {| dir_type := FileType.Directory; dir_ctime := Date_now (clock σ);
                          dir_mtime := Date_now (S (clock σ)); dir_size := 0;
                          dir_name := Path.basename urlPath; dir_entries := ∅ |}]> (store σ))));
        next := S (next σ); clock := S (S (S (clock σ))) |}).
Proof.
  intros Hparent. unfold createDirectory. rewrite bind_run, Hparent. reflexivity.
Qed.

Lemma createDirectory_Throw urlPath σ e σ' :
  createDirectory urlPath σ = (Throw e, σ') ->
  σ' = σ /\ (e = FileSystemError FileNotFound (Path.dirname urlPath) \/
             e = FileSystemError FileNotADirectory (Path.dirname urlPath)).
Proof.
  unfold createDirectory. rewrite bind_run.
  destruct (lookupDirectory (Path.dirname urlPath) false σ) as [[parent|e0] σ0] eqn:Hl.
  - apply lookupDirectory_Ok in Hl as [-> _]. discriminate.
  - intros [= <- <-]. eapply lookupDirectory_Throw; eauto.
Qed.

(** *** The fields of an object after assignments to objects *)

Lemma entry_name_with_entries g e : entry_name (with_entries g e) = entry_name e.
Proof. destruct e; reflexivity. Qed.

Lemma entry_name_set_name n e : entry_name (set_name n e) = n.
Proof. destruct e; reflexivity. Qed.

Lemma entries_of_store σ l : entries_of σ l = entries_in (store σ) l.
Proof. reflexivity. Qed.

Lemma entries_in_with_entries g l s l' :
  entries_in (alter (with_entries g) l s) l' =
    (if decide (l = l') then g else id) <$> entries_in s l'.
Proof.
  unfold entries_in. destruct (decide (l = l')) as [->|Hne].
  - rewrite lookup_alter_eq. destruct (s !! l') as [[f|d]|]; reflexivity.
  - rewrite lookup_alter_ne by done. destruct (s !! l') as [[f|d]|]; reflexivity.
Qed.

Lemma entries_in_set_name n l s l' :
  entries_in (alter (set_name n) l s) l' = entries_in s l'.
Proof.
  unfold entries_in. destruct (decide (l = l')) as [->|Hne].
  - rewrite lookup_alter_eq. destruct (s !! l') as [[f|d]|]; reflexivity.
  - rewrite lookup_alter_ne by done. reflexivity.
Qed.

Lemma lookup_Ok urlPath silent σ l σ' :
  _lookup urlPath silent σ = (Ok (Some l), σ') ->
  σ' = σ /\ walk σ (Path.split urlPath) root = Some l.
Proof.
  rewrite _lookup_run. destruct (walk σ (Path.split urlPath) root).
  - intros [= <- <-]. auto.
  - destruct silent; discriminate.
Qed.

(** *** Paths and the walk of [_lookup] *)

Lemma walk_parts σ ps entry :
  walk σ ps entry = walk σ (filter (fun part => part <> EmptyString) ps) entry.
Proof.
  revert entry. induction ps as [|part ps IH]; intros entry; [reflexivity|].
  cbn [walk]. case_bool_decide as Hpart.
  - rewrite filter_cons_False by (intros Hne; apply Hne; exact Hpart). apply IH.
  - rewrite filter_cons_True by exact Hpart. cbn [walk].
    rewrite bool_decide_false by exact Hpart.
    destruct (entries_of σ entry ≫= (.!! part)); [apply IH|reflexivity].
Qed.

Lemma walk_app σ ps1 ps2 entry :
  walk σ (ps1 ++ ps2) entry = walk σ ps1 entry ≫= walk σ ps2.
Proof.
  revert entry. induction ps1 as [|part ps1 IH]; intros entry; [reflexivity|].
  cbn [app walk]. case_bool_decide; [apply IH|].
  destruct (entries_of σ entry ≫= (.!! part)); [apply IH|reflexivity].
Qed.

Lemma walk_one σ name entry :
  name <> EmptyString -> walk σ [name] entry = child σ entry name.
Proof.
  intros Hname. cbn [walk]. rewrite bool_decide_false by exact Hname.
  unfold child. destruct (entries_of σ entry ≫= (.!! name)); reflexivity.
Qed.

(** For an absolute path with a last component, what [lookup] finds is the
    parent directory's entry for the base name. *)
Lemma lookup_child urlPath σ parent :
  Path.isAbsolute urlPath = true ->
  Path.basename urlPath <> EmptyString ->
  lookupParentDirectory urlPath σ = (Ok parent, σ) ->
  lookup urlPath σ = (Ok (child σ parent (Path.basename urlPath)), σ).
Proof.
  intros Habs Hbase Hparent.
  unfold lookupParentDirectory in Hparent. rewrite lookupDirectory_run in Hparent.
  destruct (walk σ (Path.split (Path.dirname urlPath)) root) as [l|] eqn:Hwalk;
    [|discriminate].
  destruct (is_directory σ l); [|discriminate]. injection Hparent as ->.
  unfold lookup. rewrite _lookup_run.
  rewrite walk_parts. fold (Path.parts urlPath).
  rewrite (PathFacts.parts_dirname_basename urlPath Habs Hbase), walk_app.
  unfold Path.parts. rewrite <- walk_parts, Hwalk. cbn [mbind option_bind].
  rewrite walk_one by exact Hbase.
  destruct (child σ parent (Path.basename urlPath)); reflexivity.
Qed.

(** *** Properties kept by every step of a computation *)

Lemma preserves_ret P {A} (a : A) : preserves P (mret a : M A).
Proof. intros σ HP. exact HP. Qed.

Lemma preserves_throw P {A} e : preserves P (throw e : M A).
Proof. intros σ HP. exact HP. Qed.

Lemma preserves_get P : preserves P get_state.
Proof. intros σ HP. exact HP. Qed.

Lemma preserves_bind P {A B} (c : M A) (k : A -> M B) :
  preserves P c -> (forall a, preserves P (k a)) -> preserves P (c ≫= k).
Proof.
  intros Hc Hk σ HP. rewrite bind_run. specialize (Hc σ HP).
  destruct (c σ) as [[a|e] σ']; simpl in *; [apply Hk, Hc | exact Hc].
Qed.

Lemma preserves_fresh_now : preserves next_is_fresh now.
Proof. intros σ HP. exact HP. Qed.

Lemma preserves_fresh_alloc e : preserves next_is_fresh (alloc e).
Proof.
  intros σ HP l Hl. cbn in *. rewrite lookup_insert_ne by lia. apply HP. lia.
Qed.

Lemma preserves_fresh_modify l g : preserves next_is_fresh (modify l g).
Proof.
  intros σ HP l' Hl'. cbn in *. specialize (HP l' Hl').
  destruct (decide (l = l')) as [->|Hne].
  - rewrite lookup_alter_eq, HP. reflexivity.
  - rewrite lookup_alter_ne by done. exact HP.
Qed.

(** The proof that a computation built from the steps above keeps
    [next_is_fresh]. *)
Ltac keeps_fresh :=
  repeat first
    [ apply preserves_bind; [|intros]
    | apply preserves_ret
    | apply preserves_throw
    | apply preserves_get
    | apply preserves_fresh_now
    | apply preserves_fresh_alloc
    | apply preserves_fresh_modify
    | match goal with
      | |- preserves _ (if ?b then _ else _) => destruct b
      | |- preserves _ (match ?x with _ => _ end) => destruct x
      | |- preserves _ (let '(_, _) := ?x in _) => destruct x
      end ].

Lemma preserves_fresh_lookup urlPath silent : preserves next_is_fresh (_lookup urlPath silent).
Proof. unfold _lookup. keeps_fresh. Qed.

Lemma preserves_fresh_lookupDirectory urlPath silent :
  preserves next_is_fresh (lookupDirectory urlPath silent).
Proof. unfold lookupDirectory. keeps_fresh. Qed.

Lemma preserves_fresh_lookupFile urlPath : preserves next_is_fresh (lookupFile urlPath).
Proof. unfold lookupFile. keeps_fresh. Qed.

Lemma preserves_fresh_run op : preserves next_is_fresh (run op).
Proof.
  destruct op; unfold run, lookup, lookupParentDirectory, rename, writeFile, deleteFile,
    createDirectory, new_InMemoryFile, new_InMemoryDirectory;
    keeps_fresh.
Qed.

Lemma createInMemoryFileSystem_fresh : next_is_fresh createInMemoryFileSystem.
Proof.
  intros l Hl. unfold createInMemoryFileSystem in *.
  rewrite new_InMemoryDirectory_run in *. cbn [snd store next] in *.
  rewrite lookup_insert_ne by lia. apply lookup_empty.
Qed.

(** In every state that the operations produce from the empty tree, the
    next identity to be allocated is not in use. *)
Lemma reachable_next_is_fresh σ : reachable σ -> store σ !! next σ = None.
Proof.
  intros Hr. assert (next_is_fresh σ) as Hf; [|apply Hf; lia].
  induction Hr as [|σ op _ IH].
  - apply createInMemoryFileSystem_fresh.
  - apply preserves_fresh_run, IH.
Qed.

(** *** What a computation can throw *)

Lemma throws_ret Q {A} (a : A) σ : throws_in Q (mret a : M A) σ.
Proof. intros e σ' [=]. Qed.

Lemma throws_throw (Q : JSError -> Prop) {A} e σ : Q e -> throws_in Q (throw e : M A) σ.
Proof. intros HQ e' σ' [= <- <-]. exact HQ. Qed.

Lemma throws_get Q σ : throws_in Q get_state σ.
Proof. intros e σ' [=]. Qed.

Lemma throws_now Q σ : throws_in Q now σ.
Proof. intros e σ' [=]. Qed.

Lemma throws_alloc Q x σ : throws_in Q (alloc x) σ.
Proof. intros e σ' [=]. Qed.

Lemma throws_modify Q l g σ : throws_in Q (modify l g) σ.
Proof. intros e σ' [=]. Qed.

Lemma throws_bind Q {A B} (c : M A) (k : A -> M B) σ :
  throws_in Q c σ ->
  (forall a σ1, c σ = (Ok a, σ1) -> throws_in Q (k a) σ1) ->
  throws_in Q (c ≫= k) σ.
Proof.
  intros Hc Hk e σ'. rewrite bind_run. unfold throws_in in Hc.
  destruct (c σ) as [[a|e0] σ1].
  - apply (Hk a σ1 eq_refl).
  - intros [= <- <-]. eapply Hc. reflexivity.
Qed.

Lemma tree_error_intro code arg : code ∈ thrown_by_tree -> tree_error (FileSystemError code arg).
Proof. intros Hin. exists code, arg. auto. Qed.

Lemma _lookup_strict urlPath σ a σ' :
  _lookup urlPath false σ = (Ok a, σ') -> exists l, a = Some l.
Proof.
  rewrite _lookup_run. destruct (walk σ (Path.split urlPath) root); [|discriminate].
  intros [= <- <-]. eauto.
Qed.

(** The proof that a computation built from the steps of the tree throws
    nothing but errors of the tree's taxonomy. *)
Ltac throws_tree_errors :=
  repeat first
    [ apply throws_ret
    | apply throws_get
    | apply throws_now
    | apply throws_alloc
    | apply throws_modify
    | apply throws_throw; apply tree_error_intro; apply list_elem_of_In; simpl; tauto
    | apply throws_bind; [|intros ? ? ?]
    | match goal with
      | |- throws_in _ (if ?b then _ else _) _ => destruct b
      | |- throws_in _ (match ?x with _ => _ end) _ => destruct x
      end ].

Lemma throws_lookup urlPath silent σ : throws_in tree_error (_lookup urlPath silent) σ.
Proof. unfold _lookup. throws_tree_errors. Qed.

Lemma throws_lookupDirectory urlPath silent σ :
  throws_in tree_error (lookupDirectory urlPath silent) σ.
Proof. unfold lookupDirectory. throws_tree_errors. Qed.

Lemma throws_lookupFile urlPath σ : throws_in tree_error (lookupFile urlPath) σ.
Proof. unfold lookupFile. throws_tree_errors. Qed.

Lemma throws_rename oldPath newPath overwrite σ :
  throws_in tree_error (rename oldPath newPath overwrite) σ.
Proof.
  unfold rename. apply throws_bind.
  { destruct (negb overwrite); [apply throws_lookup | apply throws_ret]. }
  intros existing σ1 _.
  destruct (negb overwrite && bool_decide (is_Some existing)).
  { throws_tree_errors. }
  apply throws_bind; [apply throws_lookup|].
  intros found σ2 Hfound. apply _lookup_strict in Hfound as [entry ->].
  unfold lookupParentDirectory. throws_tree_errors.
Qed.

Lemma throws_run op σ : throws_in tree_error (run op) σ.
Proof.
  destruct op; unfold run; try apply throws_rename;
    unfold lookup, lookupParentDirectory, writeFile, deleteFile, createDirectory,
      new_InMemoryFile, new_InMemoryDirectory;
    throws_tree_errors.
Qed.

End Facts.
End FileSystemFacts.

(* ===================================================================== *)
(** ** The size of a file in the states of the tree                       *)
(* ===================================================================== *)

Module SizeFacts.
Import InMemoryFileSystem FileSystemFacts.

Lemma sized_insert (s : gmap loc Entry) l e :
  (forall l' e', s !! l' = Some e' -> sized e') -> sized e ->
  forall l' e', <[l := e]> s !! l' = Some e' -> sized e'.
Proof.
  intros Hs He l' e'. destruct (decide (l = l')) as [->|Hne].
  - rewrite lookup_insert_eq. intros [= <-]. exact He.
  - rewrite lookup_insert_ne by done. apply Hs.
Qed.

Lemma sized_alter (s : gmap loc Entry) l g :
  (forall l' e', s !! l' = Some e' -> sized e') ->
  (forall e, s !! l = Some e -> sized e -> sized (g e)) ->
  forall l' e', alter g l s !! l' = Some e' -> sized e'.
Proof.
  intros Hs Hg l' e'. destruct (decide (l = l')) as [->|Hne].
  - rewrite lookup_alter_eq. destruct (s !! l') as [e|] eqn:He; [|discriminate].
    intros [= <-]. apply Hg; [reflexivity|]. apply (Hs l'), He.
  - rewrite lookup_alter_ne by done. apply Hs.
Qed.

Lemma sized_set_name n e : sized e -> sized (set_name n e).
Proof. destruct e; auto. Qed.

Lemma sized_set_mtime t e : sized e -> sized (set_mtime t e).
Proof. destruct e; auto. Qed.

Lemma sized_with_entries g e : sized e -> sized (with_entries g e).
Proof. destruct e; auto. Qed.

(** The three assignments at the end of [writeFile]. *)
Lemma sized_written t content e :
  sized (set_data content (set_size (Z.of_nat (length content)) (set_mtime t e))).
Proof. destruct e; reflexivity. Qed.

(** The run of a sequence of assignments. *)
Ltac run_steps :=
  cbv beta iota delta [mbind M_bind bind mret M_ret ret modify now alloc get_state
                       file_sizes_hold snd store next clock].

Section Steps.
Context `{Runtime}.

Lemma _lookup_state urlPath silent σ : (_lookup urlPath silent σ).2 = σ.
Proof.
  rewrite _lookup_run. destruct (walk σ (Path.split urlPath) root); [reflexivity|].
  destruct silent; reflexivity.
Qed.

Lemma lookupDirectory_state urlPath silent σ : (lookupDirectory urlPath silent σ).2 = σ.
Proof.
  rewrite lookupDirectory_run. destruct (walk σ (Path.split urlPath) root) as [l|].
  - destruct (is_directory σ l); reflexivity.
  - destruct silent; reflexivity.
Qed.

Lemma lookupFile_state urlPath σ : (lookupFile urlPath σ).2 = σ.
Proof.
  rewrite lookupFile_run. destruct (walk σ (Path.split urlPath) root) as [l|]; [|reflexivity].
  destruct (is_file σ l); reflexivity.
Qed.

Lemma then_ret_state {A} (c : M A) σ : ((c ;; mret tt : M unit) σ).2 = (c σ).2.
Proof. rewrite bind_run. destruct (c σ) as [[a|e] σ']; reflexivity. Qed.

(** An assignment to a directory leaves the files as they are. *)
Lemma sized_alter_directory (s : gmap loc Entry) l g d :
  (forall l' e', s !! l' = Some e' -> sized e') ->
  s !! l = Some (Directory d) ->
  (forall d', exists d'', g (Directory d') = Directory d'') ->
  forall l' e', alter g l s !! l' = Some e' -> sized e'.
Proof.
  intros Hs Hd Hg. apply sized_alter; [exact Hs|].
  intros e He _. rewrite Hd in He. injection He as <-.
  destruct (Hg d) as [d'' ->]. exact I.
Qed.

Lemma createDirectory_file_sizes urlPath σ :
  file_sizes_hold σ -> store σ !! next σ = None ->
  file_sizes_hold (createDirectory urlPath σ).2.
Proof.
  intros Hσ Hfresh.
  destruct (lookupDirectory (Path.dirname urlPath) false σ) as [[parent|e] σ0] eqn:Hl.
  - destruct (lookupDirectory_Ok _ _ _ _ _ Hl) as [-> [d Hd]].
    assert (Hne : next σ <> parent) by congruence.
    rewrite (createDirectory_run _ _ _ Hl). cbn [snd]. unfold file_sizes_hold. cbn [store].
    rewrite !alter_alter_eq.
    eapply sized_alter_directory.
    + apply sized_insert; [exact Hσ | exact I].
    + rewrite lookup_insert_ne by done. exact Hd.
    + intros d'. eexists. reflexivity.
  - unfold createDirectory. rewrite bind_run, Hl. cbn [snd].
    apply lookupDirectory_Throw in Hl as [-> _]. exact Hσ.
Qed.

Lemma deleteFile_file_sizes urlPath σ :
  file_sizes_hold σ -> file_sizes_hold (deleteFile urlPath σ).2.
Proof.
  intros Hσ. unfold deleteFile. rewrite bind_run.
  destruct (lookupDirectory (Path.dirname urlPath) false σ) as [[parent|e] σ0] eqn:Hl.
  - destruct (lookupDirectory_Ok _ _ _ _ _ Hl) as [-> [d Hd]].
    rewrite bind_run. cbn [get_state].
    destruct (bool_decide _); [exact Hσ|].
    run_steps.
    rewrite !alter_alter_eq.
    eapply sized_alter_directory; [exact Hσ | exact Hd |].
    intros d'. eexists. reflexivity.
  - apply lookupDirectory_Throw in Hl as [-> _]. exact Hσ.
Qed.

Lemma writeFile_file_sizes urlPath content create overwrite σ :
  file_sizes_hold σ -> file_sizes_hold (writeFile urlPath content create overwrite σ).2.
Proof.
  intros Hσ. unfold writeFile, lookupParentDirectory. rewrite bind_run.
  destruct (lookupDirectory (Path.dirname urlPath) false σ) as [[parent|e] σ0] eqn:Hl.
  - destruct (lookupDirectory_Ok _ _ _ _ _ Hl) as [-> [d Hd]].
    rewrite bind_run. cbn [get_state].
    destruct (from_option _ _ _); [exact Hσ|].
    destruct (bool_decide _ && negb create); [exact Hσ|].
    destruct (bool_decide _ && create && negb overwrite); [exact Hσ|].
    destruct (entries_of σ parent ≫= (.!! Path.basename urlPath)) as [entry|].
    + run_steps. rewrite !alter_alter_eq.
      apply sized_alter; [exact Hσ|]. intros e _ _. apply sized_written.
    + unfold new_InMemoryFile. run_steps. rewrite !alter_alter_eq.
      apply sized_alter; [|intros e _ _; apply sized_written].
      apply sized_alter; [|intros e _; apply sized_with_entries].
      apply sized_insert; [exact Hσ | reflexivity].
  - apply lookupDirectory_Throw in Hl as [-> _]. exact Hσ.
Qed.

Lemma rename_file_sizes oldPath newPath overwrite σ :
  file_sizes_hold σ -> file_sizes_hold (rename oldPath newPath overwrite σ).2.
Proof.
  intros Hσ. unfold rename, lookupParentDirectory. rewrite bind_run.
  assert (exists existing,
    (if negb overwrite then _lookup newPath true else mret None) σ = (Ok existing, σ))
    as [existing ->].
  { destruct (negb overwrite); [|eexists; reflexivity].
    rewrite _lookup_run. destruct (walk σ _ root); eexists; reflexivity. }
  destruct (negb overwrite && bool_decide (is_Some existing)); [exact Hσ|].
  rewrite bind_run, _lookup_run.
  destruct (walk σ (Path.split oldPath) root) as [entry|]; [|exact Hσ].
  rewrite bind_run.
  destruct (lookupDirectory (Path.dirname oldPath) false σ) as [[oldParent|e] σ0] eqn:Hold;
    [|apply lookupDirectory_Throw in Hold as [-> _]; exact Hσ].
  apply lookupDirectory_Ok in Hold as [-> _].
  rewrite bind_run.
  destruct (lookupDirectory (Path.dirname newPath) false σ) as [[newParent|e] σ0] eqn:Hnew;
    [|apply lookupDirectory_Throw in Hnew as [-> _]; exact Hσ].
  apply lookupDirectory_Ok in Hnew as [-> _].
  run_steps.
  apply sized_alter; [|intros e _; apply sized_with_entries].
  apply sized_alter; [|intros e _; apply sized_set_name].
  apply sized_alter; [|intros e _; apply sized_with_entries].
  exact Hσ.
Qed.

Lemma run_file_sizes op σ :
  file_sizes_hold σ -> store σ !! next σ = None -> file_sizes_hold (run op σ).2.
Proof.
  intros Hσ Hfresh. destruct op; unfold run, lookup, lookupParentDirectory.
  - rewrite then_ret_state, _lookup_state. exact Hσ.
  - rewrite then_ret_state, lookupFile_state. exact Hσ.
  - rewrite then_ret_state, lookupDirectory_state. exact Hσ.
  - rewrite then_ret_state, lookupDirectory_state. exact Hσ.
  - apply rename_file_sizes, Hσ.
  - rewrite then_ret_state. apply writeFile_file_sizes, Hσ.
  - apply deleteFile_file_sizes, Hσ.
  - apply createDirectory_file_sizes; assumption.
Qed.

(** In every state that the operations produce from the empty tree, the
    size of each file is the length of its content. *)
Lemma reachable_file_sizes σ : reachable σ -> file_sizes_hold σ.
Proof.
  induction 1 as [|σ op Hr IH].
  - intros l e. unfold createInMemoryFileSystem. rewrite new_InMemoryDirectory_run.
    cbn [snd store]. apply sized_insert; [|exact I].
    intros l' e'. rewrite lookup_empty. discriminate.
  - apply run_file_sizes; [exact IH | apply reachable_next_is_fresh, Hr].
Qed.

End Steps.
End SizeFacts.

(* ===================================================================== *)
(** ** Objects, their classes and their children in the states of the tree *)
(* ===================================================================== *)

Module InvariantFacts.
Import InMemoryFileSystem FileSystemFacts SizeFacts.

Lemma linked_mono (D D' : gset loc) e : D ⊆ D' -> linked D e -> linked D' e.
Proof. destruct e as [f|d]; [auto|]. intros HD Hd name c Hc. apply HD, (Hd name), Hc. Qed.

Lemma sound_mono (D D' : gset loc) s : D ⊆ D' -> sound D s -> sound D' s.
Proof.
  intros HD Hs l e He. destruct (Hs l e He) as [Ht Hl].
  split; [exact Ht | eapply linked_mono; eassumption].
Qed.

Lemma sound_insert (D : gset loc) s n e0 :
  sound D s -> typed e0 -> linked D e0 -> sound D (<[n := e0]> s).
Proof.
  intros Hs Ht Hl l e. destruct (decide (n = l)) as [->|Hne].
  - rewrite lookup_insert_eq. intros [= <-]. auto.
  - rewrite lookup_insert_ne by done. apply Hs.
Qed.

Lemma sound_alter (D : gset loc) s l g :
  sound D s ->
  (forall e, s !! l = Some e -> typed e -> linked D e -> typed (g e) /\ linked D (g e)) ->
  sound D (alter g l s).
Proof.
  intros Hs Hg l' e'. destruct (decide (l = l')) as [->|Hne].
  - rewrite lookup_alter_eq. destruct (s !! l') as [e|] eqn:He; [|discriminate].
    intros [= <-]. destruct (Hs l' e He). apply Hg; auto.
  - rewrite lookup_alter_ne by done. apply Hs.
Qed.

Lemma keeps_class_set_name n : keeps_class (set_name n).
Proof. split; intros; eexists; reflexivity. Qed.

Lemma keeps_class_set_mtime t : keeps_class (set_mtime t).
Proof. split; intros; eexists; reflexivity. Qed.

Lemma keeps_class_set_size n : keeps_class (set_size n).
Proof. split; intros; eexists; reflexivity. Qed.

Lemma keeps_class_set_data c : keeps_class (set_data c).
Proof. split; intros; eexists; reflexivity. Qed.

Lemma keeps_class_with_entries g : keeps_class (with_entries g).
Proof. split; intros; eexists; reflexivity. Qed.

Lemma keeps_class_compose g h : keeps_class g -> keeps_class h -> keeps_class (g ∘ h).
Proof.
  intros [Hgf Hgd] [Hhf Hhd]. split.
  - intros f. destruct (Hhf f) as [f' Hf']. destruct (Hgf f') as [f'' Hf''].
    exists f''. cbn. rewrite Hf'. exact Hf''.
  - intros d. destruct (Hhd d) as [d' Hd']. destruct (Hgd d') as [d'' Hd''].
    exists d''. cbn. rewrite Hd'. exact Hd''.
Qed.

Lemma keeps_class_size_step (k : Z) : keeps_class (fun e => set_size (entry_size e + k) e).
Proof. split; intros; eexists; reflexivity. Qed.

(** An assignment to an object leaves every object in its class. *)
Lemma alter_class (s : gmap loc Entry) l g l' :
  keeps_class g ->
  (forall d, s !! l' = Some (Directory d) -> exists d', alter g l s !! l' = Some (Directory d')) /\
  (forall f, s !! l' = Some (File f) -> exists f', alter g l s !! l' = Some (File f')).
Proof.
  intros [Hf Hd]. destruct (decide (l = l')) as [->|Hne].
  - rewrite lookup_alter_eq. split.
    + intros d ->. destruct (Hd d) as [d' Hd']. exists d'. cbn. rewrite Hd'. reflexivity.
    + intros f ->. destruct (Hf f) as [f' Hf']. exists f'. cbn. rewrite Hf'. reflexivity.
  - rewrite lookup_alter_ne by done. split; eauto.
Qed.

Lemma typed_set_name n e : typed e -> typed (set_name n e).
Proof. destruct e; auto. Qed.
Lemma typed_set_mtime t e : typed e -> typed (set_mtime t e).
Proof. destruct e; auto. Qed.
Lemma typed_set_size n e : typed e -> typed (set_size n e).
Proof. destruct e; auto. Qed.
Lemma typed_set_data c e : typed e -> typed (set_data c e).
Proof. destruct e; auto. Qed.
Lemma typed_with_entries g e : typed e -> typed (with_entries g e).
Proof. destruct e; auto. Qed.

Lemma linked_set_name D n e : linked D e -> linked D (set_name n e).
Proof. destruct e; auto. Qed.
Lemma linked_set_mtime D t e : linked D e -> linked D (set_mtime t e).
Proof. destruct e; auto. Qed.
Lemma linked_set_size D n e : linked D e -> linked D (set_size n e).
Proof. destruct e; auto. Qed.
Lemma linked_set_data D c e : linked D e -> linked D (set_data c e).
Proof. destruct e; auto. Qed.

Lemma linked_delete D name e : linked D e -> linked D (with_entries (delete name) e).
Proof.
  destruct e as [f|d]; [auto|]. intros Hd name' c. cbn.
  intros Hc. apply lookup_delete_Some in Hc as [_ Hc]. apply (Hd name'), Hc.
Qed.

Lemma linked_insert (D : gset loc) name c e :
  c ∈ D -> linked D e -> linked D (with_entries <[name := c]> e).
Proof.
  destruct e as [f|d]; [auto|]. intros Hc Hd name' c'. cbn.
  intros Hc'. apply lookup_insert_Some in Hc' as [[_ <-]|[_ Hc']]; [exact Hc|].
  apply (Hd name'), Hc'.
Qed.

Create HintDb tree.

#[local] Hint Resolve typed_set_name typed_set_mtime typed_set_size typed_set_data
  typed_with_entries linked_set_name linked_set_mtime linked_set_size linked_set_data
  linked_delete linked_insert : tree.

Section Steps.
Context `{Runtime}.

(** What a walk from an object of the store reaches is an object of the
    store. *)
Lemma walk_allocated σ parts entry l :
  sound (dom (store σ)) (store σ) ->
  entry ∈ dom (store σ) ->
  walk σ parts entry = Some l -> l ∈ dom (store σ).
Proof.
  intros Hs. revert entry. induction parts as [|part parts IH]; intros entry He; cbn.
  - intros [= <-]. exact He.
  - case_bool_decide; [apply IH, He|].
    unfold entries_of. destruct (store σ !! entry) as [[f|d]|] eqn:Hentry; try discriminate.
    cbn. destruct (dir_entries d !! part) as [c|] eqn:Hc; [|discriminate].
    apply IH. destruct (Hs entry _ Hentry) as [_ Hl]. apply (Hl part), Hc.
Qed.

Lemma lookup_allocated urlPath silent σ l :
  well_formed σ -> _lookup urlPath silent σ = (Ok (Some l), σ) -> l ∈ dom (store σ).
Proof.
  intros [[d Hroot] Hs] Hl. apply lookup_Ok in Hl as [_ Hl].
  eapply walk_allocated; [exact Hs | | exact Hl].
  apply elem_of_dom. eauto.
Qed.

Lemma root_insert (s : gmap loc Entry) n e :
  s !! n = None ->
  (exists d, s !! root = Some (Directory d)) ->
  exists d, <[n := e]> s !! root = Some (Directory d).
Proof.
  intros Hn [d Hd]. exists d. rewrite lookup_insert_ne by congruence. exact Hd.
Qed.

Lemma root_alter (s : gmap loc Entry) l g :
  keeps_class g ->
  (exists d, s !! root = Some (Directory d)) ->
  exists d, alter g l s !! root = Some (Directory d).
Proof. intros Hg [d Hd]. eapply alter_class; eassumption. Qed.

Ltac keeps_classes :=
  repeat first
    [ apply keeps_class_compose
    | apply keeps_class_set_name | apply keeps_class_set_mtime | apply keeps_class_set_size
    | apply keeps_class_set_data | apply keeps_class_with_entries
    | apply keeps_class_size_step
    | apply (keeps_class_size_step (-1)) ].

Ltac stays_sound := intros; split; unfold compose; eauto 10 with tree.

Lemma createDirectory_well_formed urlPath σ :
  well_formed σ -> store σ !! next σ = None ->
  well_formed (createDirectory urlPath σ).2.
Proof.
  intros [Hroot Hs] Hfresh.
  destruct (lookupDirectory (Path.dirname urlPath) false σ) as [[parent|e] σ0] eqn:Hl.
  - destruct (lookupDirectory_Ok _ _ _ _ _ Hl) as [-> [d Hd]].
    rewrite (createDirectory_run _ _ _ Hl). cbn [snd]. unfold well_formed. cbn [store].
    rewrite !alter_alter_eq. split.
    + apply root_alter; [keeps_classes|]. apply root_insert; assumption.
    + rewrite dom_alter_L, dom_insert_L.
      apply sound_alter.
      * apply sound_insert; [eapply sound_mono; [apply union_subseteq_r | exact Hs] | reflexivity |].
        intros name c. cbn. rewrite lookup_empty. discriminate.
      * assert (next σ ∈ ({[next σ]} ∪ dom (store σ) : gset loc)) 
        by (apply elem_of_union_l, elem_of_singleton; reflexivity).
        stays_sound.
  - unfold createDirectory. rewrite bind_run, Hl. cbn [snd].
    apply lookupDirectory_Throw in Hl as [-> _]. split; assumption.
Qed.

Lemma deleteFile_well_formed urlPath σ :
  well_formed σ -> well_formed (deleteFile urlPath σ).2.
Proof.
  intros [Hroot Hs]. unfold deleteFile. rewrite bind_run.
  destruct (lookupDirectory (Path.dirname urlPath) false σ) as [[parent|e] σ0] eqn:Hl.
  - destruct (lookupDirectory_Ok _ _ _ _ _ Hl) as [-> [d Hd]].
    rewrite bind_run. cbn [get_state].
    destruct (bool_decide _); [split; assumption|].
    run_steps. unfold well_formed. cbn [store].
    rewrite !alter_alter_eq. split.
    + apply root_alter; [keeps_classes | assumption].
    + rewrite dom_alter_L. apply sound_alter; [exact Hs | stays_sound].
  - apply lookupDirectory_Throw in Hl as [-> _]. split; assumption.
Qed.

Lemma writeFile_well_formed urlPath content create overwrite σ :
  well_formed σ -> store σ !! next σ = None ->
  well_formed (writeFile urlPath content create overwrite σ).2.
Proof.
  intros [Hroot Hs] Hfresh. unfold writeFile, lookupParentDirectory. rewrite bind_run.
  destruct (lookupDirectory (Path.dirname urlPath) false σ) as [[parent|e] σ0] eqn:Hl.
  - destruct (lookupDirectory_Ok _ _ _ _ _ Hl) as [-> [d Hd]].
    rewrite bind_run. cbn [get_state].
    destruct (from_option _ _ _); [split; assumption|].
    destruct (bool_decide _ && negb create); [split; assumption|].
    destruct (bool_decide _ && create && negb overwrite); [split; assumption|].
    destruct (entries_of σ parent ≫= (.!! Path.basename urlPath)) as [entry|].
    + run_steps. unfold well_formed. cbn [store]. rewrite !alter_alter_eq. split.
      * apply root_alter; [keeps_classes | assumption].
      * rewrite dom_alter_L. apply sound_alter; [exact Hs | stays_sound].
    + unfold new_InMemoryFile. run_steps. unfold well_formed. cbn [store].
      rewrite !alter_alter_eq. split.
      * apply root_alter; [keeps_classes|]. apply root_alter; [keeps_classes|].
        apply root_insert; assumption.
      * rewrite !dom_alter_L, dom_insert_L.
        assert (next σ ∈ ({[next σ]} ∪ dom (store σ) : gset loc)) 
        by (apply elem_of_union_l, elem_of_singleton; reflexivity).
        apply sound_alter; [|stays_sound].
        apply sound_alter; [|stays_sound].
        apply sound_insert; [eapply sound_mono; [apply union_subseteq_r | exact Hs] | reflexivity | exact I].
  - apply lookupDirectory_Throw in Hl as [-> _]. split; assumption.
Qed.

Lemma rename_well_formed oldPath newPath overwrite σ :
  well_formed σ -> well_formed (rename oldPath newPath overwrite σ).2.
Proof.
  intros Hσ. pose proof Hσ as [Hroot Hs]. unfold rename, lookupParentDirectory.
  rewrite bind_run.
  assert (exists existing,
    (if negb overwrite then _lookup newPath true else mret None) σ = (Ok existing, σ))
    as [existing ->].
  { destruct (negb overwrite); [|eexists; reflexivity].
    rewrite _lookup_run. destruct (walk σ _ root); eexists; reflexivity. }
  destruct (negb overwrite && bool_decide (is_Some existing)); [exact Hσ|].
  rewrite bind_run.
  destruct (_lookup oldPath false σ) as [[[entry|]|e] σ0] eqn:Hentry.
  2:{ apply _lookup_strict in Hentry as [? [=]]. }
  2:{ rewrite _lookup_run in Hentry. destruct (walk σ _ root); [discriminate|].
      injection Hentry as _ <-. exact Hσ. }
  pose proof Hentry as [-> _]%lookup_Ok.
  apply (lookup_allocated _ _ _ _ Hσ) in Hentry.
  rewrite bind_run.
  destruct (lookupDirectory (Path.dirname oldPath) false σ) as [[oldParent|e] σ0] eqn:Hold;
    [|apply lookupDirectory_Throw in Hold as [-> _]; exact Hσ].
  apply lookupDirectory_Ok in Hold as [-> _].
  rewrite bind_run.
  destruct (lookupDirectory (Path.dirname newPath) false σ) as [[newParent|e] σ0] eqn:Hnew;
    [|apply lookupDirectory_Throw in Hnew as [-> _]; exact Hσ].
  apply lookupDirectory_Ok in Hnew as [-> _].
  run_steps. unfold well_formed. cbn [store]. split.
  - repeat (apply root_alter; [keeps_classes|]). assumption.
  - rewrite !dom_alter_L.
    apply sound_alter; [|stays_sound].
    apply sound_alter; [|stays_sound].
    apply sound_alter; [exact Hs | stays_sound].
Qed.

Lemma run_well_formed op σ :
  well_formed σ -> store σ !! next σ = None -> well_formed (run op σ).2.
Proof.
  intros Hσ Hfresh. destruct op; unfold run, lookup, lookupParentDirectory.
  - rewrite then_ret_state, _lookup_state. exact Hσ.
  - rewrite then_ret_state, lookupFile_state. exact Hσ.
  - rewrite then_ret_state, lookupDirectory_state. exact Hσ.
  - rewrite then_ret_state, lookupDirectory_state. exact Hσ.
  - apply rename_well_formed, Hσ.
  - rewrite then_ret_state. apply writeFile_well_formed; assumption.
  - apply deleteFile_well_formed, Hσ.
  - apply createDirectory_well_formed; assumption.
Qed.

(** In every state that the operations produce from the empty tree, the
    root is a directory, the type of every object is that of its class, and
    the children of every directory are objects of the store. *)
Lemma reachable_well_formed σ : reachable σ -> well_formed σ.
Proof.
  induction 1 as [|σ op Hr IH].
  - unfold createInMemoryFileSystem. rewrite new_InMemoryDirectory_run.
    cbn [snd]. unfold well_formed. cbn [store next]. split.
    + eexists. apply lookup_insert_eq.
    + apply sound_insert; [|reflexivity|].
      * intros l e. rewrite lookup_empty. discriminate.
      * intros name c. cbn. rewrite lookup_empty. discriminate.
  - apply run_well_formed; [exact IH | apply reachable_next_is_fresh, Hr].
Qed.

End Steps.
End InvariantFacts.

Module SchemaFacts.
Import ExampleServer.

(** Evaluation of a closed subterm of the goal. *)
Ltac evaluate t := let v := eval vm_compute in t in change t with v.

Lemma parse_fields_nil o : parse_fields o [] = Some ∅.
Proof. reflexivity. Qed.

Lemma parse_fields_cons_Some o k s sh x :
  o !! k = Some x ->
  parse_fields o ((k, s) :: sh) =
    r ← parse s x; acc ← parse_fields o sh; Some (<[k := r]> acc).
Proof. intros Hk. cbn [parse_fields]. rewrite Hk. reflexivity. Qed.

Lemma parse_fields_cons_None o k s sh :
  o !! k = None ->
  parse_fields o ((k, s) :: sh) = if accepts_undefined s then parse_fields o sh else None.
Proof. intros Hk. cbn [parse_fields]. rewrite Hk. reflexivity. Qed.

(** One field of the shape, looked up in an object whose keys are known. *)
Ltac parse_field :=
  first [ erewrite parse_fields_cons_Some by (vm_compute; reflexivity)
        | rewrite parse_fields_cons_None by (vm_compute; reflexivity) ].

Lemma parse_errorResponse (code id : string) :
  is_uuid id = true ->
  parse_message (Responses.errorResponse (z_literal (JString code)))
    (ExampleServer.errorResponse code id)
  = Some (ExampleServer.errorResponse code id).
Proof.
  intros Hid. unfold parse_message.
  evaluate (shape_messageType (Responses.errorResponse (z_literal (JString code)))).
  evaluate (shape_messageBinary (Responses.errorResponse (z_literal (JString code)))).
  evaluate (message_unknownKeys (Responses.errorResponse (z_literal (JString code)))).
  evaluate (shape_messageJson (Responses.errorResponse (z_literal (JString code)))).
  unfold ExampleServer.errorResponse, object. cbn [messageType messageJson messageBinary].
  rewrite bool_decide_true by reflexivity.
  rewrite parse_object. repeat parse_field. rewrite parse_fields_nil.
  cbn [parse literal_eqb]. rewrite Hid, !bool_decide_true by reflexivity.
  cbn [mbind option_bind parse_binary]. reflexivity.
Qed.

(** [FileExists] is among the error codes of [createDirectoryResponseSchema]. *)
Lemma createDirectoryResponseSchema_FileExists id :
  is_uuid id = true ->
  parse_union createDirectoryResponseSchema (ExampleServer.errorResponse "FileExists" id)
  = Some (ExampleServer.errorResponse "FileExists" id).
Proof.
  intros Hid. unfold createDirectoryResponseSchema. cbn [parse_union].
  replace (parse_message createDirectorySuccessResponseSchema
             (ExampleServer.errorResponse "FileExists" id)) with (@None Message).
  2:{ unfold parse_message.
      evaluate (shape_messageType createDirectorySuccessResponseSchema).
      evaluate (shape_messageJson createDirectorySuccessResponseSchema).
      unfold ExampleServer.errorResponse, object. cbn [messageType messageJson messageBinary].
      rewrite bool_decide_true by reflexivity.
      rewrite parse_object. repeat parse_field. rewrite parse_fields_nil.
      cbn [parse literal_eqb]. rewrite Hid. reflexivity. }
  replace (parse_message fileNotFoundResponseSchema
             (ExampleServer.errorResponse "FileExists" id)) with (@None Message).
  2:{ unfold parse_message.
      evaluate (shape_messageType fileNotFoundResponseSchema).
      evaluate (shape_messageJson fileNotFoundResponseSchema).
      unfold ExampleServer.errorResponse, object. cbn [messageType messageJson messageBinary].
      rewrite bool_decide_true by reflexivity.
      rewrite parse_object. repeat parse_field. rewrite parse_fields_nil.
      cbn [parse literal_eqb]. rewrite Hid. reflexivity. }
  unfold fileExistsResponseSchema. rewrite parse_errorResponse by exact Hid. reflexivity.
Qed.
End SchemaFacts.

(* ===================================================================== *)
(** ** Schemas that return what they accept                               *)
(* ===================================================================== *)

Module SchemaReturns.
Import SchemaFacts.

Lemma returns_input_number : returns_input z_number.
Proof. intros [] r; simpl; congruence. Qed.

Lemma returns_input_number_int : returns_input z_number_int.
Proof. intros [] r; simpl; congruence. Qed.

Lemma returns_input_literal lit : returns_input (z_literal lit).
Proof. intros v r. simpl. destruct (literal_eqb lit v); congruence. Qed.

Lemma returns_input_enum values : returns_input (z_enum values).
Proof. intros [] r; simpl; try congruence. case_bool_decide; congruence. Qed.

Lemma returns_input_jsonValue : returns_input z_jsonValue.
Proof. intros v r. simpl. congruence. Qed.

Lemma returns_input_optional s : returns_input s -> returns_input (z_optional s).
Proof. intros Hs v r. simpl. apply Hs. Qed.

Lemma mapM_returns_input (s : Schema) (items rs : list JSONValue) :
  returns_input s -> mapM (parse s) items = Some rs -> rs = items.
Proof.
  intros Hs. revert rs. induction items as [|v items IH]; intros rs; cbn.
  - intros [= <-]. reflexivity.
  - destruct (parse s v) as [r|] eqn:Hr; [|discriminate]. cbn.
    destruct (mapM (parse s) items) as [rs'|]; [|discriminate]. cbn.
    intros [= <-]. rewrite (Hs _ _ Hr), (IH rs' eq_refl). reflexivity.
Qed.

Lemma returns_input_array s : returns_input s -> returns_input (z_array s).
Proof.
  intros Hs [] r; simpl; try congruence.
  destruct (mapM (parse s) items) as [rs|] eqn:Hrs; [|discriminate].
  cbn. intros [= <-]. rewrite (mapM_returns_input _ _ _ Hs Hrs). reflexivity.
Qed.

(** The fields that the loop of an object schema returns. *)
Lemma parse_fields_lookup o sh out :
  Forall (fun ks => returns_input ks.2) sh ->
  parse_fields o sh = Some out ->
  forall k, out !! k = if bool_decide (k ∈ sh.*1) then o !! k else None.
Proof.
  intros Hsh. revert out. induction Hsh as [|[k0 s] sh Hs Hsh IH]; intros out Hout k.
  - injection Hout as <-. rewrite lookup_empty. rewrite bool_decide_false; [reflexivity|].
    cbn. apply not_elem_of_nil.
  - cbn [fmap list_fmap fst]. destruct (o !! k0) as [x|] eqn:Hk0.
    + rewrite (parse_fields_cons_Some _ _ _ _ _ Hk0) in Hout.
      destruct (parse s x) as [r|] eqn:Hr; [|discriminate]. cbn in Hout.
      destruct (parse_fields o sh) as [acc|]; [|discriminate]. injection Hout as <-.
      apply Hs in Hr as ->. specialize (IH acc eq_refl k).
      destruct (decide (k = k0)) as [->|Hne].
      * rewrite lookup_insert_eq, bool_decide_true by (apply elem_of_cons; auto).
        symmetry. exact Hk0.
      * rewrite lookup_insert_ne, IH by done.
        rewrite (bool_decide_ext (k ∈ k0 :: sh.*1) (k ∈ sh.*1)); [reflexivity|].
        rewrite elem_of_cons. tauto.
    + rewrite (parse_fields_cons_None _ _ _ _ Hk0) in Hout.
      destruct (accepts_undefined s); [|discriminate].
      specialize (IH out Hout k). rewrite IH.
      destruct (decide (k = k0)) as [->|Hne].
      * rewrite (bool_decide_true (k0 ∈ k0 :: _)) by (apply elem_of_cons; auto).
        rewrite Hk0. case_bool_decide; reflexivity.
      * rewrite (bool_decide_ext (k ∈ k0 :: sh.*1) (k ∈ sh.*1)); [reflexivity|].
        rewrite elem_of_cons. tauto.
Qed.

Lemma returns_input_strict sh :
  Forall (fun ks => returns_input ks.2) sh -> returns_input (z_object sh strict).
Proof.
  intros Hsh v r Hr. destruct (parse_object_inv _ _ _ _ Hr) as [o ->].
  rewrite parse_object in Hr.
  destruct (parse_fields o sh) as [out|] eqn:Hout; [|discriminate]. cbn in Hr.
  case_bool_decide as Hdom; [|discriminate]. injection Hr as <-. f_equal.
  apply map_eq. intros k. rewrite (parse_fields_lookup _ _ _ Hsh Hout).
  case_bool_decide as Hk; [reflexivity|].
  symmetry. apply not_elem_of_dom. intros Hin. apply Hk.
  apply Hdom in Hin. apply elem_of_list_to_set in Hin. exact Hin.
Qed.

(** A message schema whose [messageJson] returns its input, and whose
    [messageBinary] is kept, returns the message it accepts. *)
Lemma parse_message_returns_input sch m r :
  returns_input (shape_messageJson sch) ->
  shape_messageBinary sch = bin_instanceof_optional \/
    shape_messageBinary sch = bin_never_optional ->
  parse_message sch m = Some r -> r = m.
Proof.
  intros Hjson Hbin. unfold parse_message. case_bool_decide; [|discriminate].
  destruct (parse _ (messageJson m)) as [json|] eqn:Hp; [|discriminate]. cbn.
  apply Hjson in Hp as ->.
  destruct m as [ty json bin]. cbn.
  destruct Hbin as [-> | ->]; cbn.
  - intros [= <-]. reflexivity.
  - destruct bin; [discriminate|]. intros [= <-]. reflexivity.
Qed.

End SchemaReturns.

(* ===================================================================== *)
(** ** Error responses against the response schemas                       *)
(* ===================================================================== *)

Module ResponseFacts.
Import ExampleServer SchemaFacts SchemaReturns.

(** The schema of one error code, applied to an error response. *)
Lemma parse_errorResponse_code (expected code id : string) :
  is_uuid id = true ->
  parse_message (Responses.errorResponse (z_literal (JString expected)))
    (ExampleServer.errorResponse code id)
  = if bool_decide (code = expected) then Some (ExampleServer.errorResponse code id) else None.
Proof.
  intros Hid. case_bool_decide as Hcode.
  - subst. apply parse_errorResponse, Hid.
  - unfold parse_message.
    evaluate (shape_messageType (Responses.errorResponse (z_literal (JString expected)))).
    evaluate (shape_messageJson (Responses.errorResponse (z_literal (JString expected)))).
    unfold ExampleServer.errorResponse, object. cbn [messageType messageJson messageBinary].
    rewrite bool_decide_true by reflexivity.
    rewrite parse_object. repeat parse_field. rewrite parse_fields_nil.
    cbn [parse literal_eqb]. rewrite Hid, bool_decide_true by reflexivity.
    rewrite (bool_decide_false (expected = code)) by congruence. reflexivity.
Qed.

(** A schema of successes, applied to an error response. *)
Ltac rejects_error Hid :=
  unfold parse_message;
  match goal with
  | |- context [shape_messageType ?sch] =>
      evaluate (shape_messageType sch); evaluate (shape_messageJson sch)
  end;
  unfold ExampleServer.errorResponse, object; cbn [messageType messageJson messageBinary];
  rewrite bool_decide_true by reflexivity;
  rewrite parse_object; repeat parse_field;
  cbn [parse literal_eqb]; rewrite Hid; reflexivity.

Section Rejections.
Variables code id : string.
Hypothesis Hid : is_uuid id = true.

Lemma voidSuccess_rejects_error :
  parse_message voidSuccessResponseSchema (ExampleServer.errorResponse code id) = None.
Proof. rejects_error Hid. Qed.

Lemma statusSuccess_rejects_error :
  parse_message statusSuccessResponseSchema (ExampleServer.errorResponse code id) = None.
Proof. rejects_error Hid. Qed.

Lemma readDirectorySuccess_rejects_error :
  parse_message readDirectorySuccessResponseSchema (ExampleServer.errorResponse code id) = None.
Proof. rejects_error Hid. Qed.

Lemma readFileSuccess_rejects_error :
  parse_message readFileSuccessResponseSchema (ExampleServer.errorResponse code id) = None.
Proof. rejects_error Hid. Qed.

Lemma writeFileSuccess_rejects_error :
  parse_message writeFileSuccessResponseSchema (ExampleServer.errorResponse code id) = None.
Proof. rejects_error Hid. Qed.

End Rejections.

Ltac error_codes_agree :=
  repeat case_bool_decide; subst; try reflexivity; exfalso;
  repeat match goal with
         | H : _ ∉ _ |- _ => apply H; rewrite !elem_of_cons; auto 8
         | H : _ ∈ _ |- _ => rewrite ?elem_of_cons, ?elem_of_nil in H; intuition congruence
         end.

Ltac union_of_errors Hid :=
  cbn [parse_union];
  unfold createDirectorySuccessResponseSchema;
  rewrite ?voidSuccess_rejects_error, ?statusSuccess_rejects_error,
    ?readDirectorySuccess_rejects_error, ?readFileSuccess_rejects_error,
    ?writeFileSuccess_rejects_error by exact Hid;
  unfold fileNotFoundResponseSchema, fileExistsResponseSchema, noPermissionsResponseSchema;
  rewrite ?parse_errorResponse_code by exact Hid;
  error_codes_agree.

(** The error responses that the response schema of an operation
    accepts. *)
Lemma parse_union_error operation code id :
  operation ∈ operations ->
  is_uuid id = true ->
  parse_union (response_schema operation) (ExampleServer.errorResponse code id)
  = if bool_decide (code ∈ error_codes operation)
    then Some (ExampleServer.errorResponse code id) else None.
Proof.
  intros Hop Hid. unfold operations in Hop.
  repeat (apply elem_of_cons in Hop as [->|Hop]); [..|apply elem_of_nil in Hop; destruct Hop].
  - change (response_schema "status") with statusResponseSchema.
    change (error_codes "status") with ["FileNotFound"].
    unfold statusResponseSchema. union_of_errors Hid.
  - change (response_schema "readDirectory") with readDirectoryResponseSchema.
    change (error_codes "readDirectory") with ["FileNotFound"].
    unfold readDirectoryResponseSchema. union_of_errors Hid.
  - change (response_schema "createDirectory") with createDirectoryResponseSchema.
    change (error_codes "createDirectory") with ["FileNotFound"; "FileExists"; "NoPermissions"].
    unfold createDirectoryResponseSchema. union_of_errors Hid.
  - change (response_schema "readFile") with readFileResponseSchema.
    change (error_codes "readFile") with ["FileNotFound"].
    unfold readFileResponseSchema. union_of_errors Hid.
  - change (response_schema "delete") with deleteResponseSchema.
    change (error_codes "delete") with ["FileNotFound"; "NoPermissions"].
    unfold deleteResponseSchema. union_of_errors Hid.
  - change (response_schema "watch") with watchResponseSchema.
    change (error_codes "watch") with (@nil string).
    unfold watchResponseSchema. union_of_errors Hid.
  - change (response_schema "writeFile") with writeFileResponseSchema.
    change (error_codes "writeFile") with ["FileNotFound"; "FileExists"; "NoPermissions"].
    unfold writeFileResponseSchema. union_of_errors Hid.
  - change (response_schema "rename") with renameResponseSchema.
    change (error_codes "rename") with ["FileNotFound"; "FileExists"; "NoPermissions"].
    unfold renameResponseSchema. union_of_errors Hid.
  - change (response_schema "copy") with copyResponseSchema.
    change (error_codes "copy") with ["FileNotFound"; "FileExists"; "NoPermissions"].
    unfold copyResponseSchema. union_of_errors Hid.
Qed.

End ResponseFacts.

(* ===================================================================== *)
(** ** The replies of the handlers against the response schemas           *)
(* ===================================================================== *)

Module ReplyFacts.
Import InMemoryFileSystem ExampleServer SchemaFacts SchemaReturns ResponseFacts.

(** A message built by a handler, against a message schema. *)
Ltac parses Hid :=
  unfold parse_message;
  match goal with
  | |- context [shape_messageType ?sch] =>
      evaluate (shape_messageType sch); evaluate (shape_messageJson sch);
      evaluate (shape_messageBinary sch); evaluate (message_unknownKeys sch)
  end;
  unfold voidSuccess, object; cbn [messageType messageJson messageBinary];
  rewrite bool_decide_true by reflexivity;
  rewrite parse_object; repeat parse_field; rewrite parse_fields_nil;
  cbn [parse literal_eqb]; rewrite Hid, ?bool_decide_true by reflexivity;
  cbn [mbind option_bind parse_binary].

Lemma parse_voidSuccess id :
  is_uuid id = true ->
  parse_message voidSuccessResponseSchema (voidSuccess id) = Some (voidSuccess id).
Proof. intros Hid. parses Hid. reflexivity. Qed.

Lemma parse_writeFileSuccess id created :
  is_uuid id = true ->
  let r := {| messageType := MessageType.Response;
              messageJson := object [("success", JBool true); ("commandId", JString id);
                                     ("created", JBool created)];
              messageBinary := None |} in
  parse_message writeFileSuccessResponseSchema r = Some r.
Proof. intros Hid r. unfold r. parses Hid. reflexivity. Qed.

Lemma parse_readFileSuccess id data :
  is_uuid id = true ->
  let r := {| messageType := MessageType.Response;
              messageJson := object [("success", JBool true); ("commandId", JString id)];
              messageBinary := Some data |} in
  parse_message readFileSuccessResponseSchema r = Some r.
Proof. intros Hid r. unfold r. parses Hid. reflexivity. Qed.

Lemma parse_fileStatus e :
  parse fileStatusSchema (entryToFileState e) = Some (entryToFileState e).
Proof.
  unfold fileStatusSchema, entryToFileState, object.
  rewrite parse_object. repeat parse_field. rewrite parse_fields_nil.
  cbn [parse mbind option_bind accepts_undefined]. reflexivity.
Qed.

Lemma parse_statusSuccess id e :
  is_uuid id = true ->
  let r := {| messageType := MessageType.Response;
              messageJson := object [("success", JBool true); ("commandId", JString id);
                                     ("result", entryToFileState e)];
              messageBinary := None |} in
  parse_message statusSuccessResponseSchema r = Some r.
Proof.
  intros Hid r. unfold r. unfold parse_message.
  evaluate (shape_messageType statusSuccessResponseSchema).
  evaluate (shape_messageBinary statusSuccessResponseSchema).
  evaluate (message_unknownKeys statusSuccessResponseSchema).
  change (shape_messageJson statusSuccessResponseSchema)
    with (z_object [("commandId", z_string_uuid); ("success", z_literal (JBool true));
                    ("result", fileStatusSchema)] strict).
  unfold object. cbn [messageType messageJson messageBinary].
  rewrite bool_decide_true by reflexivity.
  rewrite parse_object. repeat parse_field. rewrite parse_fields_nil.
  match goal with
  | |- context [parse fileStatusSchema ?x] => change x with (entryToFileState e)
  end.
  rewrite parse_fileStatus.
  cbn [parse literal_eqb]. rewrite Hid, ?bool_decide_true by reflexivity.
  cbn [mbind option_bind parse_binary]. reflexivity.
Qed.

(** One line of a directory listing. *)
Lemma parse_listing_line name type :
  type = FileType.Unknown \/ type = FileType.File \/ type = FileType.Directory ->
  parse (z_tuple [z_string; fileTypeSchema]) (JArray [JString name; JNumber type])
  = Some (JArray [JString name; JNumber type]).
Proof. intros [-> | [-> | ->]]; reflexivity. Qed.

Lemma parse_array element items :
  parse (z_array element) (JArray items) = JArray <$> mapM (parse element) items.
Proof. reflexivity. Qed.

Lemma parse_listing (lines : list (string * Z)) :
  Forall (fun line => line.2 = FileType.Unknown \/ line.2 = FileType.File \/
                      line.2 = FileType.Directory) lines ->
  let result := JArray ((fun '(name, type) => JArray [JString name; JNumber type]) <$> lines) in
  parse (z_array (z_tuple [z_string; fileTypeSchema])) result = Some result.
Proof.
  intros Hlines result. unfold result. rewrite parse_array.
  assert (mapM (parse (z_tuple [z_string; fileTypeSchema]))
            ((fun '(name, type) => JArray [JString name; JNumber type]) <$> lines)
          = Some ((fun '(name, type) => JArray [JString name; JNumber type]) <$> lines)) as ->;
    [|reflexivity].
  induction Hlines as [|[name type] lines Hline Hlines IH]; [reflexivity|].
  cbn [fmap list_fmap mapM]. rewrite (parse_listing_line _ _ Hline).
  cbn [mbind option_bind]. rewrite IH. reflexivity.
Qed.

Lemma parse_readDirectorySuccess id (lines : list (string * Z)) :
  is_uuid id = true ->
  Forall (fun line => line.2 = FileType.Unknown \/ line.2 = FileType.File \/
                      line.2 = FileType.Directory) lines ->
  let r := {| messageType := MessageType.Response;
              messageJson := object
                [("success", JBool true); ("commandId", JString id);
                 ("result", JArray ((fun '(name, type) =>
                              JArray [JString name; JNumber type]) <$> lines))];
              messageBinary := None |} in
  parse_message readDirectorySuccessResponseSchema r = Some r.
Proof.
  intros Hid Hlines r. unfold r. unfold parse_message.
  evaluate (shape_messageType readDirectorySuccessResponseSchema).
  evaluate (shape_messageBinary readDirectorySuccessResponseSchema).
  evaluate (message_unknownKeys readDirectorySuccessResponseSchema).
  change (shape_messageJson readDirectorySuccessResponseSchema)
    with (z_object [("commandId", z_string_uuid); ("success", z_literal (JBool true));
                    ("result", z_array (z_tuple [z_string; fileTypeSchema]))] strict).
  unfold object. cbn [messageType messageJson messageBinary].
  rewrite bool_decide_true by reflexivity.
  rewrite parse_object. repeat parse_field. rewrite parse_fields_nil.
  match goal with
  | |- context [parse (z_array ?s) ?x] =>
      change x with (JArray ((fun '(name, type) => JArray [JString name; JNumber type])
                               <$> lines))
  end.
  rewrite (parse_listing _ Hlines).
  cbn [parse literal_eqb]. rewrite Hid, ?bool_decide_true by reflexivity.
  cbn [mbind option_bind parse_binary]. reflexivity.
Qed.

End ReplyFacts.

(* ===================================================================== *)
(** ** Messages on the wire                                               *)
(* ===================================================================== *)

Module WireFacts.
Import ExampleServer SchemaFacts SchemaReturns.

(** A message with the fields that [commandMessageSchema] requires. *)
Lemma valid_command (o : gmap string JSONValue) (command id : string) binary :
  o !! "command" = Some (JString command) ->
  o !! "commandId" = Some (JString id) ->
  is_uuid id = true ->
  valid_message {| messageType := MessageType.Command; messageJson := JObject o;
                   messageBinary := binary |}.
Proof.
  intros Hc Hi Hid. unfold valid_message, parse_discriminatedUnion, messageSchema.
  cbn [List.find messageType shape_messageType commandMessageSchema].
  rewrite bool_decide_true by reflexivity.
  unfold parse_message. cbn [messageType messageJson messageBinary shape_messageType
    shape_messageJson shape_messageBinary message_unknownKeys commandMessageSchema].
  rewrite bool_decide_true by reflexivity.
  destruct (parse _ (JObject o)) as [json|] eqn:Hp.
  - apply parse_passthrough_object in Hp as ->; [reflexivity|].
    repeat (apply Forall_cons; split); [apply returns_input_string | apply returns_input_uuid |].
    apply Forall_nil. exact I.
  - exfalso. revert Hp. rewrite parse_object.
    rewrite (parse_fields_cons_Some _ _ _ _ _ Hc). cbn [parse mbind option_bind].
    rewrite (parse_fields_cons_Some _ _ _ _ _ Hi). cbn [parse]. rewrite Hid.
    rewrite parse_fields_nil. discriminate.
Qed.

(** A message with the fields that [responseMessageSchema] requires. *)
Lemma valid_response (o : gmap string JSONValue) (id : string) (success : bool) binary :
  o !! "commandId" = Some (JString id) ->
  is_uuid id = true ->
  o !! "success" = Some (JBool success) ->
  valid_message {| messageType := MessageType.Response; messageJson := JObject o;
                   messageBinary := binary |}.
Proof.
  intros Hi Hid Hs. unfold valid_message, parse_discriminatedUnion, messageSchema.
  cbn [List.find messageType shape_messageType commandMessageSchema responseMessageSchema].
  rewrite bool_decide_false by discriminate. rewrite bool_decide_true by reflexivity.
  unfold parse_message. cbn [messageType messageJson messageBinary shape_messageType
    shape_messageJson shape_messageBinary message_unknownKeys responseMessageSchema].
  rewrite bool_decide_true by reflexivity.
  destruct (parse _ (JObject o)) as [json|] eqn:Hp.
  - apply parse_passthrough_object in Hp as ->; [reflexivity|].
    repeat (apply Forall_cons; split); [apply returns_input_uuid | apply returns_input_boolean |].
    apply Forall_nil. exact I.
  - exfalso. revert Hp. rewrite parse_object.
    rewrite (parse_fields_cons_Some _ _ _ _ _ Hi). cbn [parse]. rewrite Hid.
    cbn [mbind option_bind].
    rewrite (parse_fields_cons_Some _ _ _ _ _ Hs). cbn [parse].
    rewrite parse_fields_nil. discriminate.
Qed.

Lemma received_binary m :
  messageBinary (received m) =
    if bool_decide (default [] (messageBinary m) = []) then None
    else Some (default [] (messageBinary m)).
Proof. destruct m as [ty json [[|b binary]|]]; reflexivity. Qed.

Lemma default_received m :
  default [] (messageBinary (received m)) = default [] (messageBinary m).
Proof. destruct m as [ty json [[|b binary]|]]; reflexivity. Qed.

Lemma received_unchanged m : messageBinary m <> Some [] -> received m = m.
Proof.
  destruct m as [ty json [[|b binary]|]]; cbn; intros Hb; [|reflexivity..].
  destruct Hb. reflexivity.
Qed.

Section Wire.
Context `{Runtime}.

(** The frame of a valid message decodes to the message, but for a binary
    payload of no bytes. *)
Lemma wire_transfer (m : Message) :
  valid_message m -> transferable m ->
  messageFromBytes (arrayBufferFromMessage m) = success_true (received m).
Proof.
  intros Hvalid [Hjson Hsize]. rewrite encode_layout. cbv zeta.
  rewrite (messageFromBytes_frame m _ _ Hjson Hvalid Hsize).
  unfold received. rewrite <- received_binary. reflexivity.
Qed.

End Wire.
End WireFacts.

(* ===================================================================== *)
(** ** What passes a response schema is a message                         *)
(* ===================================================================== *)

Module ResponseValid.
Import ExampleServer SchemaFacts SchemaReturns WireFacts.

Lemma parse_union_In (options : list MessageSchema) r r' :
  parse_union options r = Some r' ->
  exists sch, sch ∈ options /\ parse_message sch r = Some r'.
Proof.
  induction options as [|sch options IH]; [discriminate|]. cbn [parse_union].
  destruct (parse_message sch r) as [r0|] eqn:Hr.
  - intros [= <-]. exists sch. split; [apply elem_of_cons; auto | exact Hr].
  - intros Hp. destruct (IH Hp) as (sch' & Hin & Hp'). exists sch'.
    split; [apply elem_of_cons; auto | exact Hp'].
Qed.

(** Every response schema asks for a [commandId] that is a UUID and for a
    literal [success]. *)
Lemma response_schema_shape operation sch :
  sch ∈ response_schema operation ->
  exists success sh mode,
    shape_messageType sch = MessageType.Response /\
    shape_messageJson sch =
      z_object (("commandId", z_string_uuid) :: ("success", z_literal (JBool success)) :: sh)
        mode.
Proof.
  unfold response_schema. repeat case_bool_decide;
    unfold watchResponseSchema, statusResponseSchema, readDirectoryResponseSchema,
      createDirectoryResponseSchema, readFileResponseSchema, writeFileResponseSchema,
      deleteResponseSchema, renameResponseSchema, copyResponseSchema;
    intros Hin;
    repeat (apply elem_of_cons in Hin as [->|Hin]);
    try (apply elem_of_nil in Hin; destruct Hin);
    eexists _, _, _; split; vm_compute; reflexivity.
Qed.

Lemma parse_boolean_literal_inv (b : bool) v r :
  parse (z_literal (JBool b)) v = Some r -> v = JBool b.
Proof.
  cbn. destruct v; cbn; try discriminate. case_bool_decide; [|discriminate]. congruence.
Qed.

Lemma passes_response_schema operation r r' :
  parse_union (response_schema operation) r = Some r' -> valid_message r.
Proof.
  intros Hp. apply parse_union_In in Hp as (sch & Hin & Hp).
  apply response_schema_shape in Hin as (success & sh & mode & Hty & Hjson).
  unfold parse_message in Hp. case_bool_decide as Htype; [|discriminate].
  rewrite Hjson in Hp.
  destruct (parse _ (messageJson r)) as [json|] eqn:Hparse; [|discriminate]. clear Hp.
  destruct (parse_object_inv _ _ _ _ Hparse) as [o Ho]. rewrite Ho in Hparse.
  rewrite parse_object in Hparse.
  destruct (parse_fields o _) as [out|] eqn:Hfields; [|discriminate].
  destruct (o !! "commandId") as [x|] eqn:Hx.
  2:{ rewrite (parse_fields_cons_None _ _ _ _ Hx) in Hfields. discriminate. }
  rewrite (parse_fields_cons_Some _ _ _ _ _ Hx) in Hfields.
  destruct x as [| | |id| |]; try discriminate. cbn [parse] in Hfields.
  destruct (is_uuid id) eqn:Hid; [|discriminate]. cbn [mbind option_bind] in Hfields.
  destruct (parse_fields o (("success", _) :: sh)) as [out'|] eqn:Hrest; [|discriminate].
  destruct (o !! "success") as [y|] eqn:Hy.
  2:{ rewrite (parse_fields_cons_None _ _ _ _ Hy) in Hrest. discriminate. }
  rewrite (parse_fields_cons_Some _ _ _ _ _ Hy) in Hrest.
  destruct (parse (z_literal (JBool success)) y) as [y'|] eqn:Hlit; [|discriminate].
  apply parse_boolean_literal_inv in Hlit as ->.
  destruct r as [ty json' binary]. cbn [messageType messageJson] in *. subst.
  rewrite Hty. eapply valid_response; eassumption.
Qed.

End ResponseValid.

Module TreeClaims.
Import InMemoryFileSystem FileSystemFacts SchemaFacts.

Section Claims.
Context `{Runtime}.

(** C9. [createDirectory(path)] succeeds whenever the parent directory of
    [path] exists, whatever is at [path] already: the parent's entry for the
    basename becomes a new empty directory, and the parent's size grows by
    one. It never throws [FileExists], which is nevertheless one of the
    error codes that [createDirectoryResponseSchema] accepts. *)
Theorem createDirectory_replaces (urlPath : string) (σ : State) :
  (forall parent,
      lookupDirectory (Path.dirname urlPath) false σ = (Ok parent, σ) ->
      store σ !! next σ = None ->
      exists d σ',
        store σ !! parent = Some (Directory d) /\
        createDirectory urlPath σ = (Ok tt, σ') /\
        child σ' parent (Path.basename urlPath) = Some (next σ) /\
        store σ' !! next σ =
          Some (Directory
                  {| dir_type := FileType.Directory; dir_ctime := Date_now (clock σ);
                     dir_mtime := Date_now (S (clock σ)); dir_size := 0;
                     dir_name := Path.basename urlPath; dir_entries := ∅ |}) /\
        store σ' !! parent =
          Some (Directory
                  {| dir_type := dir_type d; dir_ctime := dir_ctime d;
                     dir_mtime := Date_now (S (S (clock σ))); dir_size := dir_size d + 1;
                     dir_name := dir_name d;
                     dir_entries := <[Path.basename urlPath := next σ]> (dir_entries d) |})) /\
  (forall arg, (createDirectory urlPath σ).1 <> Throw (FileSystemError FileExists arg)) /\
  (forall id, is_uuid id = true ->
      parse_union createDirectoryResponseSchema (ExampleServer.errorResponse "FileExists" id)
      = Some (ExampleServer.errorResponse "FileExists" id)).
Proof.
  split; [|split].
  - intros parent Hparent Hfresh.
    destruct (lookupDirectory_Ok _ _ _ _ _ Hparent) as [_ [d Hd]].
    assert (Hne : next σ <> parent) by congruence.
    exists d. eexists. split; [exact Hd|]. split; [apply createDirectory_run, Hparent|].
    unfold child, entries_of. cbn [store].
    store_lookup. rewrite Hd. cbn. rewrite lookup_insert_eq. auto.
  - intros arg Heq.
    destruct (createDirectory urlPath σ) as [r σ'] eqn:Hrun. simpl in Heq. subst r.
    apply createDirectory_Throw in Hrun as [_ [?|?]]; discriminate.
  - apply createDirectoryResponseSchema_FileExists.
Qed.

(** C3. Let the parent directory of [path] exist and let [target] be the
    parent's entry for the basename of [path], which for an absolute path
    with a last component is the entry that [lookup(path)] finds.
    [writeFile] throws
    [FileIsADirectory] when [target] is a directory, [FileNotFound] when
    [target] is absent and [create] is false, and [FileExists] when [target]
    is a file, [create] is true and [overwrite] is false. Otherwise it
    succeeds: an absent [target] becomes a new file and the result is
    [true], a file [target] is updated in place and the result is [false];
    in both cases the file holds the content, its size is the length of the
    content and its [mtime] is the reading of the clock made by the call.
    On the empty tree, [writeFile("/a.txt", hi, create, no overwrite)]
    returns [true], the same call again throws [FileExists], and the call
    with [overwrite] returns [false] and replaces the content. *)
Theorem writeFile_postcondition (urlPath : string) (content : list byte)
    (create overwrite : bool) (σ : State) (parent : loc) :
  lookupParentDirectory urlPath σ = (Ok parent, σ) ->
  store σ !! next σ = None ->
  let basename := Path.basename urlPath in
  let target := child σ parent basename in
  (Path.isAbsolute urlPath = true -> basename <> EmptyString ->
     lookup urlPath σ = (Ok target, σ)) /\
  (forall l d, target = Some l -> store σ !! l = Some (Directory d) ->
     writeFile urlPath content create overwrite σ
     = (Throw (FileSystemError FileIsADirectory urlPath), σ)) /\
  (target = None -> create = false ->
     writeFile urlPath content create overwrite σ
     = (Throw (FileSystemError FileNotFound urlPath), σ)) /\
  (forall l f, target = Some l -> store σ !! l = Some (File f) ->
     create = true -> overwrite = false ->
     writeFile urlPath content create overwrite σ
     = (Throw (FileSystemError FileExists urlPath), σ)) /\
  (target = None -> create = true ->
     exists σ',
       writeFile urlPath content create overwrite σ = (Ok true, σ') /\
       child σ' parent basename = Some (next σ) /\
       store σ' !! next σ =
         Some (File {| file_type := FileType.File; file_ctime := Date_now (clock σ);
                       file_mtime := Date_now (S (S (clock σ)));
                       file_size := Z.of_nat (length content);
                       file_name := basename; file_data := content |})) /\
  (forall l f, target = Some l -> store σ !! l = Some (File f) ->
     create = false \/ overwrite = true ->
     exists σ',
       writeFile urlPath content create overwrite σ = (Ok false, σ') /\
       child σ' parent basename = Some l /\
       store σ' !! l =
         Some (File {| file_type := file_type f; file_ctime := file_ctime f;
                       file_mtime := Date_now (clock σ);
                       file_size := Z.of_nat (length content);
                       file_name := file_name f; file_data := content |})) /\
  (let hi := ["h"; "i"]%byte in
   let yo := ["y"; "o"; "!"]%byte in
   let σ1 := (writeFile "/a.txt" hi true false createInMemoryFileSystem).2 in
   let σ2 := (writeFile "/a.txt" yo true true σ1).2 in
   (writeFile "/a.txt" hi true false createInMemoryFileSystem).1 = Ok true /\
   (writeFile "/a.txt" hi true false σ1).1 = Throw (FileSystemError FileExists "/a.txt") /\
   (writeFile "/a.txt" yo true true σ1).1 = Ok false /\
   file_content "/a.txt" σ1 = Ok hi /\
   file_content "/a.txt" σ2 = Ok yo).
Proof.
  intros Hparent Hfresh basename target.
  destruct (lookupDirectory_Ok _ _ _ _ _ Hparent) as [_ [d Hd]].
  assert (Hne : next σ <> parent) by congruence.
  unfold writeFile. rewrite bind_run, Hparent. rewrite bind_run. cbn [get_state].
  fold basename. change (entries_of σ parent ≫= (.!! basename)) with target.
  split; [|split; [|split; [|split; [|split; [|split]]]]]; [| | | | | |vm_compute; repeat split].
  - intros Habs Hbase. apply lookup_child; assumption.
  - intros l d' -> Hl. cbn [from_option]. unfold is_directory. rewrite Hl. reflexivity.
  - intros -> ->. reflexivity.
  - intros l f -> Hl -> ->. cbn [from_option]. unfold is_directory. rewrite Hl.
    rewrite bool_decide_false by (intros [=]). rewrite bool_decide_true by eauto. reflexivity.
  - intros Htarget ->. rewrite Htarget. cbn [from_option].
    rewrite bool_decide_true by done. cbn [negb andb].
    rewrite bool_decide_false by (intros [? [=]]). cbn [andb].
    eexists. split; [reflexivity|]. cbn [store].
    unfold child, entries_of. cbn [store next clock].
    store_lookup. rewrite Hd. cbn. rewrite lookup_insert_eq. auto.
  - intros l f Htarget Hl Hflags. rewrite Htarget. cbn [from_option].
    unfold is_directory. rewrite Hl.
    rewrite bool_decide_false by (intros [=]). cbn [andb].
    rewrite bool_decide_true by eauto.
    assert (create && negb overwrite = false) as Hco
      by (destruct create, overwrite; try reflexivity; destruct Hflags; discriminate).
    cbn [andb]. rewrite Hco.
    assert (Hlp : l <> parent) by congruence.
    eexists. split; [reflexivity|]. cbn [store].
    unfold child, entries_of in *. cbn [store next clock].
    store_lookup. rewrite Hl. split; [exact Htarget|]. reflexivity.
Qed.

(** C4, at the input where the code departs from it. On the empty tree,
    [writeFile("/a.txt", hi, create, no overwrite)] adds a child to the root
    and leaves the root's [size] at 0, while [createDirectory] and
    [deleteFile] do adjust the size of the parent: after
    [createDirectory("/dir")] the root has two children and size 1, and
    after [deleteFile("/a.txt")] it has one child and size 0. *)
Theorem writeFile_leaves_parent_size :
  let hi := ["h"; "i"]%byte in
  let σ1 := (writeFile "/a.txt" hi true false createInMemoryFileSystem).2 in
  let σ2 := (createDirectory "/dir" σ1).2 in
  let σ3 := (deleteFile "/a.txt" σ2).2 in
  let children σ := size <$> entries_of σ root in
  let recorded σ := entry_size <$> store σ !! root in
  (writeFile "/a.txt" hi true false createInMemoryFileSystem).1 = Ok true /\
  children σ1 = Some 1%nat /\ recorded σ1 = Some 0 /\
  children σ2 = Some 2%nat /\ recorded σ2 = Some 1 /\
  children σ3 = Some 1%nat /\ recorded σ3 = Some 0.
Proof. vm_compute. repeat split. Qed.

(** C5 (as amended). Every failure that a lookup or mutation operation of
    the tree raises is a [FileSystemError] whose code is one of
    [FileNotFound], [FileExists], [FileIsADirectory] and
    [FileNotADirectory]. [errorResponseFromError] turns an error whose code
    is one of [FileNotFound], [FileExists], [FileIsADirectory] and
    [NoPermissions] into a failure response that carries that code, and
    throws every other error again, [FileNotADirectory] among them. *)
Theorem tree_failures_and_conversion :
  (forall op σ e σ', run op σ = (Throw e, σ') ->
     exists code arg, e = FileSystemError code arg /\ code ∈ thrown_by_tree) /\
  (forall code arg commandId, code ∈ converted ->
     ExampleServer.errorResponseFromError (FileSystemError code arg) commandId
     = Ok {| messageType := MessageType.Response;
             messageJson := ExampleServer.object
               [("success", JBool false); ("error", JString (code_string code));
                ("commandId", JString commandId)];
             messageBinary := None |}) /\
  (forall e commandId,
     (forall code arg, e = FileSystemError code arg -> code ∉ converted) ->
     ExampleServer.errorResponseFromError e commandId = Throw e) /\
  (forall arg commandId,
     ExampleServer.errorResponseFromError (FileSystemError FileNotADirectory arg) commandId
     = Throw (FileSystemError FileNotADirectory arg)).
Proof.
  split; [|split; [|split]].
  - intros op σ e σ' Hrun. exact (throws_run op σ e σ' Hrun).
  - intros code arg commandId Hin. apply list_elem_of_In in Hin.
    destruct code; try reflexivity; exfalso; simpl in Hin; intuition discriminate.
  - intros e commandId Hout. destruct e as [code arg| | |]; try reflexivity.
    specialize (Hout code arg eq_refl). rewrite list_elem_of_In in Hout.
    destruct code; try reflexivity; exfalso; apply Hout; simpl; tauto.
  - reflexivity.
Qed.

End Claims.

(** The premises of [writeFile_postcondition] hold of [/a.txt] on the empty
    tree: the file is created. *)
Lemma writeFile_postcondition_witness :
  exists σ',
    @writeFile ReferenceRuntime.runtime "/a.txt" Examples.hi true false Examples.empty_tree
    = (Ok true, σ') /\
    child σ' root "a.txt" = Some (next Examples.empty_tree) /\
    store σ' !! next Examples.empty_tree =
      Some (File {| file_type := FileType.File;
                    file_ctime := @Date_now ReferenceRuntime.runtime (clock Examples.empty_tree);
                    file_mtime :=
                      @Date_now ReferenceRuntime.runtime (S (S (clock Examples.empty_tree)));
                    file_size := 2; file_name := "a.txt"; file_data := Examples.hi |}).
Proof.
  refine (proj1 (proj2 (proj2 (proj2 (proj2
    (@writeFile_postcondition ReferenceRuntime.runtime "/a.txt" Examples.hi true false
       Examples.empty_tree root _ _))))) _ _).
  - vm_compute. reflexivity.
  - vm_compute. reflexivity.
  - vm_compute. reflexivity.
  - reflexivity.
Defined.

(** The first premise of [tree_failures_and_conversion] holds of a write
    below [/a.txt] in the tree where [/a.txt] is a file. *)
Lemma tree_failures_and_conversion_witness :
  exists code arg,
    FileSystemError FileNotADirectory "/a.txt" = FileSystemError code arg /\
    code ∈ thrown_by_tree.
Proof.
  apply (proj1 (@tree_failures_and_conversion ReferenceRuntime.runtime)
           (op_writeFile "/a.txt/b" Examples.hi true false) Examples.tree_a
           (FileSystemError FileNotADirectory "/a.txt") Examples.tree_a).
  vm_compute. reflexivity.
Defined.

(** C5 as stated fails: in the tree where [/a.txt] is a file, a write
    below [/a.txt] raises [FileNotADirectory], which is outside the set
    [FileNotFound], [FileExists], [FileIsADirectory], [NoPermissions]; the
    server converts it into no response and throws it again. *)
Lemma tree_failure_outside_closed_set_counterexample :
  (@writeFile ReferenceRuntime.runtime "/a.txt/b" Examples.hi true false Examples.tree_a).1
    = Throw (FileSystemError FileNotADirectory "/a.txt") /\
  (FileNotADirectory ∉ [FileNotFound; FileExists; FileIsADirectory; NoPermissions]) /\
  ExampleServer.errorResponseFromError (FileSystemError FileNotADirectory "/a.txt")
    Examples.sample_id
    = Throw (FileSystemError FileNotADirectory "/a.txt").
Proof.
  split; [vm_compute; reflexivity|].
  split; [rewrite list_elem_of_In; simpl; intuition discriminate|]. reflexivity.
Qed.

(** The premises of [createDirectory_replaces] hold of [/a.txt] in the tree
    that holds a file there: the directory replaces the file. *)
Lemma createDirectory_replaces_witness :
  exists d σ',
    store Examples.tree_a !! root = Some (Directory d) /\
    @createDirectory ReferenceRuntime.runtime "/a.txt" Examples.tree_a = (Ok tt, σ') /\
    child σ' root "a.txt" = Some (next Examples.tree_a) /\
    store σ' !! next Examples.tree_a =
      Some (Directory
              {| dir_type := FileType.Directory;
                 dir_ctime := @Date_now ReferenceRuntime.runtime (clock Examples.tree_a);
                 dir_mtime := @Date_now ReferenceRuntime.runtime (S (clock Examples.tree_a));
                 dir_size := 0; dir_name := "a.txt"; dir_entries := ∅ |}) /\
    store σ' !! root =
      Some (Directory
              {| dir_type := dir_type d; dir_ctime := dir_ctime d;
                 dir_mtime := @Date_now ReferenceRuntime.runtime (S (S (clock Examples.tree_a)));
                 dir_size := dir_size d + 1; dir_name := dir_name d;
                 dir_entries := <["a.txt" := next Examples.tree_a]> (dir_entries d) |}).
Proof.
  apply (proj1 (@createDirectory_replaces ReferenceRuntime.runtime "/a.txt" Examples.tree_a) root).
  - vm_compute. reflexivity.
  - vm_compute. reflexivity.
Defined.

End TreeClaims.

(* ===================================================================== *)
(** ** The command schemas                                                *)
(* ===================================================================== *)

Module CommandClaims.
Import SchemaFacts.

(** A strict object schema rejects an object with a key outside its shape. *)
Lemma strict_rejects_extra shape (o : gmap string JSONValue) (extra : string) :
  extra ∈ dom o -> extra ∉ shape.*1 ->
  parse (z_object shape strict) (JObject o) = None.
Proof.
  intros Hin Hout. rewrite parse_object.
  rewrite bool_decide_false.
  - destruct (parse_fields o shape); reflexivity.
  - intros Hsub. apply Hout. specialize (Hsub extra Hin).
    apply elem_of_list_to_set in Hsub. exact Hsub.
Qed.

(** An object schema rejects an object whose first field it rejects. *)
Lemma first_field_rejects k s shape mode (o : gmap string JSONValue) v :
  o !! k = Some v -> parse s v = None ->
  parse (z_object ((k, s) :: shape) mode) (JObject o) = None.
Proof.
  intros Hk Hv. rewrite parse_object, (parse_fields_cons_Some _ _ _ _ v Hk), Hv. reflexivity.
Qed.

Lemma parse_message_json_None sch m :
  parse (shape_messageJson sch) (messageJson m) = None -> parse_message sch m = None.
Proof.
  intros Hj. unfold parse_message. rewrite Hj. case_bool_decide; reflexivity.
Qed.

Lemma literal_rejects (a b : string) :
  a <> b -> parse (z_literal (JString a)) (JString b) = None.
Proof. intros Hne. cbn. rewrite bool_decide_false by done. reflexivity. Qed.

Lemma enum_rejects (values : list string) (b : string) :
  b ∉ values -> parse (z_enum values) (JString b) = None.
Proof. intros Hne. cbn. rewrite bool_decide_false by done. reflexivity. Qed.

Section Strictness.
Variables (m : Message) (o : gmap string JSONValue) (operation extra : string).
Hypothesis Hjson : messageJson m = JObject o.
Hypothesis Hcommand : o !! "command" = Some (JString operation).
Hypothesis Hextra : extra ∈ dom o.
Hypothesis Hundeclared : extra ∉ declared_fields operation.

Lemma pathOnly_rejects : parse_message pathOnlyCommandSchema m = None.
Proof.
  apply parse_message_json_None. rewrite Hjson.
  evaluate (shape_messageJson pathOnlyCommandSchema).
  destruct (decide (operation ∈
    ["status"; "readDirectory"; "createDirectory"; "readFile"; "delete"])) as [Hop|Hop].
  - apply (strict_rejects_extra _ _ extra Hextra).
    unfold declared_fields in Hundeclared. rewrite bool_decide_true in Hundeclared by exact Hop.
    exact Hundeclared.
  - eapply first_field_rejects; [exact Hcommand|]. apply enum_rejects, Hop.
Qed.

Lemma watch_rejects : parse_message watchCommandSchema m = None.
Proof.
  apply parse_message_json_None. rewrite Hjson.
  evaluate (shape_messageJson watchCommandSchema).
  destruct (decide (operation = "watch")) as [Hop|Hop].
  - apply (strict_rejects_extra _ _ extra Hextra). rewrite Hop in Hundeclared.
    exact Hundeclared.
  - eapply first_field_rejects; [exact Hcommand|]. apply literal_rejects. congruence.
Qed.

Lemma writeFile_rejects : parse_message writeFileCommandSchema m = None.
Proof.
  apply parse_message_json_None. rewrite Hjson.
  evaluate (shape_messageJson writeFileCommandSchema).
  destruct (decide (operation = "writeFile")) as [Hop|Hop].
  - apply (strict_rejects_extra _ _ extra Hextra). rewrite Hop in Hundeclared.
    exact Hundeclared.
  - eapply first_field_rejects; [exact Hcommand|]. apply literal_rejects. congruence.
Qed.

Lemma rename_rejects : parse_message renameCommandSchema m = None.
Proof.
  apply parse_message_json_None. rewrite Hjson.
  evaluate (shape_messageJson renameCommandSchema).
  destruct (decide (operation = "rename")) as [Hop|Hop].
  - apply (strict_rejects_extra _ _ extra Hextra). rewrite Hop in Hundeclared.
    exact Hundeclared.
  - eapply first_field_rejects; [exact Hcommand|]. apply literal_rejects. congruence.
Qed.

Lemma copy_rejects : parse_message copyCommandSchema m = None.
Proof.
  apply parse_message_json_None. rewrite Hjson.
  evaluate (shape_messageJson copyCommandSchema).
  destruct (decide (operation = "copy")) as [Hop|Hop].
  - apply (strict_rejects_extra _ _ extra Hextra). rewrite Hop in Hundeclared.
    exact Hundeclared.
  - eapply first_field_rejects; [exact Hcommand|]. apply literal_rejects. congruence.
Qed.

End Strictness.

(** C7. A command message whose [messageJson] names an operation and
    carries a field outside the fields declared for that operation is
    rejected by [allCommandsNarrowableSchema], and by every one of the five
    schemas of the union. *)
Theorem strict_command_validation (m : Message) (o : gmap string JSONValue)
    (operation extra : string) :
  messageJson m = JObject o ->
  operation ∈ operations ->
  o !! "command" = Some (JString operation) ->
  extra ∈ dom o ->
  extra ∉ declared_fields operation ->
  allCommandsNarrowableSchema m = None /\
  Forall (fun sch => parse_message sch m = None)
    [pathOnlyCommandSchema; watchCommandSchema; writeFileCommandSchema;
     renameCommandSchema; copyCommandSchema].
Proof.
  intros Hjson _ Hcommand Hextra Hundeclared.
  pose proof (pathOnly_rejects m o operation extra Hjson Hcommand Hextra Hundeclared) as H1.
  pose proof (watch_rejects m o operation extra Hjson Hcommand Hextra Hundeclared) as H2.
  pose proof (writeFile_rejects m o operation extra Hjson Hcommand Hextra Hundeclared) as H3.
  pose proof (rename_rejects m o operation extra Hjson Hcommand Hextra Hundeclared) as H4.
  pose proof (copy_rejects m o operation extra Hjson Hcommand Hextra Hundeclared) as H5.
  split.
  - unfold allCommandsNarrowableSchema, union_of, pathOnlyCommandNarrowableSchema,
      watchCommandNarrowableSchema, writeFileCommandNarrowableSchema,
      renameCommandNarrowableSchema, copyCommandNarrowableSchema, transform.
    rewrite H1, H2, H3, H4, H5. reflexivity.
  - repeat constructor; assumption.
Qed.

(** The premises of [strict_command_validation] hold of a [status]
    command that also carries the [recursive] field of [watch]. *)
Lemma strict_command_validation_witness :
  allCommandsNarrowableSchema Examples.status_command_with_extra = None /\
  Forall (fun sch => parse_message sch Examples.status_command_with_extra = None)
    [pathOnlyCommandSchema; watchCommandSchema; writeFileCommandSchema;
     renameCommandSchema; copyCommandSchema].
Proof.
  apply (strict_command_validation Examples.status_command_with_extra
           (list_to_map (Examples.status_fields ++ [("recursive", JBool true)]))
           "status" "recursive").
  - reflexivity.
  - refine (bool_decide_unpack _ _). vm_compute. exact I.
  - vm_compute. reflexivity.
  - refine (bool_decide_unpack _ _). vm_compute. exact I.
  - refine (bool_decide_unpack _ _). vm_compute. exact I.
Defined.

(** Without the extra field the command is accepted. *)
Lemma status_command_accepted :
  allCommandsNarrowableSchema Examples.status_command
  = Some {| command := "status"; message := Examples.status_command |}.
Proof. vm_compute. reflexivity. Qed.

End CommandClaims.

(* ===================================================================== *)
(** ** The RPC client                                                     *)
(* ===================================================================== *)

Module ClientClaims.
Import ExampleServer WebSocketClient SchemaFacts.

Section Claims.
Context `{Runtime}.

(** A decoded message of type [Response] passes [responseMessageSchema]
    unchanged. *)
Lemma decoded_response bytes message :
  messageFromBytes bytes = success_true message ->
  messageType message = MessageType.Response ->
  parse_message responseMessageSchema message = Some message.
Proof.
  intros Hdec Hty.
  destruct (messageFromBytes_success _ _ Hdec) as (tl & jl & ty & json & _ & _ & _ & _ & Hm).
  pose proof (messageSchema_returns_input _ _ Hm) as Heq. subst message.
  cbn [messageType] in Hty. subst ty.
  revert Hm. unfold parse_discriminatedUnion, messageSchema. cbn [List.find messageType].
  rewrite bool_decide_false by discriminate.
  rewrite bool_decide_true by reflexivity. auto.
Qed.

Lemma onMessage_response (c : Client) bytes message :
  messageFromBytes bytes = success_true message ->
  messageType message = MessageType.Response ->
  onMessage (BinaryData bytes) c =
    let commandId := string_field (messageJson message) "commandId" in
    match pendingCommands c !! commandId with
    | None => (Throw (Error ("No pending command for " +:+ commandId)), c)
    | Some pendingCommand =>
        (Ok tt,
         {| pendingCommands := delete commandId (pendingCommands c);
            settled := resolve pendingCommand message (settled c);
            nextDeferred := nextDeferred c;
            outbox := outbox c |})
    end.
Proof.
  intros Hdec Hty. unfold onMessage, messageFromWebSocketMessage.
  cbn [uint8ArrayFromRawData mbind Result_bind JS.bind]. rewrite Hdec.
  rewrite bool_decide_true by exact Hty.
  rewrite (decoded_response _ _ Hdec Hty). reflexivity.
Qed.

Lemma resolve_lookup d value (s : gmap Deferred Message) :
  s !! d = None -> resolve d value s !! d = Some value.
Proof. intros Hd. unfold resolve. rewrite Hd. apply lookup_insert_eq. Qed.

Lemma resolve_lookup_ne d d' value (s : gmap Deferred Message) :
  d <> d' -> resolve d value s !! d' = s !! d'.
Proof.
  intros Hne. unfold resolve. destruct (s !! d); [reflexivity|].
  apply lookup_insert_ne. exact Hne.
Qed.

Lemma resolve_keeps d d' value value' (s : gmap Deferred Message) :
  s !! d' = Some value' -> resolve d value s !! d' = Some value'.
Proof.
  intros Hd'. unfold resolve. destruct (s !! d) eqn:Hd; [exact Hd'|].
  rewrite lookup_insert_ne by congruence. exact Hd'.
Qed.

(** C8. When the client receives a frame that decodes to a response:
    if the pending-request map has no entry for the response's [commandId],
    the listener throws and the client is as it was, nothing is resolved and
    nothing is removed; if the map has an entry, the listener returns, that
    entry and no other is removed, its deferred is resolved with the
    response, and no other deferred is touched. Nothing in this depends on
    the order in which the pending entries were registered. *)
Theorem response_correlation (c : Client) (bytes : list byte) (message : Message) :
  messageFromBytes bytes = success_true message ->
  messageType message = MessageType.Response ->
  let commandId := string_field (messageJson message) "commandId" in
  (pendingCommands c !! commandId = None ->
     exists e, onMessage (BinaryData bytes) c = (Throw e, c)) /\
  (forall pendingCommand, pendingCommands c !! commandId = Some pendingCommand ->
     exists c',
       onMessage (BinaryData bytes) c = (Ok tt, c') /\
       pendingCommands c' !! commandId = None /\
       (forall other, other <> commandId ->
          pendingCommands c' !! other = pendingCommands c !! other) /\
       (settled c !! pendingCommand = None ->
          settled c' !! pendingCommand = Some message) /\
       (forall other, other <> pendingCommand ->
          settled c' !! other = settled c !! other)).
Proof.
  intros Hdec Hty commandId. split.
  - intros Hnone. rewrite (onMessage_response c _ _ Hdec Hty). cbn zeta.
    fold commandId. rewrite Hnone. eauto.
  - intros pendingCommand Hsome. rewrite (onMessage_response c _ _ Hdec Hty). cbn zeta.
    fold commandId. rewrite Hsome. eexists. split; [reflexivity|].
    cbn [pendingCommands settled]. repeat split.
    + apply lookup_delete_eq.
    + intros other Hne. apply lookup_delete_ne. congruence.
    + apply resolve_lookup.
    + intros other Hne. apply resolve_lookup_ne. congruence.
Qed.

(** What a deferred was resolved with stays. *)
Lemma onMessage_keeps data (c : Client) r c' d value :
  onMessage data c = (r, c') ->
  settled c !! d = Some value -> settled c' !! d = Some value.
Proof.
  unfold onMessage. intros Hrun Hd.
  repeat match type of Hrun with
         | context [match ?x with _ => _ end] => destruct x
         end;
    injection Hrun as <- <-; try exact Hd.
  cbn [settled]. apply resolve_keeps, Hd.
Qed.

Lemma deliver_keeps frames (c : Client) c' d value :
  deliver frames c = (Ok tt, c') ->
  settled c !! d = Some value -> settled c' !! d = Some value.
Proof.
  revert c. induction frames as [|data frames IH]; intros c; cbn [deliver].
  - intros [= <-]. auto.
  - destruct (onMessage data c) as [[[]|e] c1] eqn:Hstep; [|discriminate].
    intros Hrest Hd. eapply IH; [exact Hrest|]. eapply onMessage_keeps; eauto.
Qed.

(** Responses that arrive in any order for requests that are pending, one
    response for each, resolve each request with its own response. *)
Lemma deliver_resolves (frames : list (list byte * Message)) (c : Client) :
  Forall (fun bm => messageFromBytes bm.1 = success_true bm.2 /\
                    messageType bm.2 = MessageType.Response) frames ->
  NoDup ((fun bm => commandId_of bm.2) <$> frames) ->
  (forall bm, bm ∈ frames ->
     exists d, pendingCommands c !! commandId_of bm.2 = Some d /\ settled c !! d = None) ->
  (forall id1 id2 d,
     pendingCommands c !! id1 = Some d -> pendingCommands c !! id2 = Some d -> id1 = id2) ->
  exists c',
    deliver ((fun bm => BinaryData bm.1) <$> frames) c = (Ok tt, c') /\
    forall bm d, bm ∈ frames ->
      pendingCommands c !! commandId_of bm.2 = Some d -> settled c' !! d = Some bm.2.
Proof.
  revert c. induction frames as [|[bytes message] frames IH]; intros c Hframes Hnodup Hpending Hinj.
  - exists c. split; [reflexivity|]. intros bm d Hin. inversion Hin.
  - apply Forall_cons in Hframes as [[Hdec Hty] Hframes].
    rewrite fmap_cons in Hnodup. apply NoDup_cons in Hnodup as [Hfresh Hnodup].
    cbn [fst snd] in *.
    destruct (Hpending (bytes, message)) as (d & Hd & Hunsettled); [left|].
    cbn [snd] in Hd.
    cbn [fmap list_fmap deliver fst snd].
    rewrite (onMessage_response c _ _ Hdec Hty). cbn zeta.
    change (string_field (messageJson message) "commandId") with (commandId_of message).
    rewrite Hd.
    set (c1 := {| pendingCommands := delete (commandId_of message) (pendingCommands c);
                  settled := resolve d message (settled c);
                  nextDeferred := nextDeferred c; outbox := outbox c |}).
    assert (Hother : forall bm, bm ∈ frames -> commandId_of bm.2 <> commandId_of message).
    { intros bm Hin Heq. apply Hfresh. rewrite <- Heq.
      apply (list_elem_of_fmap_2 (fun bm => commandId_of bm.2)). exact Hin. }
    destruct (IH c1 Hframes Hnodup) as (c' & Hrun & Hall).
    + intros bm Hin.
      destruct (Hpending bm) as (d' & Hd' & Hunsettled'); [right; exact Hin|].
      exists d'. cbn [pendingCommands settled c1].
      rewrite lookup_delete_ne by (intros Heq; apply (Hother bm Hin); congruence).
      split; [exact Hd'|].
      rewrite resolve_lookup_ne; [exact Hunsettled'|].
      intros ->. apply (Hother bm Hin). eapply Hinj; eauto.
    + intros id1 id2 d0. cbn [pendingCommands c1].
      rewrite !lookup_delete_Some. intros [_ H1] [_ H2]. eapply Hinj; eauto.
    + exists c'. split; [exact Hrun|].
      intros bm d0 Hin Hd0. apply elem_of_cons in Hin as [->|Hin].
      * cbn [snd] in Hd0. rewrite Hd in Hd0. injection Hd0 as <-.
        eapply deliver_keeps; [exact Hrun|]. cbn [settled c1].
        apply resolve_lookup, Hunsettled.
      * apply (Hall bm d0 Hin). cbn [pendingCommands c1].
        rewrite lookup_delete_ne by (intros Heq; apply (Hother bm Hin); congruence).
        exact Hd0.
Qed.

End Claims.

(** The premises of [response_correlation] hold of the response to the
    first of two pending commands. *)
Lemma response_correlation_witness :
  exists c',
    @onMessage ReferenceRuntime.runtime
      (BinaryData (Examples.response_frame Examples.sample_id Examples.hi)) Examples.two_pending
    = (Ok tt, c') /\
    pendingCommands c' !! Examples.sample_id = None /\
    (forall other, other <> Examples.sample_id ->
       pendingCommands c' !! other = pendingCommands Examples.two_pending !! other) /\
    (settled Examples.two_pending !! 0%nat = None ->
       settled c' !! 0%nat = Some (Examples.response_to Examples.sample_id Examples.hi)) /\
    (forall other, other <> 0%nat ->
       settled c' !! other = settled Examples.two_pending !! other).
Proof.
  refine (proj2 (@response_correlation ReferenceRuntime.runtime Examples.two_pending
    (Examples.response_frame Examples.sample_id Examples.hi)
    (Examples.response_to Examples.sample_id Examples.hi) _ _) 0%nat _).
  - vm_compute. reflexivity.
  - reflexivity.
  - vm_compute. reflexivity.
Defined.

(** Two commands are sent and their responses arrive in reverse order:
    each caller gets the response to its own command. A response for which
    nothing is pending makes the listener throw. *)
Lemma responses_in_reverse_order :
  let frame1 := BinaryData (Examples.response_frame Examples.sample_id Examples.hi) in
  let frame2 := BinaryData (Examples.response_frame Examples.other_id []) in
  let run := @deliver ReferenceRuntime.runtime [frame2; frame1] Examples.two_pending in
  run.1 = Ok tt /\
  result readFileResponseSchema 0%nat run.2
    = Some (Ok (Examples.response_to Examples.sample_id Examples.hi)) /\
  result readFileResponseSchema 1%nat run.2
    = Some (Ok (Examples.response_to Examples.other_id [])) /\
  pendingCommands run.2 = ∅ /\
  (@onMessage ReferenceRuntime.runtime frame1 run.2).1
    = Throw (Error ("No pending command for " +:+ Examples.sample_id)).
Proof. vm_compute. repeat split. Qed.

End ClientClaims.

(* ===================================================================== *)
(** ** Reading an empty file                                              *)
(* ===================================================================== *)

Module ReadFileClaims.
Import InMemoryFileSystem ExampleServer FileSystemFacts SchemaFacts.

Section Claims.
Context `{Runtime}.

Lemma success_response_valid (commandId : string) (binary : option (list byte)) :
  is_uuid commandId = true ->
  valid_message
    {| messageType := MessageType.Response;
       messageJson := object [("success", JBool true); ("commandId", JString commandId)];
       messageBinary := binary |}.
Proof.
  intros Hid. unfold valid_message, parse_discriminatedUnion, messageSchema.
  cbn [List.find messageType].
  rewrite bool_decide_false by discriminate. rewrite bool_decide_true by reflexivity.
  unfold parse_message. cbn [messageType messageJson messageBinary].
  rewrite bool_decide_true by reflexivity.
  evaluate (shape_messageJson responseMessageSchema).
  evaluate (shape_messageBinary responseMessageSchema).
  unfold object. rewrite parse_object. repeat parse_field. rewrite parse_fields_nil.
  cbn [parse]. rewrite Hid. cbn [mbind option_bind parse_binary]. reflexivity.
Qed.

Lemma readFileResponseSchema_default (commandId : string) :
  is_uuid commandId = true ->
  parse_union readFileResponseSchema
    {| messageType := MessageType.Response;
       messageJson := object [("success", JBool true); ("commandId", JString commandId)];
       messageBinary := None |}
  = Some {| messageType := MessageType.Response;
            messageJson := object [("success", JBool true); ("commandId", JString commandId)];
            messageBinary := Some [] |}.
Proof.
  intros Hid. unfold readFileResponseSchema. cbn [parse_union].
  unfold parse_message. cbn [messageType messageJson messageBinary].
  evaluate (shape_messageType readFileSuccessResponseSchema).
  evaluate (shape_messageJson readFileSuccessResponseSchema).
  evaluate (shape_messageBinary readFileSuccessResponseSchema).
  rewrite bool_decide_true by reflexivity.
  unfold object. rewrite parse_object. repeat parse_field. rewrite parse_fields_nil.
  cbn [parse literal_eqb]. rewrite Hid, !bool_decide_true by reflexivity.
  cbn [mbind option_bind parse_binary]. reflexivity.
Qed.

(** C10. For a file whose content is empty, the server's [readFile]
    answers with a present binary payload of length zero; the frame of that
    answer has no binary segment, so the decoded message has no binary
    payload; and the validation of the decoded message against
    [readFileResponseSchema] yields a present binary payload of length zero
    again. *)
Theorem empty_file_read (σ : State) (json : JSONValue) (file : loc) (f : InMemoryFile) :
  let commandId := string_field json "commandId" in
  let response :=
    {| messageType := MessageType.Response;
       messageJson := object [("success", JBool true); ("commandId", JString commandId)];
       messageBinary := Some [] |} in
  let jsonBytes := TextEncoder_encode (JSON_stringify (messageJson response)) in
  is_uuid commandId = true ->
  lookupFile (string_field json "path") σ = (Ok file, σ) ->
  store σ !! file = Some (File f) ->
  file_data f = [] ->
  JSON_parse (TextDecoder_decode jsonBytes) = Some (messageJson response) ->
  Z.of_nat (length jsonBytes) < 2 ^ 32 ->
  ExampleServer.readFile json σ = (Ok response, σ) /\
  length (arrayBufferFromMessage response) = (HEADER_LENGTH + length jsonBytes)%nat /\
  messageFromBytes (arrayBufferFromMessage response) = success_true (without_binary response) /\
  messageBinary (without_binary response) = None /\
  parse_union readFileResponseSchema (without_binary response) = Some response.
Proof.
  intros commandId response jsonBytes Hid Hfile Hf Hdata Hjson Hfit.
  split; [|split; [|split; [|split]]].
  - unfold ExampleServer.readFile, try_catch. rewrite bind_run, Hfile.
    rewrite bind_run. cbn [get_state]. rewrite Hf, Hdata. reflexivity.
  - rewrite encode_layout. unfold frame, uint32_bytes. rewrite !length_app.
    cbn [length default messageBinary response from_option]. fold jsonBytes.
    unfold HEADER_LENGTH, id. cbn [length]. lia.
  - assert (Hvalid : valid_message response) by (apply success_response_valid, Hid).
    rewrite encode_layout. cbn [default messageBinary response from_option id].
    fold jsonBytes.
    rewrite (messageFromBytes_frame response jsonBytes [] Hjson Hvalid)
      by (cbn [length]; lia).
    reflexivity.
  - reflexivity.
  - apply readFileResponseSchema_default, Hid.
Qed.

End Claims.

(** The premises of [empty_file_read] hold of a file written with no
    content, under the reference runtime. *)
Lemma empty_file_read_witness :
  let σ := (@InMemoryFileSystem.writeFile ReferenceRuntime.runtime "/a.txt" [] true false
              Examples.empty_tree).2 in
  let response := Examples.response_to Examples.sample_id [] in
  ExampleServer.readFile (messageJson (Examples.readFile_command Examples.sample_id "/a.txt")) σ
    = (Ok response, σ) /\
  length (@arrayBufferFromMessage ReferenceRuntime.runtime response)
    = (HEADER_LENGTH +
       length (@TextEncoder_encode ReferenceRuntime.runtime
                 (@JSON_stringify ReferenceRuntime.runtime (messageJson response))))%nat /\
  @messageFromBytes ReferenceRuntime.runtime
    (@arrayBufferFromMessage ReferenceRuntime.runtime response)
    = success_true (without_binary response) /\
  messageBinary (without_binary response) = None /\
  parse_union readFileResponseSchema (without_binary response) = Some response.
Proof.
  refine (@empty_file_read ReferenceRuntime.runtime
    (@InMemoryFileSystem.writeFile ReferenceRuntime.runtime "/a.txt" [] true false
       Examples.empty_tree).2
    (messageJson (Examples.readFile_command Examples.sample_id "/a.txt")) 1%nat
    {| file_type := 1; file_ctime := 1700000000002; file_mtime := 1700000000004;
       file_size := 0; file_name := "a.txt"; file_data := [] |} _ _ _ _ _ _).
  - vm_compute. reflexivity.
  - vm_compute. reflexivity.
  - vm_compute. reflexivity.
  - reflexivity.
  - vm_compute. reflexivity.
  - vm_compute. reflexivity.
Defined.

End ReadFileClaims.

(* ===================================================================== *)
(** ** More about the in-memory file system                               *)
(* ===================================================================== *)

Module TreeExtras.
Import InMemoryFileSystem FileSystemFacts SizeFacts InvariantFacts PathFacts.

Section Tree.
Context `{Runtime}.

(** *** Computations that only read, never throw, or change nothing when they throw *)

Lemma read_only_lookup urlPath silent : read_only (_lookup urlPath silent).
Proof. intros σ. apply _lookup_state. Qed.

Lemma read_only_lookupDirectory urlPath silent : read_only (lookupDirectory urlPath silent).
Proof. intros σ. apply lookupDirectory_state. Qed.

Lemma read_only_lookupFile urlPath : read_only (lookupFile urlPath).
Proof. intros σ. apply lookupFile_state. Qed.

Lemma read_only_get : read_only get_state.
Proof. intros σ. reflexivity. Qed.

Lemma read_only_ret {A} (a : A) : read_only (mret a : M A).
Proof. intros σ. reflexivity. Qed.

Lemma atomic_ret {A} (a : A) : atomic (mret a : M A).
Proof. intros σ e σ' [=]. Qed.

Lemma atomic_throw {A} e : atomic (throw e : M A).
Proof. intros σ e' σ' [= _ <-]. reflexivity. Qed.

Lemma atomic_read_only {A} (c : M A) : read_only c -> atomic c.
Proof. intros Hc σ e σ' Hrun. specialize (Hc σ). rewrite Hrun in Hc. exact Hc. Qed.

Lemma atomic_never_throws {A} (c : M A) : never_throws c -> atomic c.
Proof. intros Hc σ e σ' Hrun. destruct (Hc σ) as (a & σ1 & Ha). congruence. Qed.

Lemma atomic_bind {A B} (c : M A) (k : A -> M B) :
  read_only c -> (forall a, atomic (k a)) -> atomic (c ≫= k).
Proof.
  intros Hc Hk σ e σ'. rewrite bind_run. specialize (Hc σ).
  destruct (c σ) as [[a|e0] σ1]; cbn [snd] in Hc; subst σ1.
  - apply Hk.
  - intros [= _ <-]. reflexivity.
Qed.

Lemma atomic_then_ret {A B} (c : M A) (b : B) : atomic c -> atomic (c ;; mret b).
Proof.
  intros Hc σ e σ'. rewrite bind_run. destruct (c σ) as [[a|e0] σ1] eqn:Hrun.
  - intros [=].
  - intros [= _ <-]. eapply Hc, Hrun.
Qed.

Lemma never_throws_ret {A} (a : A) : never_throws (mret a : M A).
Proof. intros σ. eexists _, _. reflexivity. Qed.

Lemma never_throws_now : never_throws now.
Proof. intros σ. eexists _, _. reflexivity. Qed.

Lemma never_throws_alloc e : never_throws (alloc e).
Proof. intros σ. eexists _, _. reflexivity. Qed.

Lemma never_throws_modify l g : never_throws (modify l g).
Proof. intros σ. eexists _, _. reflexivity. Qed.

Lemma never_throws_bind {A B} (c : M A) (k : A -> M B) :
  never_throws c -> (forall a, never_throws (k a)) -> never_throws (c ≫= k).
Proof.
  intros Hc Hk σ. rewrite bind_run. destruct (Hc σ) as (a & σ1 & ->). apply Hk.
Qed.

Ltac returns :=
  repeat first
    [ apply never_throws_ret
    | apply never_throws_now
    | apply never_throws_alloc
    | apply never_throws_modify
    | apply never_throws_bind; [|intros]
    | match goal with
      | |- never_throws (match ?x with _ => _ end) => destruct x
      | |- never_throws (let '(_, _) := ?x in _) => destruct x
      end ].

Ltac only_reads :=
  repeat first
    [ apply read_only_lookup | apply read_only_lookupDirectory | apply read_only_lookupFile
    | apply read_only_get | apply read_only_ret
    | match goal with |- read_only (if ?b then _ else _) => destruct b end ].

Ltac changes_nothing_when_it_throws :=
  repeat first
    [ apply atomic_ret
    | apply atomic_throw
    | apply atomic_bind; [solve [only_reads] | intros]
    | apply atomic_then_ret
    | match goal with
      | |- atomic (if ?b then _ else _) => destruct b
      | |- atomic (match ?x with _ => _ end) => destruct x
      end
    | solve [apply atomic_never_throws; unfold new_InMemoryFile, new_InMemoryDirectory;
             returns] ].

Lemma atomic_run op : atomic (run op).
Proof.
  destruct op; unfold run, lookup, lookupParentDirectory, rename, writeFile, deleteFile,
    createDirectory; changes_nothing_when_it_throws.
Qed.

(** X1. [lookupFile] and [lookupDirectory] against [lookup]: a path that
    [lookup] does not find makes [lookupFile] throw [FileNotFound] and
    [lookupDirectory] throw [FileNotFound], or [FileNotADirectory] when it
    is silent; a file is returned by [lookupFile] and makes
    [lookupDirectory] throw [FileNotADirectory]; a directory is returned by
    [lookupDirectory] and makes [lookupFile] throw [FileIsADirectory]. None
    of them changes the state. *)
Theorem lookups_classify (urlPath : string) (silent : bool) (σ : State) :
  exists found,
    lookup urlPath σ = (Ok found, σ) /\
    match found with
    | None =>
        lookupFile urlPath σ = (Throw (FileSystemError FileNotFound urlPath), σ) /\
        lookupDirectory urlPath false σ
          = (Throw (FileSystemError FileNotFound urlPath), σ) /\
        lookupDirectory urlPath true σ
          = (Throw (FileSystemError FileNotADirectory urlPath), σ)
    | Some l =>
        match store σ !! l with
        | Some (File _) =>
            lookupFile urlPath σ = (Ok l, σ) /\
            lookupDirectory urlPath silent σ
              = (Throw (FileSystemError FileNotADirectory urlPath), σ)
        | Some (Directory _) =>
            lookupFile urlPath σ = (Throw (FileSystemError FileIsADirectory urlPath), σ) /\
            lookupDirectory urlPath silent σ = (Ok l, σ)
        | None => True
        end
    end.
Proof.
  unfold lookup. rewrite _lookup_run, lookupFile_run, !lookupDirectory_run.
  destruct (walk σ (Path.split urlPath) root) as [l|].
  - exists (Some l). split; [reflexivity|]. unfold is_file, is_directory.
    destruct (store σ !! l) as [[f|d]|]; auto.
  - exists None. auto.
Qed.

(** X2. An operation of the tree that throws has changed nothing: the
    state after it is the state before it. *)
Theorem failed_operation_leaves_state (op : Operation) (σ σ' : State) (e : JSError) :
  run op σ = (Throw e, σ') -> σ' = σ.
Proof. apply atomic_run. Qed.

(** *** Empty parts of a path *)

Lemma append_chars (p q : string) : p +:+ q = str (chars p ++ chars q).
Proof.
  induction p as [|c p IH]; cbn.
  - symmetry. apply String.string_of_list_ascii_of_string.
  - rewrite <- IH. reflexivity.
Qed.

Lemma parts_slash (p q : string) : Path.parts (p +:+ "/" +:+ q) = Path.parts p ++ Path.parts q.
Proof.
  rewrite append_chars. change (chars ("/" +:+ q)) with ("/"%char :: chars q).
  rewrite parts_app_slash, !String.string_of_list_ascii_of_string. reflexivity.
Qed.

Lemma lookup_parts urlPath σ : lookup urlPath σ = (Ok (walk σ (Path.parts urlPath) root), σ).
Proof.
  unfold lookup, Path.parts. rewrite _lookup_run, <- walk_parts.
  destruct (walk σ (Path.split urlPath) root); reflexivity.
Qed.

(** X3. [_lookup] skips the empty parts of a path, so the empty path and
    ["/"] name the root, and a leading slash, a trailing slash or a doubled
    slash changes nothing of what [lookup] finds. *)
Theorem lookup_skips_empty_parts (p q : string) (σ : State) :
  lookup "" σ = (Ok (Some root), σ) /\
  lookup "/" σ = (Ok (Some root), σ) /\
  lookup ("/" +:+ p) σ = lookup p σ /\
  lookup (p +:+ "/") σ = lookup p σ /\
  lookup (p +:+ "//" +:+ q) σ = lookup (p +:+ "/" +:+ q) σ.
Proof.
  split; [reflexivity|]. split; [reflexivity|].
  rewrite !lookup_parts.
  change ("/" +:+ p) with ("" +:+ "/" +:+ p).
  change (p +:+ "/") with (p +:+ "/" +:+ "").
  change (p +:+ "//" +:+ q) with (p +:+ "/" +:+ ("" +:+ "/" +:+ q)).
  rewrite !parts_slash. cbn [Path.parts Path.split filter app]. 
  rewrite app_nil_r. auto.
Qed.

(** *** Walks after a change of the store *)

Lemma walk_kept σ σ' parts entry l :
  children_kept σ σ' -> walk σ parts entry = Some l -> walk σ' parts entry = Some l.
Proof.
  intros Hk. revert entry. induction parts as [|part parts IH]; intros entry; cbn; [auto|].
  case_bool_decide; [apply IH|].
  fold (child σ entry part). fold (child σ' entry part).
  destruct (child σ entry part) as [c|] eqn:Hc; [|discriminate].
  rewrite (Hk _ _ _ Hc). apply IH.
Qed.

Lemma lookupDirectory_walk urlPath silent σ l σ' :
  lookupDirectory urlPath silent σ = (Ok l, σ') ->
  walk σ (Path.parts urlPath) root = Some l.
Proof.
  rewrite lookupDirectory_run. unfold Path.parts. rewrite <- walk_parts.
  destruct (walk σ (Path.split urlPath) root) as [l0|].
  - destruct (is_directory σ l0); intros [= <- _]. reflexivity.
  - destruct silent; discriminate.
Qed.

Lemma lookupFile_parts urlPath σ :
  lookupFile urlPath σ =
    match walk σ (Path.parts urlPath) root with
    | Some l => if is_file σ l then (Ok l, σ)
                else (Throw (FileSystemError FileIsADirectory urlPath), σ)
    | None => (Throw (FileSystemError FileNotFound urlPath), σ)
    end.
Proof. rewrite lookupFile_run. unfold Path.parts. rewrite <- walk_parts. reflexivity. Qed.

(** The parts of an absolute path with a last component lead to the parent
    directory and from there to its child of that name. *)
Lemma walk_path urlPath σ :
  Path.isAbsolute urlPath = true ->
  Path.basename urlPath <> EmptyString ->
  walk σ (Path.parts urlPath) root =
    walk σ (Path.parts (Path.dirname urlPath)) root
      ≫= fun parent => child σ parent (Path.basename urlPath).
Proof.
  intros Habs Hbase. rewrite (parts_dirname_basename _ Habs Hbase), walk_app.
  destruct (walk σ (Path.parts (Path.dirname urlPath)) root); [|reflexivity].
  cbn [mbind option_bind]. apply walk_one, Hbase.
Qed.

Lemma child_lookup σ l name :
  child σ l name =
    match store σ !! l with
    | Some (Directory d) => dir_entries d !! name
    | _ => None
    end.
Proof. unfold child, entries_of. destruct (store σ !! l) as [[f|d]|]; reflexivity. Qed.

(** *** [writeFile] *)

(** The three assignments at the end of [writeFile]. *)
Lemma written_file t content f :
  (set_data content ∘ set_size (Z.of_nat (length content)) ∘ set_mtime t) (File f) =
  File {| file_type := file_type f; file_ctime := file_ctime f; file_mtime := t;
          file_size := Z.of_nat (length content); file_name := file_name f;
          file_data := content |}.
Proof. reflexivity. Qed.

(** What a call of [writeFile] that returns has done. *)
Lemma writeFile_Ok urlPath content create overwrite σ created σ' :
  writeFile urlPath content create overwrite σ = (Ok created, σ') ->
  exists parent d,
    lookupDirectory (Path.dirname urlPath) false σ = (Ok parent, σ) /\
    store σ !! parent = Some (Directory d) /\
    match dir_entries d !! Path.basename urlPath with
    | Some entry =>
        created = false /\ is_directory σ entry = false /\
        σ' = {| store :=
                  alter (set_data content ∘ set_size (Z.of_nat (length content))
                         ∘ set_mtime (Date_now (clock σ))) entry (store σ);
                next := next σ; clock := S (clock σ) |}
    | None =>
        created = true /\
        σ' = {| store :=
                  alter (set_data content ∘ set_size (Z.of_nat (length content))
                         ∘ set_mtime (Date_now (S (S (clock σ))))) (next σ)
                    (alter (with_entries <[Path.basename urlPath := next σ]>) parent
                       (<[next σ := File
                            {| file_type := FileType.File; file_ctime := Date_now (clock σ);
                               file_mtime := Date_now (S (clock σ)); file_size := 0;
                               file_name := Path.basename urlPath; file_data := [] |}]>
                          (store σ)));
                next := S (next σ); clock := S (S (S (clock σ))) |}
    end.
Proof.
  unfold writeFile, lookupParentDirectory. rewrite bind_run.
  destruct (lookupDirectory (Path.dirname urlPath) false σ) as [[parent|e] σ0] eqn:Hl;
    [|discriminate].
  destruct (lookupDirectory_Ok _ _ _ _ _ Hl) as [-> [d Hd]].
  rewrite bind_run. cbn [get_state]. fold (child σ parent (Path.basename urlPath)).
  rewrite child_lookup, Hd. intros Hrun.
  exists parent, d. split; [reflexivity|]. split; [exact Hd|]. revert Hrun.
  destruct (dir_entries d !! Path.basename urlPath) as [entry|].
  - cbn [from_option]. destruct (is_directory σ entry) eqn:Hdir; [discriminate|].
    destruct (bool_decide _ && negb create); [discriminate|].
    destruct (bool_decide _ && create && negb overwrite); [discriminate|].
    run_steps. rewrite !alter_alter_eq. intros [= <- <-]. auto.
  - cbn [from_option].
    destruct (bool_decide _ && negb create); [discriminate|].
    destruct (bool_decide _ && create && negb overwrite); [discriminate|].
    unfold new_InMemoryFile. run_steps. rewrite !alter_alter_eq. intros [= <- <-]. auto.
Qed.

(** What [lookupFile] finds after a call of [writeFile] that returns. *)
Lemma writeFile_read_back (urlPath : string) (content : list byte)
    (create overwrite created : bool) (σ σ' : State) :
  reachable σ ->
  Path.isAbsolute urlPath = true ->
  Path.basename urlPath <> EmptyString ->
  writeFile urlPath content create overwrite σ = (Ok created, σ') ->
  file_content urlPath σ' = Ok content /\
  (created = true <-> lookup urlPath σ = (Ok None, σ)).
Proof.
  intros Hr Habs Hbase Hrun.
  pose proof (reachable_next_is_fresh _ Hr) as Hfresh.
  destruct (reachable_well_formed _ Hr) as [_ Hs].
  destruct (writeFile_Ok _ _ _ _ _ _ _ Hrun) as (parent & d & Hl & Hd & Hcases).
  pose proof (lookupDirectory_walk _ _ _ _ _ Hl) as Hwalk.
  assert (Hlookup : lookup urlPath σ = (Ok (dir_entries d !! Path.basename urlPath), σ)).
  { rewrite lookup_parts, (walk_path _ _ Habs Hbase), Hwalk. cbn [mbind option_bind].
    rewrite child_lookup, Hd. reflexivity. }
  assert (Hnp : next σ <> parent) by congruence.
  unfold file_content. rewrite lookupFile_parts, (walk_path _ _ Habs Hbase).
  destruct (dir_entries d !! Path.basename urlPath) as [entry|] eqn:Hentry.
  - destruct Hcases as (-> & Hdir & ->).
    destruct (Hs parent _ Hd) as [_ Hlinked].
    apply (Hlinked _ _) in Hentry as Hentry'. apply elem_of_dom in Hentry' as [e He].
    assert (exists f, e = File f) as [f ->].
    { unfold is_directory in Hdir. rewrite He in Hdir. destruct e; [eauto | discriminate]. }
    split; [|rewrite Hlookup; split; intros [=]].
    match goal with |- context [walk ?s _ root] => assert (Hkept : children_kept σ s) end.
    { intros l name c. rewrite !child_lookup. cbn [store].
      destruct (decide (entry = l)) as [<-|Hne].
      - rewrite He. discriminate.
      - rewrite lookup_alter_ne by done. auto. }
    rewrite (walk_kept _ _ _ _ _ Hkept Hwalk).
    cbn [mbind option_bind]. rewrite child_lookup. cbn [store].
    assert (parent <> entry) by congruence.
    rewrite lookup_alter_ne, Hd, Hentry by congruence.
    unfold is_file. cbn [store]. rewrite lookup_alter_eq, He. cbn [fmap option_fmap option_map].
    rewrite written_file. rewrite lookup_alter_eq, He. reflexivity.
  - destruct Hcases as (-> & ->).
    split; [|rewrite Hlookup; split; reflexivity].
    match goal with |- context [walk ?s _ root] => assert (Hkept : children_kept σ s) end.
    { intros l name c. rewrite !child_lookup. cbn [store].
      destruct (store σ !! l) as [[f|dl]|] eqn:Hstore; try discriminate.
      assert (next σ <> l) by congruence.
      rewrite lookup_alter_ne by done.
      destruct (decide (parent = l)) as [<-|Hne].
      - rewrite lookup_alter_eq, lookup_insert_ne, Hd by done. cbn.
        assert (dl = d) as -> by congruence.
        intros Hc. rewrite lookup_insert_ne; [exact Hc | congruence].
      - rewrite lookup_alter_ne, lookup_insert_ne, Hstore by done. auto. }
    rewrite (walk_kept _ _ _ _ _ Hkept Hwalk).
    cbn [mbind option_bind]. rewrite child_lookup. cbn [store].
    rewrite lookup_alter_ne, lookup_alter_eq, lookup_insert_ne, Hd by congruence.
    cbn. rewrite lookup_insert_eq.
    unfold is_file. cbn [store].
    rewrite lookup_alter_eq, lookup_alter_ne, lookup_insert_eq by congruence. cbn.
    rewrite lookup_alter_eq, lookup_alter_ne, lookup_insert_eq by congruence.
    reflexivity.
Qed.

(** X4. Writing and reading back. In a state of the tree, after a call of
    [writeFile] that returns, for an absolute path with a last component,
    [lookupFile] of the same path finds a file whose [data] is the content
    written; and the call returns [true] exactly when [lookup] found nothing
    at the path before. *)
Theorem writeFile_then_read (urlPath : string) (content : list byte)
    (create overwrite created : bool) (σ σ' : State) :
  reachable σ ->
  Path.isAbsolute urlPath = true ->
  Path.basename urlPath <> EmptyString ->
  writeFile urlPath content create overwrite σ = (Ok created, σ') ->
  file_content urlPath σ' = Ok content /\
  (created = true <-> lookup urlPath σ = (Ok None, σ)).
Proof. apply writeFile_read_back. Qed.


(** *** [deleteFile] *)

(** The three assignments at the end of [deleteFile]. *)
Lemma deleted_from name t d :
  ((fun e => set_size (entry_size e - 1) e) ∘ set_mtime t ∘ with_entries (delete name))
    (Directory d) =
  Directory {| dir_type := dir_type d; dir_ctime := dir_ctime d; dir_mtime := t;
               dir_size := dir_size d - 1; dir_name := dir_name d;
               dir_entries := delete name (dir_entries d) |}.
Proof. reflexivity. Qed.

Lemma deleteFile_run urlPath σ parent d :
  lookupDirectory (Path.dirname urlPath) false σ = (Ok parent, σ) ->
  store σ !! parent = Some (Directory d) ->
  deleteFile urlPath σ =
    match dir_entries d !! Path.basename urlPath with
    | None => (Throw (FileSystemError FileNotFound urlPath), σ)
    | Some _ =>
        (Ok tt,
         {| store :=
              alter ((fun e => set_size (entry_size e - 1) e) ∘ set_mtime (Date_now (clock σ))
                     ∘ with_entries (delete (Path.basename urlPath))) parent (store σ);
            next := next σ; clock := S (clock σ) |})
    end.
Proof.
  intros Hl Hd. unfold deleteFile. rewrite bind_run, Hl, bind_run. cbn [get_state].
  fold (child σ parent (Path.basename urlPath)). rewrite child_lookup, Hd.
  destruct (dir_entries d !! Path.basename urlPath) as [l|].
  - rewrite bool_decide_false by discriminate. run_steps. rewrite !alter_alter_eq. reflexivity.
  - rewrite bool_decide_true by reflexivity. reflexivity.
Qed.

(** X5. [deleteFile], once the parent directory is found. A name that the
    parent does not hold makes it throw [FileNotFound] and change nothing.
    A name that it holds is removed from the parent, whatever the class of
    the entry; the parent's [size] goes down by one and its [mtime] is the
    time of the call; no other object changes; and for an absolute path
    with a last component, [lookup] of the path finds nothing afterwards. *)
Theorem deleteFile_postcondition (urlPath : string) (σ : State) (parent : loc) :
  lookupDirectory (Path.dirname urlPath) false σ = (Ok parent, σ) ->
  let basename := Path.basename urlPath in
  exists d,
    store σ !! parent = Some (Directory d) /\
    (dir_entries d !! basename = None ->
       deleteFile urlPath σ = (Throw (FileSystemError FileNotFound urlPath), σ)) /\
    (is_Some (dir_entries d !! basename) ->
       exists σ',
         deleteFile urlPath σ = (Ok tt, σ') /\
         store σ' !! parent =
           Some (Directory
                   {| dir_type := dir_type d; dir_ctime := dir_ctime d;
                      dir_mtime := Date_now (clock σ); dir_size := dir_size d - 1;
                      dir_name := dir_name d;
                      dir_entries := delete basename (dir_entries d) |}) /\
         (forall l, l <> parent -> store σ' !! l = store σ !! l) /\
         (Path.isAbsolute urlPath = true -> basename <> EmptyString ->
            lookup urlPath σ' = (Ok None, σ'))).
Proof.
  intros Hl basename. destruct (lookupDirectory_Ok _ _ _ _ _ Hl) as [_ [d Hd]].
  exists d. split; [exact Hd|].
  rewrite (deleteFile_run _ _ _ _ Hl Hd). fold basename. split.
  - intros ->. reflexivity.
  - intros [l Hentry]. rewrite Hentry. eexists. split; [reflexivity|]. cbn [store].
    split; [|split].
    + rewrite lookup_alter_eq, Hd. cbn [fmap option_fmap option_map].
      rewrite deleted_from. reflexivity.
    + intros l' Hne. rewrite lookup_alter_ne by congruence. reflexivity.
    + intros Habs Hbase. rewrite lookup_parts, (walk_path _ _ Habs Hbase).
      match goal with |- context [walk ?s _ root] => assert (Hkept : children_kept s σ) end.
      { intros l0 name c. rewrite !child_lookup. cbn [store].
        destruct (decide (parent = l0)) as [<-|Hne].
        - rewrite lookup_alter_eq, Hd. cbn [fmap option_fmap option_map].
          rewrite deleted_from. cbn. intros Hc. apply lookup_delete_Some in Hc as [_ Hc].
          exact Hc.
        - rewrite lookup_alter_ne by done. auto. }
      match goal with |- context [walk ?s ?ps root] =>
        destruct (walk s ps root) as [q|] eqn:Hq; [|reflexivity] end.
      apply (walk_kept _ _ _ _ _ Hkept) in Hq.
      rewrite (lookupDirectory_walk _ _ _ _ _ Hl) in Hq. injection Hq as <-.
      cbn [mbind option_bind]. rewrite child_lookup. cbn [store].
      rewrite lookup_alter_eq, Hd. cbn [fmap option_fmap option_map].
      rewrite deleted_from. cbn. fold basename. rewrite lookup_delete_eq. reflexivity.
Qed.

(** *** [createDirectory] *)

(** X6. [createDirectory] needs the parent directory and nothing else. It
    throws [FileNotFound] for the path of the parent when [lookup] does not
    find the parent, and [FileNotADirectory] when the parent is a file, and
    changes nothing then. In a state of the tree, after a call that returns
    for an absolute path that [lookup] did not find, [lookupDirectory] of
    the path returns the new directory, and it is empty. *)
Theorem createDirectory_needs_parent (urlPath : string) (σ : State) :
  let dirname := Path.dirname urlPath in
  (lookup dirname σ = (Ok None, σ) ->
     createDirectory urlPath σ = (Throw (FileSystemError FileNotFound dirname), σ)) /\
  (forall l f, lookup dirname σ = (Ok (Some l), σ) -> store σ !! l = Some (File f) ->
     createDirectory urlPath σ = (Throw (FileSystemError FileNotADirectory dirname), σ)) /\
  (forall σ', reachable σ ->
     Path.isAbsolute urlPath = true -> Path.basename urlPath <> EmptyString ->
     lookup urlPath σ = (Ok None, σ) ->
     createDirectory urlPath σ = (Ok tt, σ') ->
     lookupDirectory urlPath false σ' = (Ok (next σ), σ') /\
     entries_of σ' (next σ) = Some ∅).
Proof.
  intros dirname. split; [|split].
  - rewrite lookup_parts. intros [= Hwalk]. unfold createDirectory. fold dirname.
    rewrite bind_run, lookupDirectory_run, walk_parts. fold (Path.parts dirname).
    rewrite Hwalk. reflexivity.
  - intros l f. rewrite lookup_parts. intros [= Hwalk] Hf. unfold createDirectory. fold dirname.
    rewrite bind_run, lookupDirectory_run, walk_parts. fold (Path.parts dirname).
    rewrite Hwalk. unfold is_directory. rewrite Hf. reflexivity.
  - intros σ' Hr Habs Hbase Hnone Hrun.
    pose proof (reachable_next_is_fresh _ Hr) as Hfresh.
    destruct (lookupDirectory dirname false σ) as [[parent|e] σ0] eqn:Hl.
    2:{ unfold createDirectory in Hrun. fold dirname in Hrun.
        rewrite bind_run, Hl in Hrun. discriminate. }
    destruct (lookupDirectory_Ok _ _ _ _ _ Hl) as [-> [d Hd]].
    pose proof (lookupDirectory_walk _ _ _ _ _ Hl) as Hwalk.
    rewrite (createDirectory_run _ _ _ Hl) in Hrun. injection Hrun as <-.
    rewrite !alter_alter_eq.
    assert (Hnp : next σ <> parent) by congruence.
    assert (Hentry : dir_entries d !! Path.basename urlPath = None).
    { rewrite lookup_parts, (walk_path _ _ Habs Hbase) in Hnone. fold dirname in Hnone.
      rewrite Hwalk in Hnone. cbn [mbind option_bind] in Hnone.
      rewrite child_lookup, Hd in Hnone. congruence. }
    match goal with |- context [lookupDirectory _ _ ?s] =>
      assert (Hkept : children_kept σ s) end.
    { intros l name c. rewrite !child_lookup. cbn [store].
      destruct (store σ !! l) as [[f|dl]|] eqn:Hstore; try discriminate.
      assert (next σ <> l) by congruence.
      destruct (decide (parent = l)) as [<-|Hne].
      - rewrite lookup_alter_eq, lookup_insert_ne, Hd by done. cbn.
        assert (dl = d) as -> by congruence.
        intros Hc. rewrite lookup_insert_ne; [exact Hc | congruence].
      - rewrite lookup_alter_ne, lookup_insert_ne, Hstore by done. auto. }
    split.
    + rewrite lookupDirectory_run, walk_parts. fold (Path.parts urlPath).
      rewrite (walk_path _ _ Habs Hbase). fold dirname.
      rewrite (walk_kept _ _ _ _ _ Hkept Hwalk). cbn [mbind option_bind].
      rewrite child_lookup. cbn [store].
      rewrite lookup_alter_eq, lookup_insert_ne, Hd by done. cbn.
      rewrite lookup_insert_eq. unfold is_directory. cbn [store].
      rewrite lookup_alter_ne, lookup_insert_eq by done. reflexivity.
    + unfold entries_of. cbn [store].
      rewrite lookup_alter_ne, lookup_insert_eq by done. reflexivity.
Qed.

(** *** [rename] *)

Lemma lookup_walk urlPath σ found :
  lookup urlPath σ = (Ok found, σ) -> walk σ (Path.split urlPath) root = found.
Proof.
  unfold lookup. rewrite _lookup_run.
  destruct (walk σ (Path.split urlPath) root); congruence.
Qed.

Lemma lookupDirectory_missing urlPath σ :
  lookup urlPath σ = (Ok None, σ) ->
  lookupDirectory urlPath false σ = (Throw (FileSystemError FileNotFound urlPath), σ).
Proof. intros Hl. rewrite lookupDirectory_run, (lookup_walk _ _ _ Hl). reflexivity. Qed.

Lemma lookupDirectory_file urlPath σ l f :
  lookup urlPath σ = (Ok (Some l), σ) -> store σ !! l = Some (File f) ->
  lookupDirectory urlPath false σ = (Throw (FileSystemError FileNotADirectory urlPath), σ).
Proof.
  intros Hl Hf. rewrite lookupDirectory_run, (lookup_walk _ _ _ Hl).
  unfold is_directory. rewrite Hf. reflexivity.
Qed.

(** The checks of [rename] up to the lookup of the parent of the old
    path. *)
Lemma rename_checks oldPath newPath overwrite σ :
  rename oldPath newPath overwrite σ =
    if negb overwrite && bool_decide (is_Some (walk σ (Path.split newPath) root))
    then (Throw (FileSystemError FileExists newPath), σ)
    else
      match walk σ (Path.split oldPath) root with
      | None => (Throw (FileSystemError FileNotFound oldPath), σ)
      | Some entry =>
          (oldParent ← lookupParentDirectory oldPath;
           newParent ← lookupParentDirectory newPath;
           let newName := Path.basename newPath in
           σ ← get_state;
           let name := from_option entry_name "" (store σ !! entry) in
           modify oldParent (with_entries (delete name));;
           modify entry (set_name newName);;
           modify newParent (with_entries <[newName := entry]>)) σ
      end.
Proof.
  unfold rename. rewrite bind_run.
  destruct overwrite; cbn [negb andb].
  - cbn [mret M_ret ret]. rewrite bind_run, _lookup_run.
    destruct (walk σ (Path.split oldPath) root); reflexivity.
  - rewrite _lookup_run. destruct (walk σ (Path.split newPath) root) as [l|].
    + rewrite bool_decide_true by eauto. reflexivity.
    + rewrite bool_decide_false by (intros [? [=]]).
      rewrite bind_run, _lookup_run.
      destruct (walk σ (Path.split oldPath) root); reflexivity.
Qed.

(** X7. The failures of [rename], in the order of its checks. Without
    [overwrite], a new path that [lookup] finds makes it throw [FileExists]
    before the old path is looked at. Otherwise an old path that [lookup]
    does not find makes it throw [FileNotFound] for the old path; then a
    missing parent of the old path, and after it a missing parent of the
    new path, make it throw [FileNotFound] for that parent, and a parent of
    the new path that is a file [FileNotADirectory]. The state is unchanged
    in each case. *)
Theorem rename_failures (oldPath newPath : string) (overwrite : bool) (σ : State) :
  let proceeds := overwrite = true \/ lookup newPath σ = (Ok None, σ) in
  (forall existing, overwrite = false -> lookup newPath σ = (Ok (Some existing), σ) ->
     rename oldPath newPath overwrite σ = (Throw (FileSystemError FileExists newPath), σ)) /\
  (proceeds -> lookup oldPath σ = (Ok None, σ) ->
     rename oldPath newPath overwrite σ = (Throw (FileSystemError FileNotFound oldPath), σ)) /\
  (forall entry, proceeds -> lookup oldPath σ = (Ok (Some entry), σ) ->
     lookup (Path.dirname oldPath) σ = (Ok None, σ) ->
     rename oldPath newPath overwrite σ
     = (Throw (FileSystemError FileNotFound (Path.dirname oldPath)), σ)) /\
  (forall entry oldParent, proceeds -> lookup oldPath σ = (Ok (Some entry), σ) ->
     lookupParentDirectory oldPath σ = (Ok oldParent, σ) ->
     (lookup (Path.dirname newPath) σ = (Ok None, σ) ->
        rename oldPath newPath overwrite σ
        = (Throw (FileSystemError FileNotFound (Path.dirname newPath)), σ)) /\
     (forall l f, lookup (Path.dirname newPath) σ = (Ok (Some l), σ) ->
        store σ !! l = Some (File f) ->
        rename oldPath newPath overwrite σ
        = (Throw (FileSystemError FileNotADirectory (Path.dirname newPath)), σ))).
Proof.
  intros proceeds.
  assert (Hgo : proceeds ->
            negb overwrite && bool_decide (is_Some (walk σ (Path.split newPath) root)) = false).
  { intros [->|Hnone]; [reflexivity|]. rewrite (lookup_walk _ _ _ Hnone).
    rewrite bool_decide_false by (intros [? [=]]). apply andb_false_r. }
  rewrite rename_checks. split; [|split; [|split]].
  - intros existing -> Hl. rewrite (lookup_walk _ _ _ Hl).
    rewrite bool_decide_true by eauto. reflexivity.
  - intros Hp Hold. rewrite (Hgo Hp), (lookup_walk _ _ _ Hold). reflexivity.
  - intros entry Hp Hold Hparent. rewrite (Hgo Hp), (lookup_walk _ _ _ Hold).
    unfold lookupParentDirectory. rewrite bind_run, (lookupDirectory_missing _ _ Hparent).
    reflexivity.
  - intros entry oldParent Hp Hold Hparent. rewrite (Hgo Hp), (lookup_walk _ _ _ Hold).
    rewrite bind_run, Hparent. unfold lookupParentDirectory. split.
    + intros Hnew. rewrite bind_run, (lookupDirectory_missing _ _ Hnew). reflexivity.
    + intros l f Hnew Hf. rewrite bind_run, (lookupDirectory_file _ _ _ _ Hnew Hf).
      reflexivity.
Qed.

(** X8. In every state that the operations produce from the empty tree,
    the [size] of each file is the number of bytes of its [data], and the
    [type] of each object is that of its class. *)
Theorem file_size_is_content_length (σ : State) (l : loc) (e : Entry) :
  reachable σ ->
  store σ !! l = Some e ->
  match e with
  | File f => file_size f = Z.of_nat (length (file_data f)) /\ file_type f = FileType.File
  | Directory d => dir_type d = FileType.Directory
  end.
Proof.
  intros Hr He.
  pose proof (reachable_file_sizes _ Hr l e He) as Hsize.
  destruct (reachable_well_formed _ Hr) as [_ Hs].
  destruct (Hs l e He) as [Ht _].
  destruct e; auto.
Qed.

End Tree.

(** [deleteFile] of the file [/a.txt]: the call returns, and [lookup] of
    the path finds nothing afterwards. *)
Lemma deleteFile_postcondition_witness :
  exists σ',
    @deleteFile ReferenceRuntime.runtime "/a.txt" Examples.tree_a = (Ok tt, σ') /\
    (forall l, l <> root -> store σ' !! l = store Examples.tree_a !! l) /\
    lookup "/a.txt" σ' = (Ok None, σ').
Proof.
  destruct (@deleteFile_postcondition ReferenceRuntime.runtime "/a.txt" Examples.tree_a root
              ltac:(vm_compute; reflexivity)) as (d & Hd & _ & Hheld).
  destruct Hheld as (σ' & Hrun & _ & Hothers & Hgone).
  { vm_compute in Hd. injection Hd as <-. eexists. vm_compute. reflexivity. }
  exists σ'. split; [exact Hrun|]. split; [exact Hothers|].
  apply Hgone; [reflexivity | vm_compute; discriminate].
Defined.

Lemma createDirectory_needs_parent_witness :
  let σ' := (@createDirectory ReferenceRuntime.runtime "/dir" Examples.empty_tree).2 in
  lookupDirectory "/dir" false σ' = (Ok 1%nat, σ') /\ entries_of σ' 1%nat = Some ∅.
Proof.
  refine (proj2 (proj2 (@createDirectory_needs_parent ReferenceRuntime.runtime "/dir"
                          Examples.empty_tree)) _ _ _ _ _ _).
  - apply reachable_empty.
  - reflexivity.
  - vm_compute. discriminate.
  - vm_compute. reflexivity.
  - vm_compute. reflexivity.
Defined.

Lemma rename_failures_witness :
  rename "/missing" "/a.txt" false Examples.tree_a
  = (Throw (FileSystemError FileExists "/a.txt"), Examples.tree_a).
Proof.
  refine (proj1 (rename_failures "/missing" "/a.txt" false Examples.tree_a) 1%nat _ _).
  - reflexivity.
  - vm_compute. reflexivity.
Defined.

Lemma file_size_is_content_length_witness :
  2 = Z.of_nat (length Examples.hi) /\ 1 = FileType.File.
Proof.
  apply (@file_size_is_content_length ReferenceRuntime.runtime
           (@run ReferenceRuntime.runtime (op_writeFile "/a.txt" Examples.hi true false)
              Examples.empty_tree).2
           1%nat
           (File {| file_type := 1; file_ctime := 1700000000002; file_mtime := 1700000000004;
                    file_size := 2; file_name := "a.txt"; file_data := Examples.hi |})).
  - apply reachable_step, reachable_empty.
  - vm_compute. reflexivity.
Defined.

Lemma writeFile_then_read_witness :
  @file_content ReferenceRuntime.runtime "/a.txt"
    (@writeFile ReferenceRuntime.runtime "/a.txt" Examples.hi true false Examples.empty_tree).2
  = Ok Examples.hi.
Proof.
  refine (proj1 (@writeFile_then_read ReferenceRuntime.runtime "/a.txt" Examples.hi
                   true false true Examples.empty_tree _ _ _ _ _)).
  - apply reachable_empty.
  - reflexivity.
  - vm_compute. discriminate.
  - vm_compute. reflexivity.
Defined.

Lemma failed_operation_leaves_state_witness :
  (@run ReferenceRuntime.runtime (op_writeFile "/a.txt" Examples.hi true false) Examples.tree_a).2
  = Examples.tree_a.
Proof.
  apply (@failed_operation_leaves_state ReferenceRuntime.runtime
           (op_writeFile "/a.txt" Examples.hi true false) Examples.tree_a _
           (FileSystemError FileExists "/a.txt")).
  vm_compute. reflexivity.
Defined.

End TreeExtras.

(* ===================================================================== *)
(** ** More about the wire codec                                          *)
(* ===================================================================== *)

Module CodecExtras.
Import SchemaFacts.

Section Codec.
Context `{Runtime}.

(** X9. The frame that [arrayBufferFromMessage] builds: 9 bytes of header,
    the bytes of the JSON text, the bytes of the binary payload, and
    nothing else. The two length fields hold the lengths modulo 2^32, byte 8
    the message type modulo 2^8. *)
Theorem encoded_frame_layout (m : Message) :
  let json := TextEncoder_encode (JSON_stringify (messageJson m)) in
  let binary := default [] (messageBinary m) in
  let bytes := arrayBufferFromMessage m in
  length bytes = (HEADER_LENGTH + length json + length binary)%nat /\
  getUint32 bytes PAYLOAD_LENGTH_OFFSET
    = Ok (Z.of_nat (length json + length binary) mod 2 ^ 32) /\
  getUint32 bytes JSON_LENGTH_OFFSET = Ok (Z.of_nat (length json) mod 2 ^ 32) /\
  getUint8 bytes MESSAGE_TYPE_OFFSET = Ok (messageType m mod 256) /\
  Uint8Array_slice bytes 9 (9 + Z.of_nat (length json)) = json /\
  Uint8Array_slice bytes (9 + Z.of_nat (length json))
    (9 + Z.of_nat (length json) + Z.of_nat (length binary)) = binary.
Proof.
  intros json binary bytes. unfold bytes. rewrite encode_layout. fold json binary.
  split; [|split; [|split; [|split]]].
  - unfold frame, uint32_bytes, HEADER_LENGTH. rewrite !length_app. cbn [length]. lia.
  - apply getUint32_frame.
  - apply getUint32_frame.
  - apply getUint32_frame.
  - apply frame_slices.
Qed.

(** *** Reading a buffer that is followed by more bytes *)

Lemma getUint8_app (bytes extra : list byte) off :
  (off < length bytes)%nat -> getUint8 (bytes ++ extra) off = getUint8 bytes off.
Proof. intros Hoff. unfold getUint8. rewrite lookup_app_l by exact Hoff. reflexivity. Qed.

Lemma getUint32_app (bytes extra : list byte) off :
  (off + 3 < length bytes)%nat -> getUint32 (bytes ++ extra) off = getUint32 bytes off.
Proof. intros Hoff. unfold getUint32. rewrite !lookup_app_l by lia. reflexivity. Qed.

Lemma Uint8Array_slice_within (bytes extra : list byte) a b :
  0 <= a <= Z.of_nat (length bytes) -> 0 <= b <= Z.of_nat (length bytes) ->
  Uint8Array_slice (bytes ++ extra) a b = Uint8Array_slice bytes a b.
Proof.
  intros Ha Hb. unfold Uint8Array_slice, relative_index. rewrite length_app.
  destruct (Z.ltb_spec a 0); [lia|]. destruct (Z.ltb_spec b 0); [lia|].
  rewrite !Z.min_l by lia.
  rewrite drop_app_le by lia. rewrite take_app_le; [reflexivity|].
  rewrite length_drop. lia.
Qed.

Lemma getUint32_length (bytes : list byte) off v :
  getUint32 bytes off = Ok v -> (off + 3 < length bytes)%nat.
Proof.
  unfold getUint32.
  destruct (bytes !! off), (bytes !! (off + 1)%nat), (bytes !! (off + 2)%nat),
    (bytes !! (off + 3)%nat) eqn:E; try discriminate.
  intros _. eapply lookup_lt_Some; eauto.
Qed.

(** X10. [messageFromBytes] reads what the header declares and nothing
    after it: when the buffer holds the 9 bytes of the header and as many
    bytes as the larger of its two length fields says, bytes appended to
    the buffer change nothing of the result. *)
Theorem trailing_bytes_are_ignored (bytes extra : list byte) (totalLength jsonLength : Z) :
  getUint32 bytes PAYLOAD_LENGTH_OFFSET = Ok totalLength ->
  getUint32 bytes JSON_LENGTH_OFFSET = Ok jsonLength ->
  9 + Z.max totalLength jsonLength <= Z.of_nat (length bytes) ->
  messageFromBytes (bytes ++ extra) = messageFromBytes bytes.
Proof.
  intros Htotal Hjson Hlen.
  pose proof (getUint32_nonneg _ _ _ Htotal). pose proof (getUint32_nonneg _ _ _ Hjson).
  pose proof (getUint32_length _ _ _ Htotal). pose proof (getUint32_length _ _ _ Hjson).
  unfold messageFromBytes, PAYLOAD_LENGTH_OFFSET, JSON_LENGTH_OFFSET, MESSAGE_TYPE_OFFSET,
    HEADER_LENGTH in *.
  rewrite !getUint32_app, getUint8_app by lia.
  rewrite Htotal, Hjson. cbn [mbind Result_bind JS.bind].
  change (Z.of_nat 9) with 9.
  rewrite !Uint8Array_slice_within by lia. reflexivity.
Qed.

(** *** What a decoded message is *)

Lemma parse_string_inv v r : parse z_string v = Some r -> exists s, v = JString s.
Proof. destruct v; try discriminate. eauto. Qed.

Lemma parse_uuid_inv v r :
  parse z_string_uuid v = Some r -> exists s, v = JString s /\ is_uuid s = true.
Proof. destruct v; try discriminate. cbn. destruct (is_uuid s) eqn:E; [eauto | discriminate]. Qed.

Lemma parse_boolean_inv v r : parse z_boolean v = Some r -> exists b, v = JBool b.
Proof. destruct v; try discriminate. eauto. Qed.

(** A field that the shape of an accepted object requires. *)
Lemma parse_fields_required o k s sh out :
  parse_fields o ((k, s) :: sh) = Some out ->
  accepts_undefined s = false ->
  exists x r, o !! k = Some x /\ parse s x = Some r /\
              exists out', parse_fields o sh = Some out'.
Proof.
  intros Hp Hs. destruct (o !! k) as [x|] eqn:Hk.
  - rewrite (parse_fields_cons_Some _ _ _ _ _ Hk) in Hp.
    destruct (parse s x) as [r|] eqn:Hr; [|discriminate]. cbn in Hp.
    destruct (parse_fields o sh) as [out'|] eqn:Hout; [|discriminate]. eauto 8.
  - rewrite (parse_fields_cons_None _ _ _ _ Hk), Hs in Hp. discriminate.
Qed.

Lemma commandMessage_fields m r :
  parse_message commandMessageSchema m = Some r ->
  exists o command commandId,
    messageJson m = JObject o /\
    o !! "command" = Some (JString command) /\
    o !! "commandId" = Some (JString commandId) /\ is_uuid commandId = true.
Proof.
  unfold parse_message. case_bool_decide; [|discriminate].
  cbn [shape_messageJson commandMessageSchema].
  destruct (parse _ (messageJson m)) as [json|] eqn:Hjson; [|discriminate]. intros _.
  destruct (parse_object_inv _ _ _ _ Hjson) as [o Ho]. rewrite Ho in Hjson.
  rewrite parse_object in Hjson.
  destruct (parse_fields o _) as [out|] eqn:Hfields; [|discriminate].
  apply parse_fields_required in Hfields as (x & r1 & Hx & Hr1 & out' & Hfields); [|reflexivity].
  apply parse_fields_required in Hfields as (y & r2 & Hy & Hr2 & _); [|reflexivity].
  apply parse_string_inv in Hr1 as [command ->].
  apply parse_uuid_inv in Hr2 as (commandId & -> & Hid).
  exists o, command, commandId. auto.
Qed.

Lemma responseMessage_fields m r :
  parse_message responseMessageSchema m = Some r ->
  exists o commandId success,
    messageJson m = JObject o /\
    o !! "commandId" = Some (JString commandId) /\ is_uuid commandId = true /\
    o !! "success" = Some (JBool success).
Proof.
  unfold parse_message. case_bool_decide; [|discriminate].
  cbn [shape_messageJson responseMessageSchema].
  destruct (parse _ (messageJson m)) as [json|] eqn:Hjson; [|discriminate]. intros _.
  destruct (parse_object_inv _ _ _ _ Hjson) as [o Ho]. rewrite Ho in Hjson.
  rewrite parse_object in Hjson.
  destruct (parse_fields o _) as [out|] eqn:Hfields; [|discriminate].
  apply parse_fields_required in Hfields as (x & r1 & Hx & Hr1 & out' & Hfields); [|reflexivity].
  apply parse_fields_required in Hfields as (y & r2 & Hy & Hr2 & _); [|reflexivity].
  apply parse_uuid_inv in Hr1 as (commandId & -> & Hid).
  apply parse_boolean_inv in Hr2 as [success ->].
  exists o, commandId, success. auto.
Qed.

(** X11. What [messageFromBytes] returns is a message of [messageSchema]:
    its type is the byte at offset 8 and is 0, 1 or 2, so a frame with
    another type byte is rejected; a command carries a string [command] and
    a [commandId] that is a UUID; a response carries a [commandId] that is
    a UUID and a boolean [success]. *)
Theorem decoded_message_is_valid (bytes : list byte) (m : Message) :
  messageFromBytes bytes = success_true m ->
  valid_message m /\
  getUint8 bytes MESSAGE_TYPE_OFFSET = Ok (messageType m) /\
  (messageType m = MessageType.Command \/ messageType m = MessageType.Response \/
   messageType m = MessageType.Event) /\
  (messageType m = MessageType.Command ->
     exists o command commandId,
       messageJson m = JObject o /\
       o !! "command" = Some (JString command) /\
       o !! "commandId" = Some (JString commandId) /\ is_uuid commandId = true) /\
  (messageType m = MessageType.Response ->
     exists o commandId success,
       messageJson m = JObject o /\
       o !! "commandId" = Some (JString commandId) /\ is_uuid commandId = true /\
       o !! "success" = Some (JBool success)).
Proof.
  intros Hm.
  destruct (messageFromBytes_success _ _ Hm)
    as (totalLength & jsonLength & type & json & _ & _ & Htype & _ & Hparse).
  pose proof (messageSchema_returns_input _ _ Hparse) as ->.
  split; [exact Hparse|]. split; [exact Htype|].
  split; [exact (messageSchema_messageType _ _ Hparse)|].
  unfold parse_discriminatedUnion, messageSchema in Hparse. cbn [List.find] in Hparse.
  cbn [messageType shape_messageType commandMessageSchema responseMessageSchema
       eventMessageSchema] in Hparse |- *.
  split; intros ->.
  - rewrite bool_decide_true in Hparse by reflexivity.
    exact (commandMessage_fields _ _ Hparse).
  - rewrite bool_decide_false, bool_decide_true in Hparse by done.
    exact (responseMessage_fields _ _ Hparse).
Qed.

(** X12. A header whose JSON length is larger than its total length is not
    rejected: the binary length is then negative, which is not zero, the
    slice taken for it is empty, and the decoded message has a binary
    payload of no bytes. *)
Theorem json_longer_than_total (bytes : list byte) (m : Message) (totalLength jsonLength : Z) :
  messageFromBytes bytes = success_true m ->
  getUint32 bytes PAYLOAD_LENGTH_OFFSET = Ok totalLength ->
  getUint32 bytes JSON_LENGTH_OFFSET = Ok jsonLength ->
  totalLength < jsonLength ->
  messageBinary m = Some [].
Proof.
  intros Hm Htotal Hjson Hlt.
  destruct (messageFromBytes_success _ _ Hm)
    as (totalLength' & jsonLength' & type & json & Ht & Hj & _ & _ & Hparse).
  unfold PAYLOAD_LENGTH_OFFSET, JSON_LENGTH_OFFSET in *.
  assert (totalLength' = totalLength) as -> by congruence.
  assert (jsonLength' = jsonLength) as -> by congruence.
  pose proof (getUint32_nonneg _ _ _ Htotal). pose proof (getUint32_nonneg _ _ _ Hjson).
  pose proof (messageSchema_returns_input _ _ Hparse) as ->. cbn [messageBinary].
  rewrite bool_decide_false by lia. f_equal.
  unfold Uint8Array_slice, relative_index.
  destruct (Z.ltb_spec (9 + jsonLength) 0); [lia|].
  destruct (Z.ltb_spec (9 + jsonLength + (totalLength - jsonLength)) 0); [lia|].
  replace (Z.to_nat _) with 0%nat by lia. reflexivity.
Qed.

End Codec.

Lemma trailing_bytes_are_ignored_witness :
  @messageFromBytes ReferenceRuntime.runtime
    (Examples.response_frame Examples.sample_id Examples.hi ++ ["007"; "007"]%byte)
  = @messageFromBytes ReferenceRuntime.runtime
      (Examples.response_frame Examples.sample_id Examples.hi).
Proof.
  refine (@trailing_bytes_are_ignored ReferenceRuntime.runtime
            (Examples.response_frame Examples.sample_id Examples.hi) ["007"; "007"]%byte
            _ _ _ _ _).
  - vm_compute. reflexivity.
  - vm_compute. reflexivity.
  - vm_compute. discriminate.
Defined.

Lemma decoded_message_is_valid_witness :
  valid_message (Examples.response_to Examples.sample_id Examples.hi).
Proof.
  refine (proj1 (@decoded_message_is_valid ReferenceRuntime.runtime
                   (Examples.response_frame Examples.sample_id Examples.hi)
                   (Examples.response_to Examples.sample_id Examples.hi) _)).
  vm_compute. reflexivity.
Defined.

(** An event frame whose header declares 1 byte of JSON and 0 bytes in
    all. *)
Lemma json_longer_than_total_witness :
  messageBinary {| messageType := MessageType.Event; messageJson := JNumber 1;
                   messageBinary := Some [] |} = Some [].
Proof.
  apply (@json_longer_than_total ReferenceRuntime.runtime
           ["000"; "000"; "000"; "000"; "000"; "000"; "000"; "001"; "002"; "1"]%byte
           {| messageType := MessageType.Event; messageJson := JNumber 1;
              messageBinary := Some [] |} 0 1).
  - vm_compute. reflexivity.
  - vm_compute. reflexivity.
  - vm_compute. reflexivity.
  - reflexivity.
Defined.

End CodecExtras.

(* ===================================================================== *)
(** ** More about the command schemas                                     *)
(* ===================================================================== *)

Module CommandExtras.
Import SchemaFacts SchemaReturns CodecExtras.

Lemma parse_literal_inv (c : string) v r :
  parse (z_literal (JString c)) v = Some r -> v = JString c.
Proof.
  cbn. destruct v; cbn; try discriminate. case_bool_decide; [|discriminate]. congruence.
Qed.

Lemma parse_enum_inv values v r :
  parse (z_enum values) v = Some r -> exists c, v = JString c /\ c ∈ values.
Proof.
  destruct v; cbn; try discriminate. case_bool_decide; [|discriminate]. eauto.
Qed.

Ltac returns_inputs :=
  repeat first
    [ apply Forall_cons; split
    | apply Forall_nil; exact I
    | apply returns_input_string | apply returns_input_uuid | apply returns_input_boolean
    | apply returns_input_literal | apply returns_input_enum | apply returns_input_array
    | apply returns_input_number | apply returns_input_number_int ].

(** A command that a command schema accepts: the schema returns it as it
    is, and its [command] passes the schema of that field. *)
Lemma command_schema_accepts sch cs sh m r :
  shape_messageType sch = MessageType.Command ->
  shape_messageJson sch = z_object (("command", cs) :: ("commandId", z_string_uuid) :: sh) strict ->
  returns_input cs -> Forall (fun ks => returns_input ks.2) sh ->
  accepts_undefined cs = false ->
  shape_messageBinary sch = bin_instanceof_optional \/
    shape_messageBinary sch = bin_never_optional ->
  parse_message sch m = Some r ->
  r = m /\
  (shape_messageBinary sch = bin_never_optional -> messageBinary m = None) /\
  exists o x id,
    messageJson m = JObject o /\ o !! "command" = Some x /\ parse cs x = Some x /\
    o !! "commandId" = Some (JString id) /\ is_uuid id = true.
Proof.
  intros Hty Hjson Hcs Hsh Hreq Hbin Hp.
  assert (Hr : returns_input (shape_messageJson sch)).
  { rewrite Hjson. apply returns_input_strict. apply Forall_cons. split; [assumption|].
    apply Forall_cons. split; [apply returns_input_uuid | assumption]. }
  pose proof (parse_message_returns_input _ _ _ Hr Hbin Hp) as ->.
  split; [reflexivity|]. unfold parse_message in Hp. case_bool_decide; [|discriminate].
  rewrite Hjson in Hp.
  destruct (parse _ (messageJson m)) as [json|] eqn:Hparse; [|discriminate].
  cbn [mbind option_bind] in Hp. split.
  - intros Hnever. rewrite Hnever in Hp. destruct (messageBinary m); [discriminate|reflexivity].
  - destruct (parse_object_inv _ _ _ _ Hparse) as [o Ho]. rewrite Ho in Hparse.
    rewrite parse_object in Hparse.
    destruct (parse_fields o _) as [out|] eqn:Hfields; [|discriminate].
    apply parse_fields_required in Hfields as (x & r1 & Hx & Hr1 & out' & Hfields);
      [|exact Hreq].
    apply parse_fields_required in Hfields as (y & r2 & Hy & Hr2 & _); [|reflexivity].
    apply parse_uuid_inv in Hr2 as (id & -> & Hid).
    pose proof (Hcs _ _ Hr1) as ->. eauto 10.
Qed.

Ltac command_schema :=
  match goal with
  | H : parse_message ?sch ?m = Some ?r |- _ =>
      eapply (command_schema_accepts sch) in H;
        [ | reflexivity | vm_compute; reflexivity | returns_inputs | returns_inputs
          | reflexivity | auto ]
  end.

(** What [allCommandsNarrowableSchema] accepts. *)
Lemma allCommands_accepts (m : Message) (n : Narrowed) :
  allCommandsNarrowableSchema m = Some n ->
  message n = m /\
  command n = json_command (messageJson m) /\
  command n ∈ operations /\
  (messageBinary m <> None -> command n = "writeFile") /\
  is_uuid (ExampleServer.string_field (messageJson m) "commandId") = true.
Proof.
  unfold allCommandsNarrowableSchema, union_of, pathOnlyCommandNarrowableSchema,
    watchCommandNarrowableSchema, writeFileCommandNarrowableSchema,
    renameCommandNarrowableSchema, copyCommandNarrowableSchema, transform.
  assert (Hid : forall o id, messageJson m = JObject o -> o !! "commandId" = Some (JString id) ->
                  ExampleServer.string_field (messageJson m) "commandId" = id).
  { intros o id Ho Hi. unfold ExampleServer.string_field, ExampleServer.field.
    rewrite Ho, Hi. reflexivity. }
  destruct (parse_message pathOnlyCommandSchema m) as [r|] eqn:H1.
  { cbn. intros [= <-]. command_schema.
    destruct H1 as (-> & Hbin & o & x & id & Ho & Hx & Hp & Hi & Hu).
    apply parse_enum_inv in Hp as (c & -> & Hc).
    unfold narrow, json_command. cbn [message command]. rewrite (Hid _ _ Ho Hi), Ho, Hx.
    split; [reflexivity|]. split; [reflexivity|]. split; [|split; [|exact Hu]].
    - unfold operations. rewrite !elem_of_cons, elem_of_nil in Hc. rewrite !elem_of_cons.
      intuition auto 12.
    - intros Hb. destruct (Hb (Hbin eq_refl)). }
  destruct (parse_message watchCommandSchema m) as [r|] eqn:H2.
  { cbn. intros [= <-]. command_schema.
    destruct H2 as (-> & Hbin & o & x & id & Ho & Hx & Hp & Hi & Hu).
    apply parse_literal_inv in Hp as ->.
    unfold narrow, json_command. cbn [message command]. rewrite (Hid _ _ Ho Hi), Ho, Hx.
    split; [reflexivity|]. split; [reflexivity|]. split; [|split; [|exact Hu]].
    - unfold operations. rewrite !elem_of_cons. auto 12.
    - intros Hb. destruct (Hb (Hbin eq_refl)). }
  destruct (parse_message writeFileCommandSchema m) as [r|] eqn:H3.
  { cbn. intros [= <-]. command_schema.
    destruct H3 as (-> & Hbin & o & x & id & Ho & Hx & Hp & Hi & Hu).
    apply parse_literal_inv in Hp as ->.
    unfold narrow, json_command. cbn [message command]. rewrite (Hid _ _ Ho Hi), Ho, Hx.
    split; [reflexivity|]. split; [reflexivity|]. split; [|split; [|exact Hu]].
    - unfold operations. rewrite !elem_of_cons. auto 12.
    - reflexivity. }
  destruct (parse_message renameCommandSchema m) as [r|] eqn:H4.
  { cbn. intros [= <-]. command_schema.
    destruct H4 as (-> & Hbin & o & x & id & Ho & Hx & Hp & Hi & Hu).
    apply parse_literal_inv in Hp as ->.
    unfold narrow, json_command. cbn [message command]. rewrite (Hid _ _ Ho Hi), Ho, Hx.
    split; [reflexivity|]. split; [reflexivity|]. split; [|split; [|exact Hu]].
    - unfold operations. rewrite !elem_of_cons. auto 12.
    - intros Hb. destruct (Hb (Hbin eq_refl)). }
  destruct (parse_message copyCommandSchema m) as [r|] eqn:H5; [|discriminate].
  cbn. intros [= <-]. command_schema.
  destruct H5 as (-> & Hbin & o & x & id & Ho & Hx & Hp & Hi & Hu).
  apply parse_literal_inv in Hp as ->.
  unfold narrow, json_command. cbn [message command]. rewrite (Hid _ _ Ho Hi), Ho, Hx.
  split; [reflexivity|]. split; [reflexivity|]. split; [|split; [|exact Hu]].
  - unfold operations. rewrite !elem_of_cons. auto 12.
  - intros Hb. destruct (Hb (Hbin eq_refl)).
Qed.

(** X13. A command that [allCommandsNarrowableSchema] accepts is returned
    as it is, nothing stripped or defaulted, with the [command] of its JSON
    as the narrowed command; that command is one of the nine operations;
    and a command with a binary payload is a [writeFile]: every other
    command schema rejects it. *)
Theorem accepted_command_is_unchanged (m : Message) (n : Narrowed) :
  allCommandsNarrowableSchema m = Some n ->
  message n = m /\
  command n = json_command (messageJson m) /\
  command n ∈ operations /\
  (messageBinary m <> None -> command n = "writeFile").
Proof.
  intros Hn. destruct (allCommands_accepts _ _ Hn) as (? & ? & ? & ? & _). auto.
Qed.

Lemma accepted_command_is_unchanged_witness :
  command {| command := "status"; message := Examples.status_command |} ∈ operations.
Proof.
  refine (proj1 (proj2 (proj2
            (accepted_command_is_unchanged Examples.status_command _ _)))).
  vm_compute. reflexivity.
Defined.

End CommandExtras.

(* ===================================================================== *)
(** ** More about the example server                                      *)
(* ===================================================================== *)

Module ServerExtras.
Import InMemoryFileSystem ExampleServer FileSystemFacts SizeFacts InvariantFacts.
Import SchemaFacts SchemaReturns ResponseFacts ReplyFacts CommandExtras TreeExtras.

Section Server.
Context `{Runtime}.

Lemma try_catch_Throw {A} (c : M A) h σ e σ1 :
  c σ = (Throw e, σ1) -> try_catch c h σ = h e σ1.
Proof. intros Hc. unfold try_catch. rewrite Hc. reflexivity. Qed.

Lemma try_catch_Ok {A} (c : M A) h σ a σ1 :
  c σ = (Ok a, σ1) -> try_catch c h σ = (Ok a, σ1).
Proof. intros Hc. unfold try_catch. rewrite Hc. reflexivity. Qed.

Lemma bind_Throw {A B} (c : M A) (k : A -> M B) σ e σ1 :
  c σ = (Throw e, σ1) -> (c ≫= k) σ = (Throw e, σ1).
Proof. intros Hc. rewrite bind_run, Hc. reflexivity. Qed.

Lemma then_ret_Throw {A} (c : M A) σ e σ1 :
  (c ;; mret tt : M unit) σ = (Throw e, σ1) -> c σ = (Throw e, σ1).
Proof.
  rewrite bind_run. destruct (c σ) as [[a|e0] σ0]; [discriminate|].
  intros [= -> ->]. reflexivity.
Qed.

(** The commands, one after the other. *)
Ltac decide_commands :=
  repeat first [ rewrite bool_decide_true by reflexivity
               | rewrite bool_decide_false by discriminate ].

(** [handleCommand] on a command that the schema accepts. *)
Lemma handleCommand_accepted m n σ :
  allCommandsNarrowableSchema m = Some n ->
  handleCommand m σ =
    (let json := messageJson m in
     let command := json_command json in
     if bool_decide (command = "watch") then watch json
     else if bool_decide (command = "status") then status json
     else if bool_decide (command = "readDirectory") then readDirectory json
     else if bool_decide (command = "writeFile") then writeFile json (messageBinary m)
     else if bool_decide (command = "createDirectory") then createDirectory json
     else if bool_decide (command = "readFile") then readFile json
     else if bool_decide (command = "rename") then rename json
     else if bool_decide (command = "delete") then deleteFile json
     else mret (errorResponse "UnknownCommand" command)) σ.
Proof.
  intros Hn. destruct (allCommands_accepts _ _ Hn) as (Hm & Hc & _).
  unfold handleCommand. rewrite bind_run, Hn. cbn [orThrowZod lift].
  rewrite Hm, Hc. reflexivity.
Qed.

(** The [catch] of a handler. *)
Lemma parsedErrorResponse_run operation code arg id σ :
  operation ∈ operations ->
  is_uuid id = true ->
  parsedErrorResponse (response_schema operation) (FileSystemError code arg) id σ =
    (if bool_decide (code_string code ∈ error_codes operation)
     then Ok (errorResponse (code_string code) id)
     else Throw (if bool_decide (code ∈ converted) then ZodError
                 else FileSystemError code arg), σ).
Proof.
  intros Hop Hid. unfold parsedErrorResponse, lift. f_equal.
  destruct code; cbn [errorResponseFromError mbind Result_bind JS.bind];
    rewrite ?(parse_union_error _ _ _ Hop Hid);
    try (rewrite (bool_decide_true (_ ∈ converted))
           by (unfold converted; rewrite !elem_of_cons; auto 8));
    try (case_bool_decide; reflexivity).
  all: rewrite (bool_decide_false (_ ∈ converted))
         by (unfold converted; rewrite !elem_of_cons, elem_of_nil; intuition discriminate).
  all: unfold operations in Hop;
    repeat (apply elem_of_cons in Hop as [->|Hop]); [..|apply elem_of_nil in Hop; destruct Hop];
    reflexivity.
Qed.

Ltac decide_commands_in H :=
  repeat first [ rewrite bool_decide_true in H by reflexivity
               | rewrite bool_decide_false in H by discriminate ].

Ltac binary_fact := first [left; reflexivity | right; eexists; split; reflexivity].

Ltac an_operation := unfold operations; rewrite !elem_of_cons; auto 12.

(** X14. A failure of the tree inside a handler. Where the call that the
    handler of an accepted command makes throws a [FileSystemError], the
    tree is unchanged; the reply is the error response with that code and
    the [commandId] of the command exactly when the code is one that the
    response schema of the operation lists. Otherwise the handler throws
    and no reply is sent: a [ZodError] for [FileIsADirectory] (and for
    [FileExists] where the schema does not list it), the error itself for
    [FileNotADirectory]. *)
Theorem failure_replies (m : Message) (n : Narrowed) (op : Operation) (σ σ1 : State)
    (code : FileSystemErrorCode) (arg : string) :
  allCommandsNarrowableSchema m = Some n ->
  tree_call n = Some op ->
  run op σ = (Throw (FileSystemError code arg), σ1) ->
  σ1 = σ /\
  handleCommand m σ =
    (if bool_decide (code_string code ∈ error_codes (command n))
     then Ok (errorResponse (code_string code) (commandId_of m))
     else Throw (if bool_decide (code ∈ converted) then ZodError
                 else FileSystemError code arg), σ).
Proof.
  intros Hn Hop Hrun. pose proof (atomic_run _ _ _ _ Hrun) as ->. split; [reflexivity|].
  rewrite (handleCommand_accepted _ _ _ Hn).
  destruct (allCommands_accepts _ _ Hn) as (Hm & Hc & Hops & _ & Hid).
  destruct n as [command msg]. cbn [Commands.command message] in *. subst msg.
  rewrite <- Hc. cbv zeta. unfold commandId_of.
  unfold tree_call in Hop. cbn [Commands.command message] in Hop.
  unfold operations in Hops.
  repeat (apply elem_of_cons in Hops as [->|Hops]); [..|apply elem_of_nil in Hops; destruct Hops];
    decide_commands; decide_commands_in Hop; try discriminate;
    injection Hop as <-; unfold run in Hrun.
  - apply then_ret_Throw in Hrun. unfold readDirectory.
    rewrite (try_catch_Throw _ _ _ _ _ (bind_Throw _ _ _ _ _ Hrun)).
    apply (parsedErrorResponse_run "readDirectory"); [an_operation | exact Hid].
  - unfold createDirectory.
    rewrite (try_catch_Throw _ _ _ _ _ (bind_Throw _ _ _ _ _ Hrun)).
    apply (parsedErrorResponse_run "createDirectory"); [an_operation | exact Hid].
  - apply then_ret_Throw in Hrun. unfold readFile.
    rewrite (try_catch_Throw _ _ _ _ _ (bind_Throw _ _ _ _ _ Hrun)).
    apply (parsedErrorResponse_run "readFile"); [an_operation | exact Hid].
  - unfold deleteFile.
    rewrite (try_catch_Throw _ _ _ _ _ (bind_Throw _ _ _ _ _ Hrun)).
    apply (parsedErrorResponse_run "delete"); [an_operation | exact Hid].
  - apply then_ret_Throw in Hrun. unfold writeFile.
    rewrite (try_catch_Throw _ _ _ _ _ (bind_Throw _ _ _ _ _ Hrun)).
    apply (parsedErrorResponse_run "writeFile"); [an_operation | exact Hid].
  - unfold rename.
    rewrite (try_catch_Throw _ _ _ _ _ (bind_Throw _ _ _ _ _ Hrun)).
    apply (parsedErrorResponse_run "rename"); [an_operation | exact Hid].
Qed.

(** X15. The error codes of each operation. For each of the nine
    operations, the response schema that the client uses accepts an error
    response, and returns it as it is, exactly when its code is one of
    those listed for the operation: [FileNotFound] for [status],
    [readDirectory] and [readFile]; [FileNotFound], [FileExists] and
    [NoPermissions] for [createDirectory], [writeFile], [rename] and
    [copy]; [FileNotFound] and [NoPermissions] for [delete]; none for
    [watch]. No schema lists [FileIsADirectory] or [FileNotADirectory]. *)
Theorem error_codes_of_operation (operation code id : string) :
  operation ∈ operations ->
  is_uuid id = true ->
  (code ∈ error_codes operation ->
     parse_union (response_schema operation) (errorResponse code id)
     = Some (errorResponse code id)) /\
  (code ∉ error_codes operation ->
     parse_union (response_schema operation) (errorResponse code id) = None) /\
  ("FileIsADirectory" ∉ error_codes operation) /\
  ("FileNotADirectory" ∉ error_codes operation).
Proof.
  intros Hop Hid. rewrite (parse_union_error _ _ _ Hop Hid).
  split; [|split; [|split]].
  - intros Hcode. rewrite bool_decide_true by exact Hcode. reflexivity.
  - intros Hcode. rewrite bool_decide_false by exact Hcode. reflexivity.
  - unfold operations in Hop.
    repeat (apply elem_of_cons in Hop as [->|Hop]); [..|apply elem_of_nil in Hop; destruct Hop];
      intros Hin; apply list_elem_of_In in Hin; revert Hin; vm_compute;
      intuition discriminate.
  - unfold operations in Hop.
    repeat (apply elem_of_cons in Hop as [->|Hop]); [..|apply elem_of_nil in Hop; destruct Hop];
      intros Hin; apply list_elem_of_In in Hin; revert Hin; vm_compute;
      intuition discriminate.
Qed.

(** *** The replies *)

Lemma commandId_of_errorResponse code id : commandId_of (errorResponse code id) = id.
Proof. reflexivity. Qed.

Lemma commandId_of_voidSuccess id : commandId_of (voidSuccess id) = id.
Proof. reflexivity. Qed.

(** What the [catch] of a handler returns. *)
Lemma parsedErrorResponse_Ok operation e id σ r σ' :
  operation ∈ operations ->
  is_uuid id = true ->
  parsedErrorResponse (response_schema operation) e id σ = (Ok r, σ') ->
  σ' = σ /\ exists code, r = errorResponse code id /\ code ∈ error_codes operation.
Proof.
  intros Hop Hid. unfold parsedErrorResponse, lift.
  destruct (errorResponseFromError e id) as [response|e'] eqn:He; [|discriminate].
  assert (exists code, response = errorResponse code id) as [code ->].
  { destruct e as [code arg| | |]; try discriminate.
    destruct code; try discriminate; injection He as <-; eauto. }
  cbn [mbind Result_bind JS.bind]. rewrite (parse_union_error _ _ _ Hop Hid).
  case_bool_decide; [|discriminate]. intros [= <- <-]. eauto.
Qed.

(** A handler returns what its [try] returns, or an error response that
    the schema of the operation accepts. *)
Lemma handler_returns (body : M Message) operation id σ r σ' :
  operation ∈ operations ->
  is_uuid id = true ->
  try_catch body (fun e => parsedErrorResponse (response_schema operation) e id) σ = (Ok r, σ') ->
  body σ = (Ok r, σ') \/
  exists code, r = errorResponse code id /\ code ∈ error_codes operation.
Proof.
  intros Hop Hid. unfold try_catch. destruct (body σ) as [[a|e] σ1]; [auto|].
  intros Hr. apply (parsedErrorResponse_Ok _ _ _ _ _ _ Hop Hid) in Hr as [_ Hr]. auto.
Qed.

Lemma error_reply_valid operation code id :
  operation ∈ operations ->
  is_uuid id = true ->
  code ∈ error_codes operation ->
  messageType (errorResponse code id) = MessageType.Response /\
  commandId_of (errorResponse code id) = id /\
  parse_union (response_schema operation) (errorResponse code id)
  = Some (errorResponse code id).
Proof.
  intros Hop Hid Hcode. split; [reflexivity|]. split; [reflexivity|].
  rewrite (parse_union_error _ _ _ Hop Hid), bool_decide_true by exact Hcode. reflexivity.
Qed.

(** The lines of a directory listing, in a store whose objects are typed. *)
Lemma listing_types σ (entries : gmap string loc) :
  well_formed σ ->
  Forall (fun line : string * Z =>
            line.2 = FileType.Unknown \/ line.2 = FileType.File \/
            line.2 = FileType.Directory)
    ((fun '(name, child) => (name, from_option entry_type 0 (store σ !! child)))
       <$> map_to_list entries).
Proof.
  intros [_ Hs]. apply Forall_fmap, Forall_forall. intros [name child] _. cbn.
  destruct (store σ !! child) as [e|] eqn:He; [|auto].
  destruct (Hs _ _ He) as [Ht _]. destruct e; cbn in *; auto.
Qed.

(** What [handleCommand] returns for a command other than [copy]. *)
Lemma reply_facts (m : Message) (σ σ' : State) (r : Message) :
  reachable σ ->
  handleCommand m σ = (Ok r, σ') ->
  json_command (messageJson m) <> "copy" ->
  (messageBinary r = None \/
   exists data,
     json_command (messageJson m) = "readFile" /\
     r = {| messageType := MessageType.Response;
            messageJson := object [("success", JBool true);
                                   ("commandId", JString (commandId_of m))];
            messageBinary := Some data |}) /\
  messageType r = MessageType.Response /\
  commandId_of r = commandId_of m /\
  parse_union (response_schema (json_command (messageJson m))) r = Some r.
Proof.
  intros Hr Hrun Hcopy. pose proof (reachable_well_formed _ Hr) as Hwf.
  destruct (allCommandsNarrowableSchema m) as [n|] eqn:Hn.
  2:{ unfold handleCommand in Hrun. rewrite bind_run, Hn in Hrun. discriminate. }
  rewrite (handleCommand_accepted _ _ _ Hn) in Hrun.
  destruct (allCommands_accepts _ _ Hn) as (_ & Hc & Hops & _ & Hid).
  cbv zeta in Hrun. rewrite <- Hc in *. unfold commandId_of at 1 3.
  set (id := string_field (messageJson m) "commandId") in *.
  unfold operations in Hops.
  repeat (apply elem_of_cons in Hops as [Hcommand|Hops]);
    [..|apply elem_of_nil in Hops; destruct Hops];
    rewrite Hcommand in *; clear Hcommand; decide_commands_in Hrun; try congruence.
  - (* status *)
    change (response_schema "status") with statusResponseSchema.
    unfold status in Hrun. cbv zeta in Hrun. fold id in Hrun.
    rewrite bind_run in Hrun. unfold lookup in Hrun. rewrite _lookup_run in Hrun.
    assert (Hmissing :
      lift (orThrowZod (parse_union statusResponseSchema (errorResponse "FileNotFound" id))) σ
      = (Ok r, σ') ->
      (messageBinary r = None \/
       exists data,
         "status" = "readFile" /\
         r = {| messageType := MessageType.Response;
                messageJson := object [("success", JBool true); ("commandId", JString id)];
                messageBinary := Some data |}) /\
      messageType r = MessageType.Response /\ commandId_of r = id /\
      parse_union statusResponseSchema r = Some r).
    { unfold lift.
      destruct (error_reply_valid "status" "FileNotFound" id) as (? & ? & Hp);
        [an_operation | exact Hid | apply elem_of_cons; auto |].
      change (response_schema "status") with statusResponseSchema in Hp. rewrite Hp.
      intros [= <- <-]. split; [left; reflexivity | auto]. }
    destruct (walk σ _ root) as [l|]; cbv beta iota in Hrun.
    + rewrite bind_run in Hrun. cbn [get_state mbind option_bind] in Hrun.
      destruct (store σ !! l) as [e|]; [|exact (Hmissing Hrun)].
      injection Hrun as <- <-. split; [binary_fact|]. split; [reflexivity|]. split; [reflexivity|].
      unfold statusResponseSchema. cbn [parse_union].
      rewrite (parse_statusSuccess id e Hid). reflexivity.
    + rewrite bind_run in Hrun. cbn [get_state mbind option_bind] in Hrun.
      exact (Hmissing Hrun).
  - (* readDirectory *)
    unfold readDirectory in Hrun. cbv zeta in Hrun. fold id in Hrun.
    apply (handler_returns _ "readDirectory") in Hrun as [Hrun|(code & -> & Hcode)];
      [ | split; [left; reflexivity | apply error_reply_valid; [an_operation | exact Hid | exact Hcode]]
        | an_operation | exact Hid ].
    rewrite bind_run in Hrun.
    destruct (lookupDirectory _ false σ) as [[directory|e] σ1] eqn:Hl; [|discriminate].
    apply lookupDirectory_Ok in Hl as [-> _].
    rewrite bind_run in Hrun. cbn [get_state] in Hrun. injection Hrun as <- <-.
    split; [binary_fact|]. split; [reflexivity|]. split; [reflexivity|].
    change (response_schema "readDirectory") with readDirectoryResponseSchema.
    unfold readDirectoryResponseSchema. cbn [parse_union].
    pose proof (parse_readDirectorySuccess id _ Hid
                  (listing_types σ (default ∅ (entries_of σ directory)) Hwf)) as Hp.
    cbv zeta in Hp. rewrite <- list_fmap_compose in Hp.
    erewrite (list_fmap_ext _ _ (map_to_list _)) in Hp; [rewrite Hp; reflexivity|].
    intros _ [name child] _. reflexivity.
  - (* createDirectory *)
    unfold createDirectory in Hrun. cbv zeta in Hrun. fold id in Hrun.
    apply (handler_returns _ "createDirectory") in Hrun as [Hrun|(code & -> & Hcode)];
      [ | split; [left; reflexivity | apply error_reply_valid; [an_operation | exact Hid | exact Hcode]]
        | an_operation | exact Hid ].
    rewrite bind_run in Hrun.
    destruct (InMemoryFileSystem.createDirectory _ σ) as [[[]|e] σ1]; [|discriminate].
    injection Hrun as <- <-. split; [binary_fact|]. split; [reflexivity|]. split; [reflexivity|].
    change (response_schema "createDirectory") with createDirectoryResponseSchema.
    unfold createDirectoryResponseSchema, createDirectorySuccessResponseSchema.
    cbn [parse_union]. rewrite (parse_voidSuccess id Hid). reflexivity.
  - (* readFile *)
    unfold readFile in Hrun. cbv zeta in Hrun. fold id in Hrun.
    apply (handler_returns _ "readFile") in Hrun as [Hrun|(code & -> & Hcode)];
      [ | split; [left; reflexivity | apply error_reply_valid; [an_operation | exact Hid | exact Hcode]]
        | an_operation | exact Hid ].
    rewrite bind_run in Hrun.
    destruct (lookupFile _ σ) as [[file|e] σ1] eqn:Hl; [|discriminate].
    rewrite bind_run in Hrun. cbn [get_state] in Hrun. injection Hrun as <- <-.
    split; [binary_fact|]. split; [reflexivity|]. split; [reflexivity|].
    change (response_schema "readFile") with readFileResponseSchema.
    unfold readFileResponseSchema. cbn [parse_union].
    rewrite (parse_readFileSuccess id _ Hid). reflexivity.
  - (* delete *)
    unfold deleteFile in Hrun. cbv zeta in Hrun. fold id in Hrun.
    apply (handler_returns _ "delete") in Hrun as [Hrun|(code & -> & Hcode)];
      [ | split; [left; reflexivity | apply error_reply_valid; [an_operation | exact Hid | exact Hcode]]
        | an_operation | exact Hid ].
    rewrite bind_run in Hrun.
    destruct (InMemoryFileSystem.deleteFile _ σ) as [[[]|e] σ1]; [|discriminate].
    injection Hrun as <- <-. split; [binary_fact|]. split; [reflexivity|]. split; [reflexivity|].
    change (response_schema "delete") with deleteResponseSchema.
    unfold deleteResponseSchema. cbn [parse_union].
    rewrite (parse_voidSuccess id Hid). reflexivity.
  - (* watch *)
    unfold watch in Hrun. cbv zeta in Hrun. fold id in Hrun. injection Hrun as <- <-.
    split; [binary_fact|]. split; [reflexivity|]. split; [reflexivity|].
    change (response_schema "watch") with watchResponseSchema.
    unfold watchResponseSchema. cbn [parse_union].
    rewrite (parse_voidSuccess id Hid). reflexivity.
  - (* writeFile *)
    unfold writeFile in Hrun. cbv zeta in Hrun. fold id in Hrun.
    apply (handler_returns _ "writeFile") in Hrun as [Hrun|(code & -> & Hcode)];
      [ | split; [left; reflexivity | apply error_reply_valid; [an_operation | exact Hid | exact Hcode]]
        | an_operation | exact Hid ].
    rewrite bind_run in Hrun.
    destruct (InMemoryFileSystem.writeFile _ _ _ _ σ) as [[created|e] σ1]; [|discriminate].
    injection Hrun as <- <-. split; [binary_fact|]. split; [reflexivity|]. split; [reflexivity|].
    change (response_schema "writeFile") with writeFileResponseSchema.
    unfold writeFileResponseSchema. cbn [parse_union].
    rewrite (parse_writeFileSuccess id created Hid). reflexivity.
  - (* rename *)
    unfold rename in Hrun. cbv zeta in Hrun. fold id in Hrun.
    apply (handler_returns _ "rename") in Hrun as [Hrun|(code & -> & Hcode)];
      [ | split; [left; reflexivity | apply error_reply_valid; [an_operation | exact Hid | exact Hcode]]
        | an_operation | exact Hid ].
    rewrite bind_run in Hrun.
    destruct (InMemoryFileSystem.rename _ _ _ σ) as [[[]|e] σ1]; [|discriminate].
    injection Hrun as <- <-. split; [binary_fact|]. split; [reflexivity|]. split; [reflexivity|].
    change (response_schema "rename") with renameResponseSchema.
    unfold renameResponseSchema. cbn [parse_union].
    rewrite (parse_voidSuccess id Hid). reflexivity.
Qed.

(** X16. The replies of the server pass the schemas of the client. In a
    state of the tree, what [handleCommand] returns for a command other
    than [copy] is a response that carries the [commandId] of the command,
    and the response schema that the client uses for the operation accepts
    it and returns it as it is. Only the reply to a [readFile] carries a
    binary payload. *)
Theorem replies_are_valid (m : Message) (σ σ' : State) (r : Message) :
  reachable σ ->
  handleCommand m σ = (Ok r, σ') ->
  json_command (messageJson m) <> "copy" ->
  messageType r = MessageType.Response /\
  commandId_of r = commandId_of m /\
  parse_union (response_schema (json_command (messageJson m))) r = Some r /\
  (messageBinary r <> None -> json_command (messageJson m) = "readFile").
Proof.
  intros Hr Hrun Hcopy.
  destruct (reply_facts _ _ _ _ Hr Hrun Hcopy) as (Hb & Ht & Hi & Hp).
  split; [exact Ht|]. split; [exact Hi|]. split; [exact Hp|].
  intros Hbin. destruct Hb as [Hb|(data & Hc & _)]; [contradiction | exact Hc].
Qed.

(** *** [copy] *)

(** X17. [copy] is accepted and not handled. For a [copy] command that the
    schema accepts, [handleCommand] changes nothing of the tree and returns
    an error response with the code [UnknownCommand] whose [commandId] is
    the word [copy], not the id of the command. That reply is not a message
    of [messageSchema], so no frame decodes to it, and the response schema
    of [copy] rejects it. *)
Theorem copy_is_not_handled (m : Message) (n : Narrowed) (σ : State) :
  allCommandsNarrowableSchema m = Some n ->
  command n = "copy" ->
  let reply := errorResponse "UnknownCommand" "copy" in
  handleCommand m σ = (Ok reply, σ) /\
  parse_discriminatedUnion messageSchema reply = None /\
  (forall bytes, messageFromBytes bytes <> success_true reply) /\
  parse_union copyResponseSchema reply = None.
Proof.
  intros Hn Hcopy reply. split; [|split; [|split]].
  - rewrite (handleCommand_accepted _ _ _ Hn).
    destruct (allCommands_accepts _ _ Hn) as (_ & Hc & _).
    cbv zeta. rewrite <- Hc, Hcopy. decide_commands. reflexivity.
  - vm_compute. reflexivity.
  - intros bytes Hbytes.
    destruct (messageFromBytes_success _ _ Hbytes) as (? & ? & ? & ? & _ & _ & _ & _ & Hp).
    pose proof (messageSchema_returns_input _ _ Hp) as Heq. rewrite <- Heq in Hp.
    revert Hp. vm_compute. discriminate.
  - vm_compute. reflexivity.
Qed.

(** *** [status] *)

(** X18. [status] always replies and changes nothing: with the [type],
    [ctime], [mtime] and [size] of the entry that [lookup] finds at the
    path, and with the error [FileNotFound] when it finds none. *)
Theorem status_always_replies (json : JSONValue) (σ : State) :
  let id := string_field json "commandId" in
  is_uuid id = true ->
  exists found,
    lookup (string_field json "path") σ = (Ok found, σ) /\
    status json σ =
      (Ok match found ≫= (store σ !!.) with
          | Some e =>
              {| messageType := MessageType.Response;
                 messageJson := object
                   [("success", JBool true); ("commandId", JString id);
                    ("result", object [("type", JNumber (entry_type e));
                                       ("ctime", JNumber (entry_ctime e));
                                       ("mtime", JNumber (entry_mtime e));
                                       ("size", JNumber (entry_size e))])];
                 messageBinary := None |}
          | None => errorResponse "FileNotFound" id
          end, σ).
Proof.
  intros id Hid. unfold status. cbv zeta. fold id.
  rewrite bind_run. unfold lookup. rewrite _lookup_run.
  destruct (error_reply_valid "status" "FileNotFound" id) as (_ & _ & Hp);
    [an_operation | exact Hid | apply elem_of_cons; auto |].
  change (response_schema "status") with statusResponseSchema in Hp.
  destruct (walk σ _ root) as [l|]; cbv beta iota.
  - exists (Some l). split; [reflexivity|].
    rewrite bind_run. cbn [get_state mbind option_bind].
    destruct (store σ !! l) as [e|]; [reflexivity|].
    unfold lift. rewrite Hp. reflexivity.
  - exists None. split; [reflexivity|].
    rewrite bind_run. cbn [get_state mbind option_bind].
    unfold lift. rewrite Hp. reflexivity.
Qed.

(** *** The listener *)

Lemma atomic_then_never_throws {A B} (c : M A) (k : A -> M B) :
  atomic c -> (forall a, never_throws (k a)) -> atomic (c ≫= k).
Proof.
  intros Hc Hk σ e σ'. rewrite bind_run. destruct (c σ) as [[a|e0] σ1] eqn:Hrun.
  - destruct (Hk a σ1) as (b & σ2 & ->). discriminate.
  - intros [= _ <-]. eapply Hc, Hrun.
Qed.

Lemma atomic_of_run {A} (c : M A) op :
  (forall σ, run op σ = (c ;; mret tt : M unit) σ) -> atomic c.
Proof.
  intros Hop σ e σ' Hc. apply (atomic_run op σ e σ').
  rewrite Hop. apply bind_Throw, Hc.
Qed.

Lemma atomic_try_catch (body : M Message) schema id :
  atomic body -> atomic (try_catch body (fun e => parsedErrorResponse schema e id)).
Proof.
  intros Hbody σ e σ'. unfold try_catch.
  destruct (body σ) as [[a|e0] σ1] eqn:Hrun; [discriminate|].
  unfold parsedErrorResponse, lift. intros [= _ <-]. eapply Hbody, Hrun.
Qed.

Lemma never_throws_get : never_throws get_state.
Proof. intros σ. eexists _, _. reflexivity. Qed.

Lemma atomic_unit_then {B} (c : M unit) (b : B) : atomic c -> atomic (c ;; mret b).
Proof. intros Hc. apply atomic_then_never_throws; [exact Hc|]. intros. apply never_throws_ret. Qed.

(** A handler that throws has changed nothing. *)
Lemma atomic_handleCommand m : atomic (handleCommand m).
Proof.
  intros σ e σ'. unfold handleCommand. rewrite bind_run. unfold lift at 1.
  destruct (allCommandsNarrowableSchema m) as [n|]; cbn [orThrowZod];
    [|intros [= _ <-]; reflexivity].
  revert σ e σ'. change (atomic
    (let fullyParsedMessage := message n in
     let json := messageJson fullyParsedMessage in
     let command := command n in
     if bool_decide (command = "watch") then watch json
     else if bool_decide (command = "status") then status json
     else if bool_decide (command = "readDirectory") then readDirectory json
     else if bool_decide (command = "writeFile")
          then writeFile json (messageBinary fullyParsedMessage)
     else if bool_decide (command = "createDirectory") then createDirectory json
     else if bool_decide (command = "readFile") then readFile json
     else if bool_decide (command = "rename") then rename json
     else if bool_decide (command = "delete") then deleteFile json
     else mret (errorResponse "UnknownCommand" command))).
  cbv zeta. repeat case_bool_decide.
  - apply atomic_ret.
  - unfold status. cbv zeta. apply atomic_bind; [apply read_only_lookup|]. intros entry.
    apply atomic_bind; [apply read_only_get|]. intros σ.
    destruct (entry ≫= _); [apply atomic_ret|].
    intros σ0 e σ'. unfold lift. intros [= _ <-]. reflexivity.
  - unfold readDirectory. apply atomic_try_catch.
    apply atomic_bind; [apply read_only_lookupDirectory|]. intros.
    apply atomic_bind; [apply read_only_get|]. intros. apply atomic_ret.
  - unfold writeFile. apply atomic_try_catch.
    apply atomic_then_never_throws; [|intros; apply never_throws_ret].
    eapply (atomic_of_run _ (op_writeFile _ _ _ _)). reflexivity.
  - unfold createDirectory. apply atomic_try_catch. apply atomic_unit_then.
    exact (atomic_run (op_createDirectory _)).
  - unfold readFile. apply atomic_try_catch.
    apply atomic_bind; [apply read_only_lookupFile|]. intros.
    apply atomic_bind; [apply read_only_get|]. intros. apply atomic_ret.
  - unfold rename. apply atomic_try_catch. apply atomic_unit_then.
    exact (atomic_run (op_rename _ _ _)).
  - unfold deleteFile. apply atomic_try_catch. apply atomic_unit_then.
    exact (atomic_run (op_deleteFile _)).
  - apply atomic_ret.
Qed.

(** X19. The listener of the server, on binary data. It never throws. It
    sends a frame only for a frame that decodes to a command for which
    [handleCommand] returns a reply, and the frame sent is the encoding of
    that reply. Whenever it sends nothing (the frame does not decode, is
    not a command, is rejected by the command schemas, or the handler
    throws) the tree is unchanged. *)
Theorem server_replies_only_to_commands (bytes : list byte) (σ : State) :
  exists sent σ',
    onMessage (BinaryData bytes) σ = (Ok sent, σ') /\
    match sent with
    | Some frame =>
        exists m reply,
          messageFromBytes bytes = success_true m /\
          messageType m = MessageType.Command /\
          handleCommand m σ = (Ok reply, σ') /\
          frame = arrayBufferFromMessage reply
    | None => σ' = σ
    end.
Proof.
  unfold onMessage. rewrite bind_run. unfold lift at 1, messageFromWebSocketMessage.
  cbn [uint8ArrayFromRawData mbind Result_bind JS.bind].
  destruct (messageFromBytes bytes) as [m|e] eqn:Hm.
  2:{ exists None, σ. split; reflexivity. }
  unfold try_catch. case_bool_decide as Hty.
  - rewrite bind_run. destruct (handleCommand m σ) as [[reply|e] σ1] eqn:Hrun.
    + exists (Some (arrayBufferFromMessage reply)), σ1. split; [reflexivity|].
      exists m, reply. auto.
    + exists None, σ1. split; [reflexivity|]. eapply atomic_handleCommand, Hrun.
  - exists None, σ. split; reflexivity.
Qed.

End Server.

Lemma error_codes_of_operation_witness :
  parse_union (response_schema "delete")
    (errorResponse "NoPermissions" Examples.sample_id)
  = Some (errorResponse "NoPermissions" Examples.sample_id).
Proof.
  refine (proj1 (error_codes_of_operation "delete" "NoPermissions" Examples.sample_id _ _) _).
  - unfold operations. rewrite !elem_of_cons. auto 12.
  - vm_compute. reflexivity.
  - apply list_elem_of_In. vm_compute. auto.
Defined.

(** [readFile] of a directory: the handler throws, and no reply is sent. *)
Lemma failure_replies_witness :
  @handleCommand ReferenceRuntime.runtime
    (Examples.readFile_command Examples.sample_id "/dir") Examples.tree_a_dir
  = (Throw ZodError, Examples.tree_a_dir).
Proof.
  refine (proj2 (@failure_replies ReferenceRuntime.runtime
                   (Examples.readFile_command Examples.sample_id "/dir")
                   {| command := "readFile";
                      message := Examples.readFile_command Examples.sample_id "/dir" |}
                   (op_lookupFile "/dir") Examples.tree_a_dir Examples.tree_a_dir
                   FileIsADirectory "/dir" _ _ _)).
  - vm_compute. reflexivity.
  - vm_compute. reflexivity.
  - vm_compute. reflexivity.
Defined.

Lemma replies_are_valid_witness :
  parse_union (response_schema "readFile") (Examples.response_to Examples.sample_id Examples.hi)
  = Some (Examples.response_to Examples.sample_id Examples.hi).
Proof.
  refine (proj1 (proj2 (proj2 (@replies_are_valid ReferenceRuntime.runtime
                          (Examples.readFile_command Examples.sample_id "/a.txt")
                          (@run ReferenceRuntime.runtime
                             (op_writeFile "/a.txt" Examples.hi true false)
                             Examples.empty_tree).2
                          (@run ReferenceRuntime.runtime
                             (op_writeFile "/a.txt" Examples.hi true false)
                             Examples.empty_tree).2
                          (Examples.response_to Examples.sample_id Examples.hi) _ _ _)))).
  - apply reachable_step, reachable_empty.
  - vm_compute. reflexivity.
  - vm_compute. discriminate.
Defined.

Lemma copy_is_not_handled_witness :
  let m := {| messageType := MessageType.Command;
              messageJson := object [("command", JString "copy");
                                     ("commandId", JString Examples.sample_id);
                                     ("sourcePath", JString "/a.txt");
                                     ("destinationPath", JString "/b.txt");
                                     ("overwrite", JBool false)];
              messageBinary := None |} in
  @handleCommand ReferenceRuntime.runtime m Examples.tree_a
  = (Ok (errorResponse "UnknownCommand" "copy"), Examples.tree_a).
Proof.
  intros m.
  refine (proj1 (@copy_is_not_handled ReferenceRuntime.runtime m
                   {| command := "copy"; message := m |} Examples.tree_a _ _)).
  - vm_compute. reflexivity.
  - reflexivity.
Defined.

Lemma status_always_replies_witness :
  exists found,
    lookup "/a.txt" Examples.tree_a = (Ok found, Examples.tree_a) /\
    status (messageJson Examples.status_command) Examples.tree_a =
      (Ok match found ≫= (store Examples.tree_a !!.) with
          | Some e =>
              {| messageType := MessageType.Response;
                 messageJson := object
                   [("success", JBool true); ("commandId", JString Examples.sample_id);
                    ("result", object [("type", JNumber (entry_type e));
                                       ("ctime", JNumber (entry_ctime e));
                                       ("mtime", JNumber (entry_mtime e));
                                       ("size", JNumber (entry_size e))])];
                 messageBinary := None |}
          | None => errorResponse "FileNotFound" Examples.sample_id
          end, Examples.tree_a).
Proof.
  apply (status_always_replies (messageJson Examples.status_command) Examples.tree_a).
  vm_compute. reflexivity.
Defined.

End ServerExtras.

(* ===================================================================== *)
(** ** More about the client                                              *)
(* ===================================================================== *)

Module ClientExtras.
Import InMemoryFileSystem ExampleServer WebSocketClient ClientMethods FileSystemFacts.
Import SchemaFacts SchemaReturns ResponseFacts ReplyFacts WireFacts ResponseValid.
Import CommandExtras ServerExtras ClientClaims.

Lemma mapM_parse_strings (items : list JSONValue) :
  Forall (fun v => exists s, v = JString s) items ->
  mapM (parse z_string) items = Some items.
Proof.
  induction 1 as [|v items [s ->] _ IH]; [reflexivity|].
  change (mapM (parse z_string) (JString s :: items))
    with (y ← parse z_string (JString s); k ← mapM (parse z_string) items; mret (y :: k)).
  rewrite IH. reflexivity.
Qed.

Lemma parse_strings (values : list string) :
  parse (z_array z_string) (strings values) = Some (strings values).
Proof.
  unfold strings. rewrite parse_array, mapM_parse_strings; [reflexivity|].
  apply Forall_fmap, Forall_forall. intros s _. cbn. eauto.
Qed.

(** A command built by [createCommandMessage], against a command schema:
    the schema does not reject it. *)
Ltac passes Hid :=
  unfold parse_message;
  match goal with
  | |- context [shape_messageType ?sch] =>
      evaluate (shape_messageType sch); evaluate (shape_messageJson sch);
      evaluate (shape_messageBinary sch); evaluate (message_unknownKeys sch)
  end;
  cbn [messageType messageJson messageBinary];
  rewrite bool_decide_true by reflexivity;
  rewrite parse_object; repeat parse_field; rewrite parse_fields_nil;
  repeat match goal with
         | |- context [parse (z_array z_string) ?x] =>
             match x with
             | strings _ => fail 1
             | _ => match goal with
                    | excludes : list string |- _ => change x with (strings excludes)
                    end
             end
         end;
  rewrite ?parse_strings;
  cbn [parse literal_eqb]; rewrite Hid;
  vm_compute; discriminate.

Lemma narrowed_command m sch (operation : string) :
  parse_message sch m <> None ->
  returns_input (shape_messageJson sch) ->
  shape_messageBinary sch = bin_instanceof_optional \/
    shape_messageBinary sch = bin_never_optional ->
  json_command (messageJson m) = operation ->
  transform sch narrow m = Some {| command := operation; message := m |}.
Proof.
  intros Hp Hjson Hbin Hc. unfold transform.
  destruct (parse_message sch m) as [r|] eqn:Hr; [|congruence].
  apply (parse_message_returns_input _ _ _ Hjson Hbin) in Hr as ->.
  cbn. unfold narrow. rewrite Hc. reflexivity.
Qed.

Ltac rejects sch :=
  match goal with
  | |- context [transform sch narrow ?m] =>
      replace (transform sch narrow m) with (@None Narrowed)
        by (symmetry; vm_compute; reflexivity)
  end.

Ltac accepts sch Hid :=
  match goal with
  | |- context [transform sch narrow ?m] =>
      erewrite (narrowed_command m sch);
        [ reflexivity
        | unfold watch, status, readDirectory, createDirectory,
            readFile, writeFile, delete, rename, copy, pathOnly;
          cbn [binary fields options]; passes Hid
        | match goal with
          | |- returns_input ?s => let v := eval vm_compute in s in change s with v
          end;
          apply returns_input_strict; returns_inputs
        | auto
        | vm_compute; reflexivity ]
  end.

Lemma createCommandMessage_command_message call id :
  createCommandMessage id (options call) = command_message call id (binary (options call)).
Proof. unfold createCommandMessage. destruct (binary (options call)); reflexivity. Qed.

Lemma received_command_message call id b :
  received (command_message call id b) =
    command_message call id (messageBinary (received (command_message call id b))).
Proof. reflexivity. Qed.

(** The command of each method of the client, against the command
    schemas. *)
Lemma command_message_accepted (call : Call) (id : string) (b : option (list byte)) :
  method call ->
  is_uuid id = true ->
  b = None \/ command_of call = "writeFile" ->
  allCommandsNarrowableSchema (command_message call id b)
  = Some {| command := command_of call; message := command_message call id b |}.
Proof.
  intros Hcall Hid Hb. unfold allCommandsNarrowableSchema, pathOnlyCommandNarrowableSchema,
    watchCommandNarrowableSchema, writeFileCommandNarrowableSchema,
    renameCommandNarrowableSchema, copyCommandNarrowableSchema, command_message.
  destruct Hcall; cbn [union_of];
    try (destruct Hb as [->|Hb]; [|vm_compute in Hb; discriminate]).
  - rejects pathOnlyCommandSchema. accepts watchCommandSchema Hid.
  - accepts pathOnlyCommandSchema Hid.
  - accepts pathOnlyCommandSchema Hid.
  - accepts pathOnlyCommandSchema Hid.
  - accepts pathOnlyCommandSchema Hid.
  - rejects pathOnlyCommandSchema. rejects watchCommandSchema.
    accepts writeFileCommandSchema Hid.
  - accepts pathOnlyCommandSchema Hid.
  - rejects pathOnlyCommandSchema. rejects watchCommandSchema.
    rejects writeFileCommandSchema. accepts renameCommandSchema Hid.
  - rejects pathOnlyCommandSchema. rejects watchCommandSchema.
    rejects writeFileCommandSchema. rejects renameCommandSchema.
    accepts copyCommandSchema Hid.
Qed.

Lemma method_binary call :
  method call -> binary (options call) = None \/ command_of call = "writeFile".
Proof. intros []; auto. Qed.

Lemma method_accepted (call : Call) (id : string) :
  method call ->
  is_uuid id = true ->
  allCommandsNarrowableSchema (createCommandMessage id (options call))
  = Some {| command := command_of call;
            message := createCommandMessage id (options call) |}.
Proof.
  intros Hcall Hid. rewrite createCommandMessage_command_message.
  apply command_message_accepted; [assumption..|apply method_binary, Hcall].
Qed.

Lemma method_fields call id :
  method call ->
  (fields (options call) ∪ {["commandId" := JString id]} : gmap string JSONValue)
    !! "command" = Some (JString (command_of call)) /\
  (fields (options call) ∪ {["commandId" := JString id]} : gmap string JSONValue)
    !! "commandId" = Some (JString id) /\
  command_of call ∈ operations /\
  schema call = response_schema (command_of call).
Proof.
  intros []; (split; [reflexivity|]); (split; [reflexivity|]);
    (split; [unfold operations; apply list_elem_of_In; vm_compute; tauto | reflexivity]).
Qed.


Lemma method_command call id :
  method call ->
  json_command (messageJson (createCommandMessage id (options call))) = command_of call /\
  commandId_of (createCommandMessage id (options call)) = id.
Proof.
  intros Hcall. destruct (method_fields call id Hcall) as (Hc & Hi & _).
  rewrite createCommandMessage_command_message.
  unfold json_command, commandId_of, string_field, field, command_message.
  cbn [messageJson]. rewrite Hc, Hi. auto.
Qed.

Lemma method_valid call id :
  method call -> is_uuid id = true ->
  valid_message (createCommandMessage id (options call)).
Proof.
  intros Hcall Hid. destruct (method_fields call id Hcall) as (Hc & Hi & _).
  rewrite createCommandMessage_command_message. eapply valid_command; eassumption.
Qed.

Section Client.
Context `{Runtime}.

(** The server handles what it decodes from the frame of a command as it
    handles the command. *)
Lemma handleCommand_received call id σ :
  method call -> is_uuid id = true ->
  handleCommand (received (createCommandMessage id (options call))) σ
  = handleCommand (createCommandMessage id (options call)) σ.
Proof.
  intros Hcall Hid. rewrite createCommandMessage_command_message.
  pose proof (method_binary call Hcall) as Hb.
  set (b := binary (options call)) in *.
  rewrite received_command_message.
  set (b' := messageBinary (received (command_message call id b))).
  assert (Hd : default [] b' = default [] b)
    by apply (default_received (command_message call id b)).
  assert (Hb' : b' = None \/ command_of call = "writeFile").
  { destruct Hb as [Hb|Hb]; [left|right; exact Hb].
    unfold b'. rewrite Hb. reflexivity. }
  rewrite (handleCommand_accepted _ _ _ (command_message_accepted call id b' Hcall Hid Hb')).
  rewrite (handleCommand_accepted _ _ _ (command_message_accepted call id b Hcall Hid Hb)).
  cbv zeta. cbn [messageJson messageBinary command_message].
  unfold ExampleServer.writeFile. rewrite Hd. reflexivity.
Qed.

Lemma server_onMessage_command call id σ σ' reply :
  method call -> is_uuid id = true ->
  transferable (createCommandMessage id (options call)) ->
  handleCommand (createCommandMessage id (options call)) σ = (Ok reply, σ') ->
  ExampleServer.onMessage
    (BinaryData (arrayBufferFromMessage (createCommandMessage id (options call)))) σ
  = (Ok (Some (arrayBufferFromMessage reply)), σ').
Proof.
  intros Hcall Hid Hwire Hrun.
  unfold ExampleServer.onMessage. rewrite bind_run.
  unfold lift at 1, messageFromWebSocketMessage.
  cbn [uint8ArrayFromRawData mbind Result_bind JS.bind].
  rewrite (wire_transfer _ (method_valid call id Hcall Hid) Hwire).
  rewrite bool_decide_true
    by (rewrite createCommandMessage_command_message; reflexivity).
  unfold try_catch. rewrite bind_run, (handleCommand_received call id σ Hcall Hid), Hrun.
  reflexivity.
Qed.

(** What the client's validation makes of the decoded reply. *)
Lemma reply_validated (m reply : Message) σ σ' :
  reachable σ ->
  handleCommand m σ = (Ok reply, σ') ->
  json_command (messageJson m) <> "copy" ->
  parse_union (response_schema (json_command (messageJson m))) (received reply) = Some reply.
Proof.
  intros Hr Hrun Hcopy.
  destruct (reply_facts m σ σ' reply Hr Hrun Hcopy) as (Hbin & _ & _ & Hp).
  destruct Hbin as [Hnone|(data & Hc & ->)].
  - rewrite received_unchanged by congruence. exact Hp.
  - destruct data as [|b data]; [|exact Hp].
    rewrite Hc. change (response_schema "readFile") with readFileResponseSchema.
    apply ReadFileClaims.readFileResponseSchema_default.
    destruct (allCommandsNarrowableSchema m) as [n|] eqn:Hn.
    + destruct (allCommands_accepts _ _ Hn) as (_ & _ & _ & _ & Hid). exact Hid.
    + unfold handleCommand in Hrun. rewrite bind_run, Hn in Hrun. discriminate.
Qed.

(** X20. Every method of the client builds a command that is a valid
    message and that the command schemas of the server accept, as the
    operation of the method and without a change; [commandId] is any
    UUID. *)
Theorem client_commands_are_accepted (call : Call) (id : string) :
  let m := createCommandMessage id (options call) in
  method call ->
  is_uuid id = true ->
  valid_message m /\
  allCommandsNarrowableSchema m = Some {| command := command_of call; message := m |} /\
  command_of call ∈ operations /\
  commandId_of m = id.
Proof.
  intros m Hcall Hid. split; [apply method_valid; assumption|].
  split; [apply method_accepted; assumption|].
  split; [apply (method_fields call id Hcall) | apply (method_command call id Hcall)].
Qed.

Lemma onMessage_effects data (c : Client) r c' :
  WebSocketClient.onMessage data c = (r, c') ->
  outbox c' = outbox c /\
  nextDeferred c' = nextDeferred c /\
  pendingCommands c' ⊆ pendingCommands c /\
  (forall d, settled c !! d = None -> settled c' !! d <> None ->
     exists id, pendingCommands c !! id = Some d /\ pendingCommands c' !! id = None).
Proof.
  unfold WebSocketClient.onMessage. intros Hrun.
  repeat match type of Hrun with
         | context [match ?x with _ => _ end] => destruct x eqn:?
         end;
    injection Hrun as <- <-;
    try (split; [reflexivity|]; split; [reflexivity|]; split; [reflexivity|];
         intros d Hd Hd'; congruence).
  cbn [outbox nextDeferred pendingCommands settled].
  split; [reflexivity|]. split; [reflexivity|]. split; [apply delete_subseteq|].
  intros d' Hd Hd'. eexists. split; [|apply lookup_delete_eq].
  destruct (decide (d = d')) as [<-|Hne]; [eassumption|].
  rewrite resolve_lookup_ne in Hd' by exact Hne. congruence.
Qed.

(** X21. The listener of the client, over any frames that arrive, up to
    the first at which it throws: it sends nothing and creates no deferred;
    it registers no command, it only removes pending ones; what a deferred
    was resolved with stays; and a deferred that it resolves was pending
    under a [commandId] that is pending no more. *)
Theorem listener_resolves_only_pending (frames : list Data) (c c' : Client)
    (r : Result unit) :
  deliver frames c = (r, c') ->
  outbox c' = outbox c /\
  nextDeferred c' = nextDeferred c /\
  pendingCommands c' ⊆ pendingCommands c /\
  (forall d value, settled c !! d = Some value -> settled c' !! d = Some value) /\
  (forall d, settled c !! d = None -> settled c' !! d <> None ->
     exists id, pendingCommands c !! id = Some d /\ pendingCommands c' !! id = None).
Proof.
  revert c. induction frames as [|data frames IH]; intros c; cbn [deliver].
  - intros [= _ <-]. repeat split; auto. intros d Hd Hd'. congruence.
  - destruct (WebSocketClient.onMessage data c) as [[[]|e] c1] eqn:Hstep.
    + intros Hrest. destruct (IH _ Hrest) as (Ho & Hn & Hp & Hs & Hr).
      destruct (onMessage_effects _ _ _ _ Hstep) as (Ho1 & Hn1 & Hp1 & Hr1).
      split; [congruence|]. split; [congruence|]. split; [etrans; eassumption|].
      split.
      { intros d value Hd. apply Hs. eapply onMessage_keeps; eassumption. }
      intros d Hd Hd'. destruct (settled c1 !! d) as [value|] eqn:Hd1.
      * destruct (Hr1 d Hd) as (id & Hid & Hid1); [congruence|].
        exists id. split; [exact Hid|]. eapply lookup_weaken_None; eassumption.
      * destruct (Hr d Hd1 Hd') as (id & Hid & Hid').
        exists id. split; [|exact Hid']. eapply lookup_weaken; eassumption.
    + intros [= <- <-].
      destruct (onMessage_effects _ _ _ _ Hstep) as (Ho1 & Hn1 & Hp1 & Hr1).
      repeat split; auto. intros d value Hd. eapply onMessage_keeps; eassumption.
Qed.

(** X22. Each method of the client, but [copy], against the example
    server. The command is built with a UUID as its [commandId] and sent
    by a client whose next deferred is not settled, to a server whose tree
    is reachable; the platform returns the JSON of the command and of the
    reply from their encoded texts, and the frames fit their 32-bit length
    fields. If the handler of the server returns a reply for the command,
    then: the client's frame is the encoding of the command; the server's
    listener, given that frame, sends the encoding of the reply and leaves
    the tree as the handler does; the client's listener, given the server's
    frame, returns, the command is no longer pending, and the caller of the
    method gets the reply as the handler returned it (a binary payload of
    no bytes, dropped by the frame, is present again). *)
Theorem command_round_trip (call : Call) (id : string) (c : Client) (σ σ' : State)
    (reply : Message) :
  let m := createCommandMessage id (options call) in
  let sent := sendCommand m c in
  method call ->
  command_of call <> "copy" ->
  is_uuid id = true ->
  reachable σ ->
  settled c !! nextDeferred c = None ->
  transferable m ->
  transferable reply ->
  handleCommand m σ = (Ok reply, σ') ->
  outbox sent.2 = outbox c ++ [arrayBufferFromMessage m] /\
  ExampleServer.onMessage (BinaryData (arrayBufferFromMessage m)) σ
    = (Ok (Some (arrayBufferFromMessage reply)), σ') /\
  exists c',
    WebSocketClient.onMessage (BinaryData (arrayBufferFromMessage reply)) sent.2
      = (Ok tt, c') /\
    pendingCommands c' !! id = None /\
    result (schema call) sent.1 c' = Some (Ok reply).
Proof.
  intros m sent Hcall Hcopy Hid Hreach Hfresh Hwire Hwire' Hrun.
  destruct (method_command call id Hcall) as [Hcommand Hcid].
  destruct (method_fields call id Hcall) as (_ & _ & _ & Hschema).
  fold m in Hcommand, Hcid.
  assert (Hcopy' : json_command (messageJson m) <> "copy") by (rewrite Hcommand; exact Hcopy).
  destruct (reply_facts m σ σ' reply Hreach Hrun Hcopy') as (_ & Hty & Hrid & Hp).
  pose proof (reply_validated m reply σ σ' Hreach Hrun Hcopy') as Hvalidated.
  rewrite Hcommand, <- Hschema in Hvalidated, Hp.
  split; [reflexivity|].
  split; [apply server_onMessage_command; assumption|].
  assert (Hdec : messageFromBytes (arrayBufferFromMessage reply) = success_true (received reply)).
  { apply wire_transfer; [|exact Hwire'].
    rewrite Hschema in Hp. eapply passes_response_schema, Hp. }
  assert (Hty' : messageType (received reply) = MessageType.Response).
  { destruct reply as [ty json [[|b binary]|]]; exact Hty. }
  assert (Hrid' : string_field (messageJson (received reply)) "commandId" = id).
  { rewrite <- Hcid, <- Hrid. destruct reply as [ty json [[|b binary]|]]; reflexivity. }
  rewrite (onMessage_response _ _ _ Hdec Hty'). cbv zeta. rewrite Hrid'.
  unfold sent, sendCommand. cbn [fst snd pendingCommands settled nextDeferred outbox].
  change (string_field (messageJson m) "commandId") with (commandId_of m). rewrite Hcid.
  rewrite lookup_insert_eq. eexists. split; [reflexivity|].
  cbn [pendingCommands]. split; [apply lookup_delete_eq|].
  unfold result. cbn [settled]. rewrite (resolve_lookup _ _ _ Hfresh).
  cbn [mbind option_bind]. rewrite Hvalidated. reflexivity.
Qed.

End Client.

Lemma client_commands_are_accepted_witness :
  allCommandsNarrowableSchema
    (createCommandMessage Examples.sample_id
       (options (ClientMethods.rename "/a.txt" "/b.txt" true)))
  = Some {| command := "rename";
            message := createCommandMessage Examples.sample_id
                         (options (ClientMethods.rename "/a.txt" "/b.txt" true)) |}.
Proof.
  refine (proj1 (proj2 (client_commands_are_accepted
                          (ClientMethods.rename "/a.txt" "/b.txt" true)
                          Examples.sample_id _ _))).
  - constructor.
  - vm_compute. reflexivity.
Defined.

(** [readFile] of an empty file: the reply has a binary payload of no
    bytes, and so has what the caller gets. *)
Lemma command_round_trip_witness :
  exists c',
    @WebSocketClient.onMessage ReferenceRuntime.runtime
      (BinaryData (Examples.response_frame Examples.sample_id []))
      (@sendCommand ReferenceRuntime.runtime
         (createCommandMessage Examples.sample_id (options (ClientMethods.readFile "/a.txt")))
         createWebSocketClient).2
    = (Ok tt, c') /\
    pendingCommands c' !! Examples.sample_id = None /\
    result (schema (ClientMethods.readFile "/a.txt"))
      (@sendCommand ReferenceRuntime.runtime
         (createCommandMessage Examples.sample_id (options (ClientMethods.readFile "/a.txt")))
         createWebSocketClient).1 c'
    = Some (Ok (Examples.response_to Examples.sample_id [])).
Proof.
  refine (proj2 (proj2 (@command_round_trip ReferenceRuntime.runtime
                          (ClientMethods.readFile "/a.txt") Examples.sample_id
                          createWebSocketClient
                          (@run ReferenceRuntime.runtime
                             (op_writeFile "/a.txt" [] true false) Examples.empty_tree).2
                          (@run ReferenceRuntime.runtime
                             (op_writeFile "/a.txt" [] true false) Examples.empty_tree).2
                          (Examples.response_to Examples.sample_id [])
                          _ _ _ _ _ _ _ _))).
  - constructor.
  - vm_compute. discriminate.
  - vm_compute. reflexivity.
  - apply reachable_step, reachable_empty.
  - reflexivity.
  - split; vm_compute; reflexivity.
  - split; vm_compute; reflexivity.
  - vm_compute. reflexivity.
Defined.

Lemma listener_resolves_only_pending_witness :
  outbox
    (@deliver ReferenceRuntime.runtime
       [BinaryData (Examples.response_frame Examples.other_id Examples.hi);
        TextData "x"] Examples.two_pending).2
  = outbox Examples.two_pending.
Proof.
  refine (proj1 (@listener_resolves_only_pending ReferenceRuntime.runtime
                   [BinaryData (Examples.response_frame Examples.other_id Examples.hi);
                    TextData "x"] Examples.two_pending _ _ _)).
  vm_compute. reflexivity.
Defined.

End ClientExtras.

(* ===================================================================== *)
(** ** The provider                                                       *)
(* ===================================================================== *)

Module ProviderExtras.
Import InMemoryFileSystem ExampleServer WebSocketClient ClientMethods FileSystemFacts.
Import SchemaFacts WireFacts CommandExtras ServerExtras TreeExtras ClientExtras.

(** *** The events *)

Lemma passed_snoc steps x :
  WebSocketFS.passed (steps ++ [x]) =
    WebSocketFS.passed steps ++
    match x with WebSocketFS.fireSoon events => events | WebSocketFS.goesOff _ => [] end.
Proof.
  unfold WebSocketFS.passed. rewrite fmap_app, concat_app. cbn [fmap list_fmap concat].
  rewrite app_nil_r. reflexivity.
Qed.

(** X23. The events of the provider, after any calls of [_fireSoon] and
    any timers going off, in any order, from the start: the arrays fired
    so far, followed by the buffer, are the events that [_fireSoon] was
    called with, each once and in the order of the calls; no timer is
    pending but the one set last; whenever the buffer holds an event, that
    timer is pending; and when a pending timer goes off, the buffer is
    fired as one array and emptied, and no timer is pending any more. *)
Theorem events_are_fired_once (steps : list WebSocketFS.Step) :
  let s := foldl WebSocketFS.step WebSocketFS.noEvents steps in
  concat (WebSocketFS.fired s) ++ WebSocketFS._bufferedEvents s = WebSocketFS.passed steps /\
  (forall handle, handle ∈ WebSocketFS.timers s -> WebSocketFS._fireSoonHandle s = Some handle) /\
  (WebSocketFS._bufferedEvents s <> [] ->
   exists handle, WebSocketFS._fireSoonHandle s = Some handle /\ handle ∈ WebSocketFS.timers s) /\
  (forall handle, handle ∈ WebSocketFS.timers s ->
     let s' := WebSocketFS.timeout handle s in
     WebSocketFS.fired s' = WebSocketFS.fired s ++ [WebSocketFS._bufferedEvents s] /\
     WebSocketFS._bufferedEvents s' = [] /\
     WebSocketFS.timers s' = ∅).
Proof.
  cbv zeta.
  assert (Hlast : forall s : WebSocketFS.Events,
            (forall handle, handle ∈ WebSocketFS.timers s ->
               WebSocketFS._fireSoonHandle s = Some handle) ->
            forall handle, handle ∈ WebSocketFS.timers s ->
              WebSocketFS.fired (WebSocketFS.timeout handle s)
                = WebSocketFS.fired s ++ [WebSocketFS._bufferedEvents s] /\
              WebSocketFS._bufferedEvents (WebSocketFS.timeout handle s) = [] /\
              WebSocketFS.timers (WebSocketFS.timeout handle s) = ∅).
  { intros s Hone handle Hin. unfold WebSocketFS.timeout.
    rewrite bool_decide_true by exact Hin.
    cbn [WebSocketFS.fired WebSocketFS._bufferedEvents WebSocketFS.timers].
    split; [reflexivity|]. split; [reflexivity|].
    apply elem_of_equiv_empty_L. intros h [Hh Hne]%elem_of_difference.
    apply Hne, elem_of_singleton. apply Hone in Hh. apply Hone in Hin. congruence. }
  cut (let s := foldl WebSocketFS.step WebSocketFS.noEvents steps in
       concat (WebSocketFS.fired s) ++ WebSocketFS._bufferedEvents s
         = WebSocketFS.passed steps /\
       (forall handle, handle ∈ WebSocketFS.timers s ->
          WebSocketFS._fireSoonHandle s = Some handle) /\
       (WebSocketFS._bufferedEvents s <> [] ->
        exists handle,
          WebSocketFS._fireSoonHandle s = Some handle /\ handle ∈ WebSocketFS.timers s)).
  { cbv zeta. intros (Hfired & Hone & Hbuffered). auto. }
  clear Hlast.
  induction steps as [|x steps IH] using rev_ind.
  - cbn. split; [reflexivity|]. split; [|congruence].
    intros handle Hin. apply elem_of_empty in Hin. destruct Hin.
  - rewrite foldl_app. cbn [foldl]. cbv zeta in IH.
    set (s := foldl WebSocketFS.step WebSocketFS.noEvents steps) in *.
    destruct IH as (Hfired & Hone & Hbuffered). rewrite passed_snoc, <- Hfired.
    destruct x as [events|handle]; cbn [WebSocketFS.step].
    + unfold WebSocketFS._fireSoon.
      cbn [WebSocketFS.fired WebSocketFS._bufferedEvents WebSocketFS.timers
           WebSocketFS._fireSoonHandle].
      split; [apply app_assoc|]. split.
      * intros handle [Hin|Hin]%elem_of_union.
        { apply elem_of_singleton in Hin as ->. reflexivity. }
        exfalso. destruct (WebSocketFS._fireSoonHandle s) as [h|] eqn:Hh.
        -- apply elem_of_difference in Hin as [Hin Hne]. apply Hone in Hin.
           apply Hne, elem_of_singleton. congruence.
        -- apply Hone in Hin. discriminate.
      * intros _. eexists. split; [reflexivity|].
        apply elem_of_union_l, elem_of_singleton. reflexivity.
    + unfold WebSocketFS.timeout. case_bool_decide as Hset.
      * cbn [WebSocketFS.fired WebSocketFS._bufferedEvents WebSocketFS.timers
             WebSocketFS._fireSoonHandle].
        split; [rewrite concat_app; cbn [concat]; rewrite !app_nil_r; reflexivity|].
        split; [|congruence].
        intros h [Hin _]%elem_of_difference. apply Hone, Hin.
      * rewrite app_nil_r. auto.
Qed.

(** *** Writing a file *)

Section Provider.
Context `{Runtime}.

Lemma handle_writeFile path create overwrite content id σ :
  is_uuid id = true ->
  handleCommand
    (createCommandMessage id (options (ClientMethods.writeFile path create overwrite content))) σ
  = try_catch
      (created ← InMemoryFileSystem.writeFile path content create overwrite;
       mret {| messageType := MessageType.Response;
               messageJson := object [("success", JBool true); ("commandId", JString id);
                                      ("created", JBool created)];
               messageBinary := None |})
      (fun e => parsedErrorResponse writeFileResponseSchema e id) σ.
Proof.
  intros Hid.
  rewrite (handleCommand_accepted _ _ _
             (method_accepted _ id (method_writeFile path create overwrite content) Hid)).
  reflexivity.
Qed.

Lemma handle_readFile path id σ :
  is_uuid id = true ->
  handleCommand (createCommandMessage id (options (ClientMethods.readFile path))) σ
  = try_catch
      (file ← lookupFile path;
       σ ← get_state;
       let data := match store σ !! file with Some (File f) => file_data f | _ => [] end in
       mret {| messageType := MessageType.Response;
               messageJson := object [("success", JBool true); ("commandId", JString id)];
               messageBinary := Some data |})
      (fun e => parsedErrorResponse readFileResponseSchema e id) σ.
Proof.
  intros Hid.
  rewrite (handleCommand_accepted _ _ _ (method_accepted _ id (method_readFile path) Hid)).
  reflexivity.
Qed.

Lemma writeFile_Throw path content create overwrite σ e σ1 :
  InMemoryFileSystem.writeFile path content create overwrite σ = (Throw e, σ1) ->
  σ1 = σ /\ tree_error e.
Proof.
  intros Hw.
  assert (Hrun : run (op_writeFile path content create overwrite) σ = (Throw e, σ1)).
  { unfold run. rewrite bind_run, Hw. reflexivity. }
  split; [eapply atomic_run, Hrun | eapply throws_run, Hrun].
Qed.

(** X24. [writeFile] of the provider, against the example server. The
    server's handler answers the client's [writeFile] command for an
    absolute path with a name in a reachable tree; the client's validation
    of the decoded reply returns the reply, and the provider continues with
    it. Either the reply reports success: then the file at the
    path holds the content that was sent, byte for byte, [created] tells
    whether the path was missing before, and the provider returns, having
    buffered the event [Created], when the file was created, and then the
    event [Changed]. Or the reply is the error [FileNotFound] or
    [FileExists]: then the tree is as it was, and the provider throws the
    [FileSystemError] of that code for the URI and buffers no event. *)
Theorem provider_writeFile (path : string) (content : list byte) (create overwrite : bool)
    (id : string) (σ σ' : State) (reply : Message) (s : WebSocketFS.Events) :
  reachable σ ->
  Path.isAbsolute path = true ->
  Path.basename path <> EmptyString ->
  is_uuid id = true ->
  handleCommand
    (createCommandMessage id (options (ClientMethods.writeFile path create overwrite content))) σ
  = (Ok reply, σ') ->
  parse_union (schema (ClientMethods.writeFile path create overwrite content)) (received reply)
  = Some reply /\
  ((exists created s',
     file_content path σ' = Ok content /\
     (created = true <-> lookup path σ = (Ok None, σ)) /\
     WebSocketFS.writeFile path reply s = (Ok tt, s') /\
     WebSocketFS._bufferedEvents s' =
       WebSocketFS._bufferedEvents s ++
       (if created then [{| WebSocketFS.type := WebSocketFS.Created; WebSocketFS.uri := path |}]
        else []) ++
       [{| WebSocketFS.type := WebSocketFS.Changed; WebSocketFS.uri := path |}]) \/
  (exists code,
     (code = FileNotFound \/ code = FileExists) /\
     reply = errorResponse (code_string code) id /\
     σ' = σ /\
     WebSocketFS.writeFile path reply s = (Throw (FileSystemError code path), s))).
Proof.
  intros Hreach Habs Hbase Hid Hrun. split.
  { set (call := ClientMethods.writeFile path create overwrite content) in *.
    destruct (method_command call id (method_writeFile path create overwrite content))
      as [Hcommand _].
    change (schema call) with (response_schema "writeFile").
    change "writeFile" with (command_of call). rewrite <- Hcommand.
    eapply reply_validated; [exact Hreach | exact Hrun |].
    rewrite Hcommand. discriminate. }
  revert Hrun. rewrite (handle_writeFile _ _ _ _ _ _ Hid).
  unfold try_catch. rewrite bind_run.
  destruct (InMemoryFileSystem.writeFile path content create overwrite σ)
    as [[created|e] σ1] eqn:Hw.
  - intros [= <- <-]. left.
    destruct (writeFile_read_back _ _ _ _ _ _ _ Hreach Habs Hbase Hw) as [Hcontent Hcreated].
    exists created. eexists. split; [exact Hcontent|]. split; [exact Hcreated|].
    unfold WebSocketFS.writeFile. cbv zeta. cbn [messageJson].
    set (json := object _).
    assert (Hsuccess : bool_field json "success" = true) by reflexivity.
    assert (Hc : bool_field json "created" = created) by reflexivity.
    rewrite Hsuccess, Hc. cbn [negb]. split; [reflexivity|].
    destruct created; cbn; rewrite <- ?app_assoc; reflexivity.
  - apply writeFile_Throw in Hw as [-> (code & arg & -> & Hcode)].
    change writeFileResponseSchema with (response_schema "writeFile").
    rewrite parsedErrorResponse_run
      by (first [exact Hid | unfold operations; rewrite !elem_of_cons; auto 12]).
    unfold thrown_by_tree in Hcode.
    repeat (apply elem_of_cons in Hcode as [->|Hcode]);
      [..|apply elem_of_nil in Hcode; destruct Hcode];
      first [ rewrite bool_decide_true by (apply list_elem_of_In; vm_compute; auto)
            | rewrite bool_decide_false
                by (intros Hin; apply list_elem_of_In in Hin; vm_compute in Hin;
                    intuition discriminate) ];
      intros [= <- <-].
    + right. exists FileNotFound. auto.
    + right. exists FileExists. auto.
Qed.

(** X25. [readFile] of the provider, against the example server, for any
    tree. When [lookupFile] returns a file, the handler answers the
    client's [readFile] command, the client's validation of the decoded
    reply returns the reply (with its binary payload, also one of no bytes,
    which the frame drops), and with it the provider returns the content of
    the file. When [lookupFile] throws [FileNotFound], the handler answers,
    the client's validation returns the reply, and the provider throws
    [FileNotFound] for the URI. When [lookupFile] throws another error, as
    it does with [FileIsADirectory] for a directory, the handler throws a
    [ZodError], so that no reply is sent. The tree is never changed. *)
Theorem provider_readFile (path id : string) (σ : State) :
  is_uuid id = true ->
  let m := createCommandMessage id (options (ClientMethods.readFile path)) in
  match file_content path σ with
  | Ok data =>
      exists reply,
        handleCommand m σ = (Ok reply, σ) /\
        parse_union (schema (ClientMethods.readFile path)) (received reply) = Some reply /\
        WebSocketFS.readFile path reply = Ok data
  | Throw (FileSystemError FileNotFound _) =>
      exists reply,
        handleCommand m σ = (Ok reply, σ) /\
        parse_union (schema (ClientMethods.readFile path)) (received reply) = Some reply /\
        WebSocketFS.readFile path reply = Throw (FileSystemError FileNotFound path)
  | Throw _ => handleCommand m σ = (Throw ZodError, σ)
  end.
Proof.
  intros Hid m. unfold m. rewrite (handle_readFile _ _ _ Hid).
  assert (Hcatch : forall code,
            parsedErrorResponse readFileResponseSchema (FileSystemError code path) id σ =
              (if bool_decide (code_string code ∈ error_codes "readFile")
               then Ok (errorResponse (code_string code) id)
               else Throw (if bool_decide (code ∈ converted) then ZodError
                           else FileSystemError code path), σ)).
  { intros code. change readFileResponseSchema with (response_schema "readFile").
    apply parsedErrorResponse_run; [|exact Hid].
    unfold operations. rewrite !elem_of_cons. auto 12. }
  unfold file_content, try_catch. rewrite bind_run, lookupFile_run.
  destruct (walk σ (Path.split path) root) as [l|].
  - unfold is_file. destruct (store σ !! l) as [[f|d]|] eqn:Hl.
    + rewrite bind_run. unfold get_state. cbv zeta. rewrite Hl.
      eexists. split; [reflexivity|]. split; [|reflexivity].
      change (schema (ClientMethods.readFile path)) with readFileResponseSchema.
      destruct (file_data f) as [|b data].
      * apply ReadFileClaims.readFileResponseSchema_default, Hid.
      * rewrite received_unchanged by discriminate.
        unfold readFileResponseSchema. cbn [parse_union].
        rewrite (ReplyFacts.parse_readFileSuccess id (b :: data) Hid). reflexivity.
    + rewrite Hcatch. reflexivity.
    + rewrite Hcatch. reflexivity.
  - rewrite Hcatch. eexists. split; [reflexivity|]. split; [|reflexivity].
    change (schema (ClientMethods.readFile path)) with (response_schema "readFile").
    change (received (errorResponse (code_string FileNotFound) id))
      with (errorResponse "FileNotFound" id).
    rewrite ResponseFacts.parse_union_error; [reflexivity| |exact Hid].
    unfold operations. rewrite !elem_of_cons. auto 12.
Qed.

(** *** Renaming, deleting, creating a directory *)

(** A handler of the server whose [try] is an operation of the tree
    followed by the reply of success. *)
Lemma void_handler (op : Operation) (operation id : string) σ reply σ' :
  operation ∈ operations ->
  is_uuid id = true ->
  try_catch (run op;; mret (voidSuccess id))
    (fun e => parsedErrorResponse (response_schema operation) e id) σ = (Ok reply, σ') ->
  (run op σ = (Ok tt, σ') /\ reply = voidSuccess id) \/
  (exists code arg,
     run op σ = (Throw (FileSystemError code arg), σ) /\
     code ∈ thrown_by_tree /\
     code_string code ∈ error_codes operation /\
     reply = errorResponse (code_string code) id /\ σ' = σ).
Proof.
  intros Hop Hid. unfold try_catch. rewrite bind_run.
  destruct (run op σ) as [[[]|e] σ1] eqn:Hrun.
  - intros [= <- <-]. left. auto.
  - pose proof (atomic_run op _ _ _ Hrun) as ->.
    destruct (throws_run op _ _ _ Hrun) as (code & arg & -> & Hcode).
    rewrite (parsedErrorResponse_run _ _ _ _ _ Hop Hid).
    case_bool_decide as Hin; [|discriminate].
    intros [= <- <-]. right. exists code, arg. auto.
Qed.

Ltac one_of_the_codes Hcode Hin :=
  unfold thrown_by_tree in Hcode;
  repeat (apply elem_of_cons in Hcode as [->|Hcode]);
  [..|apply elem_of_nil in Hcode; destruct Hcode];
  try (exfalso; apply list_elem_of_In in Hin; vm_compute in Hin; intuition discriminate).

(** X26. [rename] of the provider, against the example server. The
    handler answers the client's [rename] command; the provider continues
    with the reply. Either [rename] of the tree has returned: then the
    provider returns, having buffered the event [Deleted] for the old URI
    and then [Created] for the new one. Or the reply is the error
    [FileNotFound] or [FileExists] that [rename] of the tree threw: then
    the tree is as it was, and the provider throws that error for the old
    URI, also when the path of the error is the new one, and buffers no
    event. *)
Theorem provider_rename (oldPath newPath : string) (overwrite : bool) (id : string)
    (σ σ' : State) (reply : Message) (s : WebSocketFS.Events) :
  is_uuid id = true ->
  handleCommand
    (createCommandMessage id (options (ClientMethods.rename oldPath newPath overwrite))) σ
  = (Ok reply, σ') ->
  (InMemoryFileSystem.rename oldPath newPath overwrite σ = (Ok tt, σ') /\
   exists s',
     WebSocketFS.rename oldPath newPath reply s = (Ok tt, s') /\
     WebSocketFS._bufferedEvents s' =
       WebSocketFS._bufferedEvents s ++
       [{| WebSocketFS.type := WebSocketFS.Deleted; WebSocketFS.uri := oldPath |};
        {| WebSocketFS.type := WebSocketFS.Created; WebSocketFS.uri := newPath |}]) \/
  (exists code arg,
     (code = FileNotFound \/ code = FileExists) /\
     InMemoryFileSystem.rename oldPath newPath overwrite σ
     = (Throw (FileSystemError code arg), σ) /\
     σ' = σ /\
     WebSocketFS.rename oldPath newPath reply s = (Throw (FileSystemError code oldPath), s)).
Proof.
  intros Hid.
  rewrite (handleCommand_accepted _ _ _
             (method_accepted _ id (method_rename oldPath newPath overwrite) Hid)).
  intros Hrun.
  apply (void_handler (op_rename oldPath newPath overwrite) "rename") in Hrun
    as [[Hop ->]|(code & arg & Hop & Hcode & Hin & -> & ->)];
    [| |unfold operations; rewrite !elem_of_cons; auto 12|exact Hid].
  - left. split; [exact Hop|]. eexists. split; reflexivity.
  - right. exists code, arg. one_of_the_codes Hcode Hin; auto.
Qed.

(** X27. [delete] of the provider, against the example server. The
    handler answers the client's [delete] command; the provider continues
    with the reply. Either [deleteFile] of the tree has returned: then the
    provider returns; [delete] does not call [_fireSoon]. Or the
    reply is the error [FileNotFound] that [deleteFile] threw: then the
    tree is as it was and the provider throws [FileNotFound] for the
    URI. *)
Theorem provider_delete (path id : string) (σ σ' : State) (reply : Message) :
  is_uuid id = true ->
  handleCommand (createCommandMessage id (options (ClientMethods.delete path))) σ
  = (Ok reply, σ') ->
  (InMemoryFileSystem.deleteFile path σ = (Ok tt, σ') /\
   WebSocketFS.delete path reply = Ok tt) \/
  (exists arg,
     InMemoryFileSystem.deleteFile path σ = (Throw (FileSystemError FileNotFound arg), σ) /\
     σ' = σ /\
     WebSocketFS.delete path reply = Throw (FileSystemError FileNotFound path)).
Proof.
  intros Hid.
  rewrite (handleCommand_accepted _ _ _ (method_accepted _ id (method_delete path) Hid)).
  intros Hrun.
  apply (void_handler (op_deleteFile path) "delete") in Hrun
    as [[Hop ->]|(code & arg & Hop & Hcode & Hin & -> & ->)];
    [| |unfold operations; rewrite !elem_of_cons; auto 12|exact Hid].
  - left. split; [exact Hop|reflexivity].
  - right. exists arg. one_of_the_codes Hcode Hin; auto.
Qed.

(** X28. [createDirectory] of the provider, against the example server.
    The handler answers the client's [createDirectory] command; the
    provider continues with the reply. Either [createDirectory] of the tree
    has returned: then the provider returns, having buffered the event
    [Changed] for the directory of the path and then [Created] for the
    URI. Or the reply is the error [FileNotFound] or [FileExists] that
    [createDirectory] threw: then the tree is as it was, and the provider
    throws that error for the URI and buffers no event. *)
Theorem provider_createDirectory (path id : string) (σ σ' : State) (reply : Message)
    (s : WebSocketFS.Events) :
  is_uuid id = true ->
  handleCommand (createCommandMessage id (options (ClientMethods.createDirectory path))) σ
  = (Ok reply, σ') ->
  (InMemoryFileSystem.createDirectory path σ = (Ok tt, σ') /\
   exists s',
     WebSocketFS.createDirectory path reply s = (Ok tt, s') /\
     WebSocketFS._bufferedEvents s' =
       WebSocketFS._bufferedEvents s ++
       [{| WebSocketFS.type := WebSocketFS.Changed; WebSocketFS.uri := Path.dirname path |};
        {| WebSocketFS.type := WebSocketFS.Created; WebSocketFS.uri := path |}]) \/
  (exists code arg,
     (code = FileNotFound \/ code = FileExists) /\
     InMemoryFileSystem.createDirectory path σ = (Throw (FileSystemError code arg), σ) /\
     σ' = σ /\
     WebSocketFS.createDirectory path reply s = (Throw (FileSystemError code path), s)).
Proof.
  intros Hid.
  rewrite (handleCommand_accepted _ _ _
             (method_accepted _ id (method_createDirectory path) Hid)).
  intros Hrun.
  apply (void_handler (op_createDirectory path) "createDirectory") in Hrun
    as [[Hop ->]|(code & arg & Hop & Hcode & Hin & -> & ->)];
    [| |unfold operations; rewrite !elem_of_cons; auto 12|exact Hid].
  - left. split; [exact Hop|]. eexists. split; reflexivity.
  - right. exists code, arg. one_of_the_codes Hcode Hin; auto.
Qed.

End Provider.


Lemma provider_writeFile_witness :
  parse_union (schema (ClientMethods.writeFile "/a.txt" true false Examples.hi))
    (received
       {| messageType := MessageType.Response;
          messageJson := object [("success", JBool true);
                                 ("commandId", JString Examples.sample_id);
                                 ("created", JBool true)];
          messageBinary := None |})
  = Some {| messageType := MessageType.Response;
            messageJson := object [("success", JBool true);
                                   ("commandId", JString Examples.sample_id);
                                   ("created", JBool true)];
            messageBinary := None |} /\
  exists created s',
    @file_content ReferenceRuntime.runtime "/a.txt" Examples.tree_a = Ok Examples.hi /\
    (created = true <->
     InMemoryFileSystem.lookup "/a.txt" Examples.empty_tree
     = (Ok None, Examples.empty_tree)) /\
    WebSocketFS.writeFile "/a.txt"
      {| messageType := MessageType.Response;
         messageJson := object [("success", JBool true);
                                ("commandId", JString Examples.sample_id);
                                ("created", JBool true)];
         messageBinary := None |} WebSocketFS.noEvents = (Ok tt, s') /\
    WebSocketFS._bufferedEvents s' =
      WebSocketFS._bufferedEvents WebSocketFS.noEvents ++
      (if created
       then [{| WebSocketFS.type := WebSocketFS.Created; WebSocketFS.uri := "/a.txt" |}]
       else []) ++
      [{| WebSocketFS.type := WebSocketFS.Changed; WebSocketFS.uri := "/a.txt" |}].
Proof.
  destruct (@provider_writeFile ReferenceRuntime.runtime "/a.txt" Examples.hi true false
              Examples.sample_id Examples.empty_tree Examples.tree_a
              {| messageType := MessageType.Response;
                 messageJson := object [("success", JBool true);
                                        ("commandId", JString Examples.sample_id);
                                        ("created", JBool true)];
                 messageBinary := None |} WebSocketFS.noEvents)
    as [Hvalidated [Hwritten|(code & _ & Hreply & _)]].
  - apply reachable_empty.
  - reflexivity.
  - vm_compute. discriminate.
  - vm_compute. reflexivity.
  - vm_compute. reflexivity.
  - split; [exact Hvalidated | exact Hwritten].
  - exfalso. destruct code; vm_compute in Hreply; discriminate.
Defined.

Lemma provider_readFile_witness :
  exists reply,
    @handleCommand ReferenceRuntime.runtime
      (createCommandMessage Examples.sample_id (options (ClientMethods.readFile "/a.txt")))
      Examples.tree_a = (Ok reply, Examples.tree_a) /\
    parse_union (schema (ClientMethods.readFile "/a.txt")) (received reply) = Some reply /\
    WebSocketFS.readFile "/a.txt" reply = Ok Examples.hi.
Proof.
  apply (@provider_readFile ReferenceRuntime.runtime "/a.txt" Examples.sample_id
           Examples.tree_a).
  vm_compute. reflexivity.
Defined.

(** [rename] to a path that exists: the error is thrown for the old URI. *)
Lemma provider_rename_witness :
  WebSocketFS.rename "/b.txt" "/a.txt"
    (errorResponse "FileExists" Examples.sample_id) WebSocketFS.noEvents
  = (Throw (FileSystemError FileExists "/b.txt"), WebSocketFS.noEvents).
Proof.
  destruct (@provider_rename ReferenceRuntime.runtime "/b.txt" "/a.txt" false
              Examples.sample_id Examples.tree_a Examples.tree_a
              (errorResponse "FileExists" Examples.sample_id) WebSocketFS.noEvents)
    as [[Hreturned _]|(code & arg & _ & Hthrown & _ & Hprovider)].
  - vm_compute. reflexivity.
  - vm_compute. reflexivity.
  - vm_compute in Hreturned. discriminate.
  - vm_compute in Hthrown. injection Hthrown as <- _. exact Hprovider.
Defined.

Lemma provider_delete_witness :
  (@InMemoryFileSystem.deleteFile ReferenceRuntime.runtime "/a.txt" Examples.tree_a
   = (Ok tt, (@InMemoryFileSystem.deleteFile ReferenceRuntime.runtime "/a.txt"
                Examples.tree_a).2) /\
   WebSocketFS.delete "/a.txt" (voidSuccess Examples.sample_id) = Ok tt) \/
  (exists arg,
     @InMemoryFileSystem.deleteFile ReferenceRuntime.runtime "/a.txt" Examples.tree_a
     = (Throw (FileSystemError FileNotFound arg), Examples.tree_a) /\
     (@InMemoryFileSystem.deleteFile ReferenceRuntime.runtime "/a.txt" Examples.tree_a).2
     = Examples.tree_a /\
     WebSocketFS.delete "/a.txt" (voidSuccess Examples.sample_id)
     = Throw (FileSystemError FileNotFound "/a.txt")).
Proof.
  apply (@provider_delete ReferenceRuntime.runtime "/a.txt" Examples.sample_id
           Examples.tree_a
           (@InMemoryFileSystem.deleteFile ReferenceRuntime.runtime "/a.txt"
              Examples.tree_a).2
           (voidSuccess Examples.sample_id)).
  - vm_compute. reflexivity.
  - vm_compute. reflexivity.
Defined.

Lemma provider_createDirectory_witness :
  (@InMemoryFileSystem.createDirectory ReferenceRuntime.runtime "/dir" Examples.tree_a
   = (Ok tt, Examples.tree_a_dir) /\
   exists s',
     WebSocketFS.createDirectory "/dir" (voidSuccess Examples.sample_id) WebSocketFS.noEvents
     = (Ok tt, s') /\
     WebSocketFS._bufferedEvents s' =
       WebSocketFS._bufferedEvents WebSocketFS.noEvents ++
       [{| WebSocketFS.type := WebSocketFS.Changed; WebSocketFS.uri := Path.dirname "/dir" |};
        {| WebSocketFS.type := WebSocketFS.Created; WebSocketFS.uri := "/dir" |}]) \/
  (exists code arg,
     (code = FileNotFound \/ code = FileExists) /\
     @InMemoryFileSystem.createDirectory ReferenceRuntime.runtime "/dir" Examples.tree_a
     = (Throw (FileSystemError code arg), Examples.tree_a) /\
     Examples.tree_a_dir = Examples.tree_a /\
     WebSocketFS.createDirectory "/dir" (voidSuccess Examples.sample_id) WebSocketFS.noEvents
     = (Throw (FileSystemError code "/dir"), WebSocketFS.noEvents)).
Proof.
  apply (@provider_createDirectory ReferenceRuntime.runtime "/dir" Examples.sample_id
           Examples.tree_a Examples.tree_a_dir (voidSuccess Examples.sample_id)
           WebSocketFS.noEvents).
  - vm_compute. reflexivity.
  - vm_compute. reflexivity.
Defined.

End ProviderExtras.

(* ===================================================================== *)
(** ** The shape of the tree, and [rename]                                *)
(* ===================================================================== *)

Module RenameClaims.
Import InMemoryFileSystem PathFacts FileSystemFacts InvariantFacts TreeExtras.

(** *** Children and names after assignments *)

Lemma child_store σ x k : child σ x k = entries_in (store σ) x ≫= (.!! k).
Proof. reflexivity. Qed.

Lemma entries_in_keeps g l s x :
  keeps_links g -> entries_in (alter g l s) x = entries_in s x.
Proof.
  intros Hg. unfold entries_in. destruct (decide (l = x)) as [->|Hne].
  - rewrite lookup_alter_eq. destruct (s !! x) as [e|]; [|reflexivity]. cbn.
    destruct (Hg e) as [_ He]. destruct (g e), e; try contradiction; congruence.
  - rewrite lookup_alter_ne by done. reflexivity.
Qed.

Lemma name_in_keeps g l (s : gmap loc Entry) x :
  (forall e, entry_name (g e) = entry_name e) ->
  entry_name <$> alter g l s !! x = entry_name <$> s !! x.
Proof.
  intros Hg. destruct (decide (l = x)) as [->|Hne].
  - rewrite lookup_alter_eq. destruct (s !! x) as [e|]; [|reflexivity]. cbn. rewrite Hg.
    reflexivity.
  - rewrite lookup_alter_ne by done. reflexivity.
Qed.

Lemma keeps_links_set_mtime t : keeps_links (set_mtime t).
Proof. intros [f|d]; cbn; auto. Qed.

Lemma keeps_links_set_size n : keeps_links (set_size n).
Proof. intros [f|d]; cbn; auto. Qed.

Lemma keeps_links_size_step (g : Z -> Z) : keeps_links (fun e => set_size (g (entry_size e)) e).
Proof. intros [f|d]; cbn; auto. Qed.

Lemma keeps_links_set_data data : keeps_links (set_data data).
Proof. intros [f|d]; cbn; auto. Qed.

Lemma keeps_links_compose g h : keeps_links g -> keeps_links h -> keeps_links (g ∘ h).
Proof.
  intros Hg Hh e. cbn. destruct (Hg (h e)) as [Hn He], (Hh e) as [Hn' He'].
  split; [congruence|].
  destruct (g (h e)), (h e), e; try contradiction; congruence.
Qed.


Lemma keeps_links_name g : keeps_links g -> forall e, entry_name (g e) = entry_name e.
Proof. intros Hg e. apply Hg. Qed.

(** *** Walks in a tree *)

Lemma keys_parts path : Forall (fun part => part <> EmptyString) (Path.parts path).
Proof.
  unfold Path.parts. apply Forall_forall. intros part Hin.
  apply list_elem_of_filter in Hin as [Hne _]. exact Hne.
Qed.

Lemma walk_snoc σ ps k n :
  k <> EmptyString ->
  walk σ (ps ++ [k]) n = walk σ ps n ≫= fun m => child σ m k.
Proof.
  intros Hk. rewrite walk_app. destruct (walk σ ps n); [|reflexivity].
  cbn [mbind option_bind]. apply walk_one, Hk.
Qed.

(** In a tree, one path leads to an object. *)
Lemma walk_unique σ ps qs n :
  tree_shaped σ ->
  Forall (fun part => part <> EmptyString) ps ->
  Forall (fun part => part <> EmptyString) qs ->
  walk σ ps root = Some n -> walk σ qs root = Some n -> ps = qs.
Proof.
  intros (Hname & Hone & Hroot). revert qs n.
  induction ps as [|p ps IH] using rev_ind; intros qs n Hps Hqs Hp Hq.
  - injection Hp as <-. destruct qs as [|q qs _] using rev_ind; [reflexivity|].
    apply Forall_app in Hqs as [_ Hk]. rewrite Forall_singleton in Hk.
    rewrite (walk_snoc _ _ _ _ Hk) in Hq.
    destruct (walk σ qs root) as [m|]; [|discriminate]. cbn in Hq.
    destruct (Hroot _ _ Hq).
  - apply Forall_app in Hps as [Hps Hk]. rewrite Forall_singleton in Hk.
    rewrite (walk_snoc _ _ _ _ Hk) in Hp.
    destruct (walk σ ps root) as [m|] eqn:Hm; [|discriminate]. cbn in Hp.
    destruct qs as [|q qs _] using rev_ind.
    + injection Hq as <-. destruct (Hroot _ _ Hp).
    + apply Forall_app in Hqs as [Hqs Hk']. rewrite Forall_singleton in Hk'.
      rewrite (walk_snoc _ _ _ _ Hk') in Hq.
      destruct (walk σ qs root) as [m'|] eqn:Hm'; [|discriminate]. cbn in Hq.
      pose proof (Hone _ _ _ _ _ Hp Hq) as <-.
      pose proof (Hname _ _ _ Hp) as Hnp. pose proof (Hname _ _ _ Hq) as Hnq.
      assert (p = q) as <- by congruence.
      f_equal. eapply IH; eauto.
Qed.

(** A walk that uses no child that has changed leads where it led. *)
Lemma walk_unchanged σ σ' ps n m :
  Forall (fun part => part <> EmptyString) ps ->
  walk σ ps n = Some m ->
  (forall qs k rest x, ps = qs ++ k :: rest -> walk σ qs n = Some x ->
     child σ' x k = child σ x k) ->
  walk σ' ps n = Some m.
Proof.
  intros Hps. revert n. induction Hps as [|p ps Hp Hps IH]; intros n Hwalk Hsame; [exact Hwalk|].
  cbn [walk] in *. rewrite bool_decide_false in * by exact Hp.
  fold (child σ n p) in Hwalk. fold (child σ' n p).
  rewrite (Hsame [] p ps n eq_refl eq_refl).
  destruct (child σ n p) as [c|] eqn:Hc; [|discriminate].
  apply IH; [exact Hwalk|].
  intros qs k rest x -> Hx. apply (Hsame (p :: qs) k rest x eq_refl).
  cbn [walk]. rewrite bool_decide_false by exact Hp. fold (child σ n p). rewrite Hc. exact Hx.
Qed.

(** *** Changes that keep the shape *)

(** Children are taken away, and names stay. *)
Lemma tree_shaped_sub σ σ' :
  tree_shaped σ ->
  (forall x k l, child σ' x k = Some l -> child σ x k = Some l) ->
  (forall l k, name_of σ l = Some k -> name_of σ' l = Some k) ->
  tree_shaped σ'.
Proof.
  intros (Hname & Hone & Hroot) Hsub Hnames. split; [|split].
  - intros d k l Hc. apply Hnames, (Hname d), Hsub, Hc.
  - intros d d' k k' l Hc Hc'. eapply Hone; eauto.
  - intros d k Hc. eapply Hroot; eauto.
Qed.

(** The object [t] gets the name [k] and becomes the child [k] of [a]; it
    is no child otherwise; other children are taken away, and other names
    stay. *)
Lemma tree_shaped_edit σ σ' a k t :
  tree_shaped σ ->
  t <> root ->
  name_of σ' t = Some k ->
  (forall x j l, child σ' x j = Some l ->
     (x = a /\ j = k /\ l = t) \/ (child σ x j = Some l /\ l <> t)) ->
  (forall l j, l <> t -> name_of σ l = Some j -> name_of σ' l = Some j) ->
  tree_shaped σ'.
Proof.
  intros (Hname & Hone & Hroot) Ht Hk Hedges Hnames. split; [|split].
  - intros d j l Hc. destruct (Hedges _ _ _ Hc) as [(-> & -> & ->)|[Hc' Hne]]; [exact Hk|].
    apply Hnames; [exact Hne|]. eapply Hname, Hc'.
  - intros d d' j j' l Hc Hc'.
    destruct (Hedges _ _ _ Hc) as [(-> & -> & ->)|[Hd Hne]],
             (Hedges _ _ _ Hc') as [(-> & -> & Hl)|[Hd' Hne']]; try congruence.
    eapply Hone; eauto.
  - intros d j Hc. destruct (Hedges _ _ _ Hc) as [(-> & -> & Hl)|[Hc' _]]; [congruence|].
    eapply Hroot, Hc'.
Qed.


Lemma child_allocated σ x k l :
  well_formed σ -> child σ x k = Some l -> l ∈ dom (store σ).
Proof.
  intros [_ Hs]. rewrite child_lookup.
  destruct (store σ !! x) as [[f|d]|] eqn:Hx; try discriminate.
  destruct (Hs x _ Hx) as [_ Hl]. apply Hl.
Qed.

Lemma entries_in_insert (s : gmap loc Entry) n e x :
  s !! n = None ->
  entries_in (<[n := e]> s) x =
    if decide (n = x) then match e with Directory d => Some (dir_entries d) | File _ => None end
    else entries_in s x.
Proof.
  intros Hn. unfold entries_in. destruct (decide (n = x)) as [->|Hne].
  - rewrite lookup_insert_eq. destruct e; reflexivity.
  - rewrite lookup_insert_ne by done. reflexivity.
Qed.

(** A new object without children becomes the child [b] of [parent]. *)
Lemma tree_shaped_new σ σ' parent b e :
  well_formed σ ->
  store σ !! next σ = None ->
  tree_shaped σ ->
  entry_name e = b ->
  match e with Directory d => dir_entries d = ∅ | File _ => True end ->
  (forall x, entries_in (store σ') x =
     (if decide (parent = x) then <[b := next σ]> else id)
       <$> entries_in (<[next σ := e]> (store σ)) x) ->
  (forall l, entry_name <$> store σ' !! l = entry_name <$> <[next σ := e]> (store σ) !! l) ->
  tree_shaped σ'.
Proof.
  intros Hwf Hfresh Hshape Hname Hempty Hentries Hnames.
  assert (Hold : forall x j l, child σ x j = Some l -> l <> next σ).
  { intros x j l Hc ->. apply (child_allocated _ _ _ _ Hwf), elem_of_dom in Hc as [? Hc].
    congruence. }
  apply (tree_shaped_edit σ σ' parent b (next σ)); [exact Hshape| | | |].
  - destruct Hwf as [[d Hd] _]. congruence.
  - unfold name_of. rewrite Hnames, lookup_insert_eq. cbn. congruence.
  - intros x j l. rewrite child_store, Hentries, (entries_in_insert _ _ _ _ Hfresh).
    destruct (decide (next σ = x)) as [<-|Hnx].
    + destruct e as [f|d]; [destruct (decide (parent = next σ)); discriminate|].
      rewrite Hempty. destruct (decide (parent = next σ)); cbn.
      * destruct (decide (b = j)) as [->|Hbj].
        -- rewrite lookup_insert_eq. intros [= <-]. auto.
        -- rewrite lookup_insert_ne, lookup_empty by done. discriminate.
      * rewrite lookup_empty. discriminate.
    + destruct (decide (parent = x)) as [->|Hpx].
      * destruct (entries_in (store σ) x) as [es|] eqn:Hes; [|cbn; discriminate]. cbn.
        destruct (decide (b = j)) as [->|Hbj].
        -- rewrite lookup_insert_eq. intros [= <-]. auto.
        -- rewrite lookup_insert_ne by done. intros Hl. right.
           assert (Hc : child σ x j = Some l) by (rewrite child_store, Hes; exact Hl).
           split; [exact Hc | eapply Hold, Hc].
      * destruct (entries_in (store σ) x) as [es|] eqn:Hes; [|cbn; discriminate]. cbn. intros Hl. right.
        assert (Hc : child σ x j = Some l) by (rewrite child_store, Hes; exact Hl).
        split; [exact Hc | eapply Hold, Hc].
  - intros l j Hne. unfold name_of. rewrite Hnames, lookup_insert_ne by done. auto.
Qed.

Section Shape.
Context `{Runtime}.

Lemma createInMemoryFileSystem_tree_shaped : tree_shaped createInMemoryFileSystem.
Proof.
  assert (Hnone : forall d k, child createInMemoryFileSystem d k = None).
  { intros d k. rewrite child_lookup. unfold createInMemoryFileSystem.
    rewrite new_InMemoryDirectory_run. cbn [snd store].
    destruct (decide (d = 0%nat)) as [->|Hne].
    - rewrite lookup_insert_eq. apply lookup_empty.
    - rewrite lookup_insert_ne, lookup_empty by done. reflexivity. }
  split; [|split]; intros *; rewrite ?Hnone; discriminate.
Qed.

Ltac links_kept :=
  repeat match goal with
         | |- keeps_links (_ ∘ _) => apply keeps_links_compose
         | |- keeps_links (set_mtime _) => apply keeps_links_set_mtime
         | |- keeps_links (set_size _) => apply keeps_links_set_size
         | |- keeps_links (set_data _) => apply keeps_links_set_data
         | |- keeps_links (fun e => set_size (entry_size e + 1) e) =>
             apply (keeps_links_size_step (fun n => n + 1))
         | |- keeps_links (fun e => set_size (entry_size e - 1) e) =>
             apply (keeps_links_size_step (fun n => n - 1))
         end.

Ltac names_kept := first [apply entry_name_with_entries | apply keeps_links_name; links_kept].

Lemma writeFile_tree_shaped urlPath content create overwrite σ :
  reachable σ -> tree_shaped σ ->
  tree_shaped (writeFile urlPath content create overwrite σ).2.
Proof.
  intros Hr Hshape.
  destruct (writeFile urlPath content create overwrite σ) as [[created|e] σ'] eqn:Hw.
  2:{ assert (Hrun : run (op_writeFile urlPath content create overwrite) σ = (Throw e, σ')).
      { unfold run. rewrite bind_run, Hw. reflexivity. }
      apply atomic_run in Hrun as ->. exact Hshape. }
  cbn [snd]. destruct (writeFile_Ok _ _ _ _ _ _ _ Hw) as (parent & d & Hl & Hd & Hcases).
  destruct (dir_entries d !! Path.basename urlPath) as [entry|].
  - destruct Hcases as (_ & _ & ->).
    apply (tree_shaped_sub σ); [exact Hshape| |].
    + intros x k l. rewrite !child_store. cbn [store].
      rewrite entries_in_keeps by links_kept. auto.
    + intros l k. unfold name_of. cbn [store].
      rewrite name_in_keeps by names_kept. auto.
  - destruct Hcases as (_ & ->).
    eapply (tree_shaped_new σ _ parent);
      [apply reachable_well_formed, Hr | apply reachable_next_is_fresh, Hr | exact Hshape
      | | | |]; cycle 2.
    + intros x. cbn [store]. rewrite entries_in_keeps by links_kept.
      apply entries_in_with_entries.
    + intros l. cbn [store].
      rewrite !name_in_keeps by names_kept. reflexivity.
    + reflexivity.
    + exact I.
Qed.


Lemma createDirectory_tree_shaped urlPath σ :
  reachable σ -> tree_shaped σ -> tree_shaped (createDirectory urlPath σ).2.
Proof.
  intros Hr Hshape.
  destruct (lookupDirectory (Path.dirname urlPath) false σ) as [[parent|e] σ0] eqn:Hl.
  - destruct (lookupDirectory_Ok _ _ _ _ _ Hl) as [-> _].
    rewrite (createDirectory_run _ _ _ Hl). cbn [snd].
    eapply (tree_shaped_new σ _ parent);
      [apply reachable_well_formed, Hr | apply reachable_next_is_fresh, Hr | exact Hshape
      | | | |]; cycle 2.
    + intros x. cbn [store]. rewrite !entries_in_keeps by links_kept.
      apply entries_in_with_entries.
    + intros l. cbn [store].
      rewrite !name_in_keeps by names_kept. reflexivity.
    + reflexivity.
    + reflexivity.
  - destruct (createDirectory urlPath σ) as [[[]|e'] σ'] eqn:Hrun.
    + unfold createDirectory in Hrun. rewrite bind_run, Hl in Hrun. discriminate.
    + apply createDirectory_Throw in Hrun as [-> _]. exact Hshape.
Qed.

Lemma deleteFile_tree_shaped urlPath σ :
  tree_shaped σ -> tree_shaped (deleteFile urlPath σ).2.
Proof.
  intros Hshape.
  destruct (lookupDirectory (Path.dirname urlPath) false σ) as [[parent|e] σ0] eqn:Hl.
  - destruct (lookupDirectory_Ok _ _ _ _ _ Hl) as [-> [d Hd]].
    rewrite (deleteFile_run _ _ _ _ Hl Hd).
    destruct (dir_entries d !! Path.basename urlPath) as [held|]; [|exact Hshape]. cbn [snd].
    apply (tree_shaped_sub σ); [exact Hshape| |].
    + intros x k l. rewrite !child_store. cbn [store].
      rewrite <- !alter_alter_eq, !entries_in_keeps by links_kept.
      rewrite entries_in_with_entries.
      destruct (entries_in (store σ) x) as [es|]; [|discriminate].
      destruct (decide (parent = x)); cbn; [|auto].
      intros Hk. apply lookup_delete_Some in Hk as [_ Hk]. exact Hk.
    + intros l k. unfold name_of. cbn [store].
      rewrite <- !alter_alter_eq.
      rewrite !name_in_keeps by names_kept. auto.
  - destruct (deleteFile urlPath σ) as [[[]|e'] σ'] eqn:Hrun.
    + unfold deleteFile in Hrun. rewrite bind_run, Hl in Hrun. discriminate.
    + apply (atomic_run (op_deleteFile urlPath)) in Hrun as ->. exact Hshape.
Qed.

(** *** [rename] *)

(** What a call of [rename] that returns has done. *)
Lemma rename_Ok oldPath newPath overwrite σ σ' :
  rename oldPath newPath overwrite σ = (Ok tt, σ') ->
  exists e oldParent newParent,
    walk σ (Path.parts oldPath) root = Some e /\
    lookupParentDirectory oldPath σ = (Ok oldParent, σ) /\
    lookupParentDirectory newPath σ = (Ok newParent, σ) /\
    σ' = {| store :=
              alter (with_entries <[Path.basename newPath := e]>) newParent
                (alter (set_name (Path.basename newPath)) e
                   (alter (with_entries
                             (delete (from_option entry_name EmptyString (store σ !! e))))
                      oldParent (store σ)));
            next := next σ; clock := clock σ |}.
Proof.
  rewrite rename_checks.
  destruct (negb overwrite && _); [discriminate|].
  unfold Path.parts. rewrite <- walk_parts.
  destruct (walk σ (Path.split oldPath) root) as [e|]; [|discriminate].
  rewrite bind_run.
  destruct (lookupParentDirectory oldPath σ) as [[oldParent|e0] σ0] eqn:Hold; [|discriminate].
  destruct (lookupDirectory_Ok _ _ _ _ _ Hold) as [-> _].
  rewrite bind_run.
  destruct (lookupParentDirectory newPath σ) as [[newParent|e0] σ0] eqn:Hnew; [|discriminate].
  destruct (lookupDirectory_Ok _ _ _ _ _ Hnew) as [-> _].
  intros [= <-]. exists e, oldParent, newParent. auto.
Qed.

(** The parent of an absolute path with a last component that names an
    object. *)
Lemma parent_of urlPath σ e :
  proper urlPath ->
  walk σ (Path.parts urlPath) root = Some e ->
  exists parent,
    lookupParentDirectory urlPath σ = (Ok parent, σ) /\
    walk σ (Path.parts (Path.dirname urlPath)) root = Some parent /\
    child σ parent (Path.basename urlPath) = Some e.
Proof.
  intros [Habs Hbase]. rewrite (walk_path _ _ Habs Hbase).
  destruct (walk σ (Path.parts (Path.dirname urlPath)) root) as [parent|] eqn:Hwalk;
    [|discriminate].
  cbn [mbind option_bind]. intros Hc. exists parent. split; [|auto].
  unfold lookupParentDirectory. rewrite lookupDirectory_run, walk_parts.
  fold (Path.parts (Path.dirname urlPath)). rewrite Hwalk.
  unfold is_directory. rewrite child_lookup in Hc.
  destruct (store σ !! parent) as [[f|d]|]; try discriminate. reflexivity.
Qed.

Lemma name_after_rename (s : gmap loc Entry) A B n e oldParent newParent l :
  entry_name <$>
    alter (with_entries A) newParent
      (alter (set_name n) e (alter (with_entries B) oldParent s)) !! l
  = if decide (e = l) then (fun _ => n) <$> s !! l else entry_name <$> s !! l.
Proof.
  rewrite name_in_keeps by apply entry_name_with_entries.
  destruct (decide (e = l)) as [->|Hne].
  - rewrite lookup_alter_eq.
    destruct (decide (oldParent = l)) as [->|Hne'].
    + rewrite lookup_alter_eq. destruct (s !! l); cbn; [|reflexivity].
      rewrite entry_name_set_name. reflexivity.
    + rewrite lookup_alter_ne by done. destruct (s !! l); cbn; [|reflexivity].
      rewrite entry_name_set_name. reflexivity.
  - rewrite lookup_alter_ne by done. apply name_in_keeps, entry_name_with_entries.
Qed.

(** The children after [rename] in a tree. *)
Lemma children_after_rename oldPath newPath σ σ' e oldParent newParent :
  tree_shaped σ ->
  child σ oldParent (Path.basename oldPath) = Some e ->
  lookupParentDirectory newPath σ = (Ok newParent, σ) ->
  σ' = {| store :=
            alter (with_entries <[Path.basename newPath := e]>) newParent
              (alter (set_name (Path.basename newPath)) e
                 (alter (with_entries
                           (delete (from_option entry_name EmptyString (store σ !! e))))
                    oldParent (store σ)));
          next := next σ; clock := clock σ |} ->
  e <> root /\
  child σ' newParent (Path.basename newPath) = Some e /\
  name_of σ' e = Some (Path.basename newPath) /\
  (forall l, l <> e -> name_of σ' l = name_of σ l) /\
  (forall x j l, child σ' x j = Some l ->
     (x = newParent /\ j = Path.basename newPath /\ l = e) \/
     (child σ x j = Some l /\ l <> e)) /\
  (forall x j, (x, j) <> (newParent, Path.basename newPath) ->
               (x, j) <> (oldParent, Path.basename oldPath) ->
               child σ' x j = child σ x j) /\
  ((oldParent, Path.basename oldPath) <> (newParent, Path.basename newPath) ->
   child σ' oldParent (Path.basename oldPath) = None).
Proof.
  intros (Hname & Hone & Hroot) Hc Hnew ->.
  destruct (lookupDirectory_Ok _ _ _ _ _ Hnew) as [_ [dnew Hdnew]].
  pose proof (Hname _ _ _ Hc) as Hn. unfold name_of in Hn.
  destruct (store σ !! e) as [entry|] eqn:He; [|discriminate].
  injection Hn as Hn. cbn [from_option]. rewrite Hn.
  set (oldName := Path.basename oldPath) in *. set (newName := Path.basename newPath) in *.
  assert (Hentries : forall x,
    entries_in
      (alter (with_entries <[newName := e]>) newParent
         (alter (set_name newName) e
            (alter (with_entries (delete oldName)) oldParent (store σ)))) x
    = (if decide (newParent = x) then <[newName := e]> else id)
        <$> ((if decide (oldParent = x) then delete oldName else id)
               <$> entries_in (store σ) x)).
  { intros x. rewrite entries_in_with_entries, entries_in_set_name, entries_in_with_entries.
    reflexivity. }
  assert (Hin : forall x j, child σ x j = Some e -> x = oldParent /\ j = oldName).
  { intros x j Hx. split; [eapply Hone; eauto|].
    pose proof (Hname _ _ _ Hx) as Hj. unfold name_of in Hj. rewrite He in Hj.
    cbn in Hj. congruence. }
  split; [intros ->; eapply Hroot, Hc|].
  split.
  { rewrite child_store. cbn [store]. rewrite Hentries.
    unfold entries_in at 1. rewrite Hdnew. rewrite decide_True by reflexivity.
    destruct (decide (oldParent = newParent)); cbn; apply lookup_insert_eq. }
  split.
  { unfold name_of. cbn [store]. rewrite name_after_rename, decide_True, He by reflexivity.
    reflexivity. }
  split.
  { intros l Hne. unfold name_of. cbn [store].
    rewrite name_after_rename, decide_False by congruence. reflexivity. }
  split.
  { intros x j l. rewrite !child_store. cbn [store]. rewrite Hentries.
    destruct (entries_in (store σ) x) as [es|] eqn:Hes; [|cbn; discriminate]. cbn.
    assert (Hchild : forall j l, es !! j = Some l -> child σ x j = Some l).
    { intros j' l' Hl. rewrite child_store, Hes. exact Hl. }
    destruct (decide (newParent = x)) as [->|Hnx], (decide (oldParent = x)) as [->|Hox]; cbn.
    + destruct (decide (newName = j)) as [<-|Hj].
      * rewrite lookup_insert_eq. intros [= <-]. auto.
      * rewrite lookup_insert_ne by done. intros [Hoj Hl]%lookup_delete_Some. right.
        split; [exact Hl|]. intros ->. apply Hoj. symmetry. eapply Hin, Hchild, Hl.
    + destruct (decide (newName = j)) as [<-|Hj].
      * rewrite lookup_insert_eq. intros [= <-]. auto.
      * rewrite lookup_insert_ne by done. intros Hl. right.
        split; [exact Hl|]. intros ->. apply Hox. symmetry. eapply Hin, Hchild, Hl.
    + intros [Hoj Hl]%lookup_delete_Some. right.
      split; [exact Hl|]. intros ->. apply Hoj. symmetry. eapply Hin, Hchild, Hl.
    + intros Hl. right.
      split; [exact Hl|]. intros ->. apply Hox. symmetry. eapply Hin, Hchild, Hl. }
  split.
  - intros x j Hnew' Hold'. rewrite !child_store. cbn [store]. rewrite Hentries.
    destruct (entries_in (store σ) x) as [es|]; [|reflexivity]. cbn.
    destruct (decide (newParent = x)) as [->|Hnx], (decide (oldParent = x)) as [->|Hox]; cbn.
    + rewrite lookup_insert_ne by congruence. apply lookup_delete_ne. congruence.
    + apply lookup_insert_ne. congruence.
    + apply lookup_delete_ne. congruence.
    + reflexivity.
  - intros Hdiff. rewrite child_store. cbn [store]. rewrite Hentries.
    rewrite (decide_True (P := oldParent = oldParent)) by reflexivity.
    destruct (entries_in (store σ) oldParent) as [es|]; [|reflexivity]. cbn.
    destruct (decide (newParent = oldParent)) as [->|Hne]; cbn.
    + rewrite lookup_insert_ne by congruence. apply lookup_delete_eq.
    + apply lookup_delete_eq.
Qed.


Lemma rename_tree_shaped oldPath newPath overwrite σ :
  proper oldPath -> tree_shaped σ -> tree_shaped (rename oldPath newPath overwrite σ).2.
Proof.
  intros Hold Hshape.
  destruct (rename oldPath newPath overwrite σ) as [[[]|err] σ'] eqn:Hrun.
  2:{ apply (atomic_run (op_rename oldPath newPath overwrite)) in Hrun as ->. exact Hshape. }
  cbn [snd].
  destruct (rename_Ok _ _ _ _ _ Hrun) as (e & oldParent & newParent & He & Hp & Hnew & Hσ').
  destruct (parent_of _ _ _ Hold He) as (oldParent' & Hp' & _ & Hc).
  assert (oldParent' = oldParent) as -> by congruence.
  destruct (children_after_rename _ _ _ _ _ _ _ Hshape Hc Hnew Hσ')
    as (Hroot & _ & Hname & Hnames & Hedges & _ & _).
  apply (tree_shaped_edit σ σ' newParent (Path.basename newPath) e); auto.
  intros l j Hne. rewrite (Hnames l Hne). auto.
Qed.

Lemma reachable_proper_reachable σ : reachable_proper σ -> reachable σ.
Proof. induction 1; [apply reachable_empty | apply reachable_step; assumption]. Qed.

(** The states that operations on absolute paths produce are trees. *)
Lemma reachable_proper_tree_shaped σ : reachable_proper σ -> tree_shaped σ.
Proof.
  induction 1 as [|σ op Hr IH Hop]; [apply createInMemoryFileSystem_tree_shaped|].
  pose proof (reachable_proper_reachable _ Hr) as Hreach.
  destruct op; unfold run; try rewrite bind_run.
  - unfold lookup. rewrite _lookup_run.
    destruct (walk σ _ root); exact IH.
  - rewrite lookupFile_run. destruct (walk σ _ root) as [l|]; [|exact IH].
    destruct (is_file σ l); exact IH.
  - rewrite lookupDirectory_run. destruct (walk σ _ root) as [l|].
    + destruct (is_directory σ l); exact IH.
    + destruct silent; exact IH.
  - unfold lookupParentDirectory. rewrite lookupDirectory_run.
    destruct (walk σ _ root) as [l|]; [|exact IH].
    destruct (is_directory σ l); exact IH.
  - apply rename_tree_shaped; [apply Hop | exact IH].
  - pose proof (writeFile_tree_shaped urlPath content create overwrite σ Hreach IH) as Hw.
    destruct (writeFile urlPath content create overwrite σ) as [[created|e] σ']; exact Hw.
  - apply deleteFile_tree_shaped, IH.
  - apply createDirectory_tree_shaped; assumption.
Qed.


(** The walk to the new parent after [rename], when the new path is not
    below the old one. *)
Lemma new_parent_after_rename oldPath newPath σ σ' e oldParent newParent :
  tree_shaped σ ->
  proper oldPath -> proper newPath ->
  walk σ (Path.parts oldPath) root = Some e ->
  child σ oldParent (Path.basename oldPath) = Some e ->
  walk σ (Path.parts (Path.dirname newPath)) root = Some newParent ->
  (Path.parts oldPath `prefix_of` Path.parts newPath ->
   Path.parts oldPath = Path.parts newPath) ->
  (forall x j, (x, j) <> (newParent, Path.basename newPath) ->
               (x, j) <> (oldParent, Path.basename oldPath) ->
               child σ' x j = child σ x j) ->
  walk σ' (Path.parts (Path.dirname newPath)) root = Some newParent.
Proof.
  intros Hshape [Hoabs Hobase] [Hnabs Hnbase] He Hc Hwalk Hbelow Hsame.
  pose proof (parts_dirname_basename _ Hnabs Hnbase) as Hparts.
  pose proof (keys_parts (Path.dirname newPath)) as Hkeys.
  apply (walk_unchanged σ); [exact Hkeys | exact Hwalk|].
  intros qs k rest x Hsplit Hx.
  rewrite Hsplit in Hkeys. apply Forall_app in Hkeys as [Hqs Hrest].
  apply Forall_cons in Hrest as [Hk _].
  apply Hsame.
  - intros [= -> ->].
    assert (Heq : qs = Path.parts (Path.dirname newPath)).
    { apply (walk_unique σ _ _ newParent Hshape); auto. apply keys_parts. }
    rewrite Hsplit in Heq. apply (f_equal length) in Heq.
    rewrite length_app in Heq. cbn in Heq. lia.
  - intros [= -> ->].
    assert (Heq : Path.parts oldPath = qs ++ [Path.basename oldPath]).
    { apply (walk_unique σ _ _ e Hshape); [apply keys_parts| |exact He|].
      - apply Forall_app. split; [exact Hqs|]. apply Forall_singleton, Hobase.
      - rewrite (walk_snoc _ _ _ _ Hobase), Hx. exact Hc. }
    assert (Hprefix : Path.parts oldPath `prefix_of` Path.parts newPath).
    { exists (rest ++ [Path.basename newPath]).
      rewrite Hparts, Hsplit, Heq, <- !app_assoc. reflexivity. }
    apply Hbelow in Hprefix. rewrite Hparts, Hsplit, Heq in Hprefix.
    apply (f_equal length) in Hprefix. rewrite !length_app in Hprefix. cbn in Hprefix. lia.
Qed.

(** C6 (as amended). In a tree, let the absolute path [oldPath] name the
    entry [e], let the parent directory of the absolute path [newPath]
    exist, both paths with a last component, and let [newPath] not lead
    below [oldPath]. [rename] throws [FileExists] when [overwrite] is false
    and [newPath] names an entry. Otherwise it succeeds, and afterwards [e]
    carries the basename of [newPath] as its name and is the new parent's
    entry for that name; it is an entry of no other directory and under no
    other name, so that the old parent has no entry for the old name unless
    the new parent and name are the old ones; [newPath] names [e], and so
    does no path that leads elsewhere: [e] is in one place, never in
    neither or both; and the state is a tree again. *)
Theorem rename_postcondition (oldPath newPath : string) (overwrite : bool) (σ : State)
    (e newParent : loc) :
  tree_shaped σ ->
  proper oldPath ->
  proper newPath ->
  lookup oldPath σ = (Ok (Some e), σ) ->
  lookupParentDirectory newPath σ = (Ok newParent, σ) ->
  (Path.parts oldPath `prefix_of` Path.parts newPath ->
   Path.parts oldPath = Path.parts newPath) ->
  let newName := Path.basename newPath in
  (forall existing, overwrite = false -> lookup newPath σ = (Ok (Some existing), σ) ->
     rename oldPath newPath overwrite σ = (Throw (FileSystemError FileExists newPath), σ)) /\
  (overwrite = true \/ lookup newPath σ = (Ok None, σ) ->
     exists σ',
       rename oldPath newPath overwrite σ = (Ok tt, σ') /\
       name_of σ' e = Some newName /\
       child σ' newParent newName = Some e /\
       (forall d k, child σ' d k = Some e -> d = newParent /\ k = newName) /\
       (forall oldParent,
          lookupParentDirectory oldPath σ = (Ok oldParent, σ) ->
          ~ (oldParent = newParent /\ Path.basename oldPath = newName) ->
          child σ' oldParent (Path.basename oldPath) = None) /\
       lookup newPath σ' = (Ok (Some e), σ') /\
       (forall path, lookup path σ' = (Ok (Some e), σ') ->
          Path.parts path = Path.parts newPath) /\
       tree_shaped σ').
Proof.
  intros Hshape Hold Hnew He Hparent Hbelow newName.
  pose proof He as Hstrict. unfold lookup in Hstrict.
  apply lookup_Ok in Hstrict as [_ Hsplit].
  assert (Hwalk : walk σ (Path.parts oldPath) root = Some e).
  { unfold Path.parts. rewrite <- walk_parts. exact Hsplit. }
  destruct (parent_of _ _ _ Hold Hwalk) as (oldParent & Hp & _ & Hc).
  split.
  - intros existing -> Hex. unfold rename. cbn [negb]. unfold lookup in Hex.
    rewrite bind_run, Hex. reflexivity.
  - intros Hgo.
    assert (Hrun : exists σ',
      rename oldPath newPath overwrite σ = (Ok tt, σ') /\
      σ' = {| store :=
                alter (with_entries <[newName := e]>) newParent
                  (alter (set_name newName) e
                     (alter (with_entries
                               (delete (from_option entry_name EmptyString (store σ !! e))))
                        oldParent (store σ)));
              next := next σ; clock := clock σ |}).
    { eexists. split; [|reflexivity]. rewrite rename_checks.
      replace (negb overwrite && bool_decide (is_Some (walk σ (Path.split newPath) root)))
        with false.
      2:{ destruct Hgo as [->|Hnone]; [reflexivity|].
          rewrite (lookup_walk _ _ _ Hnone), bool_decide_false by (intros [? [=]]).
          symmetry. apply andb_false_r. }
      rewrite Hsplit, bind_run, Hp, bind_run, Hparent. reflexivity. }
    destruct Hrun as (σ' & Hrun & Hσ'). exists σ'. split; [exact Hrun|].
    destruct (children_after_rename _ _ _ _ _ _ _ Hshape Hc Hparent Hσ')
      as (Hroot & Hchild & Hname & Hnames & Hedges & Hsame & Hgone).
    assert (Hshape' : tree_shaped σ').
    { apply (tree_shaped_edit σ σ' newParent newName e); auto.
      intros l j Hne. rewrite (Hnames l Hne). auto. }
    assert (Hfound : walk σ' (Path.parts newPath) root = Some e).
    { assert (Hnp : walk σ' (Path.parts (Path.dirname newPath)) root = Some newParent).
      { apply (new_parent_after_rename oldPath newPath σ σ' e oldParent newParent); auto.
        unfold lookupParentDirectory in Hparent. eapply lookupDirectory_walk, Hparent. }
      destruct Hnew as [Hnabs Hnbase].
      rewrite (walk_path _ _ Hnabs Hnbase), Hnp. exact Hchild. }
    split; [exact Hname|]. split; [exact Hchild|]. split.
    { intros d k Hd. destruct (Hedges _ _ _ Hd) as [(-> & -> & _)|[_ Hne]]; [auto|].
      destruct Hne. reflexivity. }
    split.
    { intros oldParent' Hp' Hdiff. assert (oldParent' = oldParent) as -> by congruence.
      apply Hgone. intros [= -> Hb]. apply Hdiff. auto. }
    split; [rewrite lookup_parts, Hfound; reflexivity|]. split; [|exact Hshape'].
    intros path Hpath. rewrite lookup_parts in Hpath. injection Hpath as Hpath.
    apply (walk_unique σ' _ _ e Hshape'); auto using keys_parts.
Qed.

End Shape.

(** The scenario of the move of [/a.txt] into the empty directory [/dir]:
    the tree was made by operations on absolute paths. *)
Lemma rename_postcondition_witness :
  exists σ',
    rename "/a.txt" "/dir/a.txt" false Examples.tree_a_dir = (Ok tt, σ') /\
    name_of σ' 1%nat = Some "a.txt" /\
    child σ' 2%nat "a.txt" = Some 1%nat /\
    (forall d k, child σ' d k = Some 1%nat -> d = 2%nat /\ k = "a.txt") /\
    (forall oldParent,
       lookupParentDirectory "/a.txt" Examples.tree_a_dir = (Ok oldParent, Examples.tree_a_dir) ->
       ~ (oldParent = 2%nat /\ "a.txt" = "a.txt") ->
       child σ' oldParent "a.txt" = None) /\
    lookup "/dir/a.txt" σ' = (Ok (Some 1%nat), σ') /\
    (forall path, lookup path σ' = (Ok (Some 1%nat), σ') ->
       Path.parts path = Path.parts "/dir/a.txt") /\
    tree_shaped σ'.
Proof.
  refine (proj2 (rename_postcondition "/a.txt" "/dir/a.txt" false Examples.tree_a_dir
                   1%nat 2%nat _ _ _ _ _ _) _).
  - apply (@reachable_proper_tree_shaped ReferenceRuntime.runtime).
    change Examples.tree_a_dir
      with (@run ReferenceRuntime.runtime (op_createDirectory "/dir") Examples.tree_a).2.
    apply reachable_proper_step; [|split; [reflexivity | vm_compute; discriminate]].
    replace Examples.tree_a
      with (@run ReferenceRuntime.runtime (op_writeFile "/a.txt" Examples.hi true false)
              (@createInMemoryFileSystem ReferenceRuntime.runtime)).2
      by (vm_compute; reflexivity).
    apply reachable_proper_step; [apply reachable_proper_empty|].
    split; [reflexivity | vm_compute; discriminate].
  - split; [reflexivity | vm_compute; discriminate].
  - split; [reflexivity | vm_compute; discriminate].
  - vm_compute. reflexivity.
  - vm_compute. reflexivity.
  - intros [rest Hrest]. vm_compute in Hrest. discriminate.
  - right. vm_compute. reflexivity.
Defined.

(** C6 as stated fails in two ways. A directory moved below itself:
    [rename("/d", "/d/e")] succeeds on the tree that holds the directory
    [/d], whose parent and the parent of [/d/e] exist, and afterwards
    neither [/d] nor [/d/e] names the directory; it is its own entry [e]
    and no entry of the root. An entry moved onto itself: with [overwrite],
    [rename("/a.txt", "/a.txt")] succeeds, and afterwards the entry is
    still an entry of its old parent. *)
Lemma rename_locations_counterexample :
  (lookup "/d" (@createDirectory ReferenceRuntime.runtime "/d" Examples.empty_tree).2).1
    = Ok (Some 1%nat) /\
  (lookupParentDirectory "/d"
     (@createDirectory ReferenceRuntime.runtime "/d" Examples.empty_tree).2).1 = Ok root /\
  (lookupParentDirectory "/d/e"
     (@createDirectory ReferenceRuntime.runtime "/d" Examples.empty_tree).2).1 = Ok 1%nat /\
  (lookup "/d/e" (@createDirectory ReferenceRuntime.runtime "/d" Examples.empty_tree).2).1
    = Ok None /\
  (rename "/d" "/d/e" false
     (@createDirectory ReferenceRuntime.runtime "/d" Examples.empty_tree).2).1 = Ok tt /\
  (lookup "/d"
     (rename "/d" "/d/e" false
        (@createDirectory ReferenceRuntime.runtime "/d" Examples.empty_tree).2).2).1
    = Ok None /\
  (lookup "/d/e"
     (rename "/d" "/d/e" false
        (@createDirectory ReferenceRuntime.runtime "/d" Examples.empty_tree).2).2).1
    = Ok None /\
  child (rename "/d" "/d/e" false
           (@createDirectory ReferenceRuntime.runtime "/d" Examples.empty_tree).2).2
    1%nat "e" = Some 1%nat /\
  lookup "/a.txt" Examples.tree_a = (Ok (Some 1%nat), Examples.tree_a) /\
  lookupParentDirectory "/a.txt" Examples.tree_a = (Ok root, Examples.tree_a) /\
  (rename "/a.txt" "/a.txt" true Examples.tree_a).1 = Ok tt /\
  child (rename "/a.txt" "/a.txt" true Examples.tree_a).2 root "a.txt" = Some 1%nat.
Proof. vm_compute. repeat split. Qed.

(** The scenario of the move into [/dir], as the server reports it:
    afterwards [readDirectory("/dir")] lists [a.txt] as a file and nothing
    else, and [readDirectory("/")] lists [dir] and nothing else. *)
Lemma rename_scenario :
  let run := rename "/a.txt" "/dir/a.txt" false Examples.tree_a_dir in
  let listing path :=
    (fun m => ExampleServer.field (messageJson m) "result") <$>
    (ExampleServer.readDirectory
       (ExampleServer.object [("commandId", JString Examples.sample_id); ("path", JString path)])
       run.2).1 in
  run.1 = Ok tt /\
  listing "/dir" = Ok (Some (JArray [JArray [JString "a.txt"; JNumber FileType.File]])) /\
  listing "/" = Ok (Some (JArray [JArray [JString "dir"; JNumber FileType.Directory]])).
Proof. vm_compute. repeat split. Qed.

(** Outside the trees: with a relative old path whose directory name
    ["."] names a directory, [rename] takes nothing away from the root; the
    entry stays an entry of the root under its old key and becomes one
    under the new key as well. *)
Lemma rename_relative_path :
  let σ := (@createDirectory ReferenceRuntime.runtime "/." Examples.tree_a).2 in
  let run := rename "a.txt" "/b.txt" false σ in
  run.1 = Ok tt /\
  child run.2 root "a.txt" = Some 1%nat /\
  child run.2 root "b.txt" = Some 1%nat.
Proof. vm_compute. repeat split. Qed.

End RenameClaims.
